(** * 3D Rocket Engine Simulator: visualization core

    A shallow embedding of the JavaScript front end (engine_mesh.js,
    color_scales.js, utils.js, heat_map.js, stress_overlay.js, flow_viz.js,
    cooling_viz.js, flame_particles.js, internal_flow.js, ws_client.js and
    the overlay controller of main.js) together with the properties of the specification
    that concern them.

    Number models.  JavaScript numbers are IEEE doubles.  Idealised models
    are used, each where the code needs it:
    - geometry and plume physics (cos, sin, sqrt, asin, log, ceil) are over
      the real numbers [R];
    - colour ramps, where a division by zero and NaN matter, are over
      [jsnum]: exact rationals extended with the two infinities and NaN;
    - particle lifetimes and texture samples are over exact rationals [Q];
    - the reconnect delay of the WebSocket client is an integer [Z].
    Rounding (to double, and to float32 in typed arrays) is modelled where a
    test or a conversion to an integer decides what is stored: in the plume
    particles, the coolant texture bytes and [coolantTempToHex], the
    rounding functions are parameters (see [rounding]).  Elsewhere the
    arithmetic is exact, and a statement is made only where rounding changes
    the values by rounding error and nothing else. *)

From Stdlib Require Import Reals Lqa Lra ZArith QArith Qminmax Qround Qabs Lia List Bool.
From stdpp Require Import base option list gmap strings.
Import ListNotations.

(** ** JavaScript results and array reads *)

Inductive js_error : Type := TypeError.

Inductive result (A : Type) : Type :=
| Ok (a : A)
| Throw (e : js_error).
Arguments Ok {A} a.
Arguments Throw {A} e.

#[global] Instance result_ret : MRet result := fun A a => Ok a.
#[global] Instance result_bind : MBind result := fun A B k m =>
  match m with
  | Ok a => k a
  | Throw e => Throw e
  end.

(** [a[i]] for an array [a] and an integer [i]: [undefined] (here [None])
    outside [0 .. length-1], in particular for a negative index. *)
Definition js_get {A} (a : list A) (i : Z) : option A :=
  if (i <? 0)%Z then None else a !! Z.to_nat i.

(** [a[i][k]]: reading a component of [a[i]] throws a TypeError when
    [a[i]] is [undefined]. *)
Definition js_row {A} (a : list A) (i : Z) : result A :=
  match js_get a i with
  | Some p => Ok p
  | None => Throw TypeError
  end.

(** [for (let i = 0; i < n; i++) body], with a body that may throw; the
    list is the range of [i]. *)
Fixpoint for_each {S} (range : list nat) (body : nat -> S -> result S) (s : S)
  : result S :=
  match range with
  | [] => Ok s
  | i :: rest => s' ← body i s; for_each rest body s'
  end.


(** ** Rounding to a floating-point format

    [rnd x] is the value of the format nearest to [x].  Of the rounding to
    double and of the rounding to single precision the proofs use what
    holds of both: rounding is monotone, and it keeps a value that the
    format holds exactly, such as an integer or a multiple of a power of
    1/2 with at most 24 significant bits. *)
Record rounding (rnd : Q -> Q) : Prop := {
  rnd_mono : forall x y : Q, (x <= y)%Q -> (rnd x <= rnd y)%Q;
  rnd_int : forall z : Z, (Z.abs z <= 2 ^ 24)%Z -> (rnd (inject_Z z) == inject_Z z)%Q;
  rnd_dyadic : forall (z : Z) (k : positive),
    (Z.abs z <= 2 ^ 24)%Z -> (k <= 24)%positive ->
    (rnd (z # 2 ^ k) == z # 2 ^ k)%Q
}.

(** Exact arithmetic, the rounding of a format that holds every rational. *)
Definition exact : Q -> Q := fun x => x.

(** ** JavaScript numbers with the special values

    Exact rationals, the two infinities and NaN, with the IEEE rules for
    the special values.  Finite values are kept in lowest terms ([Qred]),
    so that equal numbers are equal terms.  Zero is unsigned: [x / 0] takes
    the sign of [x] (the zero is read as [+0]).

    Overflow is not modelled: an operation on two finite values gives the
    exact result, where a double beyond about 1.8e308 becomes an infinity.
    A statement about all finite arguments of a function that adds or
    subtracts them is therefore made for [moderate] arguments only. *)

Module JsNum.

Local Open Scope Q_scope.

Inductive jsnum : Type :=
| Fin (q : Q)
| PInf
| NInf
| NaN.

(** A number literal. *)
Definition num (q : Q) : jsnum := Fin (Qred q).
Arguments num q%_Q.
Arguments Fin q%_Q.

(** A magnitude of at most 1e300: sums and differences of two such values
    are far from the largest double. *)
Definition moderate (q : Q) : Prop := Qabs q <= inject_Z (10 ^ 300).

Definition is_zero (q : Q) : bool := Qeq_bool q 0.
Definition is_pos (q : Q) : bool := negb (Qle_bool q 0).

Definition neg (a : jsnum) : jsnum :=
  match a with
  | Fin q => Fin (Qred (- q))
  | PInf => NInf
  | NInf => PInf
  | NaN => NaN
  end.

Definition add (a b : jsnum) : jsnum :=
  match a, b with
  | NaN, _ | _, NaN => NaN
  | Fin x, Fin y => Fin (Qred (x + y))
  | PInf, NInf | NInf, PInf => NaN
  | PInf, _ | _, PInf => PInf
  | NInf, _ | _, NInf => NInf
  end.

Definition sub (a b : jsnum) : jsnum := add a (neg b).

(** An infinity of the sign of [positive]. *)
Definition inf (positive : bool) : jsnum := if positive then PInf else NInf.

Definition mul (a b : jsnum) : jsnum :=
  match a, b with
  | NaN, _ | _, NaN => NaN
  | Fin x, Fin y => Fin (Qred (x * y))
  | Fin x, PInf | PInf, Fin x => if is_zero x then NaN else inf (is_pos x)
  | Fin x, NInf | NInf, Fin x => if is_zero x then NaN else inf (negb (is_pos x))
  | PInf, PInf | NInf, NInf => PInf
  | PInf, NInf | NInf, PInf => NInf
  end.

Definition div (a b : jsnum) : jsnum :=
  match a, b with
  | NaN, _ | _, NaN => NaN
  | Fin x, Fin y =>
      if is_zero y
      then (if is_zero x then NaN else inf (is_pos x))
      else Fin (Qred (x / y))
  | Fin _, PInf | Fin _, NInf => Fin 0
  | PInf, Fin y => inf (is_pos y || is_zero y)
  | NInf, Fin y => inf (negb (is_pos y || is_zero y))
  | _, _ => NaN
  end.

(** [a < b]; false when either side is NaN. *)
Definition lt (a b : jsnum) : bool :=
  match a, b with
  | NaN, _ | _, NaN => false
  | Fin x, Fin y => negb (Qle_bool y x)
  | NInf, NInf | PInf, _ | _, NInf => false
  | NInf, _ | _, PInf => true
  end.

(** [a <= b]; false when either side is NaN. *)
Definition le (a b : jsnum) : bool :=
  match a, b with
  | NaN, _ | _, NaN => false
  | Fin x, Fin y => Qle_bool x y
  | NInf, _ | _, PInf => true
  | PInf, _ | _, NInf => false
  end.

(** [Math.min(a, b)] and [Math.max(a, b)]: NaN when either argument is. *)
Definition min (a b : jsnum) : jsnum :=
  match a, b with
  | NaN, _ | _, NaN => NaN
  | _, _ => if lt b a then b else a
  end.

Definition max (a b : jsnum) : jsnum :=
  match a, b with
  | NaN, _ | _, NaN => NaN
  | _, _ => if lt a b then b else a
  end.

(** [Math.min(...xs)] and [Math.max(...xs)]. *)
Definition min_of (xs : list jsnum) : jsnum := fold_left min xs PInf.
Definition max_of (xs : list jsnum) : jsnum := fold_left max xs NInf.

(** The number is an ordinary value between 0 and 1. *)
Definition in_unit (a : jsnum) : Prop :=
  match a with
  | Fin q => 0 <= q <= 1
  | _ => False
  end.

End JsNum.

(** ** utils.js *)

Module Utils.
Import JsNum.

Definition lerp (a b t : jsnum) : jsnum := add a (mul (sub b a) t).

Definition clamp (v lo hi : jsnum) : jsnum := max lo (min hi v).

Definition mapRange (v inLo inHi outLo outHi : jsnum) : jsnum :=
  let t := div (sub v inLo) (sub inHi inLo) in
  lerp outLo outHi (clamp t (num 0) (num 1)).

End Utils.

(** ** color_scales.js *)

Module ColorScales.
Import JsNum.

Definition rgb : Type := jsnum * jsnum * jsnum.

Definition thermalColor (value min max : jsnum) : rgb :=
  let t := div (sub value min) (sub max min) in
  let t := JsNum.max (num 0) (JsNum.min (num 1) t) in
  if lt t (num 0.25) then
    let s := div t (num 0.25) in
    (num 0, s, num 1)
  else if lt t (num 0.5) then
    let s := div (sub t (num 0.25)) (num 0.25) in
    (num 0, num 1, sub (num 1) s)
  else if lt t (num 0.75) then
    let s := div (sub t (num 0.5)) (num 0.25) in
    (s, num 1, num 0)
  else
    let s := div (sub t (num 0.75)) (num 0.25) in
    (num 1, sub (num 1) s, num 0).

Definition stressColor (value sigmaYield : jsnum) : rgb :=
  let t := div value sigmaYield in
  let t := JsNum.max (num 0) (JsNum.min (num 1.5) t) in
  if lt t (num 0.5) then
    (num 0, num 0.8, num 0.2)
  else if lt t (num 0.8) then
    let s := div (sub t (num 0.5)) (num 0.3) in
    (s, num 0.8, mul (num 0.2) (sub (num 1) s))
  else if lt t (num 1.0) then
    let s := div (sub t (num 0.8)) (num 0.2) in
    (num 1, mul (num 0.8) (sub (num 1) s), num 0)
  else
    (num 1, num 0, num 0).

End ColorScales.

(** ** cooling_viz.js: the coolant temperature ramp *)

Module CoolantRamp.
Import JsNum.

Definition coolantColor (temp tMin tMax : jsnum) : ColorScales.rgb :=
  let t := Utils.clamp (div (sub temp tMin) (JsNum.max (sub tMax tMin) (num 1)))
             (num 0) (num 1) in
  if lt t (num 0.33) then
    let s := div t (num 0.33) in
    (num 0, Utils.mapRange s (num 0) (num 1) (num 0.3) (num 0.9), num 1)
  else if lt t (num 0.66) then
    let s := div (sub t (num 0.33)) (num 0.33) in
    (s, num 0.9, sub (num 1) s)
  else
    let s := div (sub t (num 0.66)) (num 0.34) in
    (num 1, Utils.mapRange s (num 0) (num 1) (num 0.9) (num 0.15), num 0).

End CoolantRamp.

(** ** engine_mesh.js: geometry builders (over the reals) *)

Module Geometry.

Local Open Scope R_scope.

(** [x || d] on numbers: [d] when [x] is zero. *)
Definition js_or (x d : R) : R := if Req_dec_T x 0 then d else x.

(** [Math.ceil], as an integer. *)
Definition ceil (x : R) : Z := (- Int_part (- x))%Z.

(** A [THREE.BufferGeometry]: flat attribute arrays and the index array.
    [position] and [normal] have item size 3, [uv] has item size 2, and
    three consecutive indices make one triangle. *)
Record BufferGeometry : Type := {
  position : list R;
  normal : list R;
  uv : list R;
  index : list nat
}.

Definition empty_geometry : BufferGeometry :=
  {| position := []; normal := []; uv := []; index := [] |}.

(** [geo.attributes.position.count] *)
Definition vertex_count (g : BufferGeometry) : nat := (length (position g) / 3)%nat.
Definition triangle_count (g : BufferGeometry) : nat := (length (index g) / 3)%nat.

(** The arrays while they are being filled by [push]. *)
Record Buffers : Type := {
  positions : list R;
  normals : list R;
  uvs : list R
}.

Definition no_buffers : Buffers := {| positions := []; normals := []; uvs := [] |}.

Definition push (b : Buffers) (ps ns us : list R) : Buffers :=
  {| positions := positions b ++ ps; normals := normals b ++ ns; uvs := uvs b ++ us |}.

(** A profile [[x, r], ...]. *)
Abbreviation profile := (list (R * R)).

(** *** createLatheGeometry *)

(** [theta = (j / nCirc) * Math.PI * 2] *)
Definition theta (nCirc j : nat) : R := (INR j / INR nCirc) * PI * 2.

(** The per-station part of the first loop, up to the inner loop:
    [(x, r, u, nx, nr)] for station [i]. *)
Definition station_frame (profile2d : profile) (i : nat)
  : result (R * R * R * R * R) :=
  let nAxial := length profile2d in
  p ← js_row profile2d (Z.of_nat i);
  let x := p.1 in
  let r := p.2 in
  let u := INR i / (INR nAxial - 1) in
  d ← (if (Z.of_nat i <? Z.of_nat nAxial - 1)%Z
       then q ← js_row profile2d (Z.of_nat i + 1); Ok (q.1 - x, q.2 - r)
       else q ← js_row profile2d (Z.of_nat i - 1); Ok (x - q.1, r - q.2));
  let dx := d.1 in
  let dr := d.2 in
  let len := js_or (sqrt (dx * dx + dr * dr)) 1 in
  let nx := - dr / len in
  let nr := dx / len in
  Ok (x, r, u, nx, nr).

(** One pass of the inner loop, [j = 0 .. nCirc]. *)
Definition ring_positions (nCirc : nat) (x r : R) (j : nat) : list R :=
  [x; r * cos (theta nCirc j); r * sin (theta nCirc j)].
Definition ring_normals (nCirc : nat) (nx nr : R) (j : nat) : list R :=
  [nx; nr * cos (theta nCirc j); nr * sin (theta nCirc j)].
Definition ring_uvs (nCirc : nat) (u : R) (j : nat) : list R :=
  [u; INR j / INR nCirc].

Definition lathe_station (profile2d : profile) (nCirc : nat) (i : nat) (b : Buffers)
  : result Buffers :=
  '(x, r, u, nx, nr) ← station_frame profile2d i;
  Ok (fold_left
        (fun b j => push b (ring_positions nCirc x r j)
                           (ring_normals nCirc nx nr j)
                           (ring_uvs nCirc u j))
        (seq 0 (S nCirc)) b).

(** The two triangles of the quad between stations [i], [i+1] and
    segments [j], [j+1]. *)
Definition quad_indices (nCirc i j : nat) : list nat :=
  let a := (i * (nCirc + 1) + j)%nat in
  let b := (a + 1)%nat in
  let c := ((i + 1) * (nCirc + 1) + j)%nat in
  let d := (c + 1)%nat in
  [a; c; b; b; c; d].

Definition lathe_indices (nAxial nCirc : nat) : list nat :=
  fold_left
    (fun ix i => fold_left (fun ix j => ix ++ quad_indices nCirc i j) (seq 0 nCirc) ix)
    (seq 0 (nAxial - 1)) [].

Definition createLatheGeometry (profile2d : profile) (segments : nat)
  : result BufferGeometry :=
  let nAxial := length profile2d in
  let nCirc := segments in
  b ← for_each (seq 0 nAxial) (lathe_station profile2d nCirc) no_buffers;
  Ok {| position := positions b; normal := normals b; uv := uvs b;
        index := lathe_indices nAxial nCirc |}.

(** *** createEndCapGeometry *)

Definition createEndCapGeometry (x rInner rOuter : R) (segments : nat)
    (faceNegativeX : bool) : BufferGeometry :=
  let nx := if faceNegativeX then -1 else 1 in
  let b :=
    fold_left
      (fun b j =>
         let cosT := cos (theta segments j) in
         let sinT := sin (theta segments j) in
         let v := INR j / INR segments in
         let b := push b [x; rInner * cosT; rInner * sinT] [nx; 0; 0] [0; v] in
         push b [x; rOuter * cosT; rOuter * sinT] [nx; 0; 0] [1; v])
      (seq 0 (S segments)) no_buffers in
  let ix :=
    fold_left
      (fun ix j =>
         let i0 := (j * 2)%nat in
         let o0 := (j * 2 + 1)%nat in
         let i1 := ((j + 1) * 2)%nat in
         let o1 := ((j + 1) * 2 + 1)%nat in
         if faceNegativeX then ix ++ [i0; o0; i1; i1; o0; o1]
         else ix ++ [i0; i1; o0; o0; i1; o1])
      (seq 0 segments) [] in
  {| position := positions b; normal := normals b; uv := uvs b; index := ix |}.

(** *** createInjectorFaceGeometry *)

Definition createInjectorFaceGeometry (x rInner : R) (segments : nat) : BufferGeometry :=
  let b0 := {| positions := [x; 0; 0]; normals := [-1; 0; 0]; uvs := [0.5; 0.5] |} in
  let b :=
    fold_left
      (fun b j =>
         let cosT := cos (theta segments j) in
         let sinT := sin (theta segments j) in
         push b [x; rInner * cosT; rInner * sinT] [-1; 0; 0]
                [0.5 + 0.5 * cosT; 0.5 + 0.5 * sinT])
      (seq 0 (S segments)) b0 in
  let ix := fold_left (fun ix j => ix ++ [0; j + 1; j]%nat) (seq 1 segments) [] in
  {| position := positions b; normal := normals b; uv := uvs b; index := ix |}.

(** *** createInjectorFaceWithOrifices *)

Inductive fluid : Type := fuel | oxidizer.

(** An entry of [meshData.injector_orifices]. *)
Record Orifice : Type := {
  o_y : R;
  o_z : R;
  o_radius : R;
  o_type : fluid
}.

(** [let minOrificeRadius = faceRadius;
     for (const o of orifices) if (o.radius < minOrificeRadius) ...] *)
Definition minOrificeRadius (faceRadius : R) (orifices : list Orifice) : R :=
  fold_left
    (fun m o => if Rlt_dec (o_radius o) m then o_radius o else m)
    orifices faceRadius.

(** [Math.min(120, Math.max(40, Math.ceil(faceRadius / cellTarget)))] *)
Definition nRadial (faceRadius : R) (orifices : list Orifice) : Z :=
  let cellTarget := minOrificeRadius faceRadius orifices in
  Z.min 120 (Z.max 40 (ceil (faceRadius / cellTarget))).

(** [Math.min(512, Math.max(segments,
               Math.ceil(2 * Math.PI * faceRadius / cellTarget)))] *)
Definition nAngular (faceRadius : R) (orifices : list Orifice) (segments : nat) : Z :=
  let cellTarget := minOrificeRadius faceRadius orifices in
  Z.min 512 (Z.max (Z.of_nat segments) (ceil (2 * PI * faceRadius / cellTarget))).

(** [radii[i]] and [thetas[j]] *)
Definition grid_radius (faceRadius : R) (nRad : Z) (i : nat) : R :=
  (INR i / IZR nRad) * faceRadius.
Definition grid_theta (nAng : Z) (j : nat) : R :=
  (INR j / IZR nAng) * PI * 2.

(** The centre of cell [(i, j)]: [(cy, cz)]. *)
Definition cell_center (faceRadius : R) (nRad nAng : Z) (i j : nat) : R * R :=
  let r0 := grid_radius faceRadius nRad i in
  let r1 := grid_radius faceRadius nRad (i + 1) in
  let rMid := (r0 + r1) / 2 in
  let tMid := (grid_theta nAng j + grid_theta nAng (j + 1)) / 2 in
  (rMid * cos tMid, rMid * sin tMid).

(** The [inside] flag: the cell centre is inside some orifice. *)
Definition inside_orifice (c : R * R) (orifices : list Orifice) : bool :=
  existsb
    (fun o =>
       let dy := c.1 - o_y o in
       let dz := c.2 - o_z o in
       if Rlt_dec (dy * dy + dz * dz) (o_radius o * o_radius o) then true else false)
    orifices.

(** [vertexMap[i][j]]: the vertices are numbered row by row. *)
Definition vertexMap (nAng : Z) (i j : nat) : nat := (i * (Z.to_nat nAng + 1) + j)%nat.

Definition cell_indices (nAng : Z) (i j : nat) : list nat :=
  let a := vertexMap nAng i j in
  let b := vertexMap nAng i (j + 1) in
  let c := vertexMap nAng (i + 1) j in
  let d := vertexMap nAng (i + 1) (j + 1) in
  if (i =? 0)%nat then [a; d; c] else [a; b; c; b; d; c].

(** The face mesh of the group. *)
Definition injector_face (x faceRadius : R) (orifices : list Orifice) (segments : nat)
  : BufferGeometry :=
  let nRad := nRadial faceRadius orifices in
  let nAng := nAngular faceRadius orifices segments in
  let b :=
    fold_left
      (fun b i =>
         let r := grid_radius faceRadius nRad i in
         fold_left
           (fun b j =>
              let th := grid_theta nAng j in
              push b [x; r * cos th; r * sin th] [-1; 0; 0] [])
           (seq 0 (S (Z.to_nat nAng))) b)
      (seq 0 (S (Z.to_nat nRad))) no_buffers in
  let ix :=
    fold_left
      (fun ix i =>
         fold_left
           (fun ix j =>
              if inside_orifice (cell_center faceRadius nRad nAng i j) orifices
              then ix
              else ix ++ cell_indices nAng i j)
           (seq 0 (Z.to_nat nAng)) ix)
      (seq 0 (Z.to_nat nRad)) [] in
  {| position := positions b; normal := normals b; uv := []; index := ix |}.

(** The coloured markers: display radius, colour class and position. *)
Definition injector_markers (x faceRadius : R) (orifices : list Orifice)
  : list (R * fluid * (R * R * R)) :=
  let minDisplayRadius := faceRadius * 0.03 in
  map (fun o => (Rmax (o_radius o * 2.0) minDisplayRadius, o_type o,
                 (x - 0.001, o_y o, o_z o)))
      orifices.

Definition createInjectorFaceWithOrifices (x faceRadius : R)
    (orifices : list Orifice) (segments : nat)
  : BufferGeometry * list (R * fluid * (R * R * R)) :=
  (injector_face x faceRadius orifices segments,
   injector_markers x faceRadius orifices).

(** Radial and (outer rim) angular size of a grid cell. *)
Definition radial_cell (faceRadius : R) (orifices : list Orifice) : R :=
  faceRadius / IZR (nRadial faceRadius orifices).
Definition angular_cell (faceRadius : R) (orifices : list Orifice) (segments : nat) : R :=
  2 * PI * faceRadius / IZR (nAngular faceRadius orifices segments).

End Geometry.

(** *** Measuring a lathe geometry *)

Module LatheMeasure.
Import Geometry.
Local Open Scope R_scope.

(** The axial positions of a profile increase strictly from each station
    to the next. *)
Definition strictly_increasing_x (profile2d : profile) : Prop :=
  forall (i : nat) (p q : R * R),
    profile2d !! i = Some p -> profile2d !! (i + 1)%nat = Some q -> p.1 < q.1.

(** Vertex [v] of a geometry: its position and the normal stored for it. *)
Definition vertex_position (g : BufferGeometry) (v : nat) : option (R * R * R) :=
  x ← position g !! (3 * v)%nat;
  y ← position g !! (3 * v + 1)%nat;
  z ← position g !! (3 * v + 2)%nat;
  Some (x, y, z).

Definition vertex_normal (g : BufferGeometry) (v : nat) : option (R * R * R) :=
  x ← normal g !! (3 * v)%nat;
  y ← normal g !! (3 * v + 1)%nat;
  z ← normal g !! (3 * v + 2)%nat;
  Some (x, y, z).

(** Triangle [t]: its three vertices in the order of the index array. *)
Definition triangle (g : BufferGeometry) (t : nat) : option (nat * nat * nat) :=
  a ← index g !! (3 * t)%nat;
  b ← index g !! (3 * t + 1)%nat;
  c ← index g !! (3 * t + 2)%nat;
  Some (a, b, c).

Definition vsub (p q : R * R * R) : R * R * R :=
  (p.1.1 - q.1.1, p.1.2 - q.1.2, p.2 - q.2).

Definition cross (u v : R * R * R) : R * R * R :=
  (u.1.2 * v.2 - u.2 * v.1.2,
   u.2 * v.1.1 - u.1.1 * v.2,
   u.1.1 * v.1.2 - u.1.2 * v.1.1).

(** The normal of the triangle with corners [p0], [p1], [p2] in this
    order, by the right-hand rule: it points to the side from which the
    corners are seen counter-clockwise, the front side of the face. *)
Definition face_normal (p0 p1 p2 : R * R * R) : R * R * R :=
  cross (vsub p1 p0) (vsub p2 p0).

(** The part of a vector [n] at a point [p] that points away from the
    [x] axis: the scalar product of [n] with the radial vector [(0, y, z)]
    of [p].  It is positive when [n] points away from the axis, negative
    when it points towards it. *)
Definition radial_part (n p : R * R * R) : R := n.1.2 * p.1.2 + n.2 * p.2.

(** The station values when nothing throws. *)
Definition pt (profile2d : profile) (i : nat) : R * R := nth i profile2d (0, 0).

Definition frame (profile2d : profile) (i : nat) : R * R * R * R * R :=
  let nAxial := length profile2d in
  let x := (pt profile2d i).1 in
  let r := (pt profile2d i).2 in
  let u := INR i / (INR nAxial - 1) in
  let d := if (Z.of_nat i <? Z.of_nat nAxial - 1)%Z
           then ((pt profile2d (i + 1)).1 - x, (pt profile2d (i + 1)).2 - r)
           else (x - (pt profile2d (i - 1)).1, r - (pt profile2d (i - 1)).2) in
  let len := js_or (sqrt (d.1 * d.1 + d.2 * d.2)) 1 in
  (x, r, u, - d.2 / len, d.1 / len).

(** The vertex buffers of a whole lathe, written without the loop. *)
Definition station_positions (profile2d : profile) (nCirc i : nat) : list R :=
  let '(x, r, _, _, _) := frame profile2d i in
  flat_map (ring_positions nCirc x r) (seq 0 (S nCirc)).
Definition station_normals (profile2d : profile) (nCirc i : nat) : list R :=
  let '(_, _, _, nx, nr) := frame profile2d i in
  flat_map (ring_normals nCirc nx nr) (seq 0 (S nCirc)).

End LatheMeasure.

(** ** The scene state shared by the front-end modules

    Every JavaScript object whose identity matters (materials, groups,
    textures, clipping planes) is a reference [ref], allocated fresh by
    [new].  What the model tracks of the three.js objects is what the
    overlay code reads back: the material reference and the colour attribute
    of the two wall meshes, the vertex-colour flag of the inner wall's
    material, the children of the mesh group, and the module variables.
    Scalar material parameters, GPU disposal, the legend canvas and the
    contents of the cut-away groups are not tracked. *)

Definition ref : Type := nat.

(** The [mesh_update] payload (well formed: every station array present). *)
Record MeshData : Type := {
  profile_2d : list (R * R);
  outer_profile_2d : list (R * R);
  injector_orifices : option (list Geometry.Orifice);
  station_x : list R;
  station_r_inner : list R;
  station_r_outer : list R
}.

(** [sim_tick.stations] and [sim_tick.cooling]; an absent array is [None]. *)
Record Stations : Type := {
  mach : option (list JsNum.jsnum);
  wall_temp_inner_K : option (list JsNum.jsnum);
  von_mises_stress_MPa : option (list JsNum.jsnum)
}.

Record CoolantData : Type := {
  T_coolant_K : option (list JsNum.jsnum);
  coolant_velocity_m_s : option (list JsNum.jsnum)
}.

Record SimData : Type := {
  stations : option Stations;
  cooling : option CoolantData
}.

(** The cooling configuration of the UI, [getCooling()]. *)
Record CoolingCfg : Type := { enabled : bool }.

(** A wall mesh: its geometry with the optional ['color'] attribute (flat,
    item size 3), the reference of its current material, and the
    [vertexColors] flag of that material. *)
Record Mesh : Type := {
  geometry : Geometry.BufferGeometry;
  color : option (list JsNum.jsnum);
  material : ref;
  vertexColors : bool
}.

Definition set_material (m : ref) (mesh : Mesh) : Mesh :=
  {| geometry := geometry mesh; color := color mesh;
     material := m; vertexColors := vertexColors mesh |}.

Definition set_color (c : option (list JsNum.jsnum)) (mesh : Mesh) : Mesh :=
  {| geometry := geometry mesh; color := c;
     material := material mesh; vertexColors := vertexColors mesh |}.

Definition set_vertexColors (b : bool) (mesh : Mesh) : Mesh :=
  {| geometry := geometry mesh; color := color mesh;
     material := material mesh; vertexColors := b |}.

Module Scene.
(** scene.js: [scene], [renderer] and [renderer.localClippingEnabled]. *)
Record vars : Type := {
  scene : option ref;
  renderer : option ref;
  localClippingEnabled : bool
}.
End Scene.

Module EngineMesh.
(** engine_mesh.js.  The children of [currentGroup] are, in traversal
    order, the wall meshes that were added to it, [groupWalls] of them
    ([outerMesh], then [innerMesh]: both, unless [buildEngineMesh] threw
    before it added them), and then the children whose material references
    [currentGroup] holds. *)
Record vars : Type := {
  outerMesh : option Mesh;
  innerMesh : option Mesh;
  currentGroup : option (list ref);
  groupWalls : nat;
  stationCount : nat;
  circumSegments : nat
}.
End EngineMesh.

Module HeatMap.
Record vars : Type := {
  originalMaterial : option ref;
  heatMaterial : option ref
}.
End HeatMap.

Module StressOverlay.
Record vars : Type := {
  originalMaterial : option ref;
  stressMaterial : option ref
}.
End StressOverlay.

Module FlowViz.
Record vars : Type := {
  coolantArrows : option ref;
  flowColorsApplied : bool
}.
End FlowViz.

Module CoolingViz.
Record vars : Type := {
  cutawayGroup : option ref;
  crossSectionGroup : option ref;
  channelShaderActive : bool;
  clippingPlane : option ref;
  clippedMaterials : list ref;
  channelMaterial : option ref;
  coolantTexture : option ref;
  savedOuterMaterial : option ref
}.
End CoolingViz.

(** The [data-mode] tokens of the visualization buttons:
    [normal], [heatmap], [stress], [flow], [cooling]. *)
Inductive VizMode : Type := m_normal | m_heatmap | m_stress | m_flow | m_cooling.

#[global] Instance VizMode_eq_dec : EqDecision VizMode.
Proof. solve_decision. Defined.

Module Main.
(** main.js, with the UI state it reads: the cooling configuration, the
    yield strength of the selected material and the section slider. *)
Record vars : Type := {
  vizMode : VizMode;
  lastSimData : option SimData;
  lastMeshData : option MeshData;
  simRunning : bool;
  yield_strength_MPa : option JsNum.jsnum;
  currentCooling : CoolingCfg;
  sectionSlider : Z
}.
End Main.

Record World : Type := {
  sc : Scene.vars;
  em : EngineMesh.vars;
  hm : HeatMap.vars;
  so : StressOverlay.vars;
  fv : FlowViz.vars;
  cv : CoolingViz.vars;
  mn : Main.vars;
  (** internal_flow.js: [particleSystem.visible], when the system exists *)
  internalFlowVisible : option bool;
  (** the next fresh reference *)
  next : ref
}.

Definition with_sc (x : Scene.vars) (w : World) : World :=
  {| sc := x; em := em w; hm := hm w; so := so w; fv := fv w; cv := cv w;
     mn := mn w; internalFlowVisible := internalFlowVisible w; next := next w |}.
Definition with_em (x : EngineMesh.vars) (w : World) : World :=
  {| sc := sc w; em := x; hm := hm w; so := so w; fv := fv w; cv := cv w;
     mn := mn w; internalFlowVisible := internalFlowVisible w; next := next w |}.
Definition with_hm (x : HeatMap.vars) (w : World) : World :=
  {| sc := sc w; em := em w; hm := x; so := so w; fv := fv w; cv := cv w;
     mn := mn w; internalFlowVisible := internalFlowVisible w; next := next w |}.
Definition with_so (x : StressOverlay.vars) (w : World) : World :=
  {| sc := sc w; em := em w; hm := hm w; so := x; fv := fv w; cv := cv w;
     mn := mn w; internalFlowVisible := internalFlowVisible w; next := next w |}.
Definition with_fv (x : FlowViz.vars) (w : World) : World :=
  {| sc := sc w; em := em w; hm := hm w; so := so w; fv := x; cv := cv w;
     mn := mn w; internalFlowVisible := internalFlowVisible w; next := next w |}.
Definition with_cv (x : CoolingViz.vars) (w : World) : World :=
  {| sc := sc w; em := em w; hm := hm w; so := so w; fv := fv w; cv := x;
     mn := mn w; internalFlowVisible := internalFlowVisible w; next := next w |}.
Definition with_mn (x : Main.vars) (w : World) : World :=
  {| sc := sc w; em := em w; hm := hm w; so := so w; fv := fv w; cv := cv w;
     mn := x; internalFlowVisible := internalFlowVisible w; next := next w |}.
Definition with_internalFlowVisible (x : option bool) (w : World) : World :=
  {| sc := sc w; em := em w; hm := hm w; so := so w; fv := fv w; cv := cv w;
     mn := mn w; internalFlowVisible := x; next := next w |}.

(** [new ...]: a fresh reference. *)
Definition alloc (w : World) : ref * World :=
  (next w,
   {| sc := sc w; em := em w; hm := hm w; so := so w; fv := fv w; cv := cv w;
      mn := mn w; internalFlowVisible := internalFlowVisible w;
      next := S (next w) |}).

(** [n] fresh references, one [new] after the other. *)
Fixpoint alloc_n (n : nat) (w : World) : list ref * World :=
  match n with
  | O => ([], w)
  | S k => let '(r, w) := alloc w in
           let '(rs, w) := alloc_n k w in
           (r :: rs, w)
  end.

(** The getters of engine_mesh.js. *)
Definition getOuterMesh (w : World) : option Mesh := EngineMesh.outerMesh (em w).
Definition getInnerMesh (w : World) : option Mesh := EngineMesh.innerMesh (em w).
Definition getStationCount (w : World) : nat := EngineMesh.stationCount (em w).
Definition getCircumSegments (w : World) : nat := EngineMesh.circumSegments (em w).

Definition set_outerMesh (mesh : Mesh) (w : World) : World :=
  with_em {| EngineMesh.outerMesh := Some mesh;
             EngineMesh.innerMesh := EngineMesh.innerMesh (em w);
             EngineMesh.currentGroup := EngineMesh.currentGroup (em w);
             EngineMesh.groupWalls := EngineMesh.groupWalls (em w);
             EngineMesh.stationCount := EngineMesh.stationCount (em w);
             EngineMesh.circumSegments := EngineMesh.circumSegments (em w) |} w.

Definition set_innerMesh (mesh : Mesh) (w : World) : World :=
  with_em {| EngineMesh.outerMesh := EngineMesh.outerMesh (em w);
             EngineMesh.innerMesh := Some mesh;
             EngineMesh.currentGroup := EngineMesh.currentGroup (em w);
             EngineMesh.groupWalls := EngineMesh.groupWalls (em w);
             EngineMesh.stationCount := EngineMesh.stationCount (em w);
             EngineMesh.circumSegments := EngineMesh.circumSegments (em w) |} w.

(** The state when the page has loaded and [initScene] has run. *)
Definition initial_world : World :=
  {| sc := {| Scene.scene := Some 0%nat; Scene.renderer := Some 1%nat;
              Scene.localClippingEnabled := false |};
     em := {| EngineMesh.outerMesh := None; EngineMesh.innerMesh := None;
              EngineMesh.currentGroup := None; EngineMesh.groupWalls := 0;
              EngineMesh.stationCount := 0;
              EngineMesh.circumSegments := 64 |};
     hm := {| HeatMap.originalMaterial := None; HeatMap.heatMaterial := None |};
     so := {| StressOverlay.originalMaterial := None;
              StressOverlay.stressMaterial := None |};
     fv := {| FlowViz.coolantArrows := None; FlowViz.flowColorsApplied := false |};
     cv := {| CoolingViz.cutawayGroup := None; CoolingViz.crossSectionGroup := None;
              CoolingViz.channelShaderActive := false;
              CoolingViz.clippingPlane := None; CoolingViz.clippedMaterials := [];
              CoolingViz.channelMaterial := None; CoolingViz.coolantTexture := None;
              CoolingViz.savedOuterMaterial := None |};
     mn := {| Main.vizMode := m_normal; Main.lastSimData := None;
              Main.lastMeshData := None; Main.simRunning := false;
              Main.yield_strength_MPa := None;
              Main.currentCooling := {| enabled := true |};
              Main.sectionSlider := 0 |};
     internalFlowVisible := None;
     next := 2%nat |}.

Definition with_next (n : ref) (w : World) : World :=
  {| sc := sc w; em := em w; hm := hm w; so := so w; fv := fv w; cv := cv w;
     mn := mn w; internalFlowVisible := internalFlowVisible w; next := n |}.

(** ** engine_mesh.js: buildEngineMesh *)

(** The materials of [createCoolingChannelIndicators]: for each of the two
    manifold rings a ring material and a line material, then the one
    [channelLineMat] shared by the twenty channel lines
    ([ch = 0; ch < 60; ch += 3]). *)
Definition createCoolingChannelIndicators (w : World) : list ref * World :=
  let '(ringIn, w) := alloc_n 2 w in
  let '(ringOut, w) := alloc_n 2 w in
  let '(channelLineMat, w) := alloc w in
  (ringIn ++ ringOut ++ replicate 20 channelLineMat, w).

Definition buildEngineMesh (meshData : MeshData) (w : World) : result World :=
  let profile2d := profile_2d meshData in
  let outerProfile2d := outer_profile_2d meshData in
  let circumSegments := getCircumSegments w in
  (* Outer wall *)
  outerGeo ← Geometry.createLatheGeometry outerProfile2d circumSegments;
  let '(outerMat, w) := alloc w in
  let outerMesh := {| geometry := outerGeo; color := None;
                      material := outerMat; vertexColors := false |} in
  (* Inner wall *)
  innerGeo ← Geometry.createLatheGeometry profile2d circumSegments;
  let '(innerMat, w) := alloc w in
  let innerMesh := {| geometry := innerGeo; color := None;
                      material := innerMat; vertexColors := false |} in
  (* Edge wireframe *)
  let '(edgeMat, w) := alloc w in
  (* End caps *)
  let '(capMat, w) := alloc w in
  p0 ← js_row profile2d 0;
  o0 ← js_row outerProfile2d 0;
  let chamberCapGeo :=
    Geometry.createEndCapGeometry p0.1 p0.2 o0.2 circumSegments true in
  let nLast := (Z.of_nat (length profile2d) - 1)%Z in
  pN ← js_row profile2d nLast;
  oN ← js_row outerProfile2d nLast;
  let nozzleCapGeo :=
    Geometry.createEndCapGeometry pN.1 pN.2 oN.2 circumSegments false in
  let '(capMat2, w) := alloc w in
  (* Cooling channel indicators *)
  let '(coolingMats, w) :=
    if (2 <=? length outerProfile2d)%nat then createCoolingChannelIndicators w
    else ([], w) in
  (* Injector face *)
  let '(injectorMats, w) :=
    match injector_orifices meshData with
    | Some (o :: os) =>
        let face := Geometry.createInjectorFaceWithOrifices p0.1 p0.2 (o :: os)
                      circumSegments in
        alloc_n (1 + length (o :: os)) w
    | _ =>
        let injectorGeo := Geometry.createInjectorFaceGeometry p0.1 p0.2 circumSegments in
        alloc_n 1 w
    end in
  Ok (with_em
        {| EngineMesh.outerMesh := Some outerMesh;
           EngineMesh.innerMesh := Some innerMesh;
           EngineMesh.currentGroup :=
             Some ([edgeMat; capMat; capMat2] ++ coolingMats ++ injectorMats);
           EngineMesh.groupWalls := 2;
           EngineMesh.stationCount := length profile2d;
           EngineMesh.circumSegments := circumSegments |} w).

(** The state in which [buildEngineMesh] leaves the module variables when
    it throws: [currentGroup] and [stationCount] are assigned first, each
    wall mesh after its geometry is built, and the new group holds the
    children added until then.  (Where [buildEngineMesh] returns, this is
    the state before the second end cap.) *)
Definition buildEngineMesh_aborted (meshData : MeshData) (w : World) : World :=
  let profile2d := profile_2d meshData in
  let outerProfile2d := outer_profile_2d meshData in
  let circumSegments := getCircumSegments w in
  let oldOuter := EngineMesh.outerMesh (em w) in
  let oldInner := EngineMesh.innerMesh (em w) in
  let vars outerMesh innerMesh walls others :=
    {| EngineMesh.outerMesh := outerMesh;
       EngineMesh.innerMesh := innerMesh;
       EngineMesh.currentGroup := Some others;
       EngineMesh.groupWalls := walls;
       EngineMesh.stationCount := length profile2d;
       EngineMesh.circumSegments := circumSegments |} in
  match Geometry.createLatheGeometry outerProfile2d circumSegments with
  | Throw _ => with_em (vars oldOuter oldInner 0%nat []) w
  | Ok outerGeo =>
      let '(outerMat, w) := alloc w in
      let outerMesh := {| geometry := outerGeo; color := None;
                          material := outerMat; vertexColors := false |} in
      match Geometry.createLatheGeometry profile2d circumSegments with
      | Throw _ => with_em (vars (Some outerMesh) oldInner 1%nat []) w
      | Ok innerGeo =>
          let '(innerMat, w) := alloc w in
          let innerMesh := {| geometry := innerGeo; color := None;
                              material := innerMat; vertexColors := false |} in
          let '(edgeMat, w) := alloc w in
          let '(capMat, w) := alloc w in
          match js_row profile2d 0, js_row outerProfile2d 0 with
          | Ok _, Ok _ =>
              with_em (vars (Some outerMesh) (Some innerMesh) 2%nat [edgeMat; capMat]) w
          | _, _ =>
              with_em (vars (Some outerMesh) (Some innerMesh) 2%nat [edgeMat]) w
          end
      end
  end.

(** [group.traverse(child => child.material ...)]: the materials of the
    children of the mesh group, the wall meshes first. *)
Definition group_materials (w : World) : list ref :=
  match EngineMesh.currentGroup (em w) with
  | None => []
  | Some others =>
      (if (1 <=? EngineMesh.groupWalls (em w))%nat
       then from_option (fun m => [material m]) [] (getOuterMesh w) else [])
      ++ (if (2 <=? EngineMesh.groupWalls (em w))%nat
          then from_option (fun m => [material m]) [] (getInnerMesh w) else [])
      ++ others
  end.

(** ** internal_flow.js: setInternalFlowVisible *)

Definition setInternalFlowVisible (visible : bool) (w : World) : World :=
  match internalFlowVisible w with
  | Some _ => with_internalFlowVisible (Some visible) w
  | None => w
  end.

(** ** Per-station vertex colouring

    The loop shared by the heat map, the stress overlay and the flow
    overlay: station [i] gets the colour [colorOf i] at every
    circumferential vertex [idx = i*(nCirc+1) + j], [j = 0 .. nCirc].  A
    write outside a typed array is ignored, as is [<[_:=_]>] outside the
    list. *)
Definition setXYZ (idx : nat) (c : ColorScales.rgb) (colors : list JsNum.jsnum)
  : list JsNum.jsnum :=
  <[(idx * 3 + 2)%nat := c.2]> (<[(idx * 3 + 1)%nat := c.1.2]> (<[(idx * 3)%nat := c.1.1]> colors)).

Definition color_stations (nStations nCirc : nat) (colorOf : nat -> ColorScales.rgb)
    (colors : list JsNum.jsnum) : list JsNum.jsnum :=
  fold_left
    (fun colors i =>
       fold_left
         (fun colors j => setXYZ (i * (nCirc + 1) + j) (colorOf i) colors)
         (seq 0 (S nCirc)) colors)
    (seq 0 nStations) colors.

(** Vertex [idx] carries colour [c]. *)
Definition has_color (colors : list JsNum.jsnum) (idx : nat) (c : ColorScales.rgb) : Prop :=
  colors !! (idx * 3)%nat = Some c.1.1
  /\ colors !! (idx * 3 + 1)%nat = Some c.1.2
  /\ colors !! (idx * 3 + 2)%nat = Some c.2.

Definition write_all (ws : list (nat * ColorScales.rgb)) (colors : list JsNum.jsnum)
  : list JsNum.jsnum :=
  fold_left (fun cs w => setXYZ w.1 w.2 cs) ws colors.

(** The writes of the station loop, in order. *)
Definition station_writes (nStations nCirc : nat) (colorOf : nat -> ColorScales.rgb)
  : list (nat * ColorScales.rgb) :=
  flat_map (fun i => map (fun j => ((i * (nCirc + 1) + j)%nat, colorOf i))
                         (seq 0 (S nCirc)))
           (seq 0 nStations).

(** [new Float32Array(n)] *)
Definition zeros (n : nat) : list JsNum.jsnum := replicate n (JsNum.Fin 0).

(** ** heat_map.js *)

Definition applyHeatMap (stationTemps : list JsNum.jsnum) (w : World)
  : World * option (JsNum.jsnum * JsNum.jsnum) :=
  match getOuterMesh w with
  | None => (w, None)
  | Some mesh =>
      let nStations := getStationCount w in
      let nCirc := getCircumSegments w in
      let originalMaterial :=
        match HeatMap.originalMaterial (hm w) with
        | None => Some (material mesh)
        | Some m => Some m
        end in
      let posCount := Geometry.vertex_count (geometry mesh) in
      let colors := zeros (posCount * 3) in
      let tMin := JsNum.min_of stationTemps in
      let tMax := JsNum.max_of stationTemps in
      let colors :=
        color_stations nStations nCirc
          (fun i =>
             let temp := default tMin (stationTemps !! i) in
             ColorScales.thermalColor temp tMin tMax)
          colors in
      let mesh := set_color (Some colors) mesh in
      let '(heatMaterial, w) :=
        match HeatMap.heatMaterial (hm w) with
        | None => alloc w
        | Some m => (m, w)
        end in
      let mesh := set_material heatMaterial mesh in
      let w := set_outerMesh mesh w in
      let w := with_hm {| HeatMap.originalMaterial := originalMaterial;
                          HeatMap.heatMaterial := Some heatMaterial |} w in
      (w, Some (tMin, tMax))
  end.

Definition clearHeatMap (w : World) : World :=
  match getOuterMesh w, HeatMap.originalMaterial (hm w) with
  | Some mesh, Some originalMaterial => set_outerMesh (set_material originalMaterial mesh) w
  | _, _ => w
  end.

(** ** stress_overlay.js *)

Definition applyStressOverlay (stationStress : list JsNum.jsnum)
    (yieldStrength : JsNum.jsnum) (w : World) : World :=
  match getOuterMesh w with
  | None => w
  | Some mesh =>
      let nStations := getStationCount w in
      let nCirc := getCircumSegments w in
      let originalMaterial :=
        match StressOverlay.originalMaterial (so w) with
        | None => Some (material mesh)
        | Some m => Some m
        end in
      let posCount := Geometry.vertex_count (geometry mesh) in
      let colors := zeros (posCount * 3) in
      let colors :=
        color_stations nStations nCirc
          (fun i =>
             let stress := default (JsNum.num 0) (stationStress !! i) in
             ColorScales.stressColor stress yieldStrength)
          colors in
      let mesh := set_color (Some colors) mesh in
      let '(stressMaterial, w) :=
        match StressOverlay.stressMaterial (so w) with
        | None => alloc w
        | Some m => (m, w)
        end in
      let mesh := set_material stressMaterial mesh in
      let w := set_outerMesh mesh w in
      with_so {| StressOverlay.originalMaterial := originalMaterial;
                 StressOverlay.stressMaterial := Some stressMaterial |} w
  end.

Definition clearStressOverlay (w : World) : World :=
  match getOuterMesh w, StressOverlay.originalMaterial (so w) with
  | Some mesh, Some originalMaterial => set_outerMesh (set_material originalMaterial mesh) w
  | _, _ => w
  end.

(** ** flow_viz.js *)

Definition machColor (M : JsNum.jsnum) : ColorScales.rgb :=
  if JsNum.le M (JsNum.num 1.0) then
    let t := Utils.clamp M (JsNum.num 0) (JsNum.num 1) in
    (Utils.mapRange t (JsNum.num 0) (JsNum.num 1) (JsNum.num 0.2) (JsNum.num 1.0),
     Utils.mapRange t (JsNum.num 0) (JsNum.num 1) (JsNum.num 0.4) (JsNum.num 1.0),
     Utils.mapRange t (JsNum.num 0) (JsNum.num 1) (JsNum.num 1.0) (JsNum.num 1.0))
  else
    let t := Utils.clamp (JsNum.div (JsNum.sub M (JsNum.num 1.0)) (JsNum.num 3.0)) (JsNum.num 0) (JsNum.num 1) in
    (JsNum.num 1.0,
     Utils.mapRange t (JsNum.num 0) (JsNum.num 1) (JsNum.num 1.0) (JsNum.num 0.2),
     Utils.mapRange t (JsNum.num 0) (JsNum.num 1) (JsNum.num 1.0) (JsNum.num 0.1)).

Definition removeCoolantArrows (w : World) : World :=
  with_fv {| FlowViz.coolantArrows := None;
             FlowViz.flowColorsApplied := FlowViz.flowColorsApplied (fv w) |} w.

(** [outerMesh.parent] is the mesh group. *)
Definition drawCoolantFlow (w : World) : World :=
  let w := removeCoolantArrows w in
  match getOuterMesh w, EngineMesh.currentGroup (em w) with
  | Some _, Some _ =>
      let '(arrowGroup, w) := alloc w in
      with_fv {| FlowViz.coolantArrows := Some arrowGroup;
                 FlowViz.flowColorsApplied := FlowViz.flowColorsApplied (fv w) |} w
  | _, _ => w
  end.

(** The colour attribute after [applyFlowVisualization]: reused when it has
    the right [count], otherwise a new zeroed one; then the station loop. *)
Definition flow_colors (machArray : list JsNum.jsnum) (nStations nCirc : nat)
    (old : option (list JsNum.jsnum)) : list JsNum.jsnum :=
  let vertexCount := (nStations * (nCirc + 1))%nat in
  let colors :=
    match old with
    | Some colors =>
        if (length colors / 3 =? vertexCount)%nat then colors
        else zeros (vertexCount * 3)
    | None => zeros (vertexCount * 3)
    end in
  color_stations nStations nCirc
    (fun i =>
       let M := if (i <? length machArray)%nat
                then default JsNum.NaN (machArray !! i)
                else JsNum.num 1.0 in
       machColor M)
    colors.

Definition applyFlowVisualization (machArray : option (list JsNum.jsnum))
    (coolantData : option CoolantData) (w : World) : World :=
  match getInnerMesh w, machArray with
  | Some innerMesh, Some machArray =>
      let nStations := getStationCount w in
      let nCirc := getCircumSegments w in
      let colors := flow_colors machArray nStations nCirc (color innerMesh) in
      let innerMesh := set_vertexColors true (set_color (Some colors) innerMesh) in
      let w := set_innerMesh innerMesh w in
      let w := with_fv {| FlowViz.coolantArrows := FlowViz.coolantArrows (fv w);
                          FlowViz.flowColorsApplied := true |} w in
      match coolantData with
      | Some cd =>
          match coolant_velocity_m_s cd with
          | Some _ => drawCoolantFlow w
          | None => w
          end
      | None => w
      end
  | _, _ => w
  end.

Definition clearFlowViz (w : World) : World :=
  let w := removeCoolantArrows w in
  if FlowViz.flowColorsApplied (fv w) then
    let w :=
      match getInnerMesh w with
      | Some innerMesh => set_innerMesh (set_color None (set_vertexColors false innerMesh)) w
      | None => w
      end in
    with_fv {| FlowViz.coolantArrows := FlowViz.coolantArrows (fv w);
               FlowViz.flowColorsApplied := false |} w
  else w.

(** ** cooling_viz.js *)

Definition set_localClippingEnabled (b : bool) (w : World) : World :=
  match Scene.renderer (sc w) with
  | Some _ =>
      with_sc {| Scene.scene := Scene.scene (sc w);
                 Scene.renderer := Scene.renderer (sc w);
                 Scene.localClippingEnabled := b |} w
  | None => w
  end.

Definition removeCrossSection (w : World) : World :=
  with_cv {| CoolingViz.cutawayGroup := CoolingViz.cutawayGroup (cv w);
             CoolingViz.crossSectionGroup := None;
             CoolingViz.channelShaderActive := CoolingViz.channelShaderActive (cv w);
             CoolingViz.clippingPlane := CoolingViz.clippingPlane (cv w);
             CoolingViz.clippedMaterials := CoolingViz.clippedMaterials (cv w);
             CoolingViz.channelMaterial := CoolingViz.channelMaterial (cv w);
             CoolingViz.coolantTexture := CoolingViz.coolantTexture (cv w);
             CoolingViz.savedOuterMaterial := CoolingViz.savedOuterMaterial (cv w) |} w.

Definition clearCutawayAndCrossSection (w : World) : World :=
  let w :=
    with_cv {| CoolingViz.cutawayGroup := None;
               CoolingViz.crossSectionGroup := CoolingViz.crossSectionGroup (cv w);
               CoolingViz.channelShaderActive := CoolingViz.channelShaderActive (cv w);
               CoolingViz.clippingPlane := None;
               CoolingViz.clippedMaterials := [];
               CoolingViz.channelMaterial := CoolingViz.channelMaterial (cv w);
               CoolingViz.coolantTexture := CoolingViz.coolantTexture (cv w);
               CoolingViz.savedOuterMaterial := CoolingViz.savedOuterMaterial (cv w) |} w in
  let w := set_localClippingEnabled false w in
  removeCrossSection w.

Definition clearCoolingViz (w : World) : World :=
  let w := clearCutawayAndCrossSection w in
  if CoolingViz.channelShaderActive (cv w) then
    let w :=
      match getOuterMesh w, CoolingViz.savedOuterMaterial (cv w) with
      | Some mesh, Some saved =>
          (* only restore if the current mesh is still using our shader *)
          if decide (Some (material mesh) = CoolingViz.channelMaterial (cv w))
          then set_outerMesh (set_material saved mesh) w
          else w
      | _, _ => w
      end in
    with_cv {| CoolingViz.cutawayGroup := CoolingViz.cutawayGroup (cv w);
               CoolingViz.crossSectionGroup := CoolingViz.crossSectionGroup (cv w);
               CoolingViz.channelShaderActive := false;
               CoolingViz.clippingPlane := CoolingViz.clippingPlane (cv w);
               CoolingViz.clippedMaterials := CoolingViz.clippedMaterials (cv w);
               CoolingViz.channelMaterial := None;
               CoolingViz.coolantTexture := None;
               CoolingViz.savedOuterMaterial := None |} w
  else w.

Definition applyChannelShader (w : World) : World :=
  match getOuterMesh w with
  | None => w
  | Some mesh =>
      (* coolantTexture = createCoolantTempTexture(temps) *)
      let '(coolantTexture, w) := alloc w in
      let rebuilt :=
        match CoolingViz.channelMaterial (cv w) with
        | None => true
        | Some cm => negb (bool_decide (material mesh = cm))
        end in
      if rebuilt then
        (* first call, or mesh was rebuilt: a new ShaderMaterial *)
        let savedOuterMaterial := material mesh in
        let '(channelMaterial, w) := alloc w in
        let w := set_outerMesh (set_material channelMaterial mesh) w in
        with_cv {| CoolingViz.cutawayGroup := CoolingViz.cutawayGroup (cv w);
                   CoolingViz.crossSectionGroup := CoolingViz.crossSectionGroup (cv w);
                   CoolingViz.channelShaderActive := true;
                   CoolingViz.clippingPlane := CoolingViz.clippingPlane (cv w);
                   CoolingViz.clippedMaterials := CoolingViz.clippedMaterials (cv w);
                   CoolingViz.channelMaterial := Some channelMaterial;
                   CoolingViz.coolantTexture := Some coolantTexture;
                   CoolingViz.savedOuterMaterial := Some savedOuterMaterial |} w
      else
        (* update the uniforms of the existing material *)
        with_cv {| CoolingViz.cutawayGroup := CoolingViz.cutawayGroup (cv w);
                   CoolingViz.crossSectionGroup := CoolingViz.crossSectionGroup (cv w);
                   CoolingViz.channelShaderActive := true;
                   CoolingViz.clippingPlane := CoolingViz.clippingPlane (cv w);
                   CoolingViz.clippedMaterials := CoolingViz.clippedMaterials (cv w);
                   CoolingViz.channelMaterial := CoolingViz.channelMaterial (cv w);
                   CoolingViz.coolantTexture := Some coolantTexture;
                   CoolingViz.savedOuterMaterial := CoolingViz.savedOuterMaterial (cv w) |} w
  end.

Definition enableCutaway (w : World) : World :=
  match Scene.renderer (sc w), Scene.scene (sc w) with
  | Some _, Some _ =>
      let w := set_localClippingEnabled true w in
      let '(clippingPlane, w) := alloc w in
      let clipped := CoolingViz.clippedMaterials (cv w) ++ group_materials w in
      (* cutawayGroup = buildSectionFace(...) *)
      let '(cutawayGroup, w) := alloc w in
      with_cv {| CoolingViz.cutawayGroup := Some cutawayGroup;
                 CoolingViz.crossSectionGroup := CoolingViz.crossSectionGroup (cv w);
                 CoolingViz.channelShaderActive := CoolingViz.channelShaderActive (cv w);
                 CoolingViz.clippingPlane := Some clippingPlane;
                 CoolingViz.clippedMaterials := clipped;
                 CoolingViz.channelMaterial := CoolingViz.channelMaterial (cv w);
                 CoolingViz.coolantTexture := CoolingViz.coolantTexture (cv w);
                 CoolingViz.savedOuterMaterial := CoolingViz.savedOuterMaterial (cv w) |} w
  | _, _ => w
  end.

Definition showCoolingViz (cooling : CoolingCfg) (cutaway : bool) (w : World) : World :=
  (* clear cutaway/cross-section geometry but keep the channel shader alive *)
  let w := clearCutawayAndCrossSection w in
  if negb (enabled cooling) then clearCoolingViz w
  else
    match Scene.scene (sc w) with
    | None => w
    | Some _ =>
        let w := applyChannelShader w in
        if cutaway then enableCutaway w else w
    end.

Definition showCrossSection (cooling : CoolingCfg) (w : World) : World :=
  let w := removeCrossSection w in
  if negb (enabled cooling) then w
  else
    match Scene.scene (sc w) with
    | None => w
    | Some _ =>
        (* crossSectionGroup = buildCrossSectionRing(...) *)
        let '(crossSectionGroup, w) := alloc w in
        with_cv {| CoolingViz.cutawayGroup := CoolingViz.cutawayGroup (cv w);
                   CoolingViz.crossSectionGroup := Some crossSectionGroup;
                   CoolingViz.channelShaderActive := CoolingViz.channelShaderActive (cv w);
                   CoolingViz.clippingPlane := CoolingViz.clippingPlane (cv w);
                   CoolingViz.clippedMaterials := CoolingViz.clippedMaterials (cv w);
                   CoolingViz.channelMaterial := CoolingViz.channelMaterial (cv w);
                   CoolingViz.coolantTexture := CoolingViz.coolantTexture (cv w);
                   CoolingViz.savedOuterMaterial := CoolingViz.savedOuterMaterial (cv w) |} w
    end.

(** ** main.js: the overlay controller *)

(** [x || d] on an optional number: [d] when [x] is undefined, zero or NaN. *)
Definition num_or (x : option JsNum.jsnum) (d : JsNum.jsnum) : JsNum.jsnum :=
  match x with
  | Some (JsNum.Fin q) => if JsNum.is_zero q then d else JsNum.Fin q
  | Some JsNum.NaN | None => d
  | Some v => v
  end.

(** The first part of [applyVisualization]: "Clear all overlays first". *)
Definition clear_overlays (w : World) : World :=
  let vizMode := Main.vizMode (mn w) in
  let w := clearHeatMap w in
  let w := clearStressOverlay w in
  let w := clearFlowViz w in
  let w := if decide (vizMode <> m_cooling) then clearCoolingViz w else w in
  if decide (vizMode <> m_flow) then setInternalFlowVisible false w else w.

(** The second part: the [if / else if] chain on [vizMode]. *)
Definition apply_overlay (d : SimData) (w : World) : World :=
  let vizMode := Main.vizMode (mn w) in
  let st := stations d in
  match vizMode, st ≫= wall_temp_inner_K, st ≫= von_mises_stress_MPa, st ≫= mach,
        Main.lastMeshData (mn w) with
  | m_heatmap, Some temps, _, _, _ => (applyHeatMap temps w).1
  | m_stress, _, Some stress, _, _ =>
      let yieldMPa := num_or (Main.yield_strength_MPa (mn w)) (JsNum.num 200) in
      applyStressOverlay stress yieldMPa w
  | m_flow, _, _, Some machArray, _ =>
      let w := applyFlowVisualization (Some machArray) (cooling d) w in
      setInternalFlowVisible (Main.simRunning (mn w)) w
  | m_cooling, _, _, _, Some lastMeshData =>
      let coolingCfg := Main.currentCooling (mn w) in
      let w := showCoolingViz coolingCfg true w in
      showCrossSection coolingCfg w
  | _, _, _, _, _ => w
  end.

Definition applyVisualization (w : World) : World :=
  match Main.lastSimData (mn w) with
  | None => w
  | Some d => apply_overlay d (clear_overlays w)
  end.

(** *** The event handlers that touch the overlays *)

Definition set_vizMode (m : VizMode) (w : World) : World :=
  with_mn {| Main.vizMode := m;
             Main.lastSimData := Main.lastSimData (mn w);
             Main.lastMeshData := Main.lastMeshData (mn w);
             Main.simRunning := Main.simRunning (mn w);
             Main.yield_strength_MPa := Main.yield_strength_MPa (mn w);
             Main.currentCooling := Main.currentCooling (mn w);
             Main.sectionSlider := Main.sectionSlider (mn w) |} w.

Definition set_lastSimData (d : SimData) (w : World) : World :=
  with_mn {| Main.vizMode := Main.vizMode (mn w);
             Main.lastSimData := Some d;
             Main.lastMeshData := Main.lastMeshData (mn w);
             Main.simRunning := Main.simRunning (mn w);
             Main.yield_strength_MPa := Main.yield_strength_MPa (mn w);
             Main.currentCooling := Main.currentCooling (mn w);
             Main.sectionSlider := Main.sectionSlider (mn w) |} w.

Definition set_lastMeshData (d : MeshData) (w : World) : World :=
  with_mn {| Main.vizMode := Main.vizMode (mn w);
             Main.lastSimData := Main.lastSimData (mn w);
             Main.lastMeshData := Some d;
             Main.simRunning := Main.simRunning (mn w);
             Main.yield_strength_MPa := Main.yield_strength_MPa (mn w);
             Main.currentCooling := Main.currentCooling (mn w);
             Main.sectionSlider := Main.sectionSlider (mn w) |} w.

Definition set_simRunning (b : bool) (w : World) : World :=
  with_mn {| Main.vizMode := Main.vizMode (mn w);
             Main.lastSimData := Main.lastSimData (mn w);
             Main.lastMeshData := Main.lastMeshData (mn w);
             Main.simRunning := b;
             Main.yield_strength_MPa := Main.yield_strength_MPa (mn w);
             Main.currentCooling := Main.currentCooling (mn w);
             Main.sectionSlider := Main.sectionSlider (mn w) |} w.

Definition set_ui (y : option JsNum.jsnum) (c : CoolingCfg) (s : Z) (w : World) : World :=
  with_mn {| Main.vizMode := Main.vizMode (mn w);
             Main.lastSimData := Main.lastSimData (mn w);
             Main.lastMeshData := Main.lastMeshData (mn w);
             Main.simRunning := Main.simRunning (mn w);
             Main.yield_strength_MPa := y;
             Main.currentCooling := c;
             Main.sectionSlider := s |} w.

(** A click on a visualization button. *)
Definition onVizButton (m : VizMode) (w : World) : World :=
  applyVisualization (set_vizMode m w).

(** [onSimTick]: the overlay is applied again with the new data. *)
Definition onSimTick (d : SimData) (w : World) : World :=
  let w := set_lastSimData d w in
  let w :=
    match Main.lastMeshData (mn w), stations d ≫= mach with
    | Some _, Some _ =>
        setInternalFlowVisible
          (Main.simRunning (mn w) && bool_decide (Main.vizMode (mn w) = m_flow)) w
    | _, _ => w
    end in
  applyVisualization w.

(** [onMeshUpdate]: the mesh is rebuilt and the internal flow system is
    created again; no overlay is applied. *)
Definition onMeshUpdate (d : MeshData) (w : World) : result World :=
  let w := set_lastMeshData d w in
  w ← buildEngineMesh d w;
  (* createInternalFlow(scene); setInternalFlowVisible(...) *)
  let w := with_internalFlowVisible (Some true) w in
  Ok (setInternalFlowVisible
        (Main.simRunning (mn w) && bool_decide (Main.vizMode (mn w) = m_flow)) w).

(** The section slider. *)
Definition onSectionSlider (pct : Z) (w : World) : World :=
  let w := set_ui (Main.yield_strength_MPa (mn w)) (Main.currentCooling (mn w)) pct w in
  match bool_decide (Main.vizMode (mn w) = m_cooling),
        Main.lastMeshData (mn w), Main.lastSimData (mn w) with
  | true, Some _, Some _ => showCrossSection (Main.currentCooling (mn w)) w
  | _, _, _ => w
  end.

(** One step of the page: an event and the state after its handler.  The
    UI may also change the selected material, the cooling configuration and
    the running flag; these handlers apply no overlay. *)
Inductive event : Type :=
| VizButton (m : VizMode)
| SimTick (d : SimData)
| MeshUpdate (d : MeshData)
| SectionSlider (pct : Z)
| SetRunning (b : bool)
| SetUi (y : option JsNum.jsnum) (c : CoolingCfg).

Definition handle (e : event) (w : World) : result World :=
  match e with
  | VizButton m => Ok (onVizButton m w)
  | SimTick d => Ok (onSimTick d w)
  | MeshUpdate d => onMeshUpdate d w
  | SectionSlider pct => Ok (onSectionSlider pct w)
  | SetRunning b => Ok (set_simRunning b w)
  | SetUi y c => Ok (set_ui y c (Main.sectionSlider (mn w)) w)
  end.

(** The states the page can reach from [initial_world].  The page goes on
    after a handler has thrown, the exception being caught where the
    handler was called, with the assignments the handler made until then:
    [onMeshUpdate] throws in [buildEngineMesh], after [lastMeshData = data];
    [onSimTick] can throw after [lastSimData = data] (in the readout, or in
    [updateInternalFlow] on a missing array), before the overlay is applied
    again. *)
Inductive reachable : World -> Prop :=
| reachable_init : reachable initial_world
| reachable_step e w w' : reachable w -> handle e w = Ok w' -> reachable w'
| reachable_mesh_thrown d w :
    reachable w -> onMeshUpdate d w = Throw TypeError ->
    reachable (buildEngineMesh_aborted d (set_lastMeshData d w))
| reachable_tick_thrown d w :
    reachable w -> reachable (set_lastSimData d w).

(** *** Which overlay is in effect *)

(** The outer wall shows the heat map: its material is [heatMaterial]. *)
Definition thermal_active (w : World) : Prop :=
  exists mesh, getOuterMesh w = Some mesh
    /\ HeatMap.heatMaterial (hm w) = Some (material mesh).

Definition stress_active (w : World) : Prop :=
  exists mesh, getOuterMesh w = Some mesh
    /\ StressOverlay.stressMaterial (so w) = Some (material mesh).

(** The flow overlay has coloured the inner wall or drawn its arrows. *)
Definition flow_active (w : World) : Prop :=
  FlowViz.flowColorsApplied (fv w) = true \/ FlowViz.coolantArrows (fv w) <> None.

(** The cooling overlay has its shader, cut-away or cross-section in place. *)
Definition cooling_active (w : World) : Prop :=
  CoolingViz.channelShaderActive (cv w) = true
  \/ CoolingViz.cutawayGroup (cv w) <> None
  \/ CoolingViz.crossSectionGroup (cv w) <> None.

Definition overlay_active (m : VizMode) (w : World) : Prop :=
  match m with
  | m_normal => False
  | m_heatmap => thermal_active w
  | m_stress => stress_active w
  | m_flow => flow_active w
  | m_cooling => cooling_active w
  end.

(** "At most one overlay is active". *)
Definition at_most_one_active (w : World) : Prop :=
  forall m1 m2, overlay_active m1 w -> overlay_active m2 w -> m1 = m2.

(** The rule in the words of the specification: every overlay's clear
    action, then the apply action of the selected overlay. *)
Definition clear_all (w : World) : World :=
  clearCoolingViz (clearFlowViz (clearStressOverlay (clearHeatMap w))).

Definition clear_all_then_apply (w : World) : World :=
  match Main.lastSimData (mn w) with
  | None => w
  | Some d =>
      let w := clear_all w in
      let w := if decide (Main.vizMode (mn w) <> m_flow)
               then setInternalFlowVisible false w else w in
      apply_overlay d w
  end.

(** ** Bookkeeping of material references

    What the proofs about the overlay controller keep track of: which
    references the overlay modules hold, and that [new] never returns one
    of them again. *)

Definition outer_material (w : World) : option ref :=
  material <$> getOuterMesh w.

(** The reference, when there is one, was allocated before [n]. *)
Definition below (n : ref) (o : option ref) : Prop :=
  match o with Some r => (r < n)%nat | None => True end.

(** Two optional references are not the same object. *)
Definition apart (a b : option ref) : Prop :=
  match a, b with Some x, Some y => x <> y | _, _ => True end.

(** The overlay materials are allocated, distinct from each other and from
    every material an overlay module remembers for restoring; a module
    that owns an overlay material has captured an original. *)
Definition refs_ok (w : World) : Prop :=
  let n := next w in
  let heat := HeatMap.heatMaterial (hm w) in
  let stress := StressOverlay.stressMaterial (so w) in
  let heatOrig := HeatMap.originalMaterial (hm w) in
  let stressOrig := StressOverlay.originalMaterial (so w) in
  let saved := CoolingViz.savedOuterMaterial (cv w) in
  (below n heat /\ below n stress /\ below n heatOrig /\ below n stressOrig
   /\ below n saved /\ below n (outer_material w))
  /\ (heat <> None -> heatOrig <> None)
  /\ (stress <> None -> stressOrig <> None)
  /\ apart heat stress
  /\ (apart heatOrig heat /\ apart heatOrig stress)
  /\ (apart stressOrig heat /\ apart stressOrig stress)
  /\ (apart saved heat /\ apart saved stress).

(** Every overlay in effect is the one of the selected mode, and none is in
    effect before the first simulation tick. *)
Definition overlay_follows_mode (w : World) : Prop :=
  forall m, overlay_active m w ->
    m = Main.vizMode (mn w) /\ Main.lastSimData (mn w) <> None.

(** The events after one another; a throwing handler ends the run. *)
Fixpoint run (es : list event) (w : World) : result World :=
  match es with
  | [] => Ok w
  | e :: es => w ← handle e w; run es w
  end.

Definition is_rebuild (e : event) : bool :=
  match e with MeshUpdate _ => true | _ => false end.

(** The outer wall will get [m0] back: every module that remembers a
    material remembers [m0], and the wall holds [m0] itself or the material
    of an overlay that remembers it. *)
Definition restores (m0 : ref) (w : World) : Prop :=
  let heatOrig := HeatMap.originalMaterial (hm w) in
  let stressOrig := StressOverlay.originalMaterial (so w) in
  let active := CoolingViz.channelShaderActive (cv w) in
  exists mesh, getOuterMesh w = Some mesh
    /\ (heatOrig = None \/ heatOrig = Some m0)
    /\ (stressOrig = None \/ stressOrig = Some m0)
    /\ (CoolingViz.channelMaterial (cv w) <> None -> active = true)
    /\ (active = true -> CoolingViz.savedOuterMaterial (cv w) = Some m0)
    /\ (Main.lastSimData (mn w) = None -> material mesh = m0)
    /\ (material mesh = m0
        \/ (HeatMap.heatMaterial (hm w) = Some (material mesh) /\ heatOrig = Some m0)
        \/ (StressOverlay.stressMaterial (so w) = Some (material mesh)
            /\ stressOrig = Some m0)
        \/ (active = true
            /\ CoolingViz.channelMaterial (cv w) = Some (material mesh))).

(** The same, when the heat map and the stress overlay are off the wall:
    it holds [m0] or the channel shader. *)
Definition restores_cool (m0 : ref) (w : World) : Prop :=
  restores m0 w
  /\ exists mesh, getOuterMesh w = Some mesh
       /\ (material mesh = m0
           \/ (CoolingViz.channelShaderActive (cv w) = true
               /\ CoolingViz.channelMaterial (cv w) = Some (material mesh))).

(** The same, when the wall holds [m0] itself. *)
Definition restores_plain (m0 : ref) (w : World) : Prop :=
  restores m0 w /\ outer_material w = Some m0.

(** What [clearCoolingViz] leaves. *)
Definition cooling_cleared (w : World) : Prop :=
  CoolingViz.cutawayGroup (cv w) = None
  /\ CoolingViz.crossSectionGroup (cv w) = None
  /\ CoolingViz.channelShaderActive (cv w) = false
  /\ CoolingViz.clippingPlane (cv w) = None
  /\ CoolingViz.clippedMaterials (cv w) = []
  /\ (Scene.renderer (sc w) <> None -> Scene.localClippingEnabled (sc w) = false).

(** ** Proof automation for the scene state *)

Set Warnings "-clear-no-such-hyp".

Ltac destruct_world w :=
  destruct w as [[scene renderer clipping]
                 [outerM innerM group walls nStations nCirc]
                 [heatOrig heatMat] [stressOrig stressMat]
                 [arrows flowApplied]
                 [cutaway crossSection shaderActive plane clipped chanMat coolTex savedMat]
                 [mode simData meshData running yield coolingCfg slider]
                 flowVisible nxt].

(** Evaluation of the overlay functions on an explicit state, by value. *)
Ltac wcbv :=
  cbv [clearHeatMap clearStressOverlay clearFlowViz clearCoolingViz
       applyHeatMap applyStressOverlay applyFlowVisualization
       clearCutawayAndCrossSection removeCrossSection removeCoolantArrows
       set_localClippingEnabled setInternalFlowVisible
       applyChannelShader enableCutaway showCoolingViz showCrossSection
       drawCoolantFlow group_materials
       getOuterMesh getInnerMesh getStationCount getCircumSegments
       set_outerMesh set_innerMesh set_material set_color set_vertexColors
       with_sc with_em with_hm with_so with_fv with_cv with_mn
       with_internalFlowVisible with_next alloc
       set_vizMode set_lastSimData set_lastMeshData set_simRunning set_ui
       sc em hm so fv cv mn internalFlowVisible next
       geometry color material vertexColors enabled
       Scene.scene Scene.renderer Scene.localClippingEnabled
       EngineMesh.outerMesh EngineMesh.innerMesh EngineMesh.currentGroup
       EngineMesh.groupWalls EngineMesh.stationCount EngineMesh.circumSegments
       HeatMap.originalMaterial HeatMap.heatMaterial
       StressOverlay.originalMaterial StressOverlay.stressMaterial
       FlowViz.coolantArrows FlowViz.flowColorsApplied
       CoolingViz.cutawayGroup CoolingViz.crossSectionGroup
       CoolingViz.channelShaderActive CoolingViz.clippingPlane
       CoolingViz.clippedMaterials CoolingViz.channelMaterial
       CoolingViz.coolantTexture CoolingViz.savedOuterMaterial
       Main.vizMode Main.lastSimData Main.lastMeshData Main.simRunning
       Main.yield_strength_MPa Main.currentCooling Main.sectionSlider
       outer_material refs_ok restores restores_cool restores_plain
       overlay_follows_mode cooling_cleared
       overlay_active thermal_active stress_active flow_active cooling_active
       negb fst snd from_option fmap option_fmap option_map] in *.

Ltac world_case :=
  match goal with
  | |- context [match ?x with _ => _ end] => is_var x; destruct x
  | |- context [decide ?P] => destruct (decide P)
  | |- context [bool_decide ?P] => destruct (bool_decide_reflect P)
  | H : context [match ?x with _ => _ end] |- _ => is_var x; destruct x
  | H : context [decide ?P] |- _ => destruct (decide P)
  | H : context [bool_decide ?P] |- _ => destruct (bool_decide_reflect P)
  end.

Ltac crush_world :=
  wcbv; repeat (world_case; simplify_eq; wcbv); try done.

Ltac split_all :=
  repeat match goal with
         | H : _ /\ _ |- _ => destruct H
         | H : ex _ |- _ => destruct H
         | |- _ /\ _ => split
         | |- forall m : VizMode, _ => intros []
         | |- forall _, _ => intro
         end.

(** ** Colours in the unit cube *)

(** Each component is an ordinary number between 0 and 1. *)
Definition rgb_in_unit (c : ColorScales.rgb) : Prop :=
  JsNum.in_unit c.1.1 /\ JsNum.in_unit c.1.2 /\ JsNum.in_unit c.2.

(** ** Views of the cap geometries *)

(** The two triangles that [createEndCapGeometry] pushes for segment [j]. *)
Definition cap_triangles (faceNegativeX : bool) (j : nat) : list nat :=
  let i0 := (j * 2)%nat in
  let o0 := (j * 2 + 1)%nat in
  let i1 := ((j + 1) * 2)%nat in
  let o1 := ((j + 1) * 2 + 1)%nat in
  if faceNegativeX then [i0; o0; i1; i1; o0; o1] else [i0; i1; o0; o0; i1; o1].
(** ** flame_particles.js: the exhaust plume particles (over [Q])

    [Math.random()] is a sequence of draws, [Math_random k] being the
    [k]-th value returned since the page was loaded; the state counts the
    draws.  [Math.pow] is a parameter.  The particle arrays are
    [Float32Array]s: [fl] is the rounding to double after each arithmetic
    operation (a number literal is the double nearest to it) and [fround]
    the rounding to single precision when a value is stored; what is read
    back from an array is the stored value.  The derived plume quantities,
    which [updateFlame] also recomputes and sends to the shader, do not
    touch the particle arrays; they are modelled in [PlumePhysics] below. *)

Module FlameParticles.
Section Particles.
Local Open Scope Q_scope.

Variable Math_random : nat -> Q.
Variable Math_pow : Q -> Q -> Q.
Variable fl : Q -> Q.
Variable fround : Q -> Q.

Definition PARTICLE_COUNT : nat := 4000.

(** The typed arrays of the particle geometry and the number of random
    draws made so far. *)
Record ParticleSystem : Type := {
  positions : list Q;
  lifetimes : list Q;
  seeds : list Q;
  radii : list Q;
  draws : nat
}.

Definition resetParticle (i : nat) (_exitX : Q) (s : ParticleSystem) : ParticleSystem :=
  (* all particles originate at the nozzle exit *)
  let positions :=
    <[(i * 3 + 2)%nat := 0]> (<[(i * 3 + 1)%nat := 0]>
      (<[(i * 3)%nat := fround _exitX]> (positions s))) in
  (* stagger lifetime so the plume is always populated *)
  let lifetimes := <[i := fround (Math_random (draws s))]> (lifetimes s) in
  let radii :=
    <[i := fround (Math_pow (Math_random (S (draws s))) (fl 0.6))]> (radii s) in
  {| positions := positions; lifetimes := lifetimes; seeds := seeds s;
     radii := radii; draws := S (S (draws s)) |}.

Definition createFlameSystem (exitX : Q) (draws0 : nat) : ParticleSystem :=
  fold_left
    (fun s i =>
       let s := {| positions := positions s; lifetimes := lifetimes s;
                   seeds := <[i := fround (Math_random (draws s))]> (seeds s);
                   radii := radii s; draws := S (draws s) |} in
       resetParticle i exitX s)
    (seq 0 PARTICLE_COUNT)
    {| positions := replicate (PARTICLE_COUNT * 3) 0;
       lifetimes := replicate PARTICLE_COUNT 0;
       seeds := replicate PARTICLE_COUNT 0;
       radii := replicate PARTICLE_COUNT 0;
       draws := draws0 |}.

(** [lifetimes[i] += speed + Math.random() * 0.002], as the array holds it
    afterwards, for a lifetime [l] and the draw number [k]. *)
Definition advanced (speed l : Q) (k : nat) : Q :=
  fround (fl (l + fl (speed + fl (Math_random k * fl 0.002)))).

(** [const speed = 0.006 + thrustScale * 0.008] *)
Definition speed_of (thrustScale : Q) : Q :=
  fl (fl 0.006 + fl (thrustScale * fl 0.008)).

(** The body of the loop of [updateFlame] for particle [i]: the test reads
    the lifetime back from the array. *)
Definition advance_particle (exitX speed : Q) (s : ParticleSystem) (i : nat)
  : ParticleSystem :=
  let l := advanced speed (default 0 (lifetimes s !! i)) (draws s) in
  let s := {| positions := positions s; lifetimes := <[i := l]> (lifetimes s);
              seeds := seeds s; radii := radii s; draws := S (draws s) |} in
  if negb (Qle_bool l 1.0) then resetParticle i exitX s else s.

Definition updateFlame (exitX exitRadius thrustScale : Q)
    (particleSystem : option ParticleSystem) : option ParticleSystem :=
  match particleSystem with
  | None => None
  | Some s =>
      (* particle advection speed proportional to thrust *)
      let speed := speed_of thrustScale in
      Some (fold_left (advance_particle exitX speed) (seq 0 PARTICLE_COUNT) s)
  end.

(** What [resetParticle] leaves for particle [i] when the draw before it
    was number [k]: the next draw as lifetime, the nozzle exit as position,
    and a radial fraction from the draw after that. *)
Definition reborn (exitX : Q) (k i : nat) (s : ParticleSystem) : Prop :=
  lifetimes s !! i = Some (fround (Math_random (S k)))
  /\ positions s !! (i * 3)%nat = Some (fround exitX)
  /\ positions s !! (i * 3 + 1)%nat = Some 0
  /\ positions s !! (i * 3 + 2)%nat = Some 0
  /\ radii s !! i = Some (fround (Math_pow (Math_random (S (S k))) (fl 0.6))).

(** What one [updateFlame] leaves for a particle of lifetime [l], when its
    advance used draw number [k]. *)
Definition outcome (exitX speed l : Q) (k i : nat) (s : ParticleSystem) : Prop :=
  let l1 := advanced speed l k in
  if Qle_bool l1 1.0 then lifetimes s !! i = Some l1 else reborn exitX k i s.

(** The entries of particle [i]. *)
Definition entries (s : ParticleSystem) (i : nat) :=
  (lifetimes s !! i, positions s !! (i * 3)%nat, positions s !! (i * 3 + 1)%nat,
   positions s !! (i * 3 + 2)%nat, radii s !! i).

Definition sizes (s : ParticleSystem) :=
  (length (lifetimes s), length (positions s), length (radii s)).

(** The arrays have their [PARTICLE_COUNT] entries. *)
Definition well_sized (s : ParticleSystem) : Prop :=
  length (lifetimes s) = PARTICLE_COUNT
  /\ length (positions s) = (PARTICLE_COUNT * 3)%nat
  /\ length (radii s) = PARTICLE_COUNT.

End Particles.
End FlameParticles.

(** ** internal_flow.js: the internal flow particles (over [Q])

    A lifetime is a number or NaN, here [None]: reading an array outside
    its bounds gives [undefined], arithmetic on it gives NaN, every
    comparison with NaN is false, and NaN stays NaN.  The arithmetic is
    exact: rounding moves a lifetime by rounding error, and a lifetime that
    rounds to 1.0 in the array wraps to 0. *)

Module InternalFlow.
Section Particles.
Local Open Scope Q_scope.

Definition PARTICLE_COUNT : nat := 2000.

(** [Math.max(...velocity_m_s, 1.0)] *)
Definition max_velocity (velocity_m_s : list Q) : Q :=
  Qmax (fold_left Qmax velocity_m_s 1.0) 1.0.

(** [velocity_m_s[k]] for an integer [k]: [None] is [undefined]. *)
Definition vel (velocity_m_s : list Q) (k : Z) : option Q := js_get velocity_m_s k.

(** [if (t >= 1.0) t -= 1.0] *)
Definition wrap (t : Q) : Q := if Qle_bool 1.0 t then t - 1.0 else t.

(** The body of the loop of [updateInternalFlow]: the new lifetime of a
    particle of lifetime [t]. *)
Definition advance_lookup (velocity_m_s : list Q) (_maxVelocity : Q) (t : option Q)
  : option Q :=
  t ← t;
  let nStations := Z.of_nat (length velocity_m_s) in
  let dt := 0.012 in
  let srcIdx := t * inject_Z (nStations - 1) in
  let lo := Qfloor srcIdx in
  let hi := Z.min (lo + 1) (nStations - 1) in
  let frac := srcIdx - inject_Z lo in
  vlo ← vel velocity_m_s lo;
  vhi ← vel velocity_m_s hi;
  let localVel := vlo * (1 - frac) + vhi * frac in
  let speedFactor := localVel / _maxVelocity in
  (* wrap around: the particle re-enters from the chamber end *)
  Some (wrap (t + dt * (0.3 + 0.7 * speedFactor))).

(** [lifetimes[i]], NaN beyond the array. *)
Definition lifetime_at (ls : list (option Q)) (i : nat) : option Q := mjoin (ls !! i).

(** The argument of [updateInternalFlow]; a field can be [undefined]. *)
Record FlowData : Type := {
  station_x : option (list Q);
  station_r_inner : option (list Q);
  velocity_m_s : option (list Q);
  temperature_K : option (list Q)
}.

(** [a.length] and [...a] throw a TypeError when [a] is [undefined]. *)
Definition present {A} (a : option A) : result A :=
  match a with
  | Some a => Ok a
  | None => Throw TypeError
  end.

(** [updateInternalFlow], on the lifetimes: nothing happens without a
    particle system or with fewer than two stations.  The textures are
    filled from [station_r_inner], [velocity_m_s] and [temperature_K], and
    the extremes of the last two are taken, before the loop: a missing
    array throws there. *)
Definition updateInternalFlow (flowData : FlowData)
    (lifetimes : option (list (option Q))) : result (option (list (option Q))) :=
  match lifetimes with
  | None => Ok None
  | Some ls =>
      match station_x flowData with
      | None => Ok (Some ls)
      | Some station_x =>
          if (length station_x <? 2)%nat then Ok (Some ls)
          else
            _ ← present (station_r_inner flowData);
            velocity_m_s ← present (velocity_m_s flowData);
            _ ← present (temperature_K flowData);
            let _maxVelocity := max_velocity velocity_m_s in
            Ok (Some (fold_left
                  (fun ls i =>
                     <[i := advance_lookup velocity_m_s _maxVelocity (lifetime_at ls i)]> ls)
                  (seq 0 PARTICLE_COUNT) ls))
      end
  end.

(** The body of the loop of [advanceInternalFlowParticles]. *)
Definition advance_frame (t : option Q) : option Q :=
  t ← t;
  let dt := 0.012 in
  Some (wrap (t + dt * 0.6)).

Definition advanceInternalFlowParticles (_maxVelocity : Q)
    (lifetimes : option (list (option Q))) : option (list (option Q)) :=
  match lifetimes with
  | None => None
  | Some ls =>
      if Qle_bool _maxVelocity 0 then Some ls
      else
        Some (fold_left
                (fun ls i => <[i := advance_frame (lifetime_at ls i)]> ls)
                (seq 0 PARTICLE_COUNT) ls)
  end.

(** One advancement call, per tick or per frame. *)
Inductive advancement : Type :=
| Tick (flowData : FlowData)
| Frame (_maxVelocity : Q).

(** The lifetimes after a call; a call that throws leaves them as they
    were, the exception being caught by the caller of the handler. *)
Definition advance (a : advancement) (lifetimes : option (list (option Q)))
  : option (list (option Q)) :=
  match a with
  | Tick flowData =>
      match updateInternalFlow flowData lifetimes with
      | Ok lifetimes' => lifetimes'
      | Throw _ => lifetimes
      end
  | Frame mv => advanceInternalFlowParticles mv lifetimes
  end.

(** A lifetime in [0, 1): a number, not NaN. *)
Definition in_unit (t : option Q) : Prop :=
  match t with
  | Some t => 0 <= t /\ t < 1
  | None => False
  end.

(** A tick whose velocity array, when it has one, is non-negative and not
    empty. *)
Definition good_call (a : advancement) : Prop :=
  match a with
  | Tick flowData =>
      match velocity_m_s flowData with
      | Some v => Forall (fun x => 0 <= x) v /\ v <> []
      | None => True
      end
  | Frame _ => True
  end.

End Particles.
End InternalFlow.

(** ** flame_particles.js: the derived plume quantities (over the reals) *)

Module PlumePhysics.
Local Open Scope R_scope.

Record ExhaustPhysics : Type := {
  exit_mach : R;
  exit_pressure_Pa : R;
  ambient_pressure_Pa : R;
  exit_temperature_K : R;
  gamma : R
}.

Record Derived : Type := {
  _pressureRatio : R;
  _shockSpacing : R;
  _plumeHalfAngle : R;
  _plumeLength : R
}.

(** The half-angle as [_recomputeDerived] computes it from the guarded
    Mach number and the pressure ratio. *)
Definition half_angle (M pressureRatio : R) : R :=
  let a := asin (1.0 / M) in
  if Rlt_dec 1.0 pressureRatio then
    (* widen by up to ~2x for very underexpanded jets *)
    let expansion := 1.0 + 0.4 * ln pressureRatio in
    a * Rmin expansion 2.5
  else
    (* overexpanded: plume narrows *)
    a * Rmax (0.5 * pressureRatio) 0.15.

Definition _recomputeDerived (_exhaustPhysics : ExhaustPhysics) (_exitR : R) : Derived :=
  let M := Rmax (exit_mach _exhaustPhysics) 1.01 in
  let Pe := exit_pressure_Pa _exhaustPhysics in
  let Pa := ambient_pressure_Pa _exhaustPhysics in
  let pressureRatio := Pe / Rmax Pa 1.0 in
  let D_exit := 2.0 * _exitR in
  let basePlumeLength := Rmax (_exitR * 14) 0.15 in
  {| _pressureRatio := pressureRatio;
     _plumeHalfAngle := half_angle M pressureRatio;
     _shockSpacing := 1.22 * D_exit * sqrt (M * M - 1.0);
     _plumeLength :=
       if Rlt_dec 1.0 pressureRatio
       then basePlumeLength * (1.0 + 0.6 * ln pressureRatio)
       else basePlumeLength * Rmax 0.4 pressureRatio |}.

(** The half-angle for an exit Mach number and a pressure ratio [Pe/Pa],
    the other inputs fixed: ambient pressure 1 Pa (so that the ratio is the
    exit pressure), any temperature, gamma and exit radius. *)
Definition plume_half_angle (mach ratio : R) : R :=
  _plumeHalfAngle
    (_recomputeDerived
       {| exit_mach := mach; exit_pressure_Pa := ratio; ambient_pressure_Pa := 1;
          exit_temperature_K := 1800; gamma := 1.2 |} 0.02).

(** The factor applied to the Mach angle. *)
Definition widening (r : R) : R :=
  if Rlt_dec 1.0 r then Rmin (1.0 + 0.4 * ln r) 2.5 else Rmax (0.5 * r) 0.15.

End PlumePhysics.

(** ** internal_flow.js and cooling_viz.js: the data textures (over [Q])

    A texture is its typed array, four entries per texel.  In the float
    textures a read outside the source array gives 0 in the model
    ([undefined] in JavaScript); the theorems show that the loops never
    read outside. *)

Module Textures.
Local Open Scope Q_scope.

Definition DATA_TEX_WIDTH : nat := 256.

Definition at_index (a : list Q) (k : Z) : Q := default 0 (js_get a k).

(** The source index of texel [i], [t * (srcLen - 1)] with
    [t = i / (DATA_TEX_WIDTH - 1)]. *)
Definition src_index (srcLen : nat) (i : nat) : Q :=
  let t := inject_Z (Z.of_nat i) / inject_Z (Z.of_nat DATA_TEX_WIDTH - 1) in
  t * inject_Z (Z.of_nat srcLen - 1).

Definition lo_index (srcLen i : nat) : Z := Qfloor (src_index srcLen i).

Definition hi_index (srcLen i : nat) : Z :=
  Z.min (lo_index srcLen i + 1) (Z.of_nat srcLen - 1).

(** The linear interpolation of the source at texel [i]. *)
Definition sample (srcArray : list Q) (i : nat) : Q :=
  let srcLen := length srcArray in
  let srcIdx := src_index srcLen i in
  let lo := lo_index srcLen i in
  let hi := hi_index srcLen i in
  let frac := srcIdx - inject_Z lo in
  at_index srcArray lo * (1 - frac) + at_index srcArray hi * frac.

(** The four writes of one texel. *)
Definition write_texel (i : nat) (r g b a : Q) (data : list Q) : list Q :=
  let base := (i * 4)%nat in
  <[(base + 3)%nat := a]> (<[(base + 2)%nat := b]> (<[(base + 1)%nat := g]>
    (<[base := r]> data))).

Definition fillDataTexture (data : list Q) (srcArray : list Q) : list Q :=
  if (length srcArray =? 0)%nat then data
  else
    fold_left
      (fun data i => write_texel i (sample srcArray i) 0.0 0.0 1.0 data)
      (seq 0 DATA_TEX_WIDTH) data.

(** [xMax - xMin || 1.0] *)
Definition range_or_one (range : Q) : Q := if Qeq_bool range 0 then 1.0 else range.

Definition fillStationXTexture (data : list Q) (stationX : list Q) : list Q :=
  if (length stationX =? 0)%nat then data
  else
    let xMin := at_index stationX 0 in
    let xMax := at_index stationX (Z.of_nat (length stationX) - 1) in
    let range := range_or_one (xMax - xMin) in
    fold_left
      (fun data i =>
         let val := sample stationX i in
         write_texel i val ((val - xMin) / range) 0.0 1.0 data)
      (seq 0 DATA_TEX_WIDTH) data.

(** The texel [i] of a texture. *)
Definition texel (data : list Q) (i : nat) : option (Q * Q * Q * Q) :=
  r ← data !! (i * 4)%nat; g ← data !! (i * 4 + 1)%nat;
  b ← data !! (i * 4 + 2)%nat; a ← data !! (i * 4 + 3)%nat;
  Some (r, g, b, a).

(** *** cooling_viz.js: the coolant temperature texture, a [Uint8Array] *)

Definition TEX_WIDTH : nat := 256.

(** [Math.min(...temps)] and [Math.max(...temps)] of a non-empty array. *)
Definition list_min (temps : list Q) : Q :=
  match temps with [] => 0 | t :: ts => fold_left Qmin ts t end.
Definition list_max (temps : list Q) : Q :=
  match temps with [] => 0 | t :: ts => fold_left Qmax ts t end.

Definition clamp (v lo hi : Q) : Q := Qmax lo (Qmin hi v).

(** [Math.round]: the nearest integer, halves upwards. *)
Definition Math_round (x : Q) : Z := Qfloor (x + 0.5).

(** A store into a [Uint8Array] wraps modulo 256. *)
Definition to_uint8 (z : Z) : Z := (z mod 256)%Z.

Section Bytes.

(** The rounding to double after each arithmetic operation.  The literals
    of these functions (0.5, 1, 128, 255, 300) are doubles. *)
Variable fl : Q -> Q.

(** [norm] at texel [i], for a non-empty temperature array; [None] is NaN,
    from a read of [undefined] outside the array. *)
Definition temp_norm (temps : list Q) (i : nat) : option Q :=
  let tMin := list_min temps in
  let tMax := list_max temps in
  let range := Qmax (fl (tMax - tMin)) 1 in
  let frac := fl (inject_Z (Z.of_nat i) / inject_Z (Z.of_nat TEX_WIDTH - 1)) in
  let sf := fl (frac * inject_Z (Z.of_nat (length temps) - 1)) in
  let s0 := Qfloor sf in
  let s1 := Z.min (s0 + 1) (Z.of_nat (length temps) - 1) in
  let alpha := fl (sf - inject_Z s0) in
  t0 ← js_get temps s0;
  t1 ← js_get temps s1;
  let temp := fl (fl (t0 * fl (1 - alpha)) + fl (t1 * alpha)) in
  Some (clamp (fl (fl (temp - tMin) / range)) 0 1).

(** The red byte of texel [i]: [data[i * 4] = Math.round(norm * 255)]; a
    NaN is stored as 0. *)
Definition temp_byte (temps : list Q) (i : nat) : Z :=
  match temp_norm temps i with
  | Some norm => to_uint8 (Math_round (fl (norm * 255)))
  | None => 0
  end.

Definition createCoolantTempTexture (temps : option (list Q)) : list Z :=
  let red :=
    match temps with
    | Some (t :: ts) => fun i => temp_byte (t :: ts) i
    | _ => fun _ => to_uint8 128
    end in
  flat_map (fun i => [red i; to_uint8 0; to_uint8 0; to_uint8 255]) (seq 0 TEX_WIDTH).

(** *** cooling_viz.js: coolantTempToHex *)

(** [t], and the three channels before they are packed. *)
Definition hex_t (temp : Q) : Q := clamp (fl (fl (temp - 300) / 300)) 0 1.
Definition red_of (t : Q) : Z := Qfloor (fl (t * 255)).
Definition green_of (t : Q) : Z := Qfloor (fl (128 * fl (1 - fl (t * 0.5)))).
Definition blue_of (t : Q) : Z := Qfloor (fl (fl (1 - t) * 255)).

Definition coolantTempToHex (temp : option Q) : Z :=
  match temp with
  | None => 0x0088ff
  | Some temp =>
      let t := hex_t temp in
      let r := red_of t in
      let g := green_of t in
      let b := blue_of t in
      Z.lor (Z.lor (Z.shiftl r 16) (Z.shiftl g 8)) b
  end.

End Bytes.

(** The three bytes of a packed colour. *)
Definition hex_red (hex : Z) : Z := Z.land (Z.shiftr hex 16) 255.
Definition hex_green (hex : Z) : Z := Z.land (Z.shiftr hex 8) 255.
Definition hex_blue (hex : Z) : Z := Z.land hex 255.

End Textures.

(** ** ws_client.js: the WebSocket client

    The client object, with what the browser does around it made explicit:
    [sockets] counts the [WebSocket] objects created so far and [timeouts]
    holds the delays of the pending [setTimeout] calls.  A callback is a
    function object, compared by identity in [off]; it is named by a number.
    Not modelled: [onStatusChange], [send] and [connected], which only read
    the socket, and callbacks that register or remove handlers while a
    message is being dispatched. *)

Module WSClient.

Definition callback : Type := nat.

Record t : Type := {
  ws : option nat;
  handlers : gmap string (list callback);
  reconnectDelay : Z;
  maxReconnectDelay : Z;
  _shouldReconnect : bool;
  sockets : nat;
  timeouts : list Z
}.

Definition set_ws (x : option nat) (n : nat) (s : t) : t :=
  {| ws := x; handlers := handlers s; reconnectDelay := reconnectDelay s;
     maxReconnectDelay := maxReconnectDelay s;
     _shouldReconnect := _shouldReconnect s; sockets := n;
     timeouts := timeouts s |}.
Definition set_handlers (x : gmap string (list callback)) (s : t) : t :=
  {| ws := ws s; handlers := x; reconnectDelay := reconnectDelay s;
     maxReconnectDelay := maxReconnectDelay s;
     _shouldReconnect := _shouldReconnect s; sockets := sockets s;
     timeouts := timeouts s |}.
Definition set_reconnectDelay (x : Z) (s : t) : t :=
  {| ws := ws s; handlers := handlers s; reconnectDelay := x;
     maxReconnectDelay := maxReconnectDelay s;
     _shouldReconnect := _shouldReconnect s; sockets := sockets s;
     timeouts := timeouts s |}.
Definition set_shouldReconnect (x : bool) (s : t) : t :=
  {| ws := ws s; handlers := handlers s; reconnectDelay := reconnectDelay s;
     maxReconnectDelay := maxReconnectDelay s;
     _shouldReconnect := x; sockets := sockets s; timeouts := timeouts s |}.
Definition set_timeouts (x : list Z) (s : t) : t :=
  {| ws := ws s; handlers := handlers s; reconnectDelay := reconnectDelay s;
     maxReconnectDelay := maxReconnectDelay s;
     _shouldReconnect := _shouldReconnect s; sockets := sockets s;
     timeouts := x |}.

(** [new WSClient(url)] *)
Definition constructor : t :=
  {| ws := None; handlers := ∅; reconnectDelay := 1000;
     maxReconnectDelay := 30000; _shouldReconnect := true;
     sockets := 0; timeouts := [] |}.

(** [setTimeout(..., this.reconnectDelay)]: the delay is read when the
    timeout is set. *)
Definition _scheduleReconnect (s : t) : t :=
  set_timeouts (timeouts s ++ [reconnectDelay s]) s.

(** [throws]: whether [new WebSocket(url)] throws. *)
Definition _doConnect (throws : bool) (s : t) : t :=
  if throws then _scheduleReconnect s
  else set_ws (Some (sockets s)) (S (sockets s)) s.

Definition connect (throws : bool) (s : t) : t :=
  _doConnect throws (set_shouldReconnect true s).

(** The handlers installed on every socket. [onerror] only closes the
    socket, after which the browser fires [onclose]. *)
Definition onopen (s : t) : t := set_reconnectDelay 1000 s.

Definition onclose (s : t) : t :=
  if _shouldReconnect s then _scheduleReconnect s else s.

(** The function given to [setTimeout], when the timeout expires. *)
Definition reconnect_timeout (throws : bool) (s : t) : t :=
  if _shouldReconnect s then
    let s := _doConnect throws s in
    set_reconnectDelay
      (Z.min (reconnectDelay s * 2) (maxReconnectDelay s)) s
  else s.

Definition disconnect (s : t) : t := set_shouldReconnect false s.

(** The property names an object literal inherits from [Object.prototype]:
    for them [this.handlers[type]] is truthy before anything is
    registered, and is neither an array nor iterable. *)
Definition inherited (type : string) : bool :=
  bool_decide (type ∈ ["constructor"; "__defineGetter__"; "__defineSetter__";
                        "hasOwnProperty"; "__lookupGetter__";
                        "__lookupSetter__"; "isPrototypeOf";
                        "propertyIsEnumerable"; "toString"; "valueOf";
                        "__proto__"; "toLocaleString"]%string).

Definition on (type : string) (cb : callback) (s : t) : result t :=
  match handlers s !! type with
  | Some l => Ok (set_handlers (<[type := l ++ [cb]]> (handlers s)) s)
  | None =>
      if inherited type then Throw TypeError
      else Ok (set_handlers (<[type := [cb]]> (handlers s)) s)
  end.

Definition off (type : string) (cb : callback) (s : t) : result t :=
  match handlers s !! type with
  | Some l => Ok (set_handlers (<[type := filter (.≠ cb) l]> (handlers s)) s)
  | None => if inherited type then Throw TypeError else Ok s
  end.

(** [for (const cb of ...) cb(payload)] inside the [try]: the callbacks
    called, in order; one that throws ends the loop. *)
Fixpoint call_each (throws : callback -> bool) (l : list callback)
  : list callback :=
  match l with
  | [] => []
  | cb :: l => cb :: (if throws cb then [] else call_each throws l)
  end.

(** [ws.onmessage]: the callbacks called with [msg.payload].  [msg] is
    [None] when [JSON.parse] throws or gives [null]; otherwise it is the
    property key that [msg.type] converts to. *)
Definition onmessage (throws : callback -> bool) (msg : option string)
  (s : t) : list callback :=
  match msg with
  | None => []
  | Some type =>
      match handlers s !! type with
      | Some l => call_each throws l
      | None => []
      end
  end.

(** What can happen to a client: calls of its methods, and the browser
    firing a socket event or the [i]-th pending timeout.  A call of [on] or
    [off] that throws leaves the client as it was. *)
Inductive event : Type :=
| Connect (throws : bool)
| Disconnect
| Open
| Close
| Timeout (i : nat) (throws : bool)
| On (type : string) (cb : callback)
| Off (type : string) (cb : callback).

Definition or_unchanged (s : t) (r : result t) : t :=
  match r with Ok s' => s' | Throw _ => s end.

Definition step (s : t) (e : event) : t :=
  match e with
  | Connect throws => connect throws s
  | Disconnect => disconnect s
  | Open => onopen s
  | Close => onclose s
  | Timeout i throws =>
      match timeouts s !! i with
      | Some _ => reconnect_timeout throws (set_timeouts (delete i (timeouts s)) s)
      | None => s
      end
  | On type cb => or_unchanged s (on type cb s)
  | Off type cb => or_unchanged s (off type cb s)
  end.

Definition run (es : list event) (s : t) : t := fold_left step es s.

(** Every delay in use lies between one and thirty seconds. *)
Definition delays_ok (s : t) : Prop :=
  (1000 <= reconnectDelay s <= 30000)%Z
  /\ maxReconnectDelay s = 30000%Z
  /\ Forall (fun d => 1000 <= d <= 30000)%Z (timeouts s).

Definition is_connect (e : event) : bool :=
  match e with Connect _ => true | _ => false end.

(** Since state [s0] the client has created no socket and set no timeout,
    and it will not reconnect. *)
Definition stopped_since (s0 s : t) : Prop :=
  _shouldReconnect s = false
  /\ sockets s = sockets s0
  /\ timeouts s `sublist_of` timeouts s0.

End WSClient.

(** ** Example data *)

Module Examples.

(** Exit Mach 3 into sea-level air, at a given exit pressure. *)
Definition mach3_at (exit_pressure : R) : PlumePhysics.ExhaustPhysics :=
  {| PlumePhysics.exit_mach := 3; PlumePhysics.exit_pressure_Pa := exit_pressure;
     PlumePhysics.ambient_pressure_Pa := 101325;
     PlumePhysics.exit_temperature_K := 1800; PlumePhysics.gamma := 1.2 |}.

(** One fuel orifice of a given radius at a given place of the face. *)
Definition one_orifice (y z radius : R) : list Geometry.Orifice :=
  [ {| Geometry.o_y := y; Geometry.o_z := z;
       Geometry.o_radius := radius; Geometry.o_type := Geometry.fuel |} ].

End Examples.

Module ExampleWorlds.

(** A mesh payload of two stations. *)
Definition two_stations : MeshData :=
  {| profile_2d := [(0, 0.04); (0.1, 0.03)]%R;
     outer_profile_2d := [(0, 0.05); (0.1, 0.04)]%R;
     injector_orifices := None;
     station_x := [0; 0.1]%R;
     station_r_inner := [0.04; 0.03]%R;
     station_r_outer := [0.05; 0.04]%R |}.

(** A mesh payload of one station, on which [buildEngineMesh] throws. *)
Definition one_station : MeshData :=
  {| profile_2d := [(0, 0.04)]%R;
     outer_profile_2d := [(0, 0.05)]%R;
     injector_orifices := None;
     station_x := [0]%R;
     station_r_inner := [0.04]%R;
     station_r_outer := [0.05]%R |}.

(** A tick with a constant wall temperature, a stress array and a Mach
    array shorter than the mesh. *)
Definition tick : SimData :=
  {| stations :=
       Some {| mach := Some [JsNum.num 0.3];
               wall_temp_inner_K := Some [JsNum.num 300; JsNum.num 300];
               von_mises_stress_MPa := Some [JsNum.num 50; JsNum.num 120] |};
     cooling :=
       Some {| T_coolant_K := Some [JsNum.num 300; JsNum.num 350];
               coolant_velocity_m_s := Some [JsNum.num 12; JsNum.num 15] |} |}.

End ExampleWorlds.

Module ExampleParticles.
Local Open Scope Q_scope.

(** A plume in which every particle has the same lifetime. *)
Definition uniform_plume (lifetime : Q) : FlameParticles.ParticleSystem :=
  {| FlameParticles.positions := replicate (FlameParticles.PARTICLE_COUNT * 3) 0;
     FlameParticles.lifetimes := replicate FlameParticles.PARTICLE_COUNT lifetime;
     FlameParticles.seeds := replicate FlameParticles.PARTICLE_COUNT 0;
     FlameParticles.radii := replicate FlameParticles.PARTICLE_COUNT 0;
     FlameParticles.draws := 0 |}.

(** A random source that always returns the same draw, and a stand-in for
    [Math.pow]. *)
Definition constant_draw (u : Q) : nat -> Q := fun _ => u.
Definition pow_stub : Q -> Q -> Q := fun x _ => x.

(** The flow data of a mesh of two stations with given velocities. *)
Definition flow_of (velocity_m_s : list Q) : InternalFlow.FlowData :=
  {| InternalFlow.station_x := Some [0; 0.1];
     InternalFlow.station_r_inner := Some [0.04; 0.03];
     InternalFlow.velocity_m_s := Some velocity_m_s;
     InternalFlow.temperature_K := Some [3000; 2000] |}.

End ExampleParticles.
(** * Properties *)

(** ** Array reads and loops *)

Lemma js_get_nat {A} (a : list A) (i : nat) : js_get a (Z.of_nat i) = a !! i.
Proof.
  unfold js_get. destruct (Z.ltb_spec (Z.of_nat i) 0); [lia|].
  by rewrite Nat2Z.id.
Qed.

Lemma js_get_neg {A} (a : list A) (i : Z) : (i < 0)%Z -> js_get a i = None.
Proof. intros H. unfold js_get. by destruct (Z.ltb_spec i 0); [|lia]. Qed.

Lemma for_each_app {S} (r1 r2 : list nat) (body : nat -> S -> result S) s :
  for_each (r1 ++ r2) body s = (s' ← for_each r1 body s; for_each r2 body s').
Proof.
  revert s. induction r1 as [|i r1 IH]; intros s; simpl; [done|].
  destruct (body i s); simpl; [apply IH|done].
Qed.

(** Blocks of a fixed size [m], one per index, laid out one after the
    other: entry [c] of block [k] sits at position [k*m + c]. *)
Lemma lookup_blocks {A} (f : nat -> list A) (m : nat) (range : list nat) k c i :
  (forall i, length (f i) = m) ->
  range !! k = Some i -> (c < m)%nat ->
  flat_map f range !! (k * m + c)%nat = f i !! c.
Proof.
  intros Hlen. revert k. induction range as [|i0 range IH]; intros k Hk Hc.
  - by rewrite lookup_nil in Hk.
  - simpl. destruct k as [|k].
    + simpl in Hk. injection Hk as ->. simpl.
      rewrite lookup_app_l; [done|]. by rewrite Hlen.
    + simpl in Hk. rewrite lookup_app_r; rewrite Hlen; [|lia].
      replace (S k * m + c - m)%nat with (k * m + c)%nat by lia.
      by apply IH.
Qed.

Lemma length_blocks {A} (f : nat -> list A) (m : nat) (range : list nat) :
  (forall i, length (f i) = m) ->
  length (flat_map f range) = (length range * m)%nat.
Proof.
  intros Hlen. induction range as [|i range IH]; simpl; [done|].
  rewrite length_app, Hlen, IH. lia.
Qed.

(** ** Rounding *)

Lemma rounding_exact : rounding exact.
Proof. split; unfold exact; intros; [done|reflexivity|reflexivity]. Qed.

Lemma rnd_0 rnd : rounding rnd -> (rnd 0 == 0)%Q.
Proof. intros H. apply (rnd_int rnd H 0). done. Qed.

Lemma rnd_1 rnd : rounding rnd -> (rnd 1 == 1)%Q.
Proof. intros H. apply (rnd_int rnd H 1). done. Qed.

Lemma rnd_nonneg rnd x : rounding rnd -> (0 <= x -> 0 <= rnd x)%Q.
Proof.
  intros H Hx. apply Qle_trans with (rnd 0%Q); [|by apply rnd_mono].
  rewrite (rnd_0 rnd H). apply Qle_refl.
Qed.

Lemma rnd_le_1 rnd x : rounding rnd -> (x <= 1 -> rnd x <= 1)%Q.
Proof.
  intros H Hx. apply Qle_trans with (rnd 1%Q); [by apply rnd_mono|].
  rewrite (rnd_1 rnd H). apply Qle_refl.
Qed.

Lemma rnd_nonpos rnd x : rounding rnd -> (x <= 0 -> rnd x <= 0)%Q.
Proof.
  intros H Hx. apply Qle_trans with (rnd 0%Q); [by apply rnd_mono|].
  rewrite (rnd_0 rnd H). apply Qle_refl.
Qed.

Lemma rnd_ge_1 rnd x : rounding rnd -> (1 <= x -> 1 <= rnd x)%Q.
Proof.
  intros H Hx. apply Qle_trans with (rnd 1%Q); [|by apply rnd_mono].
  rewrite (rnd_1 rnd H). apply Qle_refl.
Qed.

Lemma rnd_proper rnd x y : rounding rnd -> (x == y -> rnd x == rnd y)%Q.
Proof.
  intros H Hxy. apply Qle_antisym; apply (rnd_mono rnd H); rewrite Hxy; apply Qle_refl.
Qed.

Lemma rnd_Z rnd (z : Z) : rounding rnd -> (Z.abs z <= 2 ^ 24)%Z -> (rnd (z # 1) == z # 1)%Q.
Proof. intros H Hz. exact (rnd_int rnd H z Hz). Qed.

Lemma rnd_ge_Z rnd (z : Z) x :
  rounding rnd -> (Z.abs z <= 2 ^ 24)%Z -> (z # 1 <= x -> z # 1 <= rnd x)%Q.
Proof.
  intros H Hz Hx. apply Qle_trans with (rnd (z # 1)%Q); [|by apply rnd_mono].
  rewrite (rnd_Z rnd z H Hz). apply Qle_refl.
Qed.

Lemma rnd_le_Z rnd (z : Z) x :
  rounding rnd -> (Z.abs z <= 2 ^ 24)%Z -> (x <= z # 1 -> rnd x <= z # 1)%Q.
Proof.
  intros H Hz Hx. apply Qle_trans with (rnd (z # 1)%Q); [by apply rnd_mono|].
  rewrite (rnd_Z rnd z H Hz). apply Qle_refl.
Qed.

Lemma rnd_between rnd (lo hi : Z) x :
  rounding rnd -> (Z.abs lo <= 2 ^ 24)%Z -> (Z.abs hi <= 2 ^ 24)%Z ->
  (lo # 1 <= x -> x <= hi # 1 -> lo # 1 <= rnd x /\ rnd x <= hi # 1)%Q.
Proof.
  intros H Hlo Hhi H1 H2. split; [by apply rnd_ge_Z|by apply rnd_le_Z].
Qed.

Lemma rnd_half rnd : rounding rnd -> (rnd (1 # 2) == 1 # 2)%Q.
Proof. intros H. apply (rnd_dyadic rnd H 1 1); [done|]. by compute. Qed.

Lemma rnd_ge_half rnd x : rounding rnd -> (1 # 2 <= x -> 1 # 2 <= rnd x)%Q.
Proof.
  intros H Hx. apply Qle_trans with (rnd (1 # 2)%Q); [|by apply rnd_mono].
  rewrite (rnd_half rnd H). apply Qle_refl.
Qed.

Lemma rnd_le_half rnd x : rounding rnd -> (x <= 1 # 2 -> rnd x <= 1 # 2)%Q.
Proof.
  intros H Hx. apply Qle_trans with (rnd (1 # 2)%Q); [by apply rnd_mono|].
  rewrite (rnd_half rnd H). apply Qle_refl.
Qed.

(** ** engine_mesh.js: createLatheGeometry *)

Section Lathe.
Import Geometry LatheMeasure.
Local Open Scope R_scope.

Lemma fold_push_positions (f g h : nat -> list R) range b :
  positions (fold_left (fun b j => push b (f j) (g j) (h j)) range b)
  = positions b ++ flat_map f range.
Proof.
  revert b. induction range as [|j range IH]; intros b; simpl.
  - by rewrite app_nil_r.
  - rewrite IH. simpl. by rewrite <- app_assoc.
Qed.

Lemma fold_push_normals (f g h : nat -> list R) range b :
  normals (fold_left (fun b j => push b (f j) (g j) (h j)) range b)
  = normals b ++ flat_map g range.
Proof.
  revert b. induction range as [|j range IH]; intros b; simpl.
  - by rewrite app_nil_r.
  - rewrite IH. simpl. by rewrite <- app_assoc.
Qed.

Lemma fold_app_blocks {A} (f : nat -> list A) range (acc : list A) :
  fold_left (fun ix j => ix ++ f j) range acc = acc ++ flat_map f range.
Proof.
  revert acc. induction range as [|j range IH]; intros acc; simpl.
  - by rewrite app_nil_r.
  - rewrite IH. by rewrite <- app_assoc.
Qed.

Lemma js_row_nat (profile2d : profile) (i : nat) :
  (i < length profile2d)%nat -> js_row profile2d (Z.of_nat i) = Ok (pt profile2d i).
Proof.
  intros Hi. unfold js_row, pt. rewrite js_get_nat.
  destruct (lookup_lt_is_Some_2 profile2d i Hi) as [p Hp].
  rewrite Hp. f_equal. symmetry. by apply nth_lookup_Some with (d := (0, 0)) in Hp.
Qed.

Lemma station_frame_ok (profile2d : profile) (i : nat) :
  (2 <= length profile2d)%nat -> (i < length profile2d)%nat ->
  station_frame profile2d i = Ok (frame profile2d i).
Proof.
  intros HN Hi. unfold station_frame, frame.
  rewrite (js_row_nat _ _ Hi). simpl.
  destruct (Z.ltb_spec (Z.of_nat i) (Z.of_nat (length profile2d) - 1)) as [Hlt|Hge].
  - replace (Z.of_nat i + 1)%Z with (Z.of_nat (i + 1)) by lia.
    rewrite js_row_nat by lia. done.
  - replace (Z.of_nat i - 1)%Z with (Z.of_nat (i - 1)) by lia.
    rewrite js_row_nat by lia. done.
Qed.

Lemma lathe_station_ok (profile2d : profile) (nCirc i : nat) b :
  (2 <= length profile2d)%nat -> (i < length profile2d)%nat ->
  exists b', lathe_station profile2d nCirc i b = Ok b'
    /\ positions b' = positions b ++ station_positions profile2d nCirc i
    /\ normals b' = normals b ++ station_normals profile2d nCirc i.
Proof.
  intros HN Hi. unfold lathe_station. rewrite (station_frame_ok _ _ HN Hi).
  unfold station_positions, station_normals.
  destruct (frame profile2d i) as [[[[x r] u] nx] nr]. 
  eexists. split; [reflexivity|].
  by rewrite fold_push_positions, fold_push_normals.
Qed.

Lemma lathe_vertices_ok (profile2d : profile) (nCirc : nat) (range : list nat) b :
  (2 <= length profile2d)%nat ->
  Forall (fun i => (i < length profile2d)%nat) range ->
  exists b', for_each range (lathe_station profile2d nCirc) b = Ok b'
    /\ positions b' = positions b ++ flat_map (station_positions profile2d nCirc) range
    /\ normals b' = normals b ++ flat_map (station_normals profile2d nCirc) range.
Proof.
  intros HN. revert b. induction range as [|i range IH]; intros b Hall.
  - exists b. simpl. by rewrite !app_nil_r.
  - inversion Hall as [|? ? Hi Hrest]; subst.
    destruct (lathe_station_ok profile2d nCirc i b HN Hi) as (b1 & Hb1 & Hp1 & Hn1).
    destruct (IH b1 Hrest) as (b' & Hb' & Hp & Hn).
    exists b'. cbn [for_each]. rewrite Hb1. split; [exact Hb'|].
    rewrite Hp, Hn, Hp1, Hn1. cbn [flat_map]. by rewrite <- !app_assoc.
Qed.

Lemma lathe_indices_blocks (nAxial nCirc : nat) :
  lathe_indices nAxial nCirc
  = flat_map (fun i => flat_map (quad_indices nCirc i) (seq 0 nCirc)) (seq 0 (nAxial - 1)).
Proof.
  unfold lathe_indices.
  rewrite <- (app_nil_l (flat_map _ _)).
  generalize (@nil nat) as acc. generalize (seq 0 (nAxial - 1)) as range.
  induction range as [|i range IH]; intros acc; simpl.
  - by rewrite app_nil_r.
  - rewrite IH, fold_app_blocks. by rewrite <- app_assoc.
Qed.

Lemma length_station_positions profile2d nCirc i :
  length (station_positions profile2d nCirc i) = (S nCirc * 3)%nat.
Proof.
  unfold station_positions. destruct (frame profile2d i) as [[[[x r] u] nx] nr].
  rewrite (length_blocks _ 3); [by rewrite length_seq|done].
Qed.

Lemma length_station_normals profile2d nCirc i :
  length (station_normals profile2d nCirc i) = (S nCirc * 3)%nat.
Proof.
  unfold station_normals. destruct (frame profile2d i) as [[[[x r] u] nx] nr].
  rewrite (length_blocks _ 3); [by rewrite length_seq|done].
Qed.

Lemma length_lathe_indices nAxial nCirc :
  length (lathe_indices nAxial nCirc) = ((nAxial - 1) * (nCirc * 6))%nat.
Proof.
  rewrite lathe_indices_blocks.
  rewrite (length_blocks _ (nCirc * 6)); [by rewrite length_seq|].
  intros i. rewrite (length_blocks _ 6); [by rewrite length_seq|done].
Qed.

Lemma createLatheGeometry_ok (profile2d : profile) (segments : nat) :
  (2 <= length profile2d)%nat ->
  createLatheGeometry profile2d segments
  = Ok {| position := flat_map (station_positions profile2d segments)
                               (seq 0 (length profile2d));
          normal := flat_map (station_normals profile2d segments)
                             (seq 0 (length profile2d));
          uv := match for_each (seq 0 (length profile2d))
                        (lathe_station profile2d segments) no_buffers with
                | Ok b => uvs b
                | Throw _ => []
                end;
          index := lathe_indices (length profile2d) segments |}.
Proof.
  intros HN. unfold createLatheGeometry.
  destruct (lathe_vertices_ok profile2d segments (seq 0 (length profile2d))
              no_buffers HN) as (b & Hb & Hp & Hn).
  { apply Forall_forall. intros i Hi. apply elem_of_seq in Hi. lia. }
  rewrite Hb. cbn. by rewrite Hp, Hn.
Qed.

(** Every corner of every triangle is a vertex [i*(nCirc+1) + j] of the
    grid, with [i] a station and [j <= nCirc]. *)
Lemma lathe_corner (nAxial nCirc t c : nat) :
  (t < 2 * (nAxial - 1) * nCirc)%nat -> (c < 3)%nat ->
  exists i j, (i < nAxial)%nat /\ (j <= nCirc)%nat
    /\ lathe_indices nAxial nCirc !! (3 * t + c)%nat = Some (i * (nCirc + 1) + j)%nat.
Proof.
  intros Ht Hc.
  assert (HS : (0 < nCirc)%nat) by (destruct nCirc; lia).
  set (i := (t / (2 * nCirc))%nat).
  set (rem := (t mod (2 * nCirc))%nat).
  set (j := (rem / 2)%nat).
  set (h := (rem mod 2)%nat).
  assert (Hrem : (rem < 2 * nCirc)%nat) by (apply Nat.mod_upper_bound; lia).
  assert (Hteq : t = (2 * nCirc * i + rem)%nat) by (apply Nat.div_mod_eq).
  assert (Hreq : rem = (2 * j + h)%nat) by (apply Nat.div_mod_eq).
  assert (Hh : (h < 2)%nat) by (apply Nat.mod_upper_bound; lia).
  assert (Hj : (j < nCirc)%nat) by lia.
  assert (Hi : (i < nAxial - 1)%nat) by nia.
  rewrite lathe_indices_blocks.
  replace (3 * t + c)%nat with (i * (nCirc * 6) + (j * 6 + (3 * h + c)))%nat by nia.
  rewrite (lookup_blocks _ (nCirc * 6) _ i _ i).
  - rewrite (lookup_blocks _ 6 _ j _ j); [|done| |lia].
    + unfold quad_indices.
      destruct h as [|[|h]]; [| |lia];
        (destruct c as [|[|[|c]]]; [| | |lia]); simpl;
        [ exists i, j | exists (i + 1)%nat, j | exists i, (j + 1)%nat
        | exists i, (j + 1)%nat | exists (i + 1)%nat, j | exists (i + 1)%nat, (j + 1)%nat ];
        (split; [lia|split; [lia|f_equal; lia]]).
    + rewrite lookup_seq. split; [done|lia].
  - intros k. rewrite (length_blocks _ 6); [by rewrite length_seq|done].
  - rewrite lookup_seq. split; [done|lia].
  - nia.
Qed.

(** The normal stored for vertex [i*(nCirc+1) + j]. *)
Lemma lathe_normal_at (profile2d : profile) (nCirc i j c : nat) :
  (i < length profile2d)%nat -> (j <= nCirc)%nat -> (c < 3)%nat ->
  flat_map (station_normals profile2d nCirc) (seq 0 (length profile2d))
    !! (3 * (i * (nCirc + 1) + j) + c)%nat
  = ring_normals nCirc (frame profile2d i).1.2 (frame profile2d i).2 j !! c.
Proof.
  intros Hi Hj Hc.
  replace (3 * (i * (nCirc + 1) + j) + c)%nat
    with (i * (S nCirc * 3) + (j * 3 + c))%nat by lia.
  rewrite (lookup_blocks _ (S nCirc * 3) _ i _ i).
  - unfold station_normals.
    destruct (frame profile2d i) as [[[[x r] u] nx] nr]. simpl fst; simpl snd.
    rewrite (lookup_blocks _ 3 _ j _ j); [done|done| |done].
    rewrite lookup_seq. split; [done|lia].
  - apply length_station_normals.
  - rewrite lookup_seq. split; [done|lia].
  - nia.
Qed.

Lemma pt_lookup (profile2d : profile) (i : nat) :
  (i < length profile2d)%nat -> profile2d !! i = Some (pt profile2d i).
Proof.
  intros Hi. destruct (lookup_lt_is_Some_2 profile2d i Hi) as [p Hp].
  rewrite Hp. f_equal. symmetry. by apply nth_lookup_Some with (d := (0, 0)) in Hp.
Qed.

(** With strictly increasing axial positions the radial part [nr] of the
    station normal is positive. *)
Lemma frame_nr_pos (profile2d : profile) (i : nat) :
  (2 <= length profile2d)%nat -> (i < length profile2d)%nat ->
  strictly_increasing_x profile2d ->
  0 < (frame profile2d i).2.
Proof.
  intros HN Hi Hinc. unfold frame. cbn [snd].
  set (d := if (Z.of_nat i <? Z.of_nat (length profile2d) - 1)%Z then _ else _).
  assert (Hdx : 0 < d.1).
  { unfold d. destruct (Z.ltb_spec (Z.of_nat i) (Z.of_nat (length profile2d) - 1)).
    - cbn [fst].
      pose proof (Hinc i _ _ (pt_lookup profile2d i Hi)
                    (pt_lookup profile2d (i + 1) ltac:(lia))). lra.
    - cbn [fst].
      pose proof (Hinc (i - 1)%nat (pt profile2d (i - 1)) (pt profile2d i)
                    (pt_lookup profile2d (i - 1) ltac:(lia))) as H1.
      replace (i - 1 + 1)%nat with i in H1 by lia.
      specialize (H1 (pt_lookup profile2d i Hi)). lra. }
  assert (Hlen : 0 < js_or (sqrt (d.1 * d.1 + d.2 * d.2)) 1).
  { unfold js_or. destruct (Req_dec_T _ 0) as [|Hne]; [lra|].
    pose proof (sqrt_pos (d.1 * d.1 + d.2 * d.2)). lra. }
  by apply Rdiv_lt_0_compat.
Qed.

Lemma lathe_vertex_count (profile2d : profile) (segments : nat) :
  (length (flat_map (station_positions profile2d segments)
             (seq 0 (length profile2d))) / 3
   = length profile2d * (segments + 1))%nat.
Proof.
  rewrite (length_blocks _ (S segments * 3)) by apply length_station_positions.
  rewrite length_seq.
  replace (length profile2d * (S segments * 3))%nat
    with (length profile2d * (segments + 1) * 3)%nat by lia.
  by apply Nat.div_mul.
Qed.

Lemma lathe_triangle_count (nAxial segments : nat) :
  (length (lathe_indices nAxial segments) / 3 = 2 * (nAxial - 1) * segments)%nat.
Proof.
  rewrite length_lathe_indices.
  replace ((nAxial - 1) * (segments * 6))%nat
    with (2 * (nAxial - 1) * segments * 3)%nat by lia.
  by apply Nat.div_mul.
Qed.

Lemma createLatheGeometry_vertex_count (profile2d : profile) (segments : nat) :
  (2 <= length profile2d)%nat ->
  exists g, createLatheGeometry profile2d segments = Ok g
    /\ vertex_count g = (length profile2d * (segments + 1))%nat.
Proof.
  intros HN. eexists. split; [by apply createLatheGeometry_ok|].
  apply lathe_vertex_count.
Qed.

(** The position stored for vertex [i*(nCirc+1) + j]. *)
Lemma lathe_position_at (profile2d : profile) (nCirc i j c : nat) :
  (i < length profile2d)%nat -> (j <= nCirc)%nat -> (c < 3)%nat ->
  flat_map (station_positions profile2d nCirc) (seq 0 (length profile2d))
    !! (3 * (i * (nCirc + 1) + j) + c)%nat
  = ring_positions nCirc (pt profile2d i).1 (pt profile2d i).2 j !! c.
Proof.
  intros Hi Hj Hc.
  replace (3 * (i * (nCirc + 1) + j) + c)%nat
    with (i * (S nCirc * 3) + (j * 3 + c))%nat by lia.
  rewrite (lookup_blocks _ (S nCirc * 3) _ i _ i).
  - unfold station_positions, frame. cbv zeta.
    rewrite (lookup_blocks _ 3 _ j _ j); [done|done| |done].
    rewrite lookup_seq. split; [done|lia].
  - apply length_station_positions.
  - rewrite lookup_seq. split; [done|lia].
  - nia.
Qed.

End Lathe.
Section LatheTriangles.
Import Geometry LatheMeasure.
Local Open Scope R_scope.

(** Entry [c] of the quad between stations [i], [i+1] and segments [j],
    [j+1]. *)
Lemma lathe_quad_at (nAxial nCirc i j c : nat) :
  (i < nAxial - 1)%nat -> (j < nCirc)%nat -> (c < 6)%nat ->
  lathe_indices nAxial nCirc !! ((i * nCirc + j) * 6 + c)%nat
  = quad_indices nCirc i j !! c.
Proof.
  intros Hi Hj Hc. rewrite lathe_indices_blocks.
  replace ((i * nCirc + j) * 6 + c)%nat with (i * (nCirc * 6) + (j * 6 + c))%nat by lia.
  rewrite (lookup_blocks _ (nCirc * 6) _ i _ i).
  - rewrite (lookup_blocks _ 6 _ j _ j); [done|done| |done].
    rewrite lookup_seq. split; [done|lia].
  - intros k. rewrite (length_blocks _ 6); [by rewrite length_seq|done].
  - rewrite lookup_seq. split; [done|lia].
  - nia.
Qed.

(** The two triangles of a quad, corners in index order. *)
Lemma lathe_triangle_at (g : BufferGeometry) (nAxial nCirc i j : nat) :
  index g = lathe_indices nAxial nCirc ->
  (i < nAxial - 1)%nat -> (j < nCirc)%nat ->
  let a := (i * (nCirc + 1) + j)%nat in
  let b := (i * (nCirc + 1) + (j + 1))%nat in
  let c := ((i + 1) * (nCirc + 1) + j)%nat in
  let d := ((i + 1) * (nCirc + 1) + (j + 1))%nat in
  triangle g (2 * (i * nCirc + j)) = Some (a, c, b)
  /\ triangle g (2 * (i * nCirc + j) + 1) = Some (b, c, d).
Proof.
  intros Hix Hi Hj. cbv zeta. unfold triangle. rewrite Hix.
  set (q := (i * nCirc + j)%nat).
  replace (3 * (2 * q) + 1)%nat with (q * 6 + 1)%nat by lia.
  replace (3 * (2 * q) + 2)%nat with (q * 6 + 2)%nat by lia.
  replace (3 * (2 * q))%nat with (q * 6 + 0)%nat by lia.
  replace (3 * (2 * q + 1) + 1)%nat with (q * 6 + 4)%nat by lia.
  replace (3 * (2 * q + 1) + 2)%nat with (q * 6 + 5)%nat by lia.
  replace (3 * (2 * q + 1))%nat with (q * 6 + 3)%nat by lia.
  unfold q. rewrite !lathe_quad_at by lia. unfold quad_indices. cbv zeta.
  cbn [lookup list_lookup mbind option_bind].
  split; f_equal; rewrite ?Nat.add_assoc; reflexivity.
Qed.

(** Position and stored normal of the vertex [(i, j)] of the grid. *)
Lemma lathe_vertex_at (profile2d : profile) (nCirc i j : nat) (g : BufferGeometry) :
  position g = flat_map (station_positions profile2d nCirc) (seq 0 (length profile2d)) ->
  normal g = flat_map (station_normals profile2d nCirc) (seq 0 (length profile2d)) ->
  (i < length profile2d)%nat -> (j <= nCirc)%nat ->
  let x := (pt profile2d i).1 in
  let r := (pt profile2d i).2 in
  let nx := (frame profile2d i).1.2 in
  let nr := (frame profile2d i).2 in
  let th := theta nCirc j in
  vertex_position g (i * (nCirc + 1) + j) = Some (x, r * cos th, r * sin th)
  /\ vertex_normal g (i * (nCirc + 1) + j) = Some (nx, nr * cos th, nr * sin th).
Proof.
  intros Hp Hn Hi Hj. cbv zeta. unfold vertex_position, vertex_normal.
  rewrite Hp, Hn.
  pose proof (lathe_position_at profile2d nCirc i j 0 Hi Hj ltac:(lia)) as P0.
  pose proof (lathe_position_at profile2d nCirc i j 1 Hi Hj ltac:(lia)) as P1.
  pose proof (lathe_position_at profile2d nCirc i j 2 Hi Hj ltac:(lia)) as P2.
  pose proof (lathe_normal_at profile2d nCirc i j 0 Hi Hj ltac:(lia)) as N0.
  pose proof (lathe_normal_at profile2d nCirc i j 1 Hi Hj ltac:(lia)) as N1.
  pose proof (lathe_normal_at profile2d nCirc i j 2 Hi Hj ltac:(lia)) as N2.
  rewrite Nat.add_0_r in P0, N0.
  rewrite P0, P1, P2, N0, N1, N2. done.
Qed.

(** The angle of one segment. *)
Lemma theta_step (nCirc j : nat) :
  (3 <= nCirc)%nat ->
  0 < sin (theta nCirc (j + 1)) * cos (theta nCirc j)
      - cos (theta nCirc (j + 1)) * sin (theta nCirc j).
Proof.
  intros HS. rewrite <- sin_minus.
  assert (HS' : 3 <= INR nCirc) by (apply le_INR in HS; simpl in HS; lra).
  replace (theta nCirc (j + 1) - theta nCirc j) with (2 * PI / INR nCirc).
  2:{ unfold theta. rewrite plus_INR. simpl (INR 1). field. lra. }
  pose proof PI_RGT_0 as Hpi.
  assert (H0 : 0 < 2 * PI / INR nCirc) by (apply Rdiv_lt_0_compat; lra).
  apply sin_gt_0; [exact H0|].
  apply (Rmult_lt_reg_r (INR nCirc)); [lra|].
  unfold Rdiv. rewrite Rmult_assoc, Rinv_l by lra. nra.
Qed.

(** The normal of a triangle between two rings, measured at a point of
    azimuth [(cp, sp)] and radius [rp]: the sign is that of [- dx]. *)
Lemma face_normal_first (x0 x1 r0 r1 c s c' s' : R) (xp rp cp sp : R) :
  radial_part
    (face_normal (x0, r0 * c, r0 * s) (x1, r1 * c, r1 * s) (x0, r0 * c', r0 * s'))
    (xp, rp * cp, rp * sp)
  = - ((x1 - x0) * r0 * rp) * ((s' - s) * cp - (c' - c) * sp).
Proof. unfold radial_part, face_normal, cross, vsub. cbn [fst snd]. ring. Qed.

Lemma face_normal_second (x0 x1 r0 r1 c s c' s' : R) (xp rp cp sp : R) :
  radial_part
    (face_normal (x0, r0 * c', r0 * s') (x1, r1 * c, r1 * s) (x1, r1 * c', r1 * s'))
    (xp, rp * cp, rp * sp)
  = - ((x1 - x0) * r1 * rp) * ((s' - s) * cp - (c' - c) * sp).
Proof. unfold radial_part, face_normal, cross, vsub. cbn [fst snd]. ring. Qed.

Lemma stored_normal_radial (x r nx nr th : R) :
  radial_part (nx, nr * cos th, nr * sin th) (x, r * cos th, r * sin th) = nr * r.
Proof.
  unfold radial_part. cbn [fst snd].
  pose proof (sin2_cos2 th) as H. unfold Rsqr in H.
  transitivity (nr * r * (sin th * sin th + cos th * cos th)); [ring|].
  rewrite H. ring.
Qed.

Lemma toward_axis (dx r rp sd e : R) :
  0 < dx -> 0 < r -> 0 < rp -> 0 < sd -> e = sd -> - (dx * r * rp) * e < 0.
Proof.
  intros Hdx Hr Hrp Hsd ->.
  assert (0 < dx * r * rp) by (repeat apply Rmult_lt_0_compat; lra).
  nra.
Qed.

End LatheTriangles.

Open Scope R_scope.

(** C1.  For a profile of N >= 2 stations and S >= 3 segments
    [createLatheGeometry] returns a geometry with N*(S+1) vertices and
    2*(N-1)*S indexed triangles.  When the axial positions increase strictly
    and the radii are positive, the normal stored for every corner of every
    triangle points away from the axis, but the triangle itself is wound the
    other way: the normal of its face, taken from its three corners in index
    order, points towards the axis at each corner. *)
Theorem createLatheGeometry_counts_and_face_normals
    (profile2d : Geometry.profile) (segments : nat) :
  (2 <= length profile2d)%nat -> (3 <= segments)%nat ->
  exists g,
    Geometry.createLatheGeometry profile2d segments = Ok g
    /\ Geometry.vertex_count g = (length profile2d * (segments + 1))%nat
    /\ Geometry.triangle_count g = (2 * (length profile2d - 1) * segments)%nat
    /\ (LatheMeasure.strictly_increasing_x profile2d ->
        Forall (fun p => 0 < p.2) profile2d ->
        forall t : nat, (t < Geometry.triangle_count g)%nat ->
          exists (v0 v1 v2 : nat) (p0 p1 p2 n0 n1 n2 : R * R * R),
            LatheMeasure.triangle g t = Some (v0, v1, v2)
            /\ LatheMeasure.vertex_position g v0 = Some p0
            /\ LatheMeasure.vertex_position g v1 = Some p1
            /\ LatheMeasure.vertex_position g v2 = Some p2
            /\ LatheMeasure.vertex_normal g v0 = Some n0
            /\ LatheMeasure.vertex_normal g v1 = Some n1
            /\ LatheMeasure.vertex_normal g v2 = Some n2
            /\ (0 < LatheMeasure.radial_part n0 p0
                /\ 0 < LatheMeasure.radial_part n1 p1
                /\ 0 < LatheMeasure.radial_part n2 p2)
            /\ (LatheMeasure.radial_part (LatheMeasure.face_normal p0 p1 p2) p0 < 0
                /\ LatheMeasure.radial_part (LatheMeasure.face_normal p0 p1 p2) p1 < 0
                /\ LatheMeasure.radial_part (LatheMeasure.face_normal p0 p1 p2) p2 < 0)).
Proof.
  intros HN HS. eexists. split; [by apply createLatheGeometry_ok|].
  set (g := {| Geometry.position := _ |}).
  assert (Hv : Geometry.vertex_count g = (length profile2d * (segments + 1))%nat)
    by apply lathe_vertex_count.
  assert (Ht : Geometry.triangle_count g = (2 * (length profile2d - 1) * segments)%nat)
    by apply lathe_triangle_count.
  split; [exact Hv|]. split; [exact Ht|].
  intros Hinc Hrad t Hlt. rewrite Ht in Hlt.
  set (q := (t / 2)%nat). set (h := (t mod 2)%nat).
  set (i := (q / segments)%nat). set (j := (q mod segments)%nat).
  assert (Hth : t = (2 * q + h)%nat) by apply Nat.div_mod_eq.
  assert (Hh : (h < 2)%nat) by (apply Nat.mod_upper_bound; lia).
  assert (Hq : q = (segments * i + j)%nat) by apply Nat.div_mod_eq.
  assert (Hj : (j < segments)%nat) by (apply Nat.mod_upper_bound; lia).
  assert (Hi : (i < length profile2d - 1)%nat) by nia.
  destruct (lathe_triangle_at g (length profile2d) segments i j eq_refl Hi Hj)
    as [T0 T1].
  replace (i * segments + j)%nat with q in T0, T1 by lia.
  destruct (lathe_vertex_at profile2d segments i j g eq_refl eq_refl
              ltac:(lia) ltac:(lia)) as [Pa Na].
  destruct (lathe_vertex_at profile2d segments i (j + 1) g eq_refl eq_refl
              ltac:(lia) ltac:(lia)) as [Pb Nb].
  destruct (lathe_vertex_at profile2d segments (i + 1) j g eq_refl eq_refl
              ltac:(lia) ltac:(lia)) as [Pc Nc].
  destruct (lathe_vertex_at profile2d segments (i + 1) (j + 1) g eq_refl eq_refl
              ltac:(lia) ltac:(lia)) as [Pd Nd].
  cbv zeta in Pa, Na, Pb, Nb, Pc, Nc, Pd, Nd.
  pose proof (frame_nr_pos profile2d i HN ltac:(lia) Hinc) as Hn0.
  pose proof (frame_nr_pos profile2d (i + 1) HN ltac:(lia) Hinc) as Hn1.
  pose proof (pt_lookup profile2d i ltac:(lia)) as L0.
  pose proof (pt_lookup profile2d (i + 1) ltac:(lia)) as L1.
  pose proof (Hinc i _ _ L0 L1) as Hdx.
  assert (Hr0 : 0 < (LatheMeasure.pt profile2d i).2).
  { exact (Forall_lookup_1 _ _ _ _ Hrad L0). }
  assert (Hr1 : 0 < (LatheMeasure.pt profile2d (i + 1)).2).
  { exact (Forall_lookup_1 _ _ _ _ Hrad L1). }
  pose proof (theta_step segments j HS) as Hsd.
  set (x0 := (LatheMeasure.pt profile2d i).1) in *.
  set (r0 := (LatheMeasure.pt profile2d i).2) in *.
  set (x1 := (LatheMeasure.pt profile2d (i + 1)).1) in *.
  set (r1 := (LatheMeasure.pt profile2d (i + 1)).2) in *.
  set (c := cos (Geometry.theta segments j)) in *.
  set (s := sin (Geometry.theta segments j)) in *.
  set (c' := cos (Geometry.theta segments (j + 1))) in *.
  set (s' := sin (Geometry.theta segments (j + 1))) in *.
  assert (Hnr0 : 0 < (LatheMeasure.frame profile2d i).2 * r0) by (by apply Rmult_lt_0_compat).
  assert (Hnr1 : 0 < (LatheMeasure.frame profile2d (i + 1)).2 * r1)
    by (by apply Rmult_lt_0_compat).
  assert (Hdx' : 0 < x1 - x0) by lra.
  destruct h as [|[|h]]; [| |lia].
  - rewrite Hth, Nat.add_0_r.
    do 9 eexists.
    split; [exact T0|]. split; [exact Pa|]. split; [exact Pc|]. split; [exact Pb|].
    split; [exact Na|]. split; [exact Nc|]. split; [exact Nb|].
    split.
    + unfold c, s, c', s'. rewrite !stored_normal_radial. done.
    + rewrite !face_normal_first.
      split; [|split]; (apply toward_axis with (sd := s' * c - c' * s);
                        [done|done|done|done|ring]).
  - rewrite Hth.
    do 9 eexists.
    split; [exact T1|]. split; [exact Pb|]. split; [exact Pc|]. split; [exact Pd|].
    split; [exact Nb|]. split; [exact Nc|]. split; [exact Nd|].
    split.
    + unfold c, s, c', s'. rewrite !stored_normal_radial. done.
    + rewrite !face_normal_second.
      split; [|split]; (apply toward_axis with (sd := s' * c - c' * s);
                        [done|done|done|done|ring]).
Qed.

(** The outer wall of the two-station example, 64 segments: the first
    triangle has the corners 0, 65, 1, and its face normal points towards
    the axis. *)
Lemma createLatheGeometry_counts_and_face_normals_witness :
  exists g,
    Geometry.createLatheGeometry [(0, 0.05); (0.1, 0.04)] 64 = Ok g
    /\ Geometry.vertex_count g = 130%nat
    /\ Geometry.triangle_count g = 128%nat
    /\ exists p0 p1 p2,
         LatheMeasure.triangle g 0 = Some (0, 65, 1)%nat
         /\ LatheMeasure.vertex_position g 0 = Some p0
         /\ LatheMeasure.vertex_position g 65 = Some p1
         /\ LatheMeasure.vertex_position g 1 = Some p2
         /\ LatheMeasure.radial_part (LatheMeasure.face_normal p0 p1 p2) p0 < 0.
Proof.
  destruct (createLatheGeometry_counts_and_face_normals [(0, 0.05); (0.1, 0.04)] 64)
    as (g & Hg & Hv & Ht & Hn); [simpl; lia|lia|].
  exists g. split; [exact Hg|]. split; [exact Hv|]. split; [exact Ht|].
  destruct (Hn ltac:(intros [|[|i]] p q; simpl; intros [= <-] [= <-]; simpl; lra)
              ltac:(repeat constructor; simpl; lra)
              0%nat ltac:(rewrite Ht; simpl; lia))
    as (v0 & v1 & v2 & p0 & p1 & p2 & n0 & n1 & n2
        & T & P0 & P1 & P2 & _ & _ & _ & _ & F & _).
  assert (E : LatheMeasure.triangle g 0 = Some (0, 65, 1)%nat).
  { rewrite createLatheGeometry_ok in Hg by (simpl; lia).
    injection Hg as <-. reflexivity. }
  rewrite E in T. injection T as <- <- <-.
  exists p0, p1, p2. done.
Defined.

Close Scope R_scope.

(** ** engine_mesh.js: profiles with fewer than two stations *)

Lemma createLatheGeometry_empty (segments : nat) :
  Geometry.createLatheGeometry [] segments = Ok Geometry.empty_geometry.
Proof. reflexivity. Qed.

Lemma createLatheGeometry_single (p : R * R) (segments : nat) :
  Geometry.createLatheGeometry [p] segments = Throw TypeError.
Proof. reflexivity. Qed.

Lemma buildEngineMesh_below_two (d : MeshData) (w : World) :
  (length (profile_2d d) < 2)%nat -> buildEngineMesh d w = Throw TypeError.
Proof.
  intros Hlen. unfold buildEngineMesh.
  destruct (Geometry.createLatheGeometry (outer_profile_2d d) _) as [og|[]];
    [|reflexivity].
  cbn [mbind result_bind].
  destruct (profile_2d d) as [|p [|q rest]]; [| |simpl in Hlen; lia].
  - rewrite createLatheGeometry_empty. reflexivity.
  - rewrite createLatheGeometry_single. reflexivity.
Qed.

(** C8.  The mesh builders on a profile of one station: [createLatheGeometry]
    reads [profile2d[-1][0]] and throws a TypeError, and so does
    [buildEngineMesh]; on an empty profile [createLatheGeometry] returns the
    empty geometry but [buildEngineMesh] throws on [profile2d[0][0]]. *)
Theorem mesh_builders_throw_below_two_stations :
  Geometry.createLatheGeometry [(0, 0.04)%R] 64 = Throw TypeError
  /\ buildEngineMesh
       {| profile_2d := [(0, 0.04)%R]; outer_profile_2d := [(0, 0.05)%R];
          injector_orifices := None; station_x := [0%R];
          station_r_inner := [0.04%R]; station_r_outer := [0.05%R] |}
       initial_world = Throw TypeError
  /\ Geometry.createLatheGeometry [] 64 = Ok Geometry.empty_geometry
  /\ buildEngineMesh
       {| profile_2d := []; outer_profile_2d := [];
          injector_orifices := None; station_x := [];
          station_r_inner := []; station_r_outer := [] |}
       initial_world = Throw TypeError.
Proof.
  split; [apply createLatheGeometry_single|].
  split; [apply buildEngineMesh_below_two; simpl; lia|].
  split; [apply createLatheGeometry_empty|].
  apply buildEngineMesh_below_two; simpl; lia.
Qed.

(** ** engine_mesh.js: the polar grid of the injector face *)

Section InjectorGrid.
Import Geometry.
Local Open Scope R_scope.

Lemma ceil_ge (x : R) : x <= IZR (ceil x).
Proof.
  unfold ceil. rewrite opp_IZR.
  destruct (base_Int_part (- x)) as [H _]. lra.
Qed.

Lemma ceil_lt (x : R) : IZR (ceil x) < x + 1.
Proof.
  unfold ceil. rewrite opp_IZR.
  destruct (base_Int_part (- x)) as [_ H]. lra.
Qed.

Lemma minOrificeRadius_fold (orifices : list Orifice) (m : R) :
  let r := fold_left (fun m o => if Rlt_dec (o_radius o) m then o_radius o else m)
             orifices m in
  r <= m /\ Forall (fun o => r <= o_radius o) orifices
  /\ (0 < m -> Forall (fun o => 0 < o_radius o) orifices -> 0 < r).
Proof.
  revert m. induction orifices as [|o os IH]; intros m; simpl.
  - split; [lra|]. split; [constructor|tauto].
  - destruct (Rlt_dec (o_radius o) m) as [Hlt|Hge].
    + destruct (IH (o_radius o)) as (H1 & H2 & H3).
      split; [lra|]. split; [constructor; [exact H1|exact H2]|].
      intros _ Hall. inversion Hall; subst. by apply H3.
    + destruct (IH m) as (H1 & H2 & H3).
      split; [exact H1|]. split; [constructor; [lra|exact H2]|].
      intros Hm Hall. inversion Hall; subst. by apply H3.
Qed.

Lemma minOrificeRadius_spec (faceRadius : R) (orifices : list Orifice) :
  minOrificeRadius faceRadius orifices <= faceRadius
  /\ Forall (fun o => minOrificeRadius faceRadius orifices <= o_radius o) orifices
  /\ (0 < faceRadius -> Forall (fun o => 0 < o_radius o) orifices ->
      0 < minOrificeRadius faceRadius orifices).
Proof. apply minOrificeRadius_fold. Qed.

Lemma nRadial_bounds faceRadius orifices :
  (40 <= nRadial faceRadius orifices <= 120)%Z.
Proof. unfold nRadial. lia. Qed.

Lemma nAngular_bounds faceRadius orifices segments :
  (nAngular faceRadius orifices segments <= 512)%Z
  /\ ((Z.of_nat segments <= 512)%Z ->
      (Z.of_nat segments <= nAngular faceRadius orifices segments)%Z).
Proof. unfold nAngular. lia. Qed.

(** A quotient [a / n] is at most [c] as soon as [n] is at least [a / c]. *)
Lemma cell_le (a c : R) (n : Z) :
  0 < c -> 0 <= a -> (0 < n)%Z -> a / c <= IZR n -> a / IZR n <= c.
Proof.
  intros Hc Ha Hn Hle.
  assert (Hn' : 0 < IZR n) by (by apply IZR_lt).
  apply (Rmult_le_reg_r (IZR n)); [exact Hn'|].
  unfold Rdiv. rewrite Rmult_assoc, Rinv_l by lra. rewrite Rmult_1_r.
  apply (Rmult_le_compat_r c) in Hle; [|lra].
  unfold Rdiv in Hle. rewrite Rmult_assoc, Rinv_l in Hle by lra. lra.
Qed.

Lemma ceil_le (x : R) (n : Z) : x <= IZR n -> (ceil x <= n)%Z.
Proof.
  intros Hx. pose proof (ceil_lt x) as Hlt.
  assert (IZR (ceil x) < IZR (n + 1)) by (rewrite plus_IZR; lra).
  apply lt_IZR in H. lia.
Qed.

End InjectorGrid.

(** ** flame_particles.js: the plume half-angle *)

Section PlumeAngle.
Import PlumePhysics.
Local Open Scope R_scope.

Lemma asin_pos (x : R) : 0 < x < 1 -> 0 < asin x.
Proof.
  intros Hx.
  destruct (asin_bound_lt x ltac:(lra)) as [Hlo Hhi].
  destruct (Rlt_dec 0 (asin x)) as [|Hn]; [done|exfalso].
  assert (H0 : 0 <= sin (- asin x)).
  { apply sin_ge_0; pose proof PI_RGT_0; lra. }
  rewrite sin_neg, sin_asin in H0 by lra. lra.
Qed.

Lemma mach_angle_pos (mach : R) : 0 < asin (1.0 / Rmax mach 1.01).
Proof.
  apply asin_pos.
  pose proof (Rmax_r mach 1.01) as HM.
  assert (H0 : 0 < Rmax mach 1.01) by lra.
  split.
  - apply Rdiv_lt_0_compat; lra.
  - apply (Rmult_lt_reg_r (Rmax mach 1.01)); [exact H0|].
    unfold Rdiv. rewrite Rmult_assoc, Rinv_l by lra. lra.
Qed.

(** [exp 3.75] is where [1 + 0.4 * ln r] reaches the cap 2.5. *)
Lemma expansion_below_cap (r : R) :
  0 < r -> r <= exp 3.75 -> 1.0 + 0.4 * ln r <= 2.5.
Proof.
  intros Hr Hle.
  assert (ln r <= 3.75); [|lra].
  destruct (Rle_lt_or_eq_dec _ _ Hle) as [Hlt| ->]; [|rewrite ln_exp; lra].
  apply ln_increasing in Hlt; [|exact Hr]. rewrite ln_exp in Hlt. lra.
Qed.

Lemma expansion_above_cap (r : R) :
  exp 3.75 <= r -> 2.5 <= 1.0 + 0.4 * ln r.
Proof.
  intros Hle.
  assert (3.75 <= ln r); [|lra].
  destruct (Rle_lt_or_eq_dec _ _ Hle) as [Hlt| <-]; [|rewrite ln_exp; lra].
  apply ln_increasing in Hlt; [|apply exp_pos]. rewrite ln_exp in Hlt. lra.
Qed.

Lemma exp_375_lt_100 : exp 3.75 < 100.
Proof.
  apply Rlt_le_trans with (exp (1 + 1 + 1 + 1)).
  - apply exp_increasing. lra.
  - rewrite !exp_plus. pose proof exp_le_3 as H3. pose proof (exp_pos 1) as H0.
    assert (exp 1 * exp 1 <= 9) by nra.
    nra.
Qed.

Lemma one_lt_exp_375 : 1 < exp 3.75.
Proof. rewrite <- exp_0. apply exp_increasing. lra. Qed.

Lemma half_angle_above (M r : R) :
  1 < r -> half_angle M r = asin (1.0 / M) * Rmin (1.0 + 0.4 * ln r) 2.5.
Proof. intros Hr. unfold half_angle. destruct (Rlt_dec 1.0 r); [done|lra]. Qed.

Lemma half_angle_below (M r : R) :
  r <= 1 -> half_angle M r = asin (1.0 / M) * Rmax (0.5 * r) 0.15.
Proof. intros Hr. unfold half_angle. destruct (Rlt_dec 1.0 r); [lra|done]. Qed.

Lemma half_angle_widening (M r : R) : half_angle M r = asin (1.0 / M) * widening r.
Proof. unfold half_angle, widening. by destruct (Rlt_dec 1.0 r). Qed.

Lemma widening_mono (r1 r2 : R) : r1 <= r2 -> widening r1 <= widening r2.
Proof.
  intros Hle. unfold widening.
  destruct (Rlt_dec 1.0 r1) as [H1|H1]; destruct (Rlt_dec 1.0 r2) as [H2|H2]; try lra.
  - apply Rmin_glb; [|apply Rmin_r].
    apply Rle_trans with (1.0 + 0.4 * ln r1); [apply Rmin_l|].
    destruct (Rle_lt_or_eq_dec _ _ Hle) as [Hlt| ->]; [|lra].
    apply ln_increasing in Hlt; lra.
  - assert (0 < ln r2) by (rewrite <- ln_1; apply ln_increasing; lra).
    apply Rle_trans with 1.
    + apply Rmax_lub; lra.
    + apply Rmin_glb; lra.
  - apply Rmax_lub; [|apply Rmax_r].
    apply Rle_trans with (0.5 * r2); [lra|apply Rmax_l].
Qed.

(** Across the regime change at ratio 1 the factor jumps from at most 0.5
    to at least 1. *)
Lemma widening_jump (r1 r2 : R) : r1 <= 1 -> 1 < r2 -> widening r1 < widening r2.
Proof.
  intros H1 H2. unfold widening.
  destruct (Rlt_dec 1.0 r1); [lra|]. destruct (Rlt_dec 1.0 r2); [|lra].
  assert (0 < ln r2) by (rewrite <- ln_1; apply ln_increasing; lra).
  apply Rle_lt_trans with 0.5; [apply Rmax_lub; lra|].
  apply Rlt_le_trans with 1; [lra|]. apply Rmin_glb; lra.
Qed.

Lemma widening_capped (r : R) : exp 3.75 <= r -> widening r = 2.5.
Proof.
  intros Hr. pose proof one_lt_exp_375. unfold widening.
  destruct (Rlt_dec 1.0 r); [|lra].
  pose proof (expansion_above_cap r Hr). by rewrite Rmin_right by lra.
Qed.

Lemma widening_floored (r : R) : r <= 0.3 -> widening r = 0.15.
Proof.
  intros Hr. unfold widening. destruct (Rlt_dec 1.0 r); [lra|].
  by rewrite Rmax_right by lra.
Qed.

Lemma recompute_half_angle (p : ExhaustPhysics) (exitR : R) :
  _plumeHalfAngle (_recomputeDerived p exitR)
  = asin (1.0 / Rmax (exit_mach p) 1.01)
    * widening (_pressureRatio (_recomputeDerived p exitR)).
Proof. unfold _recomputeDerived. cbn. apply half_angle_widening. Qed.

End PlumeAngle.

Open Scope R_scope.

(** C6, as the code has it.  For two physics states with the same exit
    Mach number, the half-angle is non-decreasing in the pressure ratio, and
    a ratio above 1 gives a wider plume than a ratio of at most 1; it is
    the same for all ratios from [exp 3.75] on, where the widening
    [1 + 0.4 ln r] is cut at 2.5, and for all ratios up to 0.3, where the
    narrowing [0.5 r] is held at 0.15.  Strict increase is not stated. *)
Theorem plume_half_angle_monotone
    (p1 p2 : PlumePhysics.ExhaustPhysics) (exitR1 exitR2 : R) :
  PlumePhysics.exit_mach p1 = PlumePhysics.exit_mach p2 ->
  let d1 := PlumePhysics._recomputeDerived p1 exitR1 in
  let d2 := PlumePhysics._recomputeDerived p2 exitR2 in
  let r1 := PlumePhysics._pressureRatio d1 in
  let r2 := PlumePhysics._pressureRatio d2 in
  let a1 := PlumePhysics._plumeHalfAngle d1 in
  let a2 := PlumePhysics._plumeHalfAngle d2 in
  (r1 <= r2 -> a1 <= a2)
  /\ (r1 <= 1 -> 1 < r2 -> a1 < a2)
  /\ (exp 3.75 <= r1 -> exp 3.75 <= r2 -> a1 = a2)
  /\ (r1 <= 0.3 -> r2 <= 0.3 -> a1 = a2).
Proof.
  intros HM d1 d2 r1 r2 a1 a2.
  unfold a1, a2, d1, d2. rewrite !recompute_half_angle. rewrite <- HM.
  fold d1 d2 r1 r2.
  pose proof (mach_angle_pos (PlumePhysics.exit_mach p1)) as Ha.
  set (a := asin (1.0 / Rmax (PlumePhysics.exit_mach p1) 1.01)) in *.
  repeat split.
  - intros Hle. apply Rmult_le_compat_l; [lra|by apply widening_mono].
  - intros H1 H2. apply Rmult_lt_compat_l; [lra|by apply widening_jump].
  - intros H1 H2. by rewrite !widening_capped.
  - intros H1 H2. by rewrite !widening_floored.
Qed.

(** Exit Mach 3 at sea level, exit pressures of twice and three times the
    ambient pressure. *)
Lemma plume_half_angle_monotone_witness :
  PlumePhysics._plumeHalfAngle
    (PlumePhysics._recomputeDerived (Examples.mach3_at 202650) 0.02)
  <= PlumePhysics._plumeHalfAngle
       (PlumePhysics._recomputeDerived (Examples.mach3_at 303975) 0.02).
Proof.
  apply (proj1 (plume_half_angle_monotone
                  (Examples.mach3_at 202650) (Examples.mach3_at 303975)
                  0.02 0.02 eq_refl)).
  cbn. rewrite Rmax_left by lra. lra.
Defined.

Lemma mach3_ratio (pe : R) :
  PlumePhysics._pressureRatio (PlumePhysics._recomputeDerived (Examples.mach3_at pe) 0.02)
  = pe / 101325.
Proof. cbn. by rewrite Rmax_left by lra. Qed.

(** C6 as stated fails: at exit Mach 3, the pressure ratios 100 and 200 are
    both above 1 and give the same half-angle, and so do the ratios 0.1 and
    0.2 below 1. *)
Lemma plume_half_angle_not_strict :
  PlumePhysics._plumeHalfAngle
    (PlumePhysics._recomputeDerived (Examples.mach3_at 10132500) 0.02)
  = PlumePhysics._plumeHalfAngle
      (PlumePhysics._recomputeDerived (Examples.mach3_at 20265000) 0.02)
  /\ PlumePhysics._plumeHalfAngle
       (PlumePhysics._recomputeDerived (Examples.mach3_at 10132.5) 0.02)
     = PlumePhysics._plumeHalfAngle
         (PlumePhysics._recomputeDerived (Examples.mach3_at 20265) 0.02).
Proof.
  pose proof exp_375_lt_100.
  rewrite !recompute_half_angle, !mach3_ratio. split.
  - rewrite !widening_capped by lra. reflexivity.
  - rewrite !widening_floored by lra. reflexivity.
Qed.

Close Scope R_scope.

(** ** Colour ramps and per-station colouring *)

Section Colouring.
Import JsNum.

Lemma sub_self (q : Q) : sub (Fin q) (Fin q) = Fin 0.
Proof.
  unfold sub, neg, add. f_equal.
  change 0%Q with (Qred 0). apply Qred_complete.
  rewrite (Qred_correct (- q)). ring.
Qed.

(** The thermal ramp on a degenerate range: [0 / 0] is NaN, no comparison
    with NaN holds, and the last branch returns NaN as the green value. *)
Lemma thermalColor_degenerate (q : Q) :
  ColorScales.thermalColor (Fin q) (Fin q) (Fin q) = (Fin 1, NaN, Fin 0).
Proof. unfold ColorScales.thermalColor. rewrite sub_self. reflexivity. Qed.

(** The coolant ramp guards the range with [Math.max(tMax - tMin, 1)]. *)
Lemma coolantColor_degenerate (q : Q) :
  CoolantRamp.coolantColor (Fin q) (Fin q) (Fin q) = (Fin 0, Fin 0.3, Fin 1).
Proof. unfold CoolantRamp.coolantColor. rewrite sub_self. reflexivity. Qed.

Lemma machColor_sonic : machColor (num 1.0) = (Fin 1, Fin 1, Fin 1).
Proof. reflexivity. Qed.

Lemma min_of_replicate (n : nat) (q : Q) :
  min_of (replicate (S n) (Fin q)) = Fin q.
Proof.
  unfold min_of. simpl. 
  assert (H : forall k, fold_left JsNum.min (replicate k (Fin q)) (Fin q) = Fin q).
  { induction k as [|k IH]; simpl; [done|].
    by destruct (negb (Qle_bool q q)). }
  apply H.
Qed.

Lemma max_of_replicate (n : nat) (q : Q) :
  max_of (replicate (S n) (Fin q)) = Fin q.
Proof.
  unfold max_of. simpl.
  assert (H : forall k, fold_left JsNum.max (replicate k (Fin q)) (Fin q) = Fin q).
  { induction k as [|k IH]; simpl; [done|].
    by destruct (negb (Qle_bool q q)). }
  apply H.
Qed.

(** *** The station loop as a list of writes *)

Lemma length_setXYZ idx c colors : length (setXYZ idx c colors) = length colors.
Proof. unfold setXYZ. by rewrite !length_insert. Qed.

Lemma setXYZ_has_color idx c colors :
  (idx * 3 + 2 < length colors)%nat -> has_color (setXYZ idx c colors) idx c.
Proof.
  intros Hlen. unfold has_color, setXYZ. repeat split.
  - rewrite !list_lookup_insert_ne by lia.
    apply list_lookup_insert_eq. lia.
  - rewrite list_lookup_insert_ne by lia.
    apply list_lookup_insert_eq. rewrite length_insert. lia.
  - apply list_lookup_insert_eq. rewrite !length_insert. lia.
Qed.

Lemma setXYZ_other idx c colors idx' c' :
  idx <> idx' -> has_color colors idx' c' -> has_color (setXYZ idx c colors) idx' c'.
Proof.
  intros Hne (H0 & H1 & H2). unfold has_color, setXYZ.
  rewrite !list_lookup_insert_ne by lia. done.
Qed.

Lemma length_write_all ws colors : length (write_all ws colors) = length colors.
Proof.
  revert colors. induction ws as [|w ws IH]; intros colors; simpl; [done|].
  unfold write_all in *. simpl. rewrite IH. apply length_setXYZ.
Qed.

Lemma write_all_other ws colors idx c :
  idx ∉ ws.*1 -> has_color colors idx c -> has_color (write_all ws colors) idx c.
Proof.
  revert colors. induction ws as [|w ws IH]; intros colors Hnot Hc; [done|].
  unfold write_all in *. simpl.
  rewrite fmap_cons in Hnot. apply not_elem_of_cons in Hnot as [Hne Hnot].
  apply IH; [exact Hnot|]. apply setXYZ_other; [congruence|exact Hc].
Qed.

Lemma write_all_has_color ws colors idx c :
  NoDup ws.*1 -> (idx, c) ∈ ws -> (idx * 3 + 2 < length colors)%nat ->
  has_color (write_all ws colors) idx c.
Proof.
  revert colors. induction ws as [|[i0 c0] ws IH]; intros colors Hnd Hin Hlen.
  - by apply elem_of_nil in Hin.
  - rewrite fmap_cons in Hnd. apply NoDup_cons in Hnd as [Hnot Hnd].
    change (has_color (write_all ws (setXYZ i0 c0 colors)) idx c).
    apply elem_of_cons in Hin as [Heq|Hin].
    + injection Heq as -> ->.
      apply write_all_other; [exact Hnot|]. by apply setXYZ_has_color.
    + apply IH; [exact Hnd|exact Hin|]. by rewrite length_setXYZ.
Qed.

Lemma fold_setXYZ_map (f : nat -> nat) (c : ColorScales.rgb) js colors :
  fold_left (fun cs j => setXYZ (f j) c cs) js colors
  = fold_left (fun cs w => setXYZ w.1 w.2 cs) (map (fun j => (f j, c)) js) colors.
Proof.
  revert colors. induction js as [|j js IH]; intros colors; simpl; [done|apply IH].
Qed.

Lemma color_stations_writes nStations nCirc colorOf colors :
  color_stations nStations nCirc colorOf colors
  = write_all (station_writes nStations nCirc colorOf) colors.
Proof.
  unfold color_stations, station_writes, write_all.
  revert colors. generalize (seq 0 nStations) as stns.
  induction stns as [|i stns IH]; intros colors; simpl; [done|].
  rewrite fold_left_app, IH. f_equal.
  apply (fold_setXYZ_map (fun j => (i * (nCirc + 1) + j)%nat)).
Qed.

Lemma ring_writes_indices (b n : nat) (c : ColorScales.rgb) :
  (map (fun j => ((b + j)%nat, c)) (seq 0 n)).*1 = seq b n.
Proof.
  replace (seq b n) with (seq (b + 0) n) by (f_equal; lia).
  rewrite <- fmap_add_seq, <- list_fmap_compose. by apply list_fmap_ext.
Qed.

Lemma station_writes_indices nStations nCirc colorOf :
  (station_writes nStations nCirc colorOf).*1 = seq 0 (nStations * (nCirc + 1)).
Proof.
  unfold station_writes.
  assert (H : forall n start,
             (flat_map (fun i => map (fun j => ((i * (nCirc + 1) + j)%nat, colorOf i))
                                     (seq 0 (S nCirc))) (seq start n)).*1
             = seq (start * (nCirc + 1)) (n * (nCirc + 1))).
  { induction n as [|n IH]; intros start; [done|].
    change (seq start (S n)) with (start :: seq (S start) n).
    cbn [flat_map]. rewrite fmap_app, IH, ring_writes_indices.
    replace (S n * (nCirc + 1))%nat with (S nCirc + n * (nCirc + 1))%nat by lia.
    rewrite seq_app. f_equal. f_equal. lia. }
  apply (H nStations 0%nat).
Qed.

Lemma color_stations_has_color nStations nCirc colorOf colors i j :
  (i < nStations)%nat -> (j <= nCirc)%nat ->
  (nStations * (nCirc + 1) * 3 <= length colors)%nat ->
  has_color (color_stations nStations nCirc colorOf colors)
            (i * (nCirc + 1) + j) (colorOf i).
Proof.
  intros Hi Hj Hlen. rewrite color_stations_writes.
  apply write_all_has_color.
  - rewrite station_writes_indices. apply NoDup_seq.
  - unfold station_writes. apply list_elem_of_In, in_flat_map.
    exists i. split; [apply in_seq; lia|].
    apply in_map_iff. exists j. split; [done|apply in_seq; lia].
  - nia.
Qed.

Lemma length_color_stations nStations nCirc colorOf colors :
  length (color_stations nStations nCirc colorOf colors) = length colors.
Proof. rewrite color_stations_writes. apply length_write_all. Qed.

End Colouring.

(** ** The scene state: allocation and the mesh builder *)

Lemma alloc_eq (w : World) : alloc w = (next w, with_next (S (next w)) w).
Proof. reflexivity. Qed.

Lemma alloc_n_eq (n : nat) (w : World) :
  alloc_n n w = (seq (next w) n, with_next (next w + n) w).
Proof.
  revert w. induction n as [|n IH]; intros w.
  - simpl. destruct w. unfold with_next. simpl. by rewrite Nat.add_0_r.
  - cbn [alloc_n]. rewrite alloc_eq, IH. cbn [next with_next]. f_equal.
    unfold with_next. cbn. f_equal. lia.
Qed.

(** What a successful [buildEngineMesh] leaves: two new wall meshes with
    fresh materials and no colour attribute, the station count of the inner
    profile; every other module variable is untouched. *)
Lemma buildEngineMesh_inv (d : MeshData) (w w' : World) :
  buildEngineMesh d w = Ok w' ->
  exists og ig others,
    Geometry.createLatheGeometry (outer_profile_2d d) (getCircumSegments w) = Ok og
    /\ Geometry.createLatheGeometry (profile_2d d) (getCircumSegments w) = Ok ig
    /\ em w' = {| EngineMesh.outerMesh :=
                    Some {| geometry := og; color := None; material := next w;
                            vertexColors := false |};
                  EngineMesh.innerMesh :=
                    Some {| geometry := ig; color := None; material := S (next w);
                            vertexColors := false |};
                  EngineMesh.currentGroup := Some others;
                  EngineMesh.groupWalls := 2;
                  EngineMesh.stationCount := length (profile_2d d);
                  EngineMesh.circumSegments := getCircumSegments w |}
    /\ (next w + 2 <= next w')%nat
    /\ sc w' = sc w /\ hm w' = hm w /\ so w' = so w /\ fv w' = fv w
    /\ cv w' = cv w /\ mn w' = mn w
    /\ internalFlowVisible w' = internalFlowVisible w.
Proof.
  unfold buildEngineMesh. intros H.
  destruct (Geometry.createLatheGeometry (outer_profile_2d d) _) as [og|]; [|done].
  destruct (Geometry.createLatheGeometry (profile_2d d) _) as [ig|]; [|done].
  cbn [mbind result_bind alloc sc em hm so fv cv mn internalFlowVisible next] in H.
  destruct (js_row (profile_2d d) 0) as [p0|]; [|done].
  destruct (js_row (outer_profile_2d d) 0) as [o0|]; [|done].
  destruct (js_row (profile_2d d) _) as [pN|]; [|done].
  destruct (js_row (outer_profile_2d d) _) as [oN|]; [|done].
  cbn [mbind result_bind alloc sc em hm so fv cv mn internalFlowVisible next] in H.
  unfold createCoolingChannelIndicators in H.
  exists og, ig.
  destruct (2 <=? length (outer_profile_2d d))%nat;
    [rewrite !alloc_n_eq in H;
     cbn [alloc with_next sc em hm so fv cv mn internalFlowVisible next] in H|];
    (destruct (injector_orifices d) as [[|o os]|]; rewrite alloc_n_eq in H;
     injection H as <-; eexists;
     unfold with_em, with_next;
     cbn [em sc hm so fv cv mn internalFlowVisible next];
     (split; [reflexivity|split; [reflexivity|split; [reflexivity|]]]);
     (split; [lia|repeat split])).
Qed.

(** With at least two stations, and an outer profile as long as the inner
    one, the mesh builder returns. *)
Lemma buildEngineMesh_ok (d : MeshData) (w : World) :
  (2 <= length (profile_2d d))%nat ->
  (length (profile_2d d) <= length (outer_profile_2d d))%nat ->
  exists w', buildEngineMesh d w = Ok w'.
Proof.
  intros HN Hout. unfold buildEngineMesh.
  rewrite !createLatheGeometry_ok by lia.
  cbn [mbind result_bind alloc sc em hm so fv cv mn internalFlowVisible next].
  change (js_row (profile_2d d) 0) with (js_row (profile_2d d) (Z.of_nat 0)).
  change (js_row (outer_profile_2d d) 0) with (js_row (outer_profile_2d d) (Z.of_nat 0)).
  rewrite (js_row_nat (profile_2d d) 0) by lia.
  rewrite (js_row_nat (outer_profile_2d d) 0) by lia.
  replace (Z.of_nat (length (profile_2d d)) - 1)%Z
    with (Z.of_nat (length (profile_2d d) - 1)) by lia.
  rewrite !js_row_nat by lia.
  cbn [mbind result_bind alloc sc em hm so fv cv mn internalFlowVisible next].
  unfold createCoolingChannelIndicators.
  destruct (2 <=? length (outer_profile_2d d))%nat;
    [rewrite !alloc_n_eq;
     cbn [alloc with_next sc em hm so fv cv mn internalFlowVisible next]|];
    (destruct (injector_orifices d) as [[|o os]|]; rewrite alloc_n_eq;
     eexists; reflexivity).
Qed.

(** The page after a first mesh update of two stations: both wall meshes
    exist, with 2 stations of 65 vertices each, the outer wall holds the
    first fresh material, and no overlay module has run. *)
Lemma two_stations_built :
  exists w outer inner,
    onMeshUpdate ExampleWorlds.two_stations initial_world = Ok w
    /\ getOuterMesh w = Some outer
    /\ getInnerMesh w = Some inner
    /\ Geometry.vertex_count (geometry outer) = 130%nat
    /\ material outer = 2%nat
    /\ color outer = None
    /\ getStationCount w = 2%nat
    /\ getCircumSegments w = 64%nat
    /\ hm w = hm initial_world
    /\ so w = so initial_world
    /\ fv w = fv initial_world
    /\ cv w = cv initial_world.
Proof.
  set (w0 := set_lastMeshData ExampleWorlds.two_stations initial_world).
  destruct (buildEngineMesh_ok ExampleWorlds.two_stations w0) as [w1 Hb];
    [simpl; lia|simpl; lia|].
  destruct (buildEngineMesh_inv _ _ _ Hb)
    as (og & ig & others & Hog & Hig & Hem & Hnext & Hsc & Hhm & Hso & Hfv & Hcv & Hmn & Hifv).
  destruct (createLatheGeometry_vertex_count
              (outer_profile_2d ExampleWorlds.two_stations) 64)
    as (g & Hg & Hv); [simpl; lia|].
  change (getCircumSegments w0) with 64%nat in Hog, Hig, Hem.
  rewrite Hg in Hog. injection Hog as <-.
  eexists _, _, _.
  split.
  { unfold onMeshUpdate. fold w0. rewrite Hb. cbn [mbind result_bind]. reflexivity. }
  unfold getOuterMesh, getInnerMesh, getStationCount, getCircumSegments,
    setInternalFlowVisible.
  cbn [internalFlowVisible with_internalFlowVisible em hm so fv cv].
  rewrite Hem, Hhm, Hso, Hfv, Hcv.
  cbn [EngineMesh.outerMesh EngineMesh.innerMesh EngineMesh.stationCount
         EngineMesh.circumSegments geometry material color].
  repeat split; try reflexivity. exact Hv.
Qed.

(** ** flow_viz.js and heat_map.js: the colours written *)

Lemma getInnerMesh_drawCoolantFlow (w : World) :
  getInnerMesh (drawCoolantFlow w) = getInnerMesh w.
Proof.
  unfold drawCoolantFlow.
  destruct (getOuterMesh (removeCoolantArrows w)),
    (EngineMesh.currentGroup (em (removeCoolantArrows w))); reflexivity.
Qed.

Lemma length_zeros (n : nat) : length (zeros n) = n.
Proof. apply length_replicate. Qed.

(** C10.  In the flow overlay, a station beyond the end of the Mach array
    gets the colour of Mach 1.0, pure white, at each of its circumferential
    vertices. *)
Theorem flow_missing_mach_is_white
    (w : World) (innerMesh : Mesh) (machArray : list JsNum.jsnum)
    (coolantData : option CoolantData) (i j : nat) :
  getInnerMesh w = Some innerMesh ->
  (length machArray <= i < getStationCount w)%nat ->
  (j <= getCircumSegments w)%nat ->
  exists (mesh' : Mesh) (colors : list JsNum.jsnum),
    getInnerMesh (applyFlowVisualization (Some machArray) coolantData w) = Some mesh'
    /\ color mesh' = Some colors
    /\ has_color colors (i * (getCircumSegments w + 1) + j)
         (JsNum.Fin 1, JsNum.Fin 1, JsNum.Fin 1).
Proof.
  intros Hmesh [Hlo Hhi] Hj.
  set (nStations := getStationCount w) in *.
  set (nCirc := getCircumSegments w) in *.
  exists (set_vertexColors true
            (set_color (Some (flow_colors machArray nStations nCirc (color innerMesh)))
               innerMesh)),
         (flow_colors machArray nStations nCirc (color innerMesh)).
  split; [|split; [reflexivity|]].
  - unfold applyFlowVisualization. rewrite Hmesh. fold nStations nCirc.
    destruct coolantData as [cd|]; [|reflexivity].
    destruct (coolant_velocity_m_s cd); [|reflexivity].
    by rewrite getInnerMesh_drawCoolantFlow.
  - unfold flow_colors.
    rewrite <- machColor_sonic.
    replace (machColor (JsNum.num 1.0))
      with ((fun i0 => machColor (if (i0 <? length machArray)%nat
                                  then default JsNum.NaN (machArray !! i0)
                                  else JsNum.num 1.0)) i).
    2:{ cbv beta. destruct (Nat.ltb_spec i (length machArray)); [lia|done]. }
    apply color_stations_has_color; [exact Hhi|exact Hj|].
    destruct (color innerMesh) as [old|]; [|rewrite length_zeros; lia].
    destruct (Nat.eqb_spec (length old / 3) (nStations * (nCirc + 1))) as [He|];
      [|rewrite length_zeros; lia].
    pose proof (Nat.Div0.mul_div_le (length old) 3). lia.
Qed.

(** The heat map on a constant wall temperature: every coloured vertex gets
    NaN as its green value. *)
Lemma applyHeatMap_constant (w : World) (mesh : Mesh) (n : nat) (q : Q) (i j : nat) :
  getOuterMesh w = Some mesh ->
  (i < getStationCount w)%nat -> (j <= getCircumSegments w)%nat ->
  (getStationCount w * (getCircumSegments w + 1)
   <= Geometry.vertex_count (geometry mesh))%nat ->
  exists (mesh' : Mesh) (colors : list JsNum.jsnum),
    getOuterMesh (applyHeatMap (replicate (S n) (JsNum.Fin q)) w).1 = Some mesh'
    /\ color mesh' = Some colors
    /\ has_color colors (i * (getCircumSegments w + 1) + j)
         (JsNum.Fin 1, JsNum.NaN, JsNum.Fin 0).
Proof.
  intros Hmesh Hi Hj Hcount. unfold applyHeatMap. rewrite Hmesh.
  rewrite min_of_replicate, max_of_replicate.
  set (colors := color_stations _ _ _ _).
  exists (set_material
            (match HeatMap.heatMaterial (hm w) with Some m => m | None => next w end)
            (set_color (Some colors) mesh)), colors.
  split; [|split; [reflexivity|]].
  - destruct (HeatMap.heatMaterial (hm w)); reflexivity.
  - unfold colors.
    replace (JsNum.Fin 1, JsNum.NaN, JsNum.Fin 0)
      with ((fun i0 => ColorScales.thermalColor
                         (default (JsNum.Fin q) (replicate (S n) (JsNum.Fin q) !! i0))
                         (JsNum.Fin q) (JsNum.Fin q)) i).
    2:{ cbv beta. destruct (replicate (S n) (JsNum.Fin q) !! i) as [t|] eqn:Ht.
        - apply lookup_replicate in Ht as [-> _]. apply thermalColor_degenerate.
        - apply thermalColor_degenerate. }
    apply color_stations_has_color; [exact Hi|exact Hj|].
    rewrite length_zeros. nia.
Qed.

(** After a mesh update of two stations, with a Mach array of one entry:
    station 1 is white. *)
Lemma flow_missing_mach_is_white_witness :
  exists (w : World) (mesh' : Mesh) (colors : list JsNum.jsnum),
    onMeshUpdate ExampleWorlds.two_stations initial_world = Ok w
    /\ getInnerMesh (applyFlowVisualization (Some [JsNum.num 0.3]) None w) = Some mesh'
    /\ color mesh' = Some colors
    /\ has_color colors 65 (JsNum.Fin 1, JsNum.Fin 1, JsNum.Fin 1).
Proof.
  destruct two_stations_built
    as (w & outer & inner & Hw & _ & Hin & _ & _ & _ & Hst & Hcirc & _).
  destruct (flow_missing_mach_is_white w inner [JsNum.num 0.3] None 1 0 Hin)
    as (mesh' & colors & H1 & H2 & H3).
  - rewrite Hst. simpl. lia.
  - lia.
  - exists w, mesh', colors. rewrite Hcirc in H3.
    split; [exact Hw|]. split; [exact H1|]. split; [exact H2|exact H3].
Defined.

(** C7.  The thermal ramp has no guard: with [min = max] and a value equal
    to them it computes [0 / 0] and returns NaN as its green value, so the
    heat map of a wall at one constant temperature stores NaN in the colour
    attribute (here after a mesh update of two stations, at 300 K, for
    vertex 0); the coolant ramp, which guards the range with
    [Math.max(tMax - tMin, 1)], returns an ordinary colour on the same
    input. *)
Theorem thermal_ramp_degenerate_range_is_NaN :
  (forall q : Q,
     ColorScales.thermalColor (JsNum.Fin q) (JsNum.Fin q) (JsNum.Fin q)
     = (JsNum.Fin 1, JsNum.NaN, JsNum.Fin 0))
  /\ (exists (w : World) (mesh' : Mesh) (colors : list JsNum.jsnum),
        onMeshUpdate ExampleWorlds.two_stations initial_world = Ok w
        /\ getOuterMesh (applyHeatMap [JsNum.Fin 300; JsNum.Fin 300] w).1 = Some mesh'
        /\ color mesh' = Some colors
        /\ has_color colors 0 (JsNum.Fin 1, JsNum.NaN, JsNum.Fin 0))
  /\ (forall q : Q,
        CoolantRamp.coolantColor (JsNum.Fin q) (JsNum.Fin q) (JsNum.Fin q)
        = (JsNum.Fin 0, JsNum.Fin 0.3, JsNum.Fin 1)).
Proof.
  split; [apply thermalColor_degenerate|]. split; [|apply coolantColor_degenerate].
  destruct two_stations_built
    as (w & outer & inner & Hw & Hout & _ & Hv & _ & _ & Hst & Hcirc & _).
  destruct (applyHeatMap_constant w outer 1 300 0 0 Hout)
    as (mesh' & colors & H1 & H2 & H3).
  - rewrite Hst. lia.
  - lia.
  - rewrite Hst, Hcirc, Hv. lia.
  - exists w, mesh', colors.
    split; [exact Hw|]. split; [exact H1|]. split; [exact H2|exact H3].
Qed.

(** ** The particle systems *)

Section InternalFlowLifetimes.
Import InternalFlow.
Local Open Scope Q_scope.

(** The loop [for i < n: a[i] = f(a[i])] on a typed array. *)
Lemma map_loop_lookup (f : option Q -> option Q) (n : nat) (ls : list (option Q)) (i : nat) :
  fold_left (fun ls i => <[i := f (lifetime_at ls i)]> ls) (seq 0 n) ls !! i
  = if (i <? n)%nat then f <$> ls !! i else ls !! i.
Proof.
  induction n as [|n IH]; [done|].
  rewrite seq_S, fold_left_app. cbn [fold_left plus].
  set (ls' := fold_left _ (seq 0 n) ls) in *.
  destruct (decide (i = n)) as [->|Hne].
  - rewrite Nat.ltb_irrefl in IH.
    destruct (Nat.ltb_spec n (S n)); [|lia].
    destruct (ls !! n) as [x|] eqn:Hx.
    + rewrite list_lookup_insert_eq; [by unfold lifetime_at; rewrite IH|].
      apply lookup_lt_is_Some. by rewrite IH.
    + rewrite list_insert_ge; [by rewrite IH|].
      apply lookup_ge_None. by rewrite IH.
  - rewrite list_lookup_insert_ne by done. rewrite IH.
    destruct (Nat.ltb_spec i n), (Nat.ltb_spec i (S n)); try lia; done.
Qed.

Lemma map_loop_Forall (P : option Q -> Prop) (f : option Q -> option Q) (n : nat)
    (ls : list (option Q)) :
  (forall x, P x -> P (f x)) -> Forall P ls ->
  Forall P (fold_left (fun ls i => <[i := f (lifetime_at ls i)]> ls) (seq 0 n) ls).
Proof.
  intros Hf Hall. apply Forall_lookup. intros i x Hx.
  rewrite map_loop_lookup in Hx.
  destruct (i <? n)%nat.
  - destruct (ls !! i) as [y|] eqn:Hy; [|done]. injection Hx as <-.
    apply Hf. by apply (Forall_lookup_1 _ _ _ _ Hall Hy).
  - by apply (Forall_lookup_1 _ _ _ _ Hall Hx).
Qed.

Lemma fold_Qmax_ge (v : list Q) (m : Q) :
  m <= fold_left Qmax v m /\ Forall (fun x => x <= fold_left Qmax v m) v.
Proof.
  revert m. induction v as [|x v IH]; intros m; simpl.
  - split; [apply Qle_refl|constructor].
  - destruct (IH (Qmax m x)) as [H1 H2]. split.
    + apply Qle_trans with (Qmax m x); [apply Q.le_max_l|exact H1].
    + constructor; [|exact H2].
      apply Qle_trans with (Qmax m x); [apply Q.le_max_r|exact H1].
Qed.

(** A read inside the velocity array gives a number between 0 and the
    maximum. *)
Lemma vel_bounds (v : list Q) (k : Z) :
  Forall (fun x => 0 <= x) v -> (0 <= k < Z.of_nat (length v))%Z ->
  exists x, vel v k = Some x /\ 0 <= x <= max_velocity v.
Proof.
  intros Hpos Hk. unfold vel, js_get, max_velocity.
  destruct (fold_Qmax_ge v 1.0) as [H1 Hall].
  destruct (Z.ltb_spec k 0); [lia|].
  destruct (lookup_lt_is_Some_2 v (Z.to_nat k)) as [x Hx]; [lia|].
  exists x. split; [exact Hx|]. split.
  - by apply (Forall_lookup_1 _ _ _ _ Hpos Hx).
  - apply Qle_trans with (fold_left Qmax v 1.0); [|apply Q.le_max_l].
    by apply (Forall_lookup_1 _ _ _ _ Hall Hx).
Qed.

Lemma max_velocity_ge_1 (v : list Q) : 1 <= max_velocity v.
Proof. unfold max_velocity. apply Qle_trans with 1.0; [done|apply Q.le_max_r]. Qed.

Lemma wrap_in_unit (t : Q) : 0 <= t -> t < 2 -> in_unit (Some (wrap t)).
Proof.
  intros H0 H2. unfold in_unit, wrap.
  destruct (Qle_bool 1.0 t) eqn:Hb.
  - apply Qle_bool_iff in Hb. split; Lqa.lra.
  - assert (~ 1.0 <= t) by (rewrite <- Qle_bool_iff; congruence).
    split; [exact H0|]. apply Qnot_le_lt in H. Lqa.lra.
Qed.

(** The two stations read for a lifetime in [0, 1) are inside a non-empty
    velocity array. *)
Lemma source_indices_in_range (n : nat) (t : Q) :
  (0 < n)%nat -> 0 <= t -> t < 1 ->
  let lo := Qfloor (t * inject_Z (Z.of_nat n - 1)) in
  (0 <= lo < Z.of_nat n)%Z
  /\ (0 <= Z.min (lo + 1) (Z.of_nat n - 1) < Z.of_nat n)%Z.
Proof.
  intros Hn Ht0 Ht1 lo.
  assert (Hn1 : 0 <= inject_Z (Z.of_nat n - 1)).
  { change 0 with (inject_Z 0). rewrite <- Zle_Qle. lia. }
  assert (H0 : (0 <= lo)%Z).
  { change 0%Z with (Qfloor 0). apply Qfloor_resp_le. Lqa.nra. }
  assert (H1 : (lo <= Z.of_nat n - 1)%Z).
  { rewrite <- (Qfloor_Z (Z.of_nat n - 1)). apply Qfloor_resp_le. Lqa.nra. }
  lia.
Qed.

(** The table-driven step keeps a lifetime in [0, 1). *)
Lemma advance_lookup_in_unit (v : list Q) (t : option Q) :
  Forall (fun x => 0 <= x) v -> v <> [] -> in_unit t ->
  in_unit (advance_lookup v (max_velocity v) t).
Proof.
  intros Hpos Hne Ht. destruct t as [t|]; [|done]. destruct Ht as [Ht0 Ht1].
  unfold advance_lookup. cbn [mbind option_bind].
  assert (Hlen : (0 < length v)%nat) by (destruct v; [done|simpl; lia]).
  destruct (source_indices_in_range (length v) t Hlen Ht0 Ht1) as [Hlo Hhi].
  cbv zeta in Hlo, Hhi.
  set (n1 := inject_Z (Z.of_nat (length v) - 1)) in *.
  set (srcIdx := t * n1) in *.
  set (lo := Qfloor srcIdx) in *.
  set (hi := Z.min (lo + 1) (Z.of_nat (length v) - 1)) in *.
  set (frac := srcIdx - inject_Z lo).
  pose proof (Qfloor_le srcIdx) as Hfl. pose proof (Qlt_floor srcIdx) as Hfu.
  fold lo in Hfl, Hfu.
  assert (Hfrac : 0 <= frac /\ frac <= 1).
  { unfold frac. rewrite inject_Z_plus in Hfu. change (inject_Z 1) with 1 in Hfu.
    split; Lqa.lra. }
  destruct (vel_bounds v lo Hpos Hlo) as (a & -> & Ha0 & Ha1).
  destruct (vel_bounds v hi Hpos Hhi) as (b & -> & Hb0 & Hb1).
  cbn [mbind option_bind].
  pose proof (max_velocity_ge_1 v) as HM.
  set (M := max_velocity v) in *.
  assert (Hloc : 0 <= a * (1 - frac) + b * frac /\ a * (1 - frac) + b * frac <= M).
  { destruct Hfrac. split; Lqa.nra. }
  set (localVel := a * (1 - frac) + b * frac) in *.
  assert (Hsf : 0 <= localVel / M /\ localVel / M <= 1).
  { destruct Hloc. split.
    - apply Qle_shift_div_l; Lqa.lra.
    - apply Qle_shift_div_r; Lqa.lra. }
  destruct Hsf. apply wrap_in_unit; Lqa.lra.
Qed.

(** The frame step keeps a lifetime in [0, 1). *)
Lemma advance_frame_in_unit (t : option Q) : in_unit t -> in_unit (advance_frame t).
Proof.
  destruct t as [t|]; [|done]. intros [H0 H1]. unfold advance_frame.
  cbn [mbind option_bind]. apply wrap_in_unit; Lqa.lra.
Qed.

Lemma advance_in_unit (a : advancement) (ls : list (option Q)) :
  good_call a -> Forall in_unit ls ->
  exists ls', advance a (Some ls) = Some ls' /\ Forall in_unit ls'.
Proof.
  intros Hgood Hall. destruct a as [[sx ri v tk]|mv]; cbn [advance].
  - unfold updateInternalFlow.
    cbn [good_call InternalFlow.velocity_m_s] in Hgood.
    cbn [InternalFlow.station_x InternalFlow.station_r_inner InternalFlow.velocity_m_s
         InternalFlow.temperature_K].
    destruct sx as [sx|]; [|by exists ls].
    destruct (length sx <? 2)%nat; [by exists ls|].
    destruct ri as [ri|]; [|by exists ls].
    destruct v as [v|]; [|by exists ls].
    destruct tk as [tk|]; [|by exists ls].
    destruct Hgood as [Hpos Hne]. cbn [present mbind result_bind].
    eexists. split; [reflexivity|].
    apply map_loop_Forall; [|exact Hall].
    intros x Hx. apply advance_lookup_in_unit; [exact Hpos|exact Hne|exact Hx].
  - unfold advanceInternalFlowParticles. destruct (Qle_bool mv 0).
    + exists ls. split; [reflexivity|exact Hall].
    + eexists. split; [reflexivity|].
      apply map_loop_Forall; [|exact Hall]. apply advance_frame_in_unit.
Qed.

(** A tick that runs on an empty velocity array reads [undefined]. *)
Lemma advance_lookup_empty (M : Q) (t : option Q) : advance_lookup [] M t = None.
Proof.
  assert (Hvel : forall k, vel [] k = None).
  { intros k. unfold vel, js_get. by destruct (k <? 0)%Z. }
  destruct t as [t|]; [|done]. unfold advance_lookup. cbn [mbind option_bind].
  rewrite (Hvel (Qfloor _)). reflexivity.
Qed.


End InternalFlowLifetimes.

Section FlameLifetimes.
Import FlameParticles.
Local Open Scope Q_scope.

Variable Math_random : nat -> Q.
Variable Math_pow : Q -> Q -> Q.
Variable fl : Q -> Q.
Variable fround : Q -> Q.

Abbreviation resetParticle := (resetParticle Math_random Math_pow fl fround).
Abbreviation advance_particle := (advance_particle Math_random Math_pow fl fround).
Abbreviation reborn := (reborn Math_random Math_pow fl fround).
Abbreviation outcome := (outcome Math_random Math_pow fl fround).
Abbreviation speed_of := (speed_of fl).

Lemma sizes_eq (s1 s2 : ParticleSystem) :
  sizes s1 = sizes s2 ->
  length (lifetimes s1) = length (lifetimes s2)
  /\ length (positions s1) = length (positions s2)
  /\ length (radii s1) = length (radii s2).
Proof. unfold sizes. intros [= -> -> ->]. done. Qed.

Lemma entries_lifetime (s1 s2 : ParticleSystem) (i : nat) :
  entries s1 i = entries s2 i -> lifetimes s1 !! i = lifetimes s2 !! i.
Proof. unfold entries. intros [= -> _ _ _ _]. done. Qed.

Lemma resetParticle_sizes i x s : sizes (resetParticle i x s) = sizes s.
Proof. unfold sizes, FlameParticles.resetParticle. cbn. by rewrite !length_insert. Qed.

Lemma advance_particle_sizes x speed s i :
  sizes (advance_particle x speed s i) = sizes s.
Proof.
  unfold FlameParticles.advance_particle.
  destruct (negb _); [rewrite resetParticle_sizes|];
    unfold sizes; cbn; by rewrite !length_insert.
Qed.

Lemma resetParticle_other i j x s : i <> j -> entries (resetParticle i x s) j = entries s j.
Proof.
  intros Hne. unfold entries, FlameParticles.resetParticle. cbn.
  by rewrite !list_lookup_insert_ne by lia.
Qed.

Lemma advance_particle_other x speed s i j :
  i <> j -> entries (advance_particle x speed s i) j = entries s j.
Proof.
  intros Hne. unfold FlameParticles.advance_particle.
  destruct (negb _); [rewrite resetParticle_other by done|];
    unfold entries; cbn; by rewrite !list_lookup_insert_ne by lia.
Qed.

Lemma outcome_entries x speed l k i s s' :
  entries s' i = entries s i -> outcome x speed l k i s -> outcome x speed l k i s'.
Proof.
  unfold entries, FlameParticles.outcome, FlameParticles.reborn.
  intros [= -> -> -> -> ->]. done.
Qed.

Lemma advance_particle_at x speed s i l :
  lifetimes s !! i = Some l ->
  (i * 3 + 2 < length (positions s))%nat -> (i < length (radii s))%nat ->
  outcome x speed l (draws s) i (advance_particle x speed s i).
Proof.
  intros Hl Hpos Hrad.
  assert (Hi : (i < length (lifetimes s))%nat) by (apply lookup_lt_is_Some; eauto).
  unfold FlameParticles.outcome, FlameParticles.advance_particle. rewrite Hl. cbn [default].
  cbv zeta. destruct (Qle_bool _ 1.0); cbn [negb].
  - cbn. apply list_lookup_insert_eq. exact Hi.
  - unfold FlameParticles.reborn, FlameParticles.resetParticle. cbn.
    repeat split.
    + apply list_lookup_insert_eq. by rewrite length_insert.
    + rewrite !list_lookup_insert_ne by lia. apply list_lookup_insert_eq. lia.
    + rewrite list_lookup_insert_ne by lia. apply list_lookup_insert_eq.
      rewrite length_insert. lia.
    + apply list_lookup_insert_eq. rewrite !length_insert. lia.
    + apply list_lookup_insert_eq. exact Hrad.
Qed.

(** The loop of [updateFlame] over the first [n] particles. *)
Lemma flame_loop x speed s n :
  let s' := fold_left (advance_particle x speed) (seq 0 n) s in
  sizes s' = sizes s
  /\ (forall i, (n <= i)%nat -> entries s' i = entries s i)
  /\ (forall i l, (i < n)%nat -> lifetimes s !! i = Some l ->
       (i * 3 + 2 < length (positions s))%nat -> (i < length (radii s))%nat ->
       exists k, outcome x speed l k i s').
Proof.
  induction n as [|n IH]; [cbn; split; [done|split; [done|intros; lia]]|].
  rewrite seq_S, fold_left_app. cbn [fold_left plus].
  set (sn := fold_left _ (seq 0 n) s) in *. cbv zeta in IH.
  destruct IH as (Hsz & Hrest & Hdone).
  split; [by rewrite advance_particle_sizes|]. split.
  - intros i Hi. rewrite advance_particle_other by lia. apply Hrest. lia.
  - intros i l Hi Hl Hpos Hrad.
    destruct (decide (i = n)) as [->|Hne].
    + exists (draws sn).
      pose proof (entries_lifetime sn s n (Hrest n ltac:(lia))) as Hl'.
      destruct (sizes_eq sn s Hsz) as (_ & Hp & Hr).
      apply advance_particle_at; [by rewrite Hl'|by rewrite Hp|by rewrite Hr].
    + destruct (Hdone i l ltac:(lia) Hl Hpos Hrad) as [k Hk].
      exists k. eapply outcome_entries; [|exact Hk].
      apply advance_particle_other. lia.
Qed.

(** One [updateFlame] call, particle by particle. *)
Lemma updateFlame_particle x r thrust s i l :
  well_sized s -> lifetimes s !! i = Some l ->
  exists s',
    updateFlame Math_random Math_pow fl fround x r thrust (Some s) = Some s'
    /\ well_sized s'
    /\ exists k, outcome x (speed_of thrust) l k i s'.
Proof.
  intros (Hl & Hp & Hr) Hi.
  assert (Hlt : (i < PARTICLE_COUNT)%nat).
  { rewrite <- Hl. apply lookup_lt_is_Some. eauto. }
  eexists. split; [reflexivity|].
  destruct (flame_loop x (speed_of thrust) s PARTICLE_COUNT) as (Hsz & _ & Hdone).
  apply sizes_eq in Hsz as (Hl' & Hp' & Hr').
  split.
  { unfold well_sized. rewrite Hl', Hp', Hr'.
    split; [exact Hl|split; [exact Hp|exact Hr]]. }
  apply Hdone; [exact Hlt|exact Hi|lia|lia].
Qed.


(** The advection speed and an advanced lifetime are not negative. *)
Lemma speed_of_nonneg thrust : rounding fl -> 0 <= thrust -> 0 <= speed_of thrust.
Proof.
  intros Hfl Hth. unfold FlameParticles.speed_of.
  assert (H6 : 0 <= fl 0.006) by (apply rnd_nonneg; [done|Lqa.lra]).
  assert (H8 : 0 <= fl 0.008) by (apply rnd_nonneg; [done|Lqa.lra]).
  assert (Ht : 0 <= fl (thrust * fl 0.008)) by (apply rnd_nonneg; [done|Lqa.nra]).
  apply rnd_nonneg; [done|Lqa.lra].
Qed.

Lemma advanced_nonneg speed l k :
  rounding fl -> rounding fround -> 0 <= Math_random k -> 0 <= speed -> 0 <= l ->
  0 <= advanced Math_random fl fround speed l k.
Proof.
  intros Hfl Hfr Hk Hs Hl. unfold advanced.
  assert (H2 : 0 <= fl 0.002) by (apply rnd_nonneg; [done|Lqa.lra]).
  assert (Hr : 0 <= fl (Math_random k * fl 0.002)) by (apply rnd_nonneg; [done|Lqa.nra]).
  assert (Hi : 0 <= fl (speed + fl (Math_random k * fl 0.002)))
    by (apply rnd_nonneg; [done|Lqa.lra]).
  apply rnd_nonneg; [done|]. apply rnd_nonneg; [done|Lqa.lra].
Qed.

End FlameLifetimes.

Open Scope Q_scope.

(** X24.  In one [updateFlame] call every particle is advanced by
    [speed + Math.random() * 0.002], and the test [lifetimes[i] > 1.0]
    reads the sum back from the [Float32Array].  A particle whose stored
    lifetime is then at most 1.0 keeps it; one whose stored lifetime
    exceeds 1.0 is reset by [resetParticle]: its position is the nozzle
    exit [(exitX, 0, 0)] as the array holds it, its lifetime is the next
    random draw as the array holds it, a value in [0, 1] and in general not
    0, and its radial fraction is drawn again.  The arrays keep their
    [PARTICLE_COUNT] entries. *)
Theorem updateFlame_overflow_is_reborn_at_random_lifetime
    (Math_random : nat -> Q) (Math_pow : Q -> Q -> Q) (fl fround : Q -> Q)
    (exitX exitRadius thrustScale : Q)
    (s : FlameParticles.ParticleSystem) (i : nat) (l : Q) :
  rounding fround ->
  (forall k, 0 <= Math_random k /\ Math_random k < 1) ->
  FlameParticles.well_sized s ->
  FlameParticles.lifetimes s !! i = Some l ->
  exists (s' : FlameParticles.ParticleSystem) (k : nat),
    FlameParticles.updateFlame Math_random Math_pow fl fround
      exitX exitRadius thrustScale (Some s) = Some s'
    /\ FlameParticles.well_sized s'
    /\ let l1 :=
         FlameParticles.advanced Math_random fl fround
           (FlameParticles.speed_of fl thrustScale) l k in
       (l1 <= 1 -> FlameParticles.lifetimes s' !! i = Some l1)
       /\ (1 < l1 ->
           FlameParticles.reborn Math_random Math_pow fl fround exitX k i s'
           /\ 0 <= fround (Math_random (S k)) /\ fround (Math_random (S k)) <= 1).
Proof.
  intros Hfr Hrnd Hsz Hl.
  destruct (updateFlame_particle Math_random Math_pow fl fround exitX exitRadius
              thrustScale s i l Hsz Hl) as (s' & Hs' & Hsz' & k & Hout).
  exists s', k. split; [exact Hs'|]. split; [exact Hsz'|].
  unfold FlameParticles.outcome in Hout. cbv zeta in *.
  set (l1 := FlameParticles.advanced _ _ _ _ _ _) in *.
  destruct (Qle_bool l1 1.0) eqn:Hb.
  - apply Qle_bool_iff in Hb. split; [intros _; exact Hout|].
    intros Hlt. exfalso. Lqa.lra.
  - assert (Hn : ~ l1 <= 1.0) by (rewrite <- Qle_bool_iff; congruence).
    split; [intros Hle; exfalso; apply Hn; Lqa.lra|].
    intros _. split; [exact Hout|]. destruct (Hrnd (S k)) as [H0 H1]. split.
    + by apply rnd_nonneg.
    + apply rnd_le_1; [done|Lqa.lra].
Qed.

(** A plume whose particles are all at lifetime 0.999, at full thrust, with
    every random draw equal to 1/2, in exact arithmetic. *)
Lemma updateFlame_overflow_is_reborn_at_random_lifetime_witness :
  exists (s' : FlameParticles.ParticleSystem) (k : nat),
    FlameParticles.updateFlame (ExampleParticles.constant_draw 0.5)
      ExampleParticles.pow_stub exact exact 0.4 0.04 1
      (Some (ExampleParticles.uniform_plume 0.999)) = Some s'
    /\ FlameParticles.reborn (ExampleParticles.constant_draw 0.5)
         ExampleParticles.pow_stub exact exact 0.4 k 0 s'.
Proof.
  destruct (updateFlame_overflow_is_reborn_at_random_lifetime
              (ExampleParticles.constant_draw 0.5) ExampleParticles.pow_stub
              exact exact 0.4 0.04 1 (ExampleParticles.uniform_plume 0.999) 0 0.999)
    as (s' & k & Hs' & _ & _ & Hover).
  - exact rounding_exact.
  - intros k. unfold ExampleParticles.constant_draw. split; Lqa.lra.
  - repeat split; apply length_replicate.
  - reflexivity.
  - exists s', k. split; [exact Hs'|]. apply Hover.
    unfold ExampleParticles.constant_draw. vm_compute. reflexivity.
Defined.

(** C5 as stated fails: after an overflow the lifetime of the particle is
    the random draw (here 1/2), not 0. *)
Lemma updateFlame_overflow_lifetime_not_zero :
  exists (s' : FlameParticles.ParticleSystem) (l' : Q),
    FlameParticles.updateFlame (ExampleParticles.constant_draw 0.5)
      ExampleParticles.pow_stub exact exact 0.4 0.04 1
      (Some (ExampleParticles.uniform_plume 0.999)) = Some s'
    /\ 1 < 0.999 + (0.006 + 1 * 0.008 + 0.5 * 0.002)
    /\ FlameParticles.lifetimes s' !! 0%nat = Some l'
    /\ ~ l' == 0.
Proof.
  destruct (updateFlame_particle (ExampleParticles.constant_draw 0.5)
              ExampleParticles.pow_stub exact exact 0.4 0.04 1
              (ExampleParticles.uniform_plume 0.999) 0 0.999)
    as (s' & Hs' & _ & k & Hout).
  - repeat split; apply length_replicate.
  - reflexivity.
  - exists s', 0.5. split; [exact Hs'|]. split; [Lqa.lra|].
    split; [|Lqa.lra].
    unfold FlameParticles.outcome, FlameParticles.advanced, FlameParticles.speed_of,
      exact, ExampleParticles.constant_draw in Hout.
    cbv zeta in Hout.
    change (Qle_bool (0.999 + (0.006 + 1 * 0.008 + 0.5 * 0.002)) 1.0) with false in Hout.
    by destruct Hout as [H _].
Qed.

(** C4.  The plume test is [lifetimes[i] > 1.0], so a lifetime of exactly
    1.0 is kept: from lifetime 0.986, in [0, 1), at full thrust (speed
    0.014) and with a random draw of 0, one [updateFlame] call leaves the
    lifetime at 1 in exact arithmetic. *)
Theorem updateFlame_leaves_lifetime_one :
  exists (s' : FlameParticles.ParticleSystem) (l' : Q),
    FlameParticles.updateFlame (ExampleParticles.constant_draw 0)
      ExampleParticles.pow_stub exact exact 0.4 0.04 1
      (Some (ExampleParticles.uniform_plume 0.986)) = Some s'
    /\ (0 <= 0.986 /\ 0.986 < 1)
    /\ FlameParticles.lifetimes s' !! 0%nat = Some l'
    /\ l' == 1.
Proof.
  destruct (updateFlame_particle (ExampleParticles.constant_draw 0)
              ExampleParticles.pow_stub exact exact 0.4 0.04 1
              (ExampleParticles.uniform_plume 0.986) 0 0.986)
    as (s' & Hs' & _ & k & Hout).
  - repeat split; apply length_replicate.
  - reflexivity.
  - exists s', (0.986 + (0.006 + 1 * 0.008 + 0 * 0.002)).
    split; [exact Hs'|]. split; [split; Lqa.lra|].
    split; [|Lqa.lra].
    unfold FlameParticles.outcome, FlameParticles.advanced, FlameParticles.speed_of,
      exact, ExampleParticles.constant_draw in Hout.
    cbv zeta in Hout.
    change (Qle_bool (0.986 + (0.006 + 1 * 0.008 + 0 * 0.002)) 1.0) with true in Hout.
    exact Hout.
Qed.

(** X25.  The plume keeps every lifetime in the closed interval [0, 1]
    when the thrust scale is not negative and the draws are in [0, 1): the
    test is [lifetimes[i] > 1.0], so that 1.0 itself can be reached.  This
    holds of the lifetimes as the [Float32Array] holds them, for any
    rounding to double and to single precision, and so for exact
    arithmetic. *)
Lemma updateFlame_lifetime_in_closed_unit
    (Math_random : nat -> Q) (Math_pow : Q -> Q -> Q) (fl fround : Q -> Q)
    (exitX exitRadius thrustScale : Q)
    (s : FlameParticles.ParticleSystem) (i : nat) (l : Q) :
  rounding fl -> rounding fround ->
  (forall k, 0 <= Math_random k /\ Math_random k < 1) ->
  0 <= thrustScale ->
  FlameParticles.well_sized s ->
  FlameParticles.lifetimes s !! i = Some l -> 0 <= l ->
  exists (s' : FlameParticles.ParticleSystem) (l' : Q),
    FlameParticles.updateFlame Math_random Math_pow fl fround
      exitX exitRadius thrustScale (Some s) = Some s'
    /\ FlameParticles.lifetimes s' !! i = Some l' /\ 0 <= l' /\ l' <= 1.
Proof.
  intros Hfl Hfr Hrnd Hth Hsz Hl Hl0.
  destruct (updateFlame_particle Math_random Math_pow fl fround exitX exitRadius
              thrustScale s i l Hsz Hl) as (s' & Hs' & _ & k & Hout).
  unfold FlameParticles.outcome in Hout. cbv zeta in Hout.
  destruct (Hrnd k) as [Hk0 Hk1]. destruct (Hrnd (S k)) as [HS0 HS1].
  pose proof (advanced_nonneg Math_random fl fround
                (FlameParticles.speed_of fl thrustScale) l k Hfl Hfr Hk0
                (speed_of_nonneg fl thrustScale Hfl Hth) Hl0) as Hadv.
  set (l1 := FlameParticles.advanced _ _ _ _ _ _) in *.
  destruct (Qle_bool l1 1.0) eqn:Hb.
  - apply Qle_bool_iff in Hb. exists s', l1. split; [exact Hs'|].
    split; [exact Hout|]. split; [exact Hadv|Lqa.lra].
  - destruct Hout as [Hout _]. eexists s', _. split; [exact Hs'|].
    split; [exact Hout|]. split.
    + by apply rnd_nonneg.
    + apply rnd_le_1; [done|Lqa.lra].
Qed.

(** A plume at lifetime 1/2, at half thrust, with every draw 1/2, in exact
    arithmetic. *)
Lemma updateFlame_lifetime_in_closed_unit_witness :
  exists (s' : FlameParticles.ParticleSystem) (l' : Q),
    FlameParticles.updateFlame (ExampleParticles.constant_draw 0.5)
      ExampleParticles.pow_stub exact exact 0.4 0.04 0.5
      (Some (ExampleParticles.uniform_plume 0.5)) = Some s'
    /\ FlameParticles.lifetimes s' !! 7%nat = Some l' /\ 0 <= l' /\ l' <= 1.
Proof.
  apply (updateFlame_lifetime_in_closed_unit
           (ExampleParticles.constant_draw 0.5) ExampleParticles.pow_stub
           exact exact 0.4 0.04 0.5 (ExampleParticles.uniform_plume 0.5) 7 0.5).
  - exact rounding_exact.
  - exact rounding_exact.
  - intros k. unfold ExampleParticles.constant_draw. split; Lqa.lra.
  - Lqa.lra.
  - repeat split; apply length_replicate.
  - reflexivity.
  - Lqa.lra.
Defined.


Close Scope Q_scope.
(** ** The overlay modules, one function at a time *)

Lemma clearHeatMap_idem (w : World) : clearHeatMap (clearHeatMap w) = clearHeatMap w.
Proof. destruct_world w. destruct outerM, heatOrig; crush_world. Qed.

Lemma clearStressOverlay_idem (w : World) :
  clearStressOverlay (clearStressOverlay w) = clearStressOverlay w.
Proof. destruct_world w. destruct outerM, stressOrig; crush_world. Qed.

Lemma clearFlowViz_idem (w : World) : clearFlowViz (clearFlowViz w) = clearFlowViz w.
Proof. destruct_world w. destruct flowApplied, innerM; crush_world. Qed.

Lemma clearCoolingViz_cleared (w : World) : cooling_cleared (clearCoolingViz w).
Proof.
  destruct_world w.
  destruct renderer, shaderActive, outerM, savedMat; crush_world.
Qed.

Lemma clearCoolingViz_fix (w : World) : cooling_cleared w -> clearCoolingViz w = w.
Proof.
  destruct_world w. wcbv.
  intros (-> & -> & -> & -> & -> & Hr).
  destruct renderer; [rewrite Hr by done|]; reflexivity.
Qed.

Lemma clearCoolingViz_idem (w : World) :
  clearCoolingViz (clearCoolingViz w) = clearCoolingViz w.
Proof. apply clearCoolingViz_fix, clearCoolingViz_cleared. Qed.

Lemma below_le (n n' : ref) (o : option ref) :
  below n o -> (n <= n')%nat -> below n' o.
Proof. destruct o; simpl; [lia|done]. Qed.

Lemma below_Some (n r : ref) : (r < n)%nat -> below n (Some r).
Proof. done. Qed.

Ltac solve_refs :=
  wcbv; intros; split_all; try assumption; try done; try tauto;
  try (intuition congruence);
  try (eapply below_le; [eassumption|lia]);
  try (apply below_Some; lia);
  unfold below, apart in *;
  repeat (world_case; simplify_eq; try done);
  try lia; try naive_solver lia.

Lemma clearHeatMap_keeps (w : World) :
  refs_ok w ->
  refs_ok (clearHeatMap w) /\ mn (clearHeatMap w) = mn w
  /\ ~ thermal_active (clearHeatMap w)
  /\ (forall m, ~ overlay_active m w -> ~ overlay_active m (clearHeatMap w)).
Proof.
  destruct_world w.
  destruct outerM as [[g c mat vc]|], heatOrig; solve_refs.
Qed.

Lemma clearStressOverlay_keeps (w : World) :
  refs_ok w ->
  refs_ok (clearStressOverlay w) /\ mn (clearStressOverlay w) = mn w
  /\ ~ stress_active (clearStressOverlay w)
  /\ (forall m, ~ overlay_active m w -> ~ overlay_active m (clearStressOverlay w)).
Proof.
  destruct_world w.
  destruct outerM as [[g c mat vc]|], stressOrig; solve_refs.
Qed.

Lemma clearFlowViz_keeps (w : World) :
  refs_ok w ->
  refs_ok (clearFlowViz w) /\ mn (clearFlowViz w) = mn w
  /\ ~ flow_active (clearFlowViz w)
  /\ (forall m, ~ overlay_active m w -> ~ overlay_active m (clearFlowViz w)).
Proof.
  destruct_world w.
  destruct flowApplied, innerM; solve_refs.
Qed.

Lemma clearCoolingViz_keeps (w : World) :
  refs_ok w ->
  refs_ok (clearCoolingViz w) /\ mn (clearCoolingViz w) = mn w
  /\ ~ cooling_active (clearCoolingViz w)
  /\ (forall m, ~ overlay_active m w -> ~ overlay_active m (clearCoolingViz w)).
Proof.
  destruct_world w.
  destruct renderer, shaderActive, outerM as [[g c mat vc]|], savedMat; solve_refs.
Qed.

Lemma setInternalFlowVisible_keeps (b : bool) (w : World) :
  refs_ok w ->
  refs_ok (setInternalFlowVisible b w) /\ mn (setInternalFlowVisible b w) = mn w
  /\ (forall m, ~ overlay_active m w -> ~ overlay_active m (setInternalFlowVisible b w)).
Proof.
  destruct_world w. destruct flowVisible; solve_refs.
Qed.

Lemma applyHeatMap_keeps (temps : list JsNum.jsnum) (w : World) :
  refs_ok w -> ~ thermal_active w -> ~ stress_active w ->
  refs_ok (applyHeatMap temps w).1 /\ mn (applyHeatMap temps w).1 = mn w
  /\ (forall m, m <> m_heatmap ->
        ~ overlay_active m w -> ~ overlay_active m (applyHeatMap temps w).1).
Proof.
  destruct_world w.
  destruct outerM as [[g c mat vc]|], heatOrig, heatMat; solve_refs.
Qed.

Lemma applyStressOverlay_keeps (stress : list JsNum.jsnum) (y : JsNum.jsnum) (w : World) :
  refs_ok w -> ~ thermal_active w -> ~ stress_active w ->
  refs_ok (applyStressOverlay stress y w) /\ mn (applyStressOverlay stress y w) = mn w
  /\ (forall m, m <> m_stress ->
        ~ overlay_active m w -> ~ overlay_active m (applyStressOverlay stress y w)).
Proof.
  destruct_world w.
  destruct outerM as [[g c mat vc]|], stressOrig, stressMat; solve_refs.
Qed.

Lemma applyFlowVisualization_keeps (machArray : option (list JsNum.jsnum))
    (cd : option CoolantData) (w : World) :
  refs_ok w ->
  refs_ok (applyFlowVisualization machArray cd w)
  /\ mn (applyFlowVisualization machArray cd w) = mn w
  /\ (forall m, m <> m_flow ->
        ~ overlay_active m w -> ~ overlay_active m (applyFlowVisualization machArray cd w)).
Proof.
  destruct_world w.
  destruct innerM, machArray, cd as [[T [v|]]|],
    outerM as [[g c mat vc]|], group; solve_refs.
Qed.

Lemma showCrossSection_keeps (cfg : CoolingCfg) (w : World) :
  refs_ok w ->
  refs_ok (showCrossSection cfg w) /\ mn (showCrossSection cfg w) = mn w
  /\ (forall m, m <> m_cooling ->
        ~ overlay_active m w -> ~ overlay_active m (showCrossSection cfg w)).
Proof.
  destruct_world w.
  destruct cfg as [[|]], scene; solve_refs.
Qed.


Lemma clearCutawayAndCrossSection_keeps (w : World) :
  refs_ok w ->
  refs_ok (clearCutawayAndCrossSection w)
  /\ mn (clearCutawayAndCrossSection w) = mn w
  /\ Scene.scene (sc (clearCutawayAndCrossSection w)) = Scene.scene (sc w)
  /\ (forall m, m <> m_cooling ->
        ~ overlay_active m w -> ~ overlay_active m (clearCutawayAndCrossSection w)).
Proof.
  destruct_world w. destruct renderer; solve_refs.
Qed.

Lemma applyChannelShader_keeps (w : World) :
  refs_ok w -> ~ thermal_active w -> ~ stress_active w ->
  refs_ok (applyChannelShader w) /\ mn (applyChannelShader w) = mn w
  /\ (forall m, m <> m_cooling ->
        ~ overlay_active m w -> ~ overlay_active m (applyChannelShader w)).
Proof.
  destruct_world w.
  destruct outerM as [[g c mat vc]|]; [|solve_refs].
  destruct chanMat as [cm|]; [destruct (decide (mat = cm)) as [->|Hne]|].
  - wcbv. rewrite bool_decide_eq_true_2 by done. solve_refs.
  - wcbv. rewrite bool_decide_eq_false_2 by done. solve_refs.
  - solve_refs.
Qed.

Lemma enableCutaway_keeps (w : World) :
  refs_ok w ->
  refs_ok (enableCutaway w) /\ mn (enableCutaway w) = mn w
  /\ (forall m, m <> m_cooling ->
        ~ overlay_active m w -> ~ overlay_active m (enableCutaway w)).
Proof.
  destruct_world w.
  destruct renderer, scene; solve_refs.
Qed.

Lemma showCoolingViz_keeps (cfg : CoolingCfg) (cut : bool) (w : World) :
  refs_ok w -> ~ thermal_active w -> ~ stress_active w ->
  refs_ok (showCoolingViz cfg cut w) /\ mn (showCoolingViz cfg cut w) = mn w
  /\ (forall m, m <> m_cooling ->
        ~ overlay_active m w -> ~ overlay_active m (showCoolingViz cfg cut w)).
Proof.
  intros Hok Ht Hs. unfold showCoolingViz.
  destruct (clearCutawayAndCrossSection_keeps w Hok) as (Hok1 & Hmn1 & Hsc1 & Hk1).
  pose proof (Hk1 m_heatmap ltac:(done) Ht) as Ht1.
  pose proof (Hk1 m_stress ltac:(done) Hs) as Hs1.
  generalize dependent (clearCutawayAndCrossSection w). intros w1 **.
  destruct (negb (enabled cfg)).
  { destruct (clearCoolingViz_keeps w1 Hok1) as (Hok2 & Hmn2 & _ & Hk2).
    split; [done|]. split; [congruence|]. intros m Hm Hq. apply Hk2, Hk1; done. }
  destruct (Scene.scene (sc w1)).
  2:{ split; [done|]. split; [done|]. intros m Hm Hq. by apply Hk1. }
  destruct (applyChannelShader_keeps w1 Hok1 Ht1 Hs1) as (Hok2 & Hmn2 & Hk2).
  destruct cut.
  - destruct (enableCutaway_keeps _ Hok2) as (Hok3 & Hmn3 & Hk3).
    split; [done|]. split; [congruence|]. intros m Hm Hq. apply Hk3, Hk2, Hk1; done.
  - split; [done|]. split; [congruence|]. intros m Hm Hq. apply Hk2, Hk1; done.
Qed.

(** ** The material the outer wall gets back *)

Ltac solve_restores :=
  wcbv; intros; split_all; simplify_eq;
  repeat match goal with
         | |- ex _ => eexists
         | |- _ /\ _ => split
         end;
  try reflexivity; try done; try tauto; try naive_solver.

Lemma restores_frame (m0 : ref) (w w' : World) :
  getOuterMesh w' = getOuterMesh w -> hm w' = hm w -> so w' = so w ->
  CoolingViz.channelShaderActive (cv w') = CoolingViz.channelShaderActive (cv w) ->
  CoolingViz.channelMaterial (cv w') = CoolingViz.channelMaterial (cv w) ->
  CoolingViz.savedOuterMaterial (cv w') = CoolingViz.savedOuterMaterial (cv w) ->
  Main.lastSimData (mn w') = Main.lastSimData (mn w) ->
  (restores m0 w -> restores m0 w')
  /\ (restores_cool m0 w -> restores_cool m0 w')
  /\ (restores_plain m0 w -> restores_plain m0 w').
Proof.
  intros Ho Hh Hs Ha Hc Hsv Hd.
  unfold restores_plain, restores_cool, restores, outer_material.
  rewrite Ho, Hh, Hs, Ha, Hc, Hsv, Hd. tauto.
Qed.

Lemma clear_three_restores (m0 : ref) (w : World) :
  restores m0 w ->
  restores_cool m0 (clearFlowViz (clearStressOverlay (clearHeatMap w))).
Proof.
  destruct_world w.
  destruct outerM as [[g c mat vc]|], heatOrig, stressOrig, flowApplied, innerM;
    solve_restores.
Qed.

Lemma clearCoolingViz_restores (m0 : ref) (w : World) :
  restores_cool m0 w -> restores_plain m0 (clearCoolingViz w).
Proof.
  destruct_world w.
  destruct renderer, shaderActive, outerM as [[g c mat vc]|], savedMat;
    wcbv; try (destruct (decide (Some mat = chanMat))); solve_restores.
Qed.

Lemma applyHeatMap_restores (m0 : ref) (temps : list JsNum.jsnum) (w : World) :
  restores_plain m0 w -> Main.lastSimData (mn w) <> None ->
  restores m0 (applyHeatMap temps w).1.
Proof.
  destruct_world w.
  destruct outerM as [[g c mat vc]|], heatOrig, heatMat; solve_restores.
Qed.

Lemma applyStressOverlay_restores (m0 : ref) (stress : list JsNum.jsnum)
    (y : JsNum.jsnum) (w : World) :
  restores_plain m0 w -> Main.lastSimData (mn w) <> None ->
  restores m0 (applyStressOverlay stress y w).
Proof.
  destruct_world w.
  destruct outerM as [[g c mat vc]|], stressOrig, stressMat; solve_restores.
Qed.

Lemma applyFlowVisualization_restores (m0 : ref) (machArray : option (list JsNum.jsnum))
    (cd : option CoolantData) (w : World) :
  restores_plain m0 w -> restores_plain m0 (applyFlowVisualization machArray cd w).
Proof.
  destruct_world w.
  destruct innerM, machArray, cd as [[T [v|]]|],
    outerM as [[g c mat vc]|], group; solve_restores.
Qed.

Lemma applyChannelShader_restores (m0 : ref) (w : World) :
  restores_cool m0 w -> Main.lastSimData (mn w) <> None ->
  restores m0 (applyChannelShader w).
Proof.
  destruct_world w.
  destruct outerM as [[g c mat vc]|]; [|solve_restores].
  destruct chanMat as [cm|]; [destruct (decide (mat = cm)) as [->|Hne]|].
  - wcbv. rewrite bool_decide_eq_true_2 by done. solve_restores.
  - wcbv. rewrite bool_decide_eq_false_2 by done. solve_restores.
  - solve_restores.
Qed.

Lemma showCoolingViz_restores (m0 : ref) (cfg : CoolingCfg) (cut : bool) (w : World) :
  restores_cool m0 w -> Main.lastSimData (mn w) <> None ->
  restores m0 (showCoolingViz cfg cut w).
Proof.
  intros Hr Hd. unfold showCoolingViz.
  assert (H1 : restores_cool m0 (clearCutawayAndCrossSection w)
               /\ Main.lastSimData (mn (clearCutawayAndCrossSection w)) <> None).
  { split.
    - revert Hr. apply restores_frame; destruct_world w; by destruct renderer.
    - destruct_world w; by destruct renderer. }
  destruct H1 as [Hr1 Hd1].
  generalize dependent (clearCutawayAndCrossSection w). intros w1 **.
  destruct (negb (enabled cfg)).
  { by apply clearCoolingViz_restores. }
  destruct (Scene.scene (sc w1)); [|by destruct Hr1].
  pose proof (applyChannelShader_restores m0 w1 Hr1 Hd1) as Hr2.
  destruct cut; [|done].
  revert Hr2. apply restores_frame;
    generalize (applyChannelShader w1); intros w2; destruct_world w2;
    by destruct renderer, scene.
Qed.

Lemma showCrossSection_restores (m0 : ref) (cfg : CoolingCfg) (w : World) :
  restores m0 w -> restores m0 (showCrossSection cfg w).
Proof.
  apply restores_frame; destruct_world w; by destruct cfg as [[|]], scene.
Qed.

Lemma setInternalFlowVisible_restores (m0 : ref) (b : bool) (w : World) :
  (restores m0 w -> restores m0 (setInternalFlowVisible b w))
  /\ (restores_cool m0 w -> restores_cool m0 (setInternalFlowVisible b w))
  /\ (restores_plain m0 w -> restores_plain m0 (setInternalFlowVisible b w)).
Proof.
  apply restores_frame; destruct_world w; by destruct flowVisible.
Qed.

(** ** The overlay controller *)

Lemma clear_overlays_keeps (w : World) :
  refs_ok w ->
  refs_ok (clear_overlays w) /\ mn (clear_overlays w) = mn w
  /\ ~ thermal_active (clear_overlays w)
  /\ ~ stress_active (clear_overlays w)
  /\ ~ flow_active (clear_overlays w)
  /\ (Main.vizMode (mn w) <> m_cooling -> ~ cooling_active (clear_overlays w)).
Proof.
  intros Hok. unfold clear_overlays.
  cbv zeta. generalize (Main.vizMode (mn w)). intros mode.
  destruct (clearHeatMap_keeps w Hok) as (Hok1 & Hmn1 & Ht1 & _).
  generalize dependent (clearHeatMap w). intros w1 **.
  destruct (clearStressOverlay_keeps w1 Hok1) as (Hok2 & Hmn2 & Hs2 & Hk2).
  pose proof (Hk2 m_heatmap Ht1) as Ht2.
  generalize dependent (clearStressOverlay w1). intros w2 **.
  destruct (clearFlowViz_keeps w2 Hok2) as (Hok3 & Hmn3 & Hf3 & Hk3).
  pose proof (Hk3 m_heatmap Ht2) as Ht3. pose proof (Hk3 m_stress Hs2) as Hs3.
  generalize dependent (clearFlowViz w2). intros w3 **.
  assert (exists w4, w4 = (if decide (mode <> m_cooling) then clearCoolingViz w3 else w3)
            /\ refs_ok w4 /\ mn w4 = mn w3
            /\ ~ thermal_active w4 /\ ~ stress_active w4 /\ ~ flow_active w4
            /\ (mode <> m_cooling -> ~ cooling_active w4))
    as (w4 & <- & Hok4 & Hmn4 & Ht4 & Hs4 & Hf4 & Hc4).
  { eexists; split; [reflexivity|]. destruct (decide (mode <> m_cooling)); [|done].
    destruct (clearCoolingViz_keeps w3 Hok3) as (Hok4 & Hmn4 & Hc4 & Hk4).
    exact (conj Hok4 (conj Hmn4 (conj (Hk4 m_heatmap Ht3) (conj (Hk4 m_stress Hs3)
             (conj (Hk4 m_flow Hf3) (fun _ => Hc4)))))). }
  destruct (decide (mode <> m_flow)).
  - destruct (setInternalFlowVisible_keeps false w4 Hok4) as (Hok5 & Hmn5 & Hk5).
    refine (conj Hok5 (conj _ (conj (Hk5 m_heatmap Ht4) (conj (Hk5 m_stress Hs4)
              (conj (Hk5 m_flow Hf4) (fun Hm => Hk5 m_cooling (Hc4 Hm))))))).
    congruence.
  - refine (conj Hok4 (conj _ (conj Ht4 (conj Hs4 (conj Hf4 Hc4))))). congruence.
Qed.

Lemma apply_overlay_keeps (d : SimData) (w : World) :
  refs_ok w ->
  ~ thermal_active w -> ~ stress_active w -> ~ flow_active w ->
  (Main.vizMode (mn w) <> m_cooling -> ~ cooling_active w) ->
  refs_ok (apply_overlay d w) /\ mn (apply_overlay d w) = mn w
  /\ (forall m, overlay_active m (apply_overlay d w) -> m = Main.vizMode (mn w)).
Proof.
  intros Hok Ht Hs Hf Hc. unfold apply_overlay. cbv zeta.
  assert (Hid : refs_ok w /\ mn w = mn w
                /\ (forall m, overlay_active m w -> m = Main.vizMode (mn w))).
  { split; [done|]. split; [done|]. intros [] Ha; try done.
    destruct (decide (Main.vizMode (mn w) = m_cooling)) as [->|Hne]; [done|].
    by destruct (Hc Hne). }
  assert (Hquiet : forall m, m <> Main.vizMode (mn w) -> ~ overlay_active m w).
  { intros [] Hm; simpl; auto. }
  destruct (Main.vizMode (mn w)) eqn:Hmode; try exact Hid.
  - destruct (stations d ≫= wall_temp_inner_K) as [temps|]; [|exact Hid].
    destruct (applyHeatMap_keeps temps w Hok Ht Hs) as (Hok1 & Hmn1 & Hk1).
    split; [done|]. split; [done|]. intros m Ha.
    destruct (decide (m = m_heatmap)) as [|Hne]; [done|].
    destruct (Hk1 m Hne (Hquiet m Hne) Ha).
  - destruct (stations d ≫= wall_temp_inner_K);
      (destruct (stations d ≫= von_mises_stress_MPa) as [stress|]; [|exact Hid]);
      (match goal with |- context [applyStressOverlay ?s ?y w] =>
         destruct (applyStressOverlay_keeps s y w Hok Ht Hs) as (Hok1 & Hmn1 & Hk1) end;
       split; [done|]; split; [done|]; intros m Ha;
       destruct (decide (m = m_stress)) as [|Hne]; [done|];
       destruct (Hk1 m Hne (Hquiet m Hne) Ha)).
  - destruct (stations d ≫= wall_temp_inner_K);
      destruct (stations d ≫= von_mises_stress_MPa);
      (destruct (stations d ≫= mach) as [machArray|]; [|exact Hid]);
      (destruct (applyFlowVisualization_keeps (Some machArray) (cooling d) w Hok)
         as (Hok1 & Hmn1 & Hk1);
       match goal with |- context [setInternalFlowVisible ?b ?w1] =>
         destruct (setInternalFlowVisible_keeps b w1 Hok1) as (Hok2 & Hmn2 & Hk2) end;
       split; [done|]; split; [congruence|]; intros m Ha;
       destruct (decide (m = m_flow)) as [|Hne]; [done|];
       destruct (Hk2 m (Hk1 m Hne (Hquiet m Hne)) Ha)).
  - destruct (stations d ≫= wall_temp_inner_K);
      destruct (stations d ≫= von_mises_stress_MPa);
      destruct (stations d ≫= mach);
      (destruct (Main.lastMeshData (mn w)) as [md|]; [|exact Hid]);
      (destruct (showCoolingViz_keeps (Main.currentCooling (mn w)) true w Hok Ht Hs)
         as (Hok1 & Hmn1 & Hk1);
       match goal with |- context [showCrossSection ?c ?w1] =>
         destruct (showCrossSection_keeps c w1 Hok1) as (Hok2 & Hmn2 & Hk2) end;
       split; [done|]; split; [congruence|]; intros m Ha;
       destruct (decide (m = m_cooling)) as [|Hne]; [done|];
       destruct (Hk2 m Hne (Hk1 m Hne (Hquiet m Hne)) Ha)).
Qed.

Lemma applyVisualization_keeps (d : SimData) (w : World) :
  refs_ok w -> Main.lastSimData (mn w) = Some d ->
  refs_ok (applyVisualization w) /\ mn (applyVisualization w) = mn w
  /\ overlay_follows_mode (applyVisualization w).
Proof.
  intros Hok Hd. unfold applyVisualization. rewrite Hd.
  destruct (clear_overlays_keeps w Hok) as (Hok1 & Hmn1 & Ht & Hs & Hf & Hc).
  rewrite <- Hmn1 in Hc.
  destruct (apply_overlay_keeps d _ Hok1 Ht Hs Hf Hc) as (Hok2 & Hmn2 & Hk2).
  split; [done|]. split; [congruence|].
  intros m Ha. rewrite Hmn2. split; [by apply Hk2|]. rewrite Hmn1, Hd. done.
Qed.

(** A change of the controller's own variables, of the flow particles'
    visibility or of nothing the overlays look at keeps what holds of them. *)
Lemma overlay_frame (w w' : World) :
  getOuterMesh w' = getOuterMesh w -> hm w' = hm w -> so w' = so w ->
  fv w' = fv w -> cv w' = cv w -> (next w <= next w')%nat ->
  (refs_ok w -> refs_ok w')
  /\ (forall m, overlay_active m w' -> overlay_active m w).
Proof.
  intros Ho Hh Hs Hf Hc Hn. split.
  - unfold refs_ok, outer_material. rewrite Ho, Hh, Hs, Hc. cbv zeta.
    intros ((? & ? & ? & ? & ? & ?) & ? & ? & ? & ? & ? & ?).
    repeat split; try tauto; (eapply below_le; [eassumption|lia]).
  - intros []; simpl; unfold thermal_active, stress_active, flow_active, cooling_active;
      rewrite ?Ho, ?Hh, ?Hs, ?Hf, ?Hc; done.
Qed.

Lemma initial_world_ok : refs_ok initial_world /\ overlay_follows_mode initial_world.
Proof.
  split; [by cbv|]. intros [] Ha; cbv in Ha; naive_solver.
Qed.

Lemma onVizButton_keeps (m : VizMode) (w : World) :
  refs_ok w -> overlay_follows_mode w ->
  refs_ok (onVizButton m w) /\ overlay_follows_mode (onVizButton m w).
Proof.
  intros Hok Hfol. unfold onVizButton.
  destruct (overlay_frame w (set_vizMode m w)) as (Hok1 & Hact1); [done..|].
  destruct (Main.lastSimData (mn (set_vizMode m w))) as [d|] eqn:Hd.
  - destruct (applyVisualization_keeps d _ (Hok1 Hok) Hd) as (? & ? & ?). done.
  - unfold applyVisualization. rewrite Hd. split; [auto|].
    intros m' Ha. destruct (Hfol m' (Hact1 m' Ha)) as [_ Hsim].
    destruct w as [? ? ? ? ? ? [] ? ?]. done.
Qed.

Lemma onSimTick_keeps (d : SimData) (w : World) :
  refs_ok w ->
  refs_ok (onSimTick d w) /\ overlay_follows_mode (onSimTick d w).
Proof.
  intros Hok. unfold onSimTick. cbv zeta.
  destruct (overlay_frame w (set_lastSimData d w)) as (Hok1 & _); [done..|].
  assert (Hd : Main.lastSimData (mn (set_lastSimData d w)) = Some d) by done.
  generalize dependent (set_lastSimData d w). intros w1 **.
  assert (exists w2, w2 = match Main.lastMeshData (mn w1), stations d ≫= mach with
                          | Some _, Some _ =>
                              setInternalFlowVisible
                                (Main.simRunning (mn w1)
                                 && bool_decide (Main.vizMode (mn w1) = m_flow)) w1
                          | _, _ => w1
                          end
                     /\ refs_ok w2 /\ Main.lastSimData (mn w2) = Some d)
    as (w2 & <- & Hok2 & Hd2).
  { eexists; split; [reflexivity|].
    destruct (Main.lastMeshData (mn w1)); [|auto].
    destruct (stations d ≫= mach); [|auto].
    match goal with |- context [setInternalFlowVisible ?b w1] =>
      destruct (setInternalFlowVisible_keeps b w1 (Hok1 Hok)) as (? & Hmn & _) end.
    rewrite Hmn. auto. }
  destruct (applyVisualization_keeps d w2 Hok2 Hd2) as (? & ? & ?). done.
Qed.

Lemma setInternalFlowVisible_frame (b : bool) (w : World) :
  mn (setInternalFlowVisible b w) = mn w
  /\ (refs_ok w -> refs_ok (setInternalFlowVisible b w))
  /\ (forall m, overlay_active m (setInternalFlowVisible b w) -> overlay_active m w).
Proof.
  unfold setInternalFlowVisible.
  destruct (internalFlowVisible w); (split; [done|]); by apply overlay_frame.
Qed.

(** A rebuilt outer wall: a new mesh with a fresh material, the overlay
    modules untouched. *)
Lemma rebuilt_keeps (w w2 : World) (og : Geometry.BufferGeometry) :
  hm w2 = hm w -> so w2 = so w -> fv w2 = fv w -> cv w2 = cv w ->
  Main.vizMode (mn w2) = Main.vizMode (mn w) ->
  Main.lastSimData (mn w2) = Main.lastSimData (mn w) ->
  (next w < next w2)%nat ->
  getOuterMesh w2
  = Some {| geometry := og; color := None; material := next w; vertexColors := false |} ->
  refs_ok w -> overlay_follows_mode w ->
  refs_ok w2 /\ overlay_follows_mode w2.
Proof.
  intros Hh Hs Hf Hc Hmode Hsim Hn Ho Hok Hfol.
  destruct Hok as ((Hbh & Hbs & Hbho & Hbso & Hbsv & Hbo) & ? & ? & ? & ? & ? & ?).
  split.
  - unfold refs_ok, outer_material. rewrite Ho, Hh, Hs, Hc. cbv zeta.
    repeat split; try tauto; try (eapply below_le; [eassumption|lia]);
      try (simpl; lia).
  - intros m Ha. rewrite Hmode, Hsim. destruct m; simpl in Ha.
    + done.
    + exfalso. destruct Ha as (mesh & Hmesh & Hheat). rewrite Ho in Hmesh.
      injection Hmesh as <-. rewrite Hh in Hheat. simpl in Hheat.
      rewrite Hheat in Hbh. simpl in Hbh. lia.
    + exfalso. destruct Ha as (mesh & Hmesh & Hstress). rewrite Ho in Hmesh.
      injection Hmesh as <-. rewrite Hs in Hstress. simpl in Hstress.
      rewrite Hstress in Hbs. simpl in Hbs. lia.
    + apply (Hfol m_flow). simpl. unfold flow_active in *. by rewrite <- Hf.
    + apply (Hfol m_cooling). simpl. unfold cooling_active in *. by rewrite <- Hc.
Qed.

Lemma onMeshUpdate_keeps (d : MeshData) (w w' : World) :
  refs_ok w -> overlay_follows_mode w -> onMeshUpdate d w = Ok w' ->
  refs_ok w' /\ overlay_follows_mode w'.
Proof.
  intros Hok Hfol. unfold onMeshUpdate. cbv zeta.
  destruct (buildEngineMesh d (set_lastMeshData d w)) as [w1|] eqn:Hb; [|done].
  cbn [mbind result_bind]. intros [= <-].
  destruct (buildEngineMesh_inv _ _ _ Hb)
    as (og & ig & others & _ & _ & Hem & Hnext & Hsc & Hhm & Hso & Hfv & Hcv & Hmn & Hifv).
  match goal with |- context [setInternalFlowVisible ?b ?x] =>
    set (vis := b); set (w2 := x)
  end.
  assert (Hw2 : refs_ok w2 /\ overlay_follows_mode w2).
  { assert (Hh : hm w2 = hm w) by (change (hm w2) with (hm w1); rewrite Hhm; done).
    assert (Hs : so w2 = so w) by (change (so w2) with (so w1); rewrite Hso; done).
    assert (Hf : fv w2 = fv w) by (change (fv w2) with (fv w1); rewrite Hfv; done).
    assert (Hc : cv w2 = cv w) by (change (cv w2) with (cv w1); rewrite Hcv; done).
    assert (Hmode : Main.vizMode (mn w2) = Main.vizMode (mn w))
      by (change (mn w2) with (mn w1); rewrite Hmn; done).
    assert (Hsim : Main.lastSimData (mn w2) = Main.lastSimData (mn w))
      by (change (mn w2) with (mn w1); rewrite Hmn; done).
    assert (Hn : (next w < next w2)%nat).
    { change (next w2) with (next w1).
      change (next (set_lastMeshData d w)) with (next w) in Hnext. lia. }
    assert (Ho : getOuterMesh w2
                 = Some {| geometry := og; color := None; material := next w;
                           vertexColors := false |}).
    { unfold getOuterMesh, w2. cbn [em with_internalFlowVisible]. by rewrite Hem. }
    by apply (rebuilt_keeps w w2 og). }
  destruct Hw2 as [Hok2 Hfol2].
  destruct (setInternalFlowVisible_frame vis w2) as (Hmn3 & Hok3 & Hact3).
  split; [auto|]. intros m Ha. rewrite Hmn3. auto.
Qed.

(** What a [buildEngineMesh] that throws leaves: the overlay modules and
    the controller untouched, the outer wall either the old one or a new
    mesh with a fresh material. *)
Lemma buildEngineMesh_aborted_inv (d : MeshData) (w : World) :
  let w' := buildEngineMesh_aborted d w in
  sc w' = sc w /\ hm w' = hm w /\ so w' = so w /\ fv w' = fv w /\ cv w' = cv w
  /\ mn w' = mn w /\ internalFlowVisible w' = internalFlowVisible w
  /\ (next w <= next w')%nat
  /\ (getOuterMesh w' = getOuterMesh w
      \/ exists og,
           (next w < next w')%nat
           /\ getOuterMesh w'
              = Some {| geometry := og; color := None; material := next w;
                        vertexColors := false |}).
Proof.
  cbv zeta. unfold buildEngineMesh_aborted.
  destruct (Geometry.createLatheGeometry (outer_profile_2d d) _) as [og|].
  - destruct (Geometry.createLatheGeometry (profile_2d d) _) as [ig|].
    + destruct (js_row (profile_2d d) 0), (js_row (outer_profile_2d d) 0);
        cbn [alloc with_em with_next sc em hm so fv cv mn internalFlowVisible next
             getOuterMesh EngineMesh.outerMesh];
        (repeat (split; [done || lia|])); right; exists og; (split; [lia|done]).
    + cbn [alloc with_em with_next sc em hm so fv cv mn internalFlowVisible next
           getOuterMesh EngineMesh.outerMesh].
      (repeat (split; [done || lia|])). right. exists og. split; [lia|done].
  - cbn [with_em sc em hm so fv cv mn internalFlowVisible next
         getOuterMesh EngineMesh.outerMesh].
    (repeat (split; [done || lia|])). by left.
Qed.

Lemma mesh_thrown_keeps (d : MeshData) (w : World) :
  refs_ok w -> overlay_follows_mode w ->
  refs_ok (buildEngineMesh_aborted d (set_lastMeshData d w))
  /\ overlay_follows_mode (buildEngineMesh_aborted d (set_lastMeshData d w)).
Proof.
  intros Hok Hfol.
  destruct (buildEngineMesh_aborted_inv d (set_lastMeshData d w))
    as (Hsc & Hhm & Hso & Hfv & Hcv & Hmn & _ & Hn & Hout).
  set (w' := buildEngineMesh_aborted d (set_lastMeshData d w)) in *.
  destruct Hout as [Ho|(og & Hlt & Ho)].
  - destruct (overlay_frame w w') as (Hok1 & Hact1); try done.
    split; [auto|]. intros m Ha. rewrite Hmn. exact (Hfol m (Hact1 m Ha)).
  - apply (rebuilt_keeps w w' og); try done; by rewrite Hmn.
Qed.

Lemma tick_thrown_keeps (d : SimData) (w : World) :
  refs_ok w -> overlay_follows_mode w ->
  refs_ok (set_lastSimData d w) /\ overlay_follows_mode (set_lastSimData d w).
Proof.
  intros Hok Hfol.
  destruct (overlay_frame w (set_lastSimData d w)) as (Hok1 & Hact1); [done..|].
  split; [auto|]. intros m Ha. destruct (Hfol m (Hact1 m Ha)) as [Hm _].
  split; [exact Hm|done].
Qed.

Lemma onSectionSlider_keeps (pct : Z) (w : World) :
  refs_ok w -> overlay_follows_mode w ->
  refs_ok (onSectionSlider pct w) /\ overlay_follows_mode (onSectionSlider pct w).
Proof.
  intros Hok Hfol. unfold onSectionSlider. cbv zeta.
  match goal with |- context [set_ui ?y ?c ?s w] => set (w1 := set_ui y c s w) end.
  destruct (overlay_frame w w1) as (Hok1 & Hact1); [done..|].
  assert (H1 : refs_ok w1 /\ overlay_follows_mode w1).
  { split; [auto|]. intros m Ha. exact (Hfol m (Hact1 m Ha)). }
  destruct (bool_decide_reflect (Main.vizMode (mn w1) = m_cooling)) as [Hmode|]; [|done].
  destruct (Main.lastMeshData (mn w1)) as [md|]; [|done].
  destruct (Main.lastSimData (mn w1)) as [sd|] eqn:Hsim; [|done].
  destruct (showCrossSection_keeps (Main.currentCooling (mn w1)) w1 (Hok1 Hok))
    as (Hok2 & Hmn2 & Hk2).
  split; [done|]. intros m' Ha. rewrite Hmn2, Hsim. split; [|done].
  destruct (decide (m' = m_cooling)) as [->|Hne]; [done|].
  exfalso. refine (Hk2 m' Hne _ Ha). intros Ha1.
  destruct H1 as [_ Hfol1]. destruct (Hfol1 m' Ha1). congruence.
Qed.

Lemma handle_keeps (e : event) (w w' : World) :
  refs_ok w -> overlay_follows_mode w -> handle e w = Ok w' ->
  refs_ok w' /\ overlay_follows_mode w'.
Proof.
  intros Hok Hfol. destruct e as [m|d|d|pct|b|y c]; simpl.
  - intros [= <-]. by apply onVizButton_keeps.
  - intros [= <-]. by apply onSimTick_keeps.
  - by apply onMeshUpdate_keeps.
  - intros [= <-]. by apply onSectionSlider_keeps.
  - intros [= <-].
    destruct (overlay_frame w (set_simRunning b w)) as (? & Hact); [done..|].
    split; [auto|]. intros m Ha. exact (Hfol m (Hact m Ha)).
  - intros [= <-].
    destruct (overlay_frame w (set_ui y c (Main.sectionSlider (mn w)) w)) as (? & Hact);
      [done..|].
    split; [auto|]. intros m Ha. exact (Hfol m (Hact m Ha)).
Qed.

Lemma reachable_keeps (w : World) :
  reachable w -> refs_ok w /\ overlay_follows_mode w.
Proof.
  induction 1 as [|e w w' _ [Hok Hfol] Hstep|d w _ [Hok Hfol] _|d w _ [Hok Hfol]].
  - apply initial_world_ok.
  - by apply (handle_keeps e w w').
  - by apply mesh_thrown_keeps.
  - by apply tick_thrown_keeps.
Qed.

(** X1.  In every state the page can reach from its initial state, by any
    sequence of mode buttons, simulation ticks, mesh updates and slider
    moves, also where the handler of a mesh update or of a tick throws and
    the page goes on with what the handler had assigned until then, at most
    one of the four overlays is in effect, and it is the overlay of the
    selected mode. *)
Theorem at_most_one_overlay_active (w : World) :
  reachable w ->
  at_most_one_active w
  /\ forall m, overlay_active m w -> m = Main.vizMode (mn w).
Proof.
  intros Hr. destruct (reachable_keeps w Hr) as [_ Hfol]. split.
  - intros m1 m2 H1 H2. destruct (Hfol m1 H1), (Hfol m2 H2). congruence.
  - intros m Ha. by destruct (Hfol m Ha).
Qed.

Lemma clear_overlays_restores (m0 : ref) (w : World) :
  restores m0 w ->
  restores_cool m0 (clear_overlays w)
  /\ (Main.vizMode (mn w) <> m_cooling -> restores_plain m0 (clear_overlays w)).
Proof.
  intros Hr. unfold clear_overlays. cbv zeta.
  generalize (Main.vizMode (mn w)). intros mode.
  pose proof (clear_three_restores m0 w Hr) as Hr3.
  generalize dependent (clearFlowViz (clearStressOverlay (clearHeatMap w))).
  intros w3 Hr3.
  assert (exists w4, w4 = (if decide (mode <> m_cooling) then clearCoolingViz w3 else w3)
            /\ restores_cool m0 w4 /\ (mode <> m_cooling -> restores_plain m0 w4))
    as (w4 & <- & Hc4 & Hp4).
  { eexists; split; [reflexivity|]. destruct (decide (mode <> m_cooling)); [|done].
    pose proof (clearCoolingViz_restores m0 w3 Hr3) as Hp. split; [|done].
    destruct Hp as [Hp1 Hp2]. split; [done|].
    destruct Hp1 as (mesh & Hmesh & _). exists mesh. split; [done|]. left.
    unfold outer_material in Hp2. rewrite Hmesh in Hp2. by injection Hp2. }
  destruct (setInternalFlowVisible_restores m0 false w4) as (_ & Hc5 & Hp5).
  destruct (decide (mode <> m_flow)); auto.
Qed.

Lemma restores_plain_cool (m0 : ref) (w : World) :
  restores_plain m0 w -> restores_cool m0 w.
Proof.
  intros [Hr Ho]. split; [done|]. destruct Hr as (mesh & Hmesh & _).
  exists mesh. split; [done|]. left.
  unfold outer_material in Ho. rewrite Hmesh in Ho. by injection Ho.
Qed.

Lemma apply_overlay_restores (m0 : ref) (d : SimData) (w : World) :
  restores_cool m0 w ->
  (Main.vizMode (mn w) <> m_cooling -> restores_plain m0 w) ->
  Main.lastSimData (mn w) <> None ->
  restores m0 (apply_overlay d w)
  /\ (Main.vizMode (mn w) = m_normal -> outer_material (apply_overlay d w) = Some m0).
Proof.
  intros Hc Hp Hd. unfold apply_overlay. cbv zeta.
  destruct (Main.vizMode (mn w)) eqn:Hmode.
  - destruct (Hp ltac:(done)). done.
  - split; [|done]. destruct (Hp ltac:(done)).
    destruct (stations d ≫= wall_temp_inner_K); [|done].
    by apply applyHeatMap_restores.
  - split; [|done]. destruct (Hp ltac:(done)).
    destruct (stations d ≫= wall_temp_inner_K);
      (destruct (stations d ≫= von_mises_stress_MPa); [|done]);
      by apply applyStressOverlay_restores.
  - split; [|done]. destruct (Hp ltac:(done)).
    destruct (stations d ≫= wall_temp_inner_K);
      destruct (stations d ≫= von_mises_stress_MPa);
      (destruct (stations d ≫= mach) as [machArray|]; [|done]);
      apply setInternalFlowVisible_restores;
      by destruct (applyFlowVisualization_restores m0 (Some machArray) (cooling d) w).
  - split; [|done]. destruct Hc as [Hr Hc].
    destruct (stations d ≫= wall_temp_inner_K);
      destruct (stations d ≫= von_mises_stress_MPa);
      destruct (stations d ≫= mach);
      (destruct (Main.lastMeshData (mn w)); [|done]);
      by apply showCrossSection_restores, showCoolingViz_restores.
Qed.

Lemma clear_overlays_mn (w : World) : mn (clear_overlays w) = mn w.
Proof.
  unfold clear_overlays. cbv zeta.
  assert (H3 : mn (clearFlowViz (clearStressOverlay (clearHeatMap w))) = mn w).
  { destruct_world w. by destruct outerM, heatOrig, stressOrig, flowApplied, innerM. }
  generalize dependent (clearFlowViz (clearStressOverlay (clearHeatMap w))).
  generalize (Main.vizMode (mn w)). intros vm w3 <-.
  assert (H4 : mn (if decide (vm <> m_cooling) then clearCoolingViz w3 else w3) = mn w3).
  { destruct (decide (vm <> m_cooling)); [|done].
    destruct_world w3. destruct renderer, shaderActive, outerM, savedMat; crush_world. }
  generalize dependent (if decide (vm <> m_cooling) then clearCoolingViz w3 else w3).
  intros w4 <-.
  destruct (decide (vm <> m_flow)); [|done].
  by destruct (setInternalFlowVisible_frame false w4).
Qed.

Lemma applyVisualization_restores (m0 : ref) (w : World) :
  restores m0 w ->
  restores m0 (applyVisualization w)
  /\ (Main.vizMode (mn w) = m_normal -> outer_material (applyVisualization w) = Some m0).
Proof.
  intros Hr. unfold applyVisualization.
  destruct (Main.lastSimData (mn w)) as [d|] eqn:Hd.
  - destruct (clear_overlays_restores m0 w Hr) as [Hc Hp].
    pose proof (clear_overlays_mn w) as Hmn. rewrite <- Hmn in Hp.
    rewrite <- Hmn.
    apply apply_overlay_restores; [done..|]. rewrite Hmn, Hd. done.
  - split; [done|]. intros _.
    destruct Hr as (mesh & Hmesh & _ & _ & _ & _ & Hnone & _).
    unfold outer_material. rewrite Hmesh. simpl. f_equal. auto.
Qed.

Lemma set_lastSimData_restores (m0 : ref) (d : SimData) (w : World) :
  restores m0 w -> restores m0 (set_lastSimData d w).
Proof. destruct_world w. destruct outerM; solve_restores. Qed.

Lemma handle_restores (m0 : ref) (e : event) (w : World) :
  is_rebuild e = false -> restores m0 w ->
  exists w', handle e w = Ok w' /\ restores m0 w'.
Proof.
  intros He Hr. destruct e as [m|d|d|pct|b|y c]; simpl; try done; eexists;
    (split; [reflexivity|]).
  - unfold onVizButton. apply applyVisualization_restores.
    revert Hr. by apply restores_frame.
  - unfold onSimTick. cbv zeta. apply applyVisualization_restores.
    pose proof (set_lastSimData_restores m0 d w Hr) as Hr1.
    generalize dependent (set_lastSimData d w). intros w1 Hr1.
    destruct (Main.lastMeshData (mn w1)); [|done].
    destruct (stations d ≫= mach); [|done].
    exact (proj1 (setInternalFlowVisible_restores _ _ _) Hr1).
  - unfold onSectionSlider. cbv zeta.
    match goal with |- context [set_ui ?y ?c ?s w] => set (w1 := set_ui y c s w) end.
    assert (Hr1 : restores m0 w1) by (revert Hr; by apply restores_frame).
    destruct (bool_decide (Main.vizMode (mn w1) = m_cooling)); [|done].
    destruct (Main.lastMeshData (mn w1)); [|done].
    destruct (Main.lastSimData (mn w1)); [|done].
    by apply showCrossSection_restores.
  - revert Hr. by apply restores_frame.
  - revert Hr. by apply restores_frame.
Qed.

Lemma run_restores (m0 : ref) (es : list event) (w : World) :
  forallb (fun e => negb (is_rebuild e)) es = true -> restores m0 w ->
  exists w', run es w = Ok w' /\ restores m0 w'.
Proof.
  revert w. induction es as [|e es IH]; intros w Hes Hr.
  - by exists w.
  - simpl in Hes. apply andb_prop in Hes as [He Hes].
    apply negb_true_iff in He.
    destruct (handle_restores m0 e w He Hr) as (w1 & Hstep & Hr1).
    destruct (IH w1 Hes Hr1) as (w' & Hrun & Hr').
    exists w'. simpl. rewrite Hstep. done.
Qed.

Lemma run_app (es1 es2 : list event) (w : World) :
  run (es1 ++ es2) w = (w1 ← run es1 w; run es2 w1).
Proof.
  revert w. induction es1 as [|e es1 IH]; intros w; simpl; [done|].
  destruct (handle e w); simpl; [apply IH|done].
Qed.

(** X2.  Whatever overlays are selected and however often the simulation
    ticks in between, selecting the normal mode gives the outer wall back
    the material it had before, as long as the mesh is not rebuilt and no
    overlay module held a material at the start. *)
Theorem normal_mode_restores_wall_material (es : list event) (w : World) (mesh : Mesh) :
  getOuterMesh w = Some mesh ->
  HeatMap.originalMaterial (hm w) = None ->
  StressOverlay.originalMaterial (so w) = None ->
  CoolingViz.channelShaderActive (cv w) = false ->
  CoolingViz.channelMaterial (cv w) = None ->
  forallb (fun e => negb (is_rebuild e)) es = true ->
  exists w', run (es ++ [VizButton m_normal]) w = Ok w'
    /\ outer_material w' = Some (material mesh).
Proof.
  intros Hmesh Hh Hs Ha Hc Hes.
  assert (Hr : restores (material mesh) w).
  { exists mesh. rewrite Hh, Hs, Ha, Hc. repeat split; auto; done. }
  destruct (run_restores _ es w Hes Hr) as (w1 & Hrun & Hr1).
  rewrite run_app, Hrun. simpl. eexists. split; [reflexivity|].
  unfold onVizButton. apply applyVisualization_restores; [|done].
  revert Hr1. by apply restores_frame.
Qed.

Lemma clears_keep_outer (w : World) :
  is_Some (getOuterMesh w) ->
  is_Some (getOuterMesh (clearHeatMap w))
  /\ is_Some (getOuterMesh (clearStressOverlay w))
  /\ is_Some (getOuterMesh (clearFlowViz w))
  /\ is_Some (getOuterMesh (clearCoolingViz w))
  /\ forall b, is_Some (getOuterMesh (setInternalFlowVisible b w)).
Proof.
  intros [mesh Hm]. destruct_world w.
  cbv [getOuterMesh em EngineMesh.outerMesh] in Hm. subst outerM.
  repeat split; try intros b; crush_world; eauto.
Qed.

Lemma clear_overlays_outer (w : World) :
  is_Some (getOuterMesh w) -> is_Some (getOuterMesh (clear_overlays w)).
Proof.
  intros Hm. unfold clear_overlays. cbv zeta.
  destruct (clears_keep_outer w Hm) as (H1 & _).
  destruct (clears_keep_outer _ H1) as (_ & H2 & _).
  destruct (clears_keep_outer _ H2) as (_ & _ & H3 & _).
  destruct (decide (Main.vizMode (mn w) <> m_cooling)).
  - destruct (clears_keep_outer _ H3) as (_ & _ & _ & H4 & _).
    destruct (decide (Main.vizMode (mn w) <> m_flow)); [|done].
    destruct (clears_keep_outer _ H4) as (_ & _ & _ & _ & H5). apply H5.
  - destruct (decide (Main.vizMode (mn w) <> m_flow)); [|done].
    destruct (clears_keep_outer _ H3) as (_ & _ & _ & _ & H5). apply H5.
Qed.

Lemma applyHeatMap_active (temps : list JsNum.jsnum) (w : World) :
  is_Some (getOuterMesh w) -> thermal_active (applyHeatMap temps w).1.
Proof.
  intros [mesh Hm]. unfold thermal_active, applyHeatMap. rewrite Hm.
  destruct (HeatMap.heatMaterial (hm w)); cbn; eexists; split; reflexivity.
Qed.

(** A tick in heat-map mode, on a wall and with wall temperatures, puts the
    heat map on the wall. *)
Lemma onSimTick_heat_map_active (d : SimData) (w : World) (temps : list JsNum.jsnum) :
  is_Some (getOuterMesh w) -> Main.vizMode (mn w) = m_heatmap ->
  stations d ≫= wall_temp_inner_K = Some temps ->
  thermal_active (onSimTick d w).
Proof.
  intros Hm Hmode Ht. unfold onSimTick. cbv zeta.
  set (w1 := set_lastSimData d w).
  assert (H1 : is_Some (getOuterMesh w1) /\ Main.vizMode (mn w1) = m_heatmap
               /\ Main.lastSimData (mn w1) = Some d) by done.
  clearbody w1.
  assert (exists w2, w2 = match Main.lastMeshData (mn w1), stations d ≫= mach with
                          | Some _, Some _ =>
                              setInternalFlowVisible
                                (Main.simRunning (mn w1)
                                 && bool_decide (Main.vizMode (mn w1) = m_flow)) w1
                          | _, _ => w1
                          end
                     /\ is_Some (getOuterMesh w2) /\ Main.vizMode (mn w2) = m_heatmap
                     /\ Main.lastSimData (mn w2) = Some d)
    as (w2 & <- & Ho2 & Hmode2 & Hd2).
  { eexists; split; [reflexivity|].
    destruct (Main.lastMeshData (mn w1)); [|done].
    destruct (stations d ≫= mach); [|done].
    unfold setInternalFlowVisible. by destruct (internalFlowVisible w1). }
  unfold applyVisualization. rewrite Hd2.
  pose proof (clear_overlays_outer w2 Ho2) as Ho3.
  unfold apply_overlay. cbv zeta. rewrite clear_overlays_mn, Hmode2, Ht.
  by apply applyHeatMap_active.
Qed.

(** After a first mesh update, the heat-map button and a tick, the heat map
    is in effect, and nothing else; it stays so when a mesh update of one
    station throws. *)
Lemma at_most_one_overlay_active_witness :
  exists w w' : World,
    reachable w
    /\ overlay_active m_heatmap w
    /\ at_most_one_active w
    /\ (forall m, overlay_active m w -> m = Main.vizMode (mn w))
    /\ onMeshUpdate ExampleWorlds.one_station w = Throw TypeError
    /\ w' = buildEngineMesh_aborted ExampleWorlds.one_station
              (set_lastMeshData ExampleWorlds.one_station w)
    /\ reachable w'
    /\ overlay_active m_heatmap w'
    /\ at_most_one_active w'.
Proof.
  destruct two_stations_built as (w0 & outer & inner & Hw & Hout & _).
  set (w := onSimTick ExampleWorlds.tick (onVizButton m_heatmap w0)).
  assert (Hr : reachable w).
  { apply (reachable_step (SimTick ExampleWorlds.tick) (onVizButton m_heatmap w0));
      [|reflexivity].
    apply (reachable_step (VizButton m_heatmap) w0); [|reflexivity].
    apply (reachable_step (MeshUpdate ExampleWorlds.two_stations) initial_world);
      [apply reachable_init|exact Hw]. }
  assert (Hnone : Main.lastSimData (mn w0) = None).
  { revert Hw. unfold onMeshUpdate. cbv zeta.
    destruct (buildEngineMesh _ _) as [w1|] eqn:Hb; [|done].
    cbn [mbind result_bind]. intros [= <-].
    destruct (buildEngineMesh_inv _ _ _ Hb)
      as (? & ? & ? & _ & _ & _ & _ & _ & _ & _ & _ & _ & Hmn & _).
    unfold setInternalFlowVisible. cbn [internalFlowVisible with_internalFlowVisible mn].
    rewrite Hmn. reflexivity. }
  assert (Hbutton : onVizButton m_heatmap w0 = set_vizMode m_heatmap w0).
  { unfold onVizButton, applyVisualization.
    change (Main.lastSimData (mn (set_vizMode m_heatmap w0)))
      with (Main.lastSimData (mn w0)).
    by rewrite Hnone. }
  assert (Hheat : overlay_active m_heatmap w).
  { apply (onSimTick_heat_map_active _ _ [JsNum.num 300; JsNum.num 300]).
    - rewrite Hbutton. change (is_Some (getOuterMesh w0)). by rewrite Hout.
    - rewrite Hbutton. reflexivity.
    - reflexivity. }
  assert (Hthrow : onMeshUpdate ExampleWorlds.one_station w = Throw TypeError).
  { unfold onMeshUpdate. cbv zeta.
    rewrite buildEngineMesh_below_two; [reflexivity|simpl; lia]. }
  set (w' := buildEngineMesh_aborted ExampleWorlds.one_station
               (set_lastMeshData ExampleWorlds.one_station w)).
  assert (Hr' : reachable w') by (by apply reachable_mesh_thrown).
  exists w, w'.
  split; [exact Hr|]. split; [exact Hheat|].
  split; [apply (at_most_one_overlay_active w Hr)|].
  split; [apply (at_most_one_overlay_active w Hr)|].
  split; [exact Hthrow|]. split; [reflexivity|]. split; [exact Hr'|].
  split; [|apply (at_most_one_overlay_active w' Hr')].
  destruct Hheat as (mesh & Hmesh & Hmat). exists mesh. split; [exact Hmesh|exact Hmat].
Defined.

(** After a first mesh update: heat map, a tick, stress overlay, normal. *)
Lemma normal_mode_restores_wall_material_witness :
  exists w w',
    onMeshUpdate ExampleWorlds.two_stations initial_world = Ok w
    /\ run ([VizButton m_heatmap; SimTick ExampleWorlds.tick; VizButton m_stress]
            ++ [VizButton m_normal]) w = Ok w'
    /\ outer_material w' = Some 2%nat.
Proof.
  destruct two_stations_built
    as (w & outer & inner & Hw & Hout & _ & _ & Hmat & _ & _ & _ & Hhm & Hso & _ & Hcv).
  destruct (normal_mode_restores_wall_material
              [VizButton m_heatmap; SimTick ExampleWorlds.tick; VizButton m_stress]
              w outer Hout)
    as (w' & Hrun & Hres).
  - rewrite Hhm. reflexivity.
  - rewrite Hso. reflexivity.
  - rewrite Hcv. reflexivity.
  - rewrite Hcv. reflexivity.
  - reflexivity.
  - exists w, w'. rewrite Hmat in Hres. split; [exact Hw|]. split; [exact Hrun|exact Hres].
Defined.

(** X3.  Each of the four clear actions is idempotent: running it a second
    time changes nothing. *)
Theorem overlay_clears_idempotent (w : World) :
  clearHeatMap (clearHeatMap w) = clearHeatMap w
  /\ clearStressOverlay (clearStressOverlay w) = clearStressOverlay w
  /\ clearFlowViz (clearFlowViz w) = clearFlowViz w
  /\ clearCoolingViz (clearCoolingViz w) = clearCoolingViz w.
Proof.
  split; [apply clearHeatMap_idem|].
  split; [apply clearStressOverlay_idem|].
  split; [apply clearFlowViz_idem|apply clearCoolingViz_idem].
Qed.

(** X4.  On a state in which no overlay has been applied, each clear
    action, and all four after one another, leave the state as it is. *)
Theorem overlay_clears_do_nothing_when_never_applied (w : World) :
  HeatMap.originalMaterial (hm w) = None ->
  StressOverlay.originalMaterial (so w) = None ->
  FlowViz.coolantArrows (fv w) = None ->
  FlowViz.flowColorsApplied (fv w) = false ->
  cooling_cleared w ->
  clearHeatMap w = w /\ clearStressOverlay w = w /\ clearFlowViz w = w
  /\ clearCoolingViz w = w /\ clear_all w = w.
Proof.
  intros Hh Hs Ha Hf Hc.
  assert (H1 : clearHeatMap w = w).
  { unfold clearHeatMap. rewrite Hh. by destruct (getOuterMesh w). }
  assert (H2 : clearStressOverlay w = w).
  { unfold clearStressOverlay. rewrite Hs. by destruct (getOuterMesh w). }
  assert (H3 : clearFlowViz w = w).
  { destruct_world w. simpl in Ha, Hf. by subst. }
  assert (H4 : clearCoolingViz w = w) by by apply clearCoolingViz_fix.
  unfold clear_all. rewrite H1, H2, H3, H4. done.
Qed.

Lemma overlay_clears_do_nothing_when_never_applied_witness :
  clearHeatMap initial_world = initial_world
  /\ clearStressOverlay initial_world = initial_world
  /\ clearFlowViz initial_world = initial_world
  /\ clearCoolingViz initial_world = initial_world
  /\ clear_all initial_world = initial_world.
Proof.
  apply overlay_clears_do_nothing_when_never_applied; try reflexivity.
  repeat split; reflexivity.
Defined.
(** ** The colours the overlays write, station by station *)

Lemma has_color_zeros (n idx : nat) :
  (idx * 3 + 2 < n)%nat ->
  has_color (zeros n) idx (JsNum.Fin 0, JsNum.Fin 0, JsNum.Fin 0).
Proof.
  intros Hlt. unfold has_color, zeros. simpl.
  rewrite !lookup_replicate_2 by lia. done.
Qed.

Lemma color_stations_other nStations nCirc colorOf colors idx c :
  (nStations * (nCirc + 1) <= idx)%nat ->
  has_color colors idx c ->
  has_color (color_stations nStations nCirc colorOf colors) idx c.
Proof.
  intros Hge Hc. rewrite color_stations_writes. apply write_all_other; [|exact Hc].
  rewrite station_writes_indices, elem_of_seq. lia.
Qed.

Lemma flowColorsApplied_drawCoolantFlow (w : World) :
  FlowViz.flowColorsApplied (fv (drawCoolantFlow w)) = FlowViz.flowColorsApplied (fv w).
Proof. destruct_world w. by destruct outerM, group. Qed.

(** X5.  The heat map gives every circumferential vertex of station [i] the
    thermal colour of that station's temperature on the range of the whole
    array (of the minimum, where the array has no entry for the station);
    the vertices after the last station stay black; the colour attribute
    has three entries per vertex of the wall, and the wall then holds the
    heat-map material. *)
Theorem applyHeatMap_colours_each_station
    (w : World) (mesh : Mesh) (stationTemps : list JsNum.jsnum) :
  getOuterMesh w = Some mesh ->
  (getStationCount w * (getCircumSegments w + 1)
   <= Geometry.vertex_count (geometry mesh))%nat ->
  exists (mesh' : Mesh) (colors : list JsNum.jsnum),
    getOuterMesh (applyHeatMap stationTemps w).1 = Some mesh'
    /\ geometry mesh' = geometry mesh
    /\ HeatMap.heatMaterial (hm (applyHeatMap stationTemps w).1) = Some (material mesh')
    /\ color mesh' = Some colors
    /\ length colors = (Geometry.vertex_count (geometry mesh) * 3)%nat
    /\ (forall i j, (i < getStationCount w)%nat -> (j <= getCircumSegments w)%nat ->
          has_color colors (i * (getCircumSegments w + 1) + j)
            (ColorScales.thermalColor
               (default (JsNum.min_of stationTemps) (stationTemps !! i))
               (JsNum.min_of stationTemps) (JsNum.max_of stationTemps)))
    /\ (forall k, (getStationCount w * (getCircumSegments w + 1) <= k)%nat ->
          (k < Geometry.vertex_count (geometry mesh))%nat ->
          has_color colors k (JsNum.Fin 0, JsNum.Fin 0, JsNum.Fin 0)).
Proof.
  intros Hmesh Hcount. unfold applyHeatMap. rewrite Hmesh.
  set (colors := color_stations _ _ _ _).
  exists (set_material
            (match HeatMap.heatMaterial (hm w) with Some m => m | None => next w end)
            (set_color (Some colors) mesh)), colors.
  split; [by destruct (HeatMap.heatMaterial (hm w))|].
  split; [reflexivity|].
  split; [by destruct (HeatMap.heatMaterial (hm w))|].
  split; [reflexivity|].
  split; [|split].
  - unfold colors. by rewrite length_color_stations, length_zeros.
  - intros i j Hi Hj. unfold colors.
    apply (color_stations_has_color _ _
             (fun i0 => ColorScales.thermalColor
                          (default (JsNum.min_of stationTemps) (stationTemps !! i0))
                          (JsNum.min_of stationTemps) (JsNum.max_of stationTemps)));
      [exact Hi|exact Hj|].
    rewrite length_zeros. nia.
  - intros k Hk Hlt. unfold colors. apply color_stations_other; [exact Hk|].
    apply has_color_zeros. lia.
Qed.

Lemma applyHeatMap_colours_each_station_witness :
  exists (w : World) (mesh mesh' : Mesh) (colors : list JsNum.jsnum),
    onMeshUpdate ExampleWorlds.two_stations initial_world = Ok w
    /\ getOuterMesh w = Some mesh
    /\ getOuterMesh (applyHeatMap [JsNum.num 300; JsNum.num 900] w).1 = Some mesh'
    /\ color mesh' = Some colors
    /\ length colors = (Geometry.vertex_count (geometry mesh) * 3)%nat.
Proof.
  destruct two_stations_built
    as (w & outer & inner & Hw & Hout & _ & Hv & _ & _ & Hst & Hcirc & _).
  destruct (applyHeatMap_colours_each_station w outer [JsNum.num 300; JsNum.num 900] Hout)
    as (mesh' & colors & H1 & _ & _ & H2 & H3 & _).
  - rewrite Hst, Hcirc, Hv. lia.
  - exists w, outer, mesh', colors.
    split; [exact Hw|]. split; [exact Hout|]. split; [exact H1|].
    split; [exact H2|exact H3].
Defined.

(** X6.  The stress overlay gives every circumferential vertex of station
    [i] the stress colour of that station's stress against the yield
    strength (of stress 0, where the array has no entry for the station);
    the vertices after the last station stay black, and the wall then holds
    the stress material. *)
Theorem applyStressOverlay_colours_each_station
    (w : World) (mesh : Mesh) (stationStress : list JsNum.jsnum)
    (yieldStrength : JsNum.jsnum) :
  getOuterMesh w = Some mesh ->
  (getStationCount w * (getCircumSegments w + 1)
   <= Geometry.vertex_count (geometry mesh))%nat ->
  exists (mesh' : Mesh) (colors : list JsNum.jsnum),
    getOuterMesh (applyStressOverlay stationStress yieldStrength w) = Some mesh'
    /\ geometry mesh' = geometry mesh
    /\ StressOverlay.stressMaterial (so (applyStressOverlay stationStress yieldStrength w))
       = Some (material mesh')
    /\ color mesh' = Some colors
    /\ length colors = (Geometry.vertex_count (geometry mesh) * 3)%nat
    /\ (forall i j, (i < getStationCount w)%nat -> (j <= getCircumSegments w)%nat ->
          has_color colors (i * (getCircumSegments w + 1) + j)
            (ColorScales.stressColor (default (JsNum.num 0) (stationStress !! i))
               yieldStrength))
    /\ (forall k, (getStationCount w * (getCircumSegments w + 1) <= k)%nat ->
          (k < Geometry.vertex_count (geometry mesh))%nat ->
          has_color colors k (JsNum.Fin 0, JsNum.Fin 0, JsNum.Fin 0)).
Proof.
  intros Hmesh Hcount. unfold applyStressOverlay. rewrite Hmesh.
  set (colors := color_stations _ _ _ _).
  exists (set_material
            (match StressOverlay.stressMaterial (so w) with
             | Some m => m | None => next w end)
            (set_color (Some colors) mesh)), colors.
  split; [by destruct (StressOverlay.stressMaterial (so w))|].
  split; [reflexivity|].
  split; [by destruct (StressOverlay.stressMaterial (so w))|].
  split; [reflexivity|].
  split; [|split].
  - unfold colors. by rewrite length_color_stations, length_zeros.
  - intros i j Hi Hj. unfold colors.
    apply (color_stations_has_color _ _
             (fun i0 => ColorScales.stressColor
                          (default (JsNum.num 0) (stationStress !! i0)) yieldStrength));
      [exact Hi|exact Hj|].
    rewrite length_zeros. nia.
  - intros k Hk Hlt. unfold colors. apply color_stations_other; [exact Hk|].
    apply has_color_zeros. lia.
Qed.

Lemma applyStressOverlay_colours_each_station_witness :
  exists (w : World) (mesh mesh' : Mesh) (colors : list JsNum.jsnum),
    onMeshUpdate ExampleWorlds.two_stations initial_world = Ok w
    /\ getOuterMesh w = Some mesh
    /\ getOuterMesh (applyStressOverlay [JsNum.num 50; JsNum.num 120] (JsNum.num 200) w)
       = Some mesh'
    /\ color mesh' = Some colors
    /\ length colors = (Geometry.vertex_count (geometry mesh) * 3)%nat.
Proof.
  destruct two_stations_built
    as (w & outer & inner & Hw & Hout & _ & Hv & _ & _ & Hst & Hcirc & _).
  destruct (applyStressOverlay_colours_each_station w outer
              [JsNum.num 50; JsNum.num 120] (JsNum.num 200) Hout)
    as (mesh' & colors & H1 & _ & _ & H2 & H3 & _).
  - rewrite Hst, Hcirc, Hv. lia.
  - exists w, outer, mesh', colors.
    split; [exact Hw|]. split; [exact Hout|]. split; [exact H1|].
    split; [exact H2|exact H3].
Defined.

(** X7.  The flow overlay colours every circumferential vertex of a
    station that has a Mach number with the Mach colour of that number; the
    colour attribute holds at least the vertices of all stations, the inner
    wall's material has its vertex colours switched on, and the overlay is
    marked as applied. *)
Theorem applyFlowVisualization_colours_each_station
    (w : World) (innerMesh : Mesh) (machArray : list JsNum.jsnum)
    (coolantData : option CoolantData) :
  getInnerMesh w = Some innerMesh ->
  exists (mesh' : Mesh) (colors : list JsNum.jsnum),
    getInnerMesh (applyFlowVisualization (Some machArray) coolantData w) = Some mesh'
    /\ vertexColors mesh' = true
    /\ material mesh' = material innerMesh
    /\ FlowViz.flowColorsApplied
         (fv (applyFlowVisualization (Some machArray) coolantData w)) = true
    /\ color mesh' = Some colors
    /\ (getStationCount w * (getCircumSegments w + 1) * 3 <= length colors)%nat
    /\ (forall i j M, machArray !! i = Some M ->
          (i < getStationCount w)%nat -> (j <= getCircumSegments w)%nat ->
          has_color colors (i * (getCircumSegments w + 1) + j) (machColor M)).
Proof.
  intros Hmesh.
  set (nS := getStationCount w) in *.
  set (nC := getCircumSegments w) in *.
  set (colors := flow_colors machArray nS nC (color innerMesh)).
  assert (Hlen : (nS * (nC + 1) * 3 <= length colors)%nat).
  { unfold colors, flow_colors. rewrite length_color_stations.
    destruct (color innerMesh) as [old|]; [|rewrite length_zeros; lia].
    destruct (Nat.eqb_spec (length old / 3) (nS * (nC + 1))) as [He|];
      [|rewrite length_zeros; lia].
    pose proof (Nat.Div0.mul_div_le (length old) 3). lia. }
  exists (set_vertexColors true (set_color (Some colors) innerMesh)), colors.
  split; [|split; [reflexivity|split; [reflexivity|split]]].
  - unfold applyFlowVisualization. rewrite Hmesh. fold nS nC.
    destruct coolantData as [cd|]; [|reflexivity].
    destruct (coolant_velocity_m_s cd); [|reflexivity].
    by rewrite getInnerMesh_drawCoolantFlow.
  - unfold applyFlowVisualization. rewrite Hmesh. fold nS nC.
    destruct coolantData as [cd|]; [|reflexivity].
    destruct (coolant_velocity_m_s cd); [|reflexivity].
    by rewrite flowColorsApplied_drawCoolantFlow.
  - split; [reflexivity|]. split; [exact Hlen|].
    intros i j M HM Hi Hj.
    replace (machColor M)
      with ((fun i0 => machColor (if (i0 <? length machArray)%nat
                                  then default JsNum.NaN (machArray !! i0)
                                  else JsNum.num 1.0)) i).
    2:{ cbv beta. apply lookup_lt_Some in HM as Hlt.
        destruct (Nat.ltb_spec i (length machArray)); [|lia]. by rewrite HM. }
    unfold colors, flow_colors.
    apply color_stations_has_color; [exact Hi|exact Hj|].
    unfold colors, flow_colors in Hlen. by rewrite length_color_stations in Hlen.
Qed.

Lemma applyFlowVisualization_colours_each_station_witness :
  exists (w : World) (mesh' : Mesh) (colors : list JsNum.jsnum),
    onMeshUpdate ExampleWorlds.two_stations initial_world = Ok w
    /\ getInnerMesh (applyFlowVisualization (Some [JsNum.num 0.3; JsNum.num 2]) None w)
       = Some mesh'
    /\ color mesh' = Some colors
    /\ vertexColors mesh' = true.
Proof.
  destruct two_stations_built
    as (w & outer & inner & Hw & _ & Hin & _ & _ & _ & Hst & Hcirc & _).
  destruct (applyFlowVisualization_colours_each_station w inner
              [JsNum.num 0.3; JsNum.num 2] None Hin)
    as (mesh' & colors & H1 & H2 & _ & _ & H3 & _).
  exists w, mesh', colors.
  split; [exact Hw|]. split; [exact H1|]. split; [exact H3|exact H2].
Defined.

(** X8.  The heat map captures the wall's material only once: after the
    mesh is rebuilt, applying and clearing the heat map puts the material
    captured from the earlier mesh on the new wall, not the fresh material
    the rebuild gave it. *)
Theorem heat_map_keeps_first_captured_material
    (w w1 : World) (d : MeshData) (o : ref) (stationTemps : list JsNum.jsnum) :
  HeatMap.originalMaterial (hm w) = Some o ->
  buildEngineMesh d w = Ok w1 ->
  outer_material w1 = Some (next w)
  /\ outer_material (clearHeatMap (applyHeatMap stationTemps w1).1) = Some o.
Proof.
  intros Ho Hb.
  destruct (buildEngineMesh_inv _ _ _ Hb)
    as (og & ig & others & _ & _ & Hem & _ & _ & Hhm & _).
  assert (Hout : getOuterMesh w1
                 = Some {| geometry := og; color := None; material := next w;
                           vertexColors := false |}).
  { unfold getOuterMesh. by rewrite Hem. }
  split; [unfold outer_material; by rewrite Hout|].
  assert (Horig : HeatMap.originalMaterial (hm w1) = Some o) by (by rewrite Hhm).
  clear Hb Hem Hhm. revert Hout Horig.
  generalize {| geometry := og; color := None; material := next w;
                vertexColors := false |}.
  intros mesh. destruct_world w1. wcbv. intros -> ->.
  by destruct heatMat.
Qed.

Lemma heat_map_keeps_first_captured_material_witness :
  exists (w0 w1 : World),
    onMeshUpdate ExampleWorlds.two_stations initial_world = Ok w0
    /\ buildEngineMesh ExampleWorlds.two_stations
         (applyHeatMap [JsNum.num 300; JsNum.num 900] w0).1 = Ok w1
    /\ outer_material w1 = Some (next (applyHeatMap [JsNum.num 300; JsNum.num 900] w0).1)
    /\ outer_material
         (clearHeatMap (applyHeatMap [JsNum.num 300; JsNum.num 900] w1).1) = Some 2%nat.
Proof.
  destruct two_stations_built
    as (w0 & outer & inner & Hw & Hout & _ & _ & Hmat & _ & _ & _ & Hhm & _).
  set (w := (applyHeatMap [JsNum.num 300; JsNum.num 900] w0).1).
  destruct (buildEngineMesh_ok ExampleWorlds.two_stations w) as [w1 Hb];
    [simpl; lia|simpl; lia|].
  assert (Ho : HeatMap.originalMaterial (hm w) = Some 2%nat).
  { unfold w, applyHeatMap. rewrite Hout, Hhm, <- Hmat. reflexivity. }
  destruct (heat_map_keeps_first_captured_material w w1 ExampleWorlds.two_stations 2
              [JsNum.num 300; JsNum.num 900] Ho Hb) as [H1 H2].
  exists w0, w1. split; [exact Hw|]. split; [exact Hb|]. split; [exact H1|exact H2].
Defined.
(** ** Arithmetic of JavaScript numbers on ordinary values *)

Section JsArith.
Import JsNum.
Local Open Scope Q_scope.

Lemma lt_Fin_true (a b : Q) : lt (Fin a) (Fin b) = true -> a < b.
Proof.
  simpl. intros H. apply Qnot_le_lt. intros Hle. apply Qle_bool_iff in Hle.
  rewrite Hle in H. done.
Qed.

Lemma lt_Fin_false (a b : Q) : lt (Fin a) (Fin b) = false -> b <= a.
Proof.
  simpl. intros H. apply Qle_bool_iff. by destruct (Qle_bool b a).
Qed.

Lemma le_Fin_true (a b : Q) : le (Fin a) (Fin b) = true -> a <= b.
Proof. simpl. apply Qle_bool_iff. Qed.

Lemma le_Fin_false (a b : Q) : le (Fin a) (Fin b) = false -> b < a.
Proof.
  simpl. intros H. apply Qnot_le_lt. intros Hle. apply Qle_bool_iff in Hle. congruence.
Qed.

Lemma num_Fin (c : Q) : exists q, num c = Fin q /\ q == c.
Proof. exists (Qred c). split; [done|apply Qred_correct]. Qed.

Lemma add_Fin (a b : Q) : exists q, add (Fin a) (Fin b) = Fin q /\ q == a + b.
Proof. eexists. split; [reflexivity|apply Qred_correct]. Qed.

Lemma sub_Fin (a b : Q) : exists q, sub (Fin a) (Fin b) = Fin q /\ q == a - b.
Proof.
  eexists. split; [reflexivity|]. rewrite Qred_correct, Qred_correct. reflexivity.
Qed.

Lemma mul_Fin (a b : Q) : exists q, mul (Fin a) (Fin b) = Fin q /\ q == a * b.
Proof. eexists. split; [reflexivity|apply Qred_correct]. Qed.

Lemma is_zero_false (b : Q) : ~ b == 0 -> is_zero b = false.
Proof.
  intros Hb. unfold is_zero. destruct (Qeq_bool b 0) eqn:He; [|done].
  apply Qeq_bool_iff in He. done.
Qed.

Lemma div_Fin (a b : Q) :
  ~ b == 0 -> exists q, div (Fin a) (Fin b) = Fin q /\ q * b == a.
Proof.
  intros Hb. exists (Qred (a / b)). split.
  - simpl. by rewrite is_zero_false.
  - rewrite Qred_correct. field. exact Hb.
Qed.

(** [Math.max(lo, Math.min(hi, x))] of anything but NaN lies in the range. *)
Lemma clamp_bounds (lo hi : Q) (x : jsnum) :
  lo <= hi -> x <> NaN ->
  exists q, max (Fin lo) (min (Fin hi) x) = Fin q /\ lo <= q <= hi.
Proof.
  intros Hle Hx. destruct x as [a| | |]; [| | |done].
  - unfold min. destruct (lt (Fin a) (Fin hi)) eqn:H1.
    + apply lt_Fin_true in H1. unfold max.
      destruct (lt (Fin lo) (Fin a)) eqn:H2.
      * apply lt_Fin_true in H2. exists a. split; [done|]. Lqa.lra.
      * apply lt_Fin_false in H2. exists lo. split; [done|]. Lqa.lra.
    + apply lt_Fin_false in H1. unfold max.
      destruct (lt (Fin lo) (Fin hi)) eqn:H2.
      * exists hi. split; [done|]. Lqa.lra.
      * exists lo. split; [done|]. Lqa.lra.
  - unfold min, max. simpl.
    destruct (negb (Qle_bool hi lo)); [exists hi|exists lo]; (split; [done|Lqa.lra]).
  - exists lo. split; [done|]. Lqa.lra.
Qed.

(** Inside the range the clamp is the identity. *)
Lemma clamp_inside (lo hi x : Q) :
  lo <= x <= hi -> exists q, max (Fin lo) (min (Fin hi) (Fin x)) = Fin q /\ q == x.
Proof.
  intros [H1 H2]. unfold min. destruct (lt (Fin x) (Fin hi)) eqn:Hlt.
  - unfold max. destruct (lt (Fin lo) (Fin x)) eqn:Hlt2.
    + by exists x.
    + apply lt_Fin_false in Hlt2. exists lo. split; [done|]. Lqa.lra.
  - apply lt_Fin_false in Hlt. unfold max. destruct (lt (Fin lo) (Fin hi)) eqn:Hlt2.
    + exists hi. split; [done|]. Lqa.lra.
    + apply lt_Fin_false in Hlt2. exists lo. split; [done|]. Lqa.lra.
Qed.

Lemma max_Fin (a b : Q) :
  exists q, max (Fin a) (Fin b) = Fin q /\ a <= q /\ b <= q.
Proof.
  unfold max. destruct (lt (Fin a) (Fin b)) eqn:Hlt.
  - apply lt_Fin_true in Hlt. exists b. split; [done|]. Lqa.lra.
  - apply lt_Fin_false in Hlt. exists a. split; [done|]. Lqa.lra.
Qed.

(** [mapRange(s, 0, 1, a, b)] for [s] between 0 and 1 is [a + (b - a) s]. *)
Lemma mapRange_unit (s z o a b : Q) :
  z == 0 -> o == 1 -> 0 <= s <= 1 ->
  exists q, Utils.mapRange (Fin s) (Fin z) (Fin o) (Fin a) (Fin b) = Fin q
            /\ q == a + (b - a) * s.
Proof.
  intros Hz Ho Hs. unfold Utils.mapRange, Utils.lerp, Utils.clamp.
  change (num 0) with (Fin 0). change (num 1) with (Fin 1).
  destruct (sub_Fin s z) as (s1 & -> & Hs1).
  destruct (sub_Fin o z) as (d1 & -> & Hd1).
  destruct (div_Fin s1 d1) as (s2 & -> & Hs2); [Lqa.lra|].
  assert (Hs2' : s2 == s) by (rewrite Hd1, Ho, Hz in Hs2; Lqa.lra).
  destruct (clamp_inside 0 1 s2) as (s3 & -> & Hs3); [Lqa.lra|].
  destruct (sub_Fin b a) as (d & -> & Hd).
  destruct (mul_Fin d s3) as (m & -> & Hm).
  destruct (add_Fin a m) as (r & -> & Hr).
  exists r. split; [done|].
  rewrite Hr, Hm, Hd, Hs3, Hs2'. reflexivity.
Qed.

End JsArith.

(** One step of evaluation on ordinary values: the operation is replaced by
    a fresh rational with its defining equation. *)
Ltac js_fin_step :=
  match goal with
  | |- context [JsNum.num ?c] =>
      let q := fresh "c" in let H := fresh "Hc" in
      destruct (num_Fin c) as (q & -> & H)
  | |- context [Utils.mapRange (JsNum.Fin ?s) (JsNum.Fin ?z) (JsNum.Fin ?o)
                  (JsNum.Fin ?a) (JsNum.Fin ?b)] =>
      let q := fresh "m" in let H := fresh "Hm" in
      destruct (mapRange_unit s z o a b) as (q & -> & H);
      [first [Lqa.lra|Lqa.nra]..|]
  | |- context [JsNum.max (JsNum.Fin ?lo) (JsNum.min (JsNum.Fin ?hi) (JsNum.Fin ?x))] =>
      let q := fresh "t" in let H := fresh "Ht" in
      destruct (clamp_bounds lo hi (JsNum.Fin x)) as (q & -> & H); [Lqa.lra|done|]
  | |- context [JsNum.max (JsNum.Fin ?a) (JsNum.Fin ?b)] =>
      let q := fresh "x" in let H := fresh "Hx" in
      destruct (max_Fin a b) as (q & -> & H)
  | |- context [JsNum.sub (JsNum.Fin ?a) (JsNum.Fin ?b)] =>
      let q := fresh "d" in let H := fresh "Hd" in
      destruct (sub_Fin a b) as (q & -> & H)
  | |- context [JsNum.add (JsNum.Fin ?a) (JsNum.Fin ?b)] =>
      let q := fresh "s" in let H := fresh "Hs" in
      destruct (add_Fin a b) as (q & -> & H)
  | |- context [JsNum.mul (JsNum.Fin ?a) (JsNum.Fin ?b)] =>
      let q := fresh "p" in let H := fresh "Hp" in
      destruct (mul_Fin a b) as (q & -> & H)
  | |- context [JsNum.div (JsNum.Fin ?a) (JsNum.Fin ?b)] =>
      let q := fresh "r" in let H := fresh "Hr" in
      destruct (div_Fin a b) as (q & -> & H); [first [Lqa.lra|Lqa.nra]|]
  | |- context [JsNum.lt (JsNum.Fin ?a) (JsNum.Fin ?b)] =>
      let H := fresh "Hlt" in
      destruct (JsNum.lt (JsNum.Fin a) (JsNum.Fin b)) eqn:H;
      [apply lt_Fin_true in H|apply lt_Fin_false in H]
  | |- context [JsNum.le (JsNum.Fin ?a) (JsNum.Fin ?b)] =>
      let H := fresh "Hle" in
      destruct (JsNum.le (JsNum.Fin a) (JsNum.Fin b)) eqn:H;
      [apply le_Fin_true in H|apply le_Fin_false in H]
  end.

Ltac js_fin := repeat js_fin_step.

Ltac solve_unit :=
  unfold rgb_in_unit; simpl; repeat split; (Lqa.lra || Lqa.nra).

Section Ramps.
Import JsNum.
Local Open Scope Q_scope.

Lemma thermal_branches (q : Q) :
  0 <= q <= 1 ->
  rgb_in_unit
    (if lt (Fin q) (num 0.25) then (num 0, div (Fin q) (num 0.25), num 1)
     else if lt (Fin q) (num 0.5)
          then (num 0, num 1, sub (num 1) (div (sub (Fin q) (num 0.25)) (num 0.25)))
          else if lt (Fin q) (num 0.75)
               then (div (sub (Fin q) (num 0.5)) (num 0.25), num 1, num 0)
               else (num 1, sub (num 1) (div (sub (Fin q) (num 0.75)) (num 0.25)), num 0)).
Proof. intros Hq. js_fin; solve_unit. Qed.

Lemma thermal_clamped (x : jsnum) :
  x <> NaN ->
  rgb_in_unit
    (let t := JsNum.max (num 0) (JsNum.min (num 1) x) in
     if lt t (num 0.25) then (num 0, div t (num 0.25), num 1)
     else if lt t (num 0.5)
          then (num 0, num 1, sub (num 1) (div (sub t (num 0.25)) (num 0.25)))
          else if lt t (num 0.75)
               then (div (sub t (num 0.5)) (num 0.25), num 1, num 0)
               else (num 1, sub (num 1) (div (sub t (num 0.75)) (num 0.25)), num 0)).
Proof.
  intros Hx. change (num 0) with (Fin 0) at 1. change (num 1) with (Fin 1) at 1.
  destruct (clamp_bounds 0 1 x) as (q & -> & Hq); [done|done|].
  by apply thermal_branches.
Qed.

(** A quotient of two ordinary values is NaN only as [0 / 0]. *)
Lemma div_Fin_not_NaN (a b : Q) : ~ (a == 0 /\ b == 0) -> div (Fin a) (Fin b) <> NaN.
Proof.
  intros Hab. simpl. unfold is_zero.
  destruct (Qeq_bool b 0) eqn:Hb; [|done].
  destruct (Qeq_bool a 0) eqn:Ha; [|by destruct (is_pos a)].
  apply Qeq_bool_iff in Ha, Hb. tauto.
Qed.

Lemma stress_branches (q : Q) :
  0 <= q <= 1.5 ->
  rgb_in_unit
    (if lt (Fin q) (num 0.5) then (num 0, num 0.8, num 0.2)
     else if lt (Fin q) (num 0.8)
          then (div (sub (Fin q) (num 0.5)) (num 0.3), num 0.8,
                mul (num 0.2) (sub (num 1) (div (sub (Fin q) (num 0.5)) (num 0.3))))
          else if lt (Fin q) (num 1.0)
               then (num 1,
                     mul (num 0.8) (sub (num 1) (div (sub (Fin q) (num 0.8)) (num 0.2))),
                     num 0)
               else (num 1, num 0, num 0)).
Proof. intros Hq. js_fin; solve_unit. Qed.

End Ramps.

(** ** The colour ramps stay in the unit cube *)

Local Open Scope Q_scope.

(** X9.  On finite numbers of magnitude up to 1e300, so that no difference
    overflows, the thermal ramp returns three components between 0 and 1
    unless the range is empty and the value sits on it ([value = min = max],
    then the one case of [0 / 0]); a reversed or empty range with a value
    off it is clamped like any other. *)
Theorem thermalColor_in_unit (value min max : Q) :
  JsNum.moderate value -> JsNum.moderate min -> JsNum.moderate max ->
  ~ (value == min /\ max == min) ->
  rgb_in_unit (ColorScales.thermalColor (JsNum.Fin value) (JsNum.Fin min) (JsNum.Fin max)).
Proof.
  intros _ _ _ Hne. unfold ColorScales.thermalColor.
  destruct (sub_Fin value min) as (a & -> & Ha).
  destruct (sub_Fin max min) as (b & -> & Hb).
  apply thermal_clamped, div_Fin_not_NaN.
  intros [Ha0 Hb0]. apply Hne. split; Lqa.lra.
Qed.

Lemma thermalColor_in_unit_witness :
  rgb_in_unit (ColorScales.thermalColor (JsNum.Fin 450) (JsNum.Fin 300) (JsNum.Fin 900)).
Proof.
  apply thermalColor_in_unit; try (vm_compute; discriminate).
  intros [H _]. revert H. vm_compute. discriminate.
Defined.

(** X10.  The stress ramp returns three components between 0 and 1 for every
    pair of arguments, also for a zero yield strength, infinities and NaN:
    its first and last branch return constants. *)
Theorem stressColor_in_unit (value sigmaYield : JsNum.jsnum) :
  rgb_in_unit (ColorScales.stressColor value sigmaYield).
Proof.
  unfold ColorScales.stressColor.
  cbv zeta. generalize (JsNum.div value sigmaYield). intros t.
  assert (Hn : t = JsNum.NaN \/ t <> JsNum.NaN) by (destruct t; auto).
  destruct Hn as [->|Hn].
  - vm_compute. repeat split; discriminate.
  - change (JsNum.max (JsNum.num 0) (JsNum.min (JsNum.num 1.5) t))
      with (JsNum.max (JsNum.Fin 0) (JsNum.min (JsNum.Fin (3 # 2)) t)).
    destruct (clamp_bounds 0 (3 # 2) t) as (q & -> & Hq); [Lqa.lra|done|].
    apply stress_branches. Lqa.lra.
Qed.


(** The Mach ramp on NaN: red 1, green and blue NaN. *)
Lemma machColor_NaN : machColor JsNum.NaN = (JsNum.Fin 1, JsNum.NaN, JsNum.NaN).
Proof. reflexivity. Qed.

(** X11.  The Mach ramp returns three components between 0 and 1 for every
    Mach number, finite or infinite, that is not NaN. *)
Theorem machColor_in_unit (M : JsNum.jsnum) :
  M <> JsNum.NaN -> rgb_in_unit (machColor M).
Proof.
  destruct M as [m| | |]; intros HM; [| | |done].
  - unfold machColor, Utils.clamp. js_fin; solve_unit.
  - vm_compute. repeat split; discriminate.
  - vm_compute. repeat split; discriminate.
Qed.

Lemma machColor_in_unit_witness : rgb_in_unit (machColor (JsNum.num 2.5)).
Proof. apply machColor_in_unit. discriminate. Defined.

(** X12.  The coolant ramp returns three components between 0 and 1 for all
    finite temperatures and range bounds of magnitude up to 1e300, so that
    no difference overflows, with an empty or reversed range as well: the
    range is guarded by [Math.max(tMax - tMin, 1)]. *)
Theorem coolantColor_in_unit (temp tMin tMax : Q) :
  JsNum.moderate temp -> JsNum.moderate tMin -> JsNum.moderate tMax ->
  rgb_in_unit
    (CoolantRamp.coolantColor (JsNum.Fin temp) (JsNum.Fin tMin) (JsNum.Fin tMax)).
Proof.
  intros _ _ _.
  unfold CoolantRamp.coolantColor, Utils.clamp. cbv zeta. js_fin; solve_unit.
Qed.

Lemma coolantColor_in_unit_witness :
  rgb_in_unit
    (CoolantRamp.coolantColor (JsNum.Fin 320) (JsNum.Fin 300) (JsNum.Fin 300)).
Proof. apply coolantColor_in_unit; vm_compute; discriminate. Defined.

Close Scope Q_scope.
(** ** The data textures *)

Section TextureSampling.
Import Textures.
Local Open Scope Q_scope.

Lemma src_index_bounds (srcLen i : nat) :
  (0 < srcLen)%nat -> (i < DATA_TEX_WIDTH)%nat ->
  0 <= src_index srcLen i <= inject_Z (Z.of_nat srcLen - 1).
Proof.
  intros Hn Hi. unfold src_index, DATA_TEX_WIDTH in *. cbv zeta.
  change (inject_Z (Z.of_nat 256 - 1)) with (inject_Z 255).
  assert (H0 : 0 <= inject_Z (Z.of_nat i)).
  { change 0 with (inject_Z 0). rewrite <- Zle_Qle. lia. }
  assert (H1 : inject_Z (Z.of_nat i) <= inject_Z 255).
  { rewrite <- Zle_Qle. lia. }
  assert (H2 : 0 <= inject_Z (Z.of_nat srcLen - 1)).
  { change 0 with (inject_Z 0). rewrite <- Zle_Qle. lia. }
  set (a := inject_Z (Z.of_nat i)) in *. set (n := inject_Z (Z.of_nat srcLen - 1)) in *.
  change (inject_Z 255) with 255 in *.
  assert (Hd : a / 255 * n == a * n / 255) by (field).
  rewrite Hd. split.
  - apply Qle_shift_div_l; [done|]. Lqa.nra.
  - apply Qle_shift_div_r; [done|]. Lqa.nra.
Qed.

Lemma lo_index_bounds (srcLen i : nat) :
  (0 < srcLen)%nat -> (i < DATA_TEX_WIDTH)%nat ->
  (0 <= lo_index srcLen i <= Z.of_nat srcLen - 1)%Z.
Proof.
  intros Hn Hi. destruct (src_index_bounds srcLen i Hn Hi) as [H0 H1].
  unfold lo_index. split.
  - change 0%Z with (Qfloor 0). by apply Qfloor_resp_le.
  - rewrite <- (Qfloor_Z (Z.of_nat srcLen - 1)). by apply Qfloor_resp_le.
Qed.

Lemma hi_index_bounds (srcLen i : nat) :
  (0 < srcLen)%nat -> (i < DATA_TEX_WIDTH)%nat ->
  (lo_index srcLen i <= hi_index srcLen i <= Z.of_nat srcLen - 1)%Z.
Proof.
  intros Hn Hi. pose proof (lo_index_bounds srcLen i Hn Hi). unfold hi_index. lia.
Qed.

Lemma frac_bounds (x : Q) : 0 <= x - inject_Z (Qfloor x) /\ x - inject_Z (Qfloor x) < 1.
Proof.
  pose proof (Qfloor_le x). pose proof (Qlt_floor x) as Hlt.
  rewrite inject_Z_plus in Hlt. change (inject_Z 1) with 1 in Hlt. split; Lqa.lra.
Qed.

Lemma at_index_lookup (a : list Q) (k : Z) :
  (0 <= k < Z.of_nat (length a))%Z ->
  exists x, a !! Z.to_nat k = Some x /\ at_index a k = x.
Proof.
  intros Hk. destruct (lookup_lt_is_Some_2 a (Z.to_nat k)) as [x Hx]; [lia|].
  exists x. split; [done|]. unfold at_index.
  rewrite <- (Z2Nat.id k) by lia. by rewrite js_get_nat, Hx.
Qed.

(** An interpolated value lies between the two values it mixes. *)
Lemma mix_between (a b f : Q) :
  0 <= f -> f < 1 -> Qmin a b <= a * (1 - f) + b * f <= Qmax a b.
Proof.
  intros H0 H1.
  destruct (Qlt_le_dec a b) as [Hab|Hab].
  - rewrite Q.min_l, Q.max_r by Lqa.lra. split; Lqa.nra.
  - rewrite Q.min_r, Q.max_l by Lqa.lra. split; Lqa.nra.
Qed.

Lemma fold_Qmin_le (ts : list Q) (m : Q) :
  fold_left Qmin ts m <= m /\ Forall (fun x => fold_left Qmin ts m <= x) ts.
Proof.
  revert m. induction ts as [|t ts IH]; intros m; simpl.
  - split; [Lqa.lra|constructor].
  - destruct (IH (Qmin m t)) as [H1 H2].
    pose proof (Q.le_min_l m t). pose proof (Q.le_min_r m t).
    split; [Lqa.lra|]. constructor; [Lqa.lra|done].
Qed.

Lemma fold_Qmax_le (ts : list Q) (m : Q) :
  m <= fold_left Qmax ts m /\ Forall (fun x => x <= fold_left Qmax ts m) ts.
Proof.
  revert m. induction ts as [|t ts IH]; intros m; simpl.
  - split; [Lqa.lra|constructor].
  - destruct (IH (Qmax m t)) as [H1 H2].
    pose proof (Q.le_max_l m t). pose proof (Q.le_max_r m t).
    split; [Lqa.lra|]. constructor; [Lqa.lra|done].
Qed.

Lemma list_min_max (a : list Q) (k : nat) (x : Q) :
  a !! k = Some x -> list_min a <= x <= list_max a.
Proof.
  destruct a as [|t ts]; [done|]. simpl.
  destruct (fold_Qmin_le ts t) as [Hm1 Hm2]. destruct (fold_Qmax_le ts t) as [HM1 HM2].
  destruct k as [|k]; simpl.
  - intros [= <-]. done.
  - intros Hk. split.
    + exact (Forall_lookup_1 _ _ _ _ Hm2 Hk).
    + exact (Forall_lookup_1 _ _ _ _ HM2 Hk).
Qed.

(** The interpolation reads inside the source and stays within its range. *)
Lemma sample_between (srcArray : list Q) (i : nat) :
  (0 < length srcArray)%nat -> (i < DATA_TEX_WIDTH)%nat ->
  list_min srcArray <= sample srcArray i <= list_max srcArray.
Proof.
  intros Hn Hi. unfold sample. cbv zeta.
  pose proof (lo_index_bounds _ i Hn Hi) as Hlo.
  pose proof (hi_index_bounds _ i Hn Hi) as Hhi.
  destruct (at_index_lookup srcArray (lo_index (length srcArray) i)) as (a & Ha & ->);
    [lia|].
  destruct (at_index_lookup srcArray (hi_index (length srcArray) i)) as (b & Hb & ->);
    [lia|].
  apply list_min_max in Ha, Hb.
  destruct (frac_bounds (src_index (length srcArray) i)) as [Hf0 Hf1].
  fold (lo_index (length srcArray) i) in Hf0, Hf1.
  pose proof (mix_between a b _ Hf0 Hf1) as [Hm1 Hm2].
  pose proof (Q.le_min_l a b). pose proof (Q.le_min_r a b).
  pose proof (Q.le_max_l a b). pose proof (Q.le_max_r a b).
  assert (Hmin : list_min srcArray <= Qmin a b).
  { destruct (Qlt_le_dec a b); [rewrite Q.min_l|rewrite Q.min_r]; Lqa.lra. }
  assert (Hmax : Qmax a b <= list_max srcArray).
  { destruct (Qlt_le_dec a b); [rewrite Q.max_r|rewrite Q.max_l]; Lqa.lra. }
  split; Lqa.lra.
Qed.

Lemma sample_at_integer (srcArray : list Q) (i : nat) (k : Z) :
  src_index (length srcArray) i == inject_Z k ->
  sample srcArray i == at_index srcArray k.
Proof.
  intros Hk. unfold sample, lo_index, hi_index, lo_index. cbv zeta.
  assert (Hlo : Qfloor (src_index (length srcArray) i) = k).
  { rewrite Hk. apply Qfloor_Z. }
  rewrite Hlo, Hk. Lqa.lra.
Qed.

Lemma src_index_first (srcLen : nat) : src_index srcLen 0 == inject_Z 0.
Proof. unfold src_index. cbv zeta. change (inject_Z (Z.of_nat 0)) with 0. field. done. Qed.

Lemma src_index_last (srcLen : nat) :
  src_index srcLen (DATA_TEX_WIDTH - 1) == inject_Z (Z.of_nat srcLen - 1).
Proof.
  unfold src_index, DATA_TEX_WIDTH. cbv zeta.
  change (inject_Z (Z.of_nat (256 - 1))) with 255.
  change (inject_Z (Z.of_nat 256 - 1)) with 255. field.
Qed.

Lemma src_index_same_width (i : nat) :
  src_index DATA_TEX_WIDTH i == inject_Z (Z.of_nat i).
Proof.
  unfold src_index, DATA_TEX_WIDTH. cbv zeta.
  change (inject_Z (Z.of_nat 256 - 1)) with 255. field.
Qed.

(** *** The texel loop *)

Lemma length_write_texel i r g b a data :
  length (write_texel i r g b a data) = length data.
Proof. unfold write_texel. by rewrite !length_insert. Qed.

Lemma texel_write_texel i r g b a data :
  (i * 4 + 3 < length data)%nat ->
  texel (write_texel i r g b a data) i = Some (r, g, b, a).
Proof.
  intros Hlen.
  assert (H0 : write_texel i r g b a data !! (i * 4)%nat = Some r).
  { unfold write_texel. cbv zeta. rewrite !list_lookup_insert_ne by lia.
    apply list_lookup_insert_eq. lia. }
  assert (H1 : write_texel i r g b a data !! (i * 4 + 1)%nat = Some g).
  { unfold write_texel. cbv zeta. rewrite !list_lookup_insert_ne by lia.
    apply list_lookup_insert_eq. rewrite !length_insert. lia. }
  assert (H2 : write_texel i r g b a data !! (i * 4 + 2)%nat = Some b).
  { unfold write_texel. cbv zeta. rewrite !list_lookup_insert_ne by lia.
    apply list_lookup_insert_eq. rewrite !length_insert. lia. }
  assert (H3 : write_texel i r g b a data !! (i * 4 + 3)%nat = Some a).
  { unfold write_texel. cbv zeta.
    apply list_lookup_insert_eq. rewrite !length_insert. lia. }
  unfold texel. rewrite H0, H1, H2, H3. done.
Qed.

Lemma texel_write_texel_ne i j r g b a data :
  i <> j -> texel (write_texel i r g b a data) j = texel data j.
Proof.
  intros Hne. unfold texel, write_texel. cbv zeta.
  rewrite !list_lookup_insert_ne by lia. done.
Qed.

Lemma lookup_write_texel_ge i k r g b a data :
  (i * 4 + 4 <= k)%nat -> write_texel i r g b a data !! k = data !! k.
Proof.
  intros Hk. unfold write_texel. cbv zeta. rewrite !list_lookup_insert_ne by lia. done.
Qed.

Lemma texel_loop (f : nat -> Q * Q * Q * Q) (n : nat) (data : list Q) :
  (n * 4 <= length data)%nat ->
  let res := fold_left (fun data i => write_texel i (f i).1.1.1 (f i).1.1.2 (f i).1.2
                                       (f i).2 data) (seq 0 n) data in
  length res = length data
  /\ (forall i, (i < n)%nat -> texel res i = Some (f i))
  /\ (forall k, (n * 4 <= k)%nat -> res !! k = data !! k).
Proof.
  intros Hlen. cbv zeta. induction n as [|n IH].
  - simpl. split; [done|]. split; [lia|done].
  - rewrite seq_S, fold_left_app. simpl.
    destruct IH as (IH1 & IH2 & IH3); [lia|].
    set (res := fold_left _ (seq 0 n) data) in *.
    split; [by rewrite length_write_texel|]. split.
    + intros i Hi. destruct (decide (i = n)) as [->|Hne].
      * rewrite texel_write_texel by lia. by destruct (f n) as [[[? ?] ?] ?].
      * rewrite texel_write_texel_ne by done. apply IH2. lia.
    + intros k Hk. rewrite lookup_write_texel_ge by lia. apply IH3. lia.
Qed.

End TextureSampling.

(** X13.  For a non-empty source [fillDataTexture] writes all 256 texels:
    red is the linear interpolation of the source at the texel, read inside
    the source array and lying between the smallest and the largest source
    value; green and blue are 0 and alpha is 1.  The first and the last
    texel hold the first and the last source value, and a source of 256
    values is copied value by value.  An empty source leaves the texture
    as it is. *)
Theorem fillDataTexture_resamples (data srcArray : list Q) :
  length data = (Textures.DATA_TEX_WIDTH * 4)%nat ->
  (0 < length srcArray)%nat ->
  Textures.fillDataTexture data [] = data
  /\ length (Textures.fillDataTexture data srcArray) = length data
  /\ (forall i, (i < Textures.DATA_TEX_WIDTH)%nat ->
        Textures.texel (Textures.fillDataTexture data srcArray) i
        = Some (Textures.sample srcArray i, 0.0, 0.0, 1.0)%Q
        /\ (0 <= Textures.lo_index (length srcArray) i
             <= Textures.hi_index (length srcArray) i)%Z
        /\ (Textures.hi_index (length srcArray) i < Z.of_nat (length srcArray))%Z
        /\ (Textures.list_min srcArray <= Textures.sample srcArray i
             <= Textures.list_max srcArray)%Q)
  /\ (Textures.sample srcArray 0 == Textures.at_index srcArray 0)%Q
  /\ (Textures.sample srcArray (Textures.DATA_TEX_WIDTH - 1)
      == Textures.at_index srcArray (Z.of_nat (length srcArray) - 1))%Q
  /\ (length srcArray = Textures.DATA_TEX_WIDTH ->
      forall i, (Textures.sample srcArray i
                 == Textures.at_index srcArray (Z.of_nat i))%Q).
Proof.
  intros Hdata Hn. split; [reflexivity|].
  unfold Textures.fillDataTexture.
  destruct (Nat.eqb_spec (length srcArray) 0) as [|_]; [lia|].
  destruct (texel_loop (fun i => (Textures.sample srcArray i, 0.0, 0.0, 1.0)%Q)
              Textures.DATA_TEX_WIDTH data) as (H1 & H2 & _); [lia|].
  cbn [fst snd] in H1, H2.
  split; [exact H1|]. split; [|split; [|split]].
  - intros i Hi. split; [by apply H2|].
    pose proof (lo_index_bounds _ i Hn Hi). pose proof (hi_index_bounds _ i Hn Hi).
    split; [lia|]. split; [lia|]. by apply sample_between.
  - apply sample_at_integer, src_index_first.
  - apply sample_at_integer, src_index_last.
  - intros Hlen i. apply sample_at_integer. rewrite Hlen. apply src_index_same_width.
Qed.

Lemma fillDataTexture_resamples_witness :
  length (Textures.fillDataTexture (replicate 1024 0%Q) [1; 2; 4]%Q) = 1024%nat
  /\ (Textures.sample [1; 2; 4]%Q 0 == 1)%Q
  /\ (Textures.sample [1; 2; 4]%Q 255 == 4)%Q.
Proof.
  destruct (fillDataTexture_resamples (replicate 1024 0%Q) [1; 2; 4]%Q)
    as (_ & Hlen & _ & Hfirst & Hlast & _); [reflexivity|simpl; lia|].
  split; [exact Hlen|]. split; [exact Hfirst|exact Hlast].
Defined.

Section StationTexture.
Import Textures.
Local Open Scope Q_scope.

(** The station positions do not decrease along the axis. *)
Lemma sorted_at_index (a : list Q) (j k : Z) :
  (forall i1 i2 x y, (i1 <= i2)%nat -> a !! i1 = Some x -> a !! i2 = Some y -> x <= y) ->
  (0 <= j <= k)%Z -> (k < Z.of_nat (length a))%Z ->
  at_index a j <= at_index a k.
Proof.
  intros Hs Hjk Hk.
  destruct (at_index_lookup a j) as (x & Hx & ->); [lia|].
  destruct (at_index_lookup a k) as (y & Hy & ->); [lia|].
  apply (Hs (Z.to_nat j) (Z.to_nat k)); [lia|done|done].
Qed.

Lemma sample_sorted_between (stationX : list Q) (i : nat) :
  (forall i1 i2 x y, (i1 <= i2)%nat ->
     stationX !! i1 = Some x -> stationX !! i2 = Some y -> x <= y) ->
  (0 < length stationX)%nat -> (i < DATA_TEX_WIDTH)%nat ->
  at_index stationX 0 <= sample stationX i
  <= at_index stationX (Z.of_nat (length stationX) - 1).
Proof.
  intros Hs Hn Hi.
  pose proof (lo_index_bounds _ i Hn Hi) as Hlo.
  pose proof (hi_index_bounds _ i Hn Hi) as Hhi.
  set (lo := lo_index (length stationX) i) in *.
  set (hi := hi_index (length stationX) i) in *.
  pose proof (sorted_at_index stationX 0 lo Hs ltac:(lia) ltac:(lia)).
  pose proof (sorted_at_index stationX 0 hi Hs ltac:(lia) ltac:(lia)).
  pose proof (sorted_at_index stationX lo (Z.of_nat (length stationX) - 1) Hs
                ltac:(lia) ltac:(lia)).
  pose proof (sorted_at_index stationX hi (Z.of_nat (length stationX) - 1) Hs
                ltac:(lia) ltac:(lia)).
  destruct (frac_bounds (src_index (length stationX) i)) as [Hf0 Hf1].
  unfold sample. cbv zeta. fold lo hi. fold (lo_index (length stationX) i) in Hf0, Hf1.
  fold lo in Hf0, Hf1.
  set (f := src_index (length stationX) i - inject_Z lo) in *.
  split; Lqa.nra.
Qed.

End StationTexture.

(** X14.  For station positions that do not decrease along the axis,
    [fillStationXTexture] writes in every texel the interpolated position in
    red and a normalised position between 0 and 1 in green (blue 0, alpha
    1); the normalised position of the first texel is 0, and when all
    stations coincide the range falls back to 1 and every normalised
    position is 0. *)
Theorem fillStationXTexture_normalises (data stationX : list Q) :
  length data = (Textures.DATA_TEX_WIDTH * 4)%nat ->
  (0 < length stationX)%nat ->
  (forall i1 i2 x y, (i1 <= i2)%nat ->
     stationX !! i1 = Some x -> stationX !! i2 = Some y -> (x <= y)%Q) ->
  forall i, (i < Textures.DATA_TEX_WIDTH)%nat ->
    exists g : Q,
      Textures.texel (Textures.fillStationXTexture data stationX) i
      = Some (Textures.sample stationX i, g, 0.0, 1.0)%Q
      /\ (0 <= g <= 1)%Q
      /\ (i = 0%nat -> g == 0)%Q
      /\ ((Textures.at_index stationX (Z.of_nat (length stationX) - 1)
           == Textures.at_index stationX 0)%Q -> g == 0)%Q.
Proof.
  intros Hdata Hn Hs i Hi.
  unfold Textures.fillStationXTexture.
  destruct (Nat.eqb_spec (length stationX) 0) as [|_]; [lia|]. cbv zeta.
  set (xMin := Textures.at_index stationX 0).
  set (xMax := Textures.at_index stationX (Z.of_nat (length stationX) - 1)).
  set (range := Textures.range_or_one (xMax - xMin)).
  destruct (texel_loop
              (fun i => (Textures.sample stationX i,
                         (Textures.sample stationX i - xMin) / range, 0.0, 1.0)%Q)
              Textures.DATA_TEX_WIDTH data) as (_ & H2 & _); [lia|].
  cbn [fst snd] in H2.
  exists ((Textures.sample stationX i - xMin) / range)%Q.
  split; [by apply H2|].
  destruct (sample_sorted_between stationX i Hs Hn Hi) as [Hlo Hhi].
  fold xMin xMax in Hlo, Hhi.
  assert (Hrange : (0 < range /\ (xMax - xMin <= range) /\
                    (xMax == xMin -> range == 1))%Q).
  { unfold range, Textures.range_or_one.
    destruct (Qeq_bool (xMax - xMin) 0) eqn:He.
    - apply Qeq_bool_iff in He. split; [Lqa.lra|]. split; [Lqa.lra|]. intros _. Lqa.lra.
    - apply Qeq_bool_neq in He. split; [Lqa.lra|]. split; [Lqa.lra|].
      intros Heq. exfalso. apply He. Lqa.lra. }
  destruct Hrange as (Hpos & Hle & Hone).
  split; [|split].
  - split.
    + apply Qle_shift_div_l; [done|]. Lqa.lra.
    + apply Qle_shift_div_r; [done|]. Lqa.lra.
  - intros ->.
    assert (H0 : (Textures.sample stationX 0 == xMin)%Q)
      by apply sample_at_integer, src_index_first.
    rewrite H0. field. Lqa.lra.
  - intros Heq.
    assert (H0 : (Textures.sample stationX i == xMin)%Q) by Lqa.lra.
    rewrite H0. field. Lqa.lra.
Qed.

Lemma fillStationXTexture_normalises_witness :
  exists g : Q,
    Textures.texel (Textures.fillStationXTexture (replicate 1024 0%Q) [0; 0.1]%Q) 0
    = Some (Textures.sample [0; 0.1]%Q 0, g, 0.0, 1.0)%Q
    /\ (0 <= g <= 1)%Q.
Proof.
  destruct (fillStationXTexture_normalises (replicate 1024 0%Q) [0; 0.1]%Q) with (i := 0%nat)
    as (g & H1 & H2 & _).
  - reflexivity.
  - simpl. lia.
  - intros [|[|i1]] [|[|i2]] x y Hle; simpl; intros [= <-] [= <-];
      first [lia | vm_compute; discriminate].
  - unfold Textures.DATA_TEX_WIDTH. lia.
  - exists g. split; [exact H1|exact H2].
Defined.

Section ByteTexture.
Import Textures.
Local Open Scope Q_scope.

Variable fl : Q -> Q.
Hypothesis Hfl : rounding fl.

Lemma clamp_unit (v : Q) : 0 <= clamp v 0 1 <= 1.
Proof.
  unfold clamp. split; [apply Q.le_max_l|].
  apply Q.max_lub; [Lqa.lra|apply Q.le_min_l].
Qed.

Lemma clamp_mono (v1 v2 : Q) : v1 <= v2 -> clamp v1 0 1 <= clamp v2 0 1.
Proof.
  intros Hle. unfold clamp.
  apply Q.max_le_compat_l. by apply Q.min_le_compat_l.
Qed.

Lemma temp_norm_unit (temps : list Q) (i : nat) (norm : Q) :
  temp_norm fl temps i = Some norm -> 0 <= norm <= 1.
Proof.
  unfold temp_norm. cbv zeta. intros H.
  apply bind_Some in H as (t0 & _ & H). apply bind_Some in H as (t1 & _ & H).
  injection H as <-. apply clamp_unit.
Qed.

Lemma Math_round_byte (norm : Q) :
  0 <= norm <= 1 -> (0 <= Math_round (fl (norm * 255)) <= 255)%Z.
Proof.
  intros [H0 H1]. unfold Math_round.
  destruct (rnd_between fl 0 255 (norm * 255) Hfl) as [Hlo Hhi];
    [done|done|Lqa.lra|Lqa.lra|].
  split.
  - assert (H : (Qfloor 0 <= Qfloor (fl (norm * 255) + 0.5))%Z)
      by (apply Qfloor_resp_le; Lqa.lra).
    exact H.
  - assert (H : (Qfloor (fl (norm * 255) + 0.5) <= Qfloor (255 + 0.5))%Z)
      by (apply Qfloor_resp_le; Lqa.lra).
    exact H.
Qed.

Lemma temp_byte_unwrapped (temps : list Q) (i : nat) :
  (0 <= temp_byte fl temps i <= 255)%Z
  /\ (forall norm, temp_norm fl temps i = Some norm ->
        temp_byte fl temps i = Math_round (fl (norm * 255)))
  /\ (temp_norm fl temps i = None -> temp_byte fl temps i = 0%Z).
Proof.
  unfold temp_byte.
  destruct (temp_norm fl temps i) as [norm|] eqn:Hn.
  - pose proof (Math_round_byte norm (temp_norm_unit temps i norm Hn)) as Hb.
    unfold to_uint8. rewrite Z.mod_small by lia.
    split; [lia|]. split; [by intros ? [= <-]|done].
  - split; [lia|]. split; [done|done].
Qed.

(** The two reads of a texel are inside a temperature array that is not
    empty and has at most 2^24 entries. *)
Lemma temp_norm_defined (temps : list Q) (i : nat) :
  temps <> [] -> (Z.of_nat (length temps) <= 2 ^ 24)%Z -> (i < TEX_WIDTH)%nat ->
  is_Some (temp_norm fl temps i).
Proof.
  intros Hne Hlen Hi. unfold temp_norm. cbv zeta.
  assert (Hpos : (0 < length temps)%nat) by (destruct temps; [done|simpl; lia]).
  set (n1 := (Z.of_nat (length temps) - 1)%Z).
  assert (Hn1 : (0 <= n1 <= 2 ^ 24)%Z) by (unfold n1; lia).
  set (frac := fl (inject_Z (Z.of_nat i) / inject_Z (Z.of_nat TEX_WIDTH - 1))).
  assert (Hfrac : 0 <= frac /\ frac <= 1).
  { unfold frac. change (inject_Z (Z.of_nat TEX_WIDTH - 1)) with 255.
    assert (Hi' : 0 <= inject_Z (Z.of_nat i) /\ inject_Z (Z.of_nat i) <= 255).
    { split.
      - change 0 with (inject_Z 0). rewrite <- Zle_Qle. lia.
      - change 255 with (inject_Z 255). rewrite <- Zle_Qle.
        unfold TEX_WIDTH in Hi. lia. }
    destruct Hi' as [Hi0 Hi1]. split.
    - apply rnd_nonneg; [done|]. apply Qle_shift_div_l; [done|Lqa.lra].
    - apply rnd_le_1; [done|]. apply Qle_shift_div_r; [done|Lqa.lra]. }
  set (sf := fl (frac * inject_Z n1)).
  assert (Hn1q : 0 <= inject_Z n1).
  { change 0 with (inject_Z 0). rewrite <- Zle_Qle. lia. }
  assert (Hsf : 0 <= sf /\ sf <= inject_Z n1).
  { destruct Hfrac as [Hf0 Hf1]. unfold sf. split.
    - apply rnd_nonneg; [done|Lqa.nra].
    - apply Qle_trans with (fl (inject_Z n1)); [apply rnd_mono; [done|Lqa.nra]|].
      rewrite (rnd_int fl Hfl n1) by lia. apply Qle_refl. }
  assert (Hs0 : (0 <= Qfloor sf <= n1)%Z).
  { destruct Hsf as [H0 H1]. split.
    - change 0%Z with (Qfloor 0). by apply Qfloor_resp_le.
    - rewrite <- (Qfloor_Z n1). by apply Qfloor_resp_le. }
  unfold js_get.
  destruct (Z.ltb_spec (Qfloor sf) 0); [lia|].
  destruct (lookup_lt_is_Some_2 temps (Z.to_nat (Qfloor sf))) as [t0 ->]; [lia|].
  cbn [mbind option_bind].
  destruct (Z.ltb_spec (Z.min (Qfloor sf + 1) n1) 0); [lia|].
  destruct (lookup_lt_is_Some_2 temps (Z.to_nat (Z.min (Qfloor sf + 1) n1)))
    as [t1 ->]; [lia|].
  cbn [mbind option_bind]. eauto.
Qed.

End ByteTexture.

(** X15.  The coolant temperature texture has 256 texels of four bytes;
    green and blue are 0 and alpha is 255 in every texel.  Without
    temperatures (a missing or an empty array) red is 128 everywhere;
    otherwise red is a byte between 0 and 255, and 0 where the normalised
    temperature is NaN.  For temperatures of magnitude at most 1e300, where
    no operation overflows, the normalised temperature as the double
    arithmetic gives it lies between 0 and 1, and its product with 255,
    rounded to the nearest integer, lies between 0 and 255 before it is
    stored, so that the byte store never wraps; it is a number for an array
    of at most 2^24 temperatures, whose reads are all inside the array. *)
Theorem createCoolantTempTexture_bytes (fl : Q -> Q) (temps : option (list Q)) (i : nat) :
  rounding fl ->
  (i < Textures.TEX_WIDTH)%nat ->
  let data := Textures.createCoolantTempTexture fl temps in
  length data = (Textures.TEX_WIDTH * 4)%nat
  /\ data !! (i * 4 + 1)%nat = Some 0%Z
  /\ data !! (i * 4 + 2)%nat = Some 0%Z
  /\ data !! (i * 4 + 3)%nat = Some 255%Z
  /\ match temps with
     | Some (t :: ts) =>
         exists red : Z,
           data !! (i * 4)%nat = Some red
           /\ (0 <= red <= 255)%Z
           /\ (Textures.temp_norm fl (t :: ts) i = None -> red = 0%Z)
           /\ (Forall JsNum.moderate (t :: ts) ->
               (forall norm : Q,
                  Textures.temp_norm fl (t :: ts) i = Some norm ->
                  (0 <= norm /\ norm <= 1)%Q
                  /\ red = Textures.Math_round (fl (norm * 255)%Q))
               /\ ((Z.of_nat (length (t :: ts)) <= 2 ^ 24)%Z ->
                   is_Some (Textures.temp_norm fl (t :: ts) i)))
     | _ => data !! (i * 4)%nat = Some 128%Z
     end.
Proof.
  intros Hfl Hi. cbv zeta. unfold Textures.createCoolantTempTexture.
  set (red := match temps with
              | Some (t :: ts) => fun i => Textures.temp_byte fl (t :: ts) i
              | _ => fun _ => Textures.to_uint8 128
              end).
  set (f := fun i => [red i; Textures.to_uint8 0; Textures.to_uint8 0;
                      Textures.to_uint8 255]).
  assert (Hf : forall i, length (f i) = 4%nat) by done.
  assert (Hseq : seq 0 Textures.TEX_WIDTH !! i = Some i).
  { rewrite lookup_seq. split; [done|exact Hi]. }
  split; [by rewrite (length_blocks f 4), length_seq|].
  split; [rewrite (lookup_blocks f 4 _ i 1 i Hf Hseq) by lia; reflexivity|].
  split; [rewrite (lookup_blocks f 4 _ i 2 i Hf Hseq) by lia; reflexivity|].
  split; [rewrite (lookup_blocks f 4 _ i 3 i Hf Hseq) by lia; reflexivity|].
  replace (i * 4)%nat with (i * 4 + 0)%nat by lia.
  rewrite (lookup_blocks f 4 _ i 0 i Hf Hseq) by lia.
  simpl. unfold red.
  destruct temps as [[|t ts]|]; [done| |done].
  destruct (temp_byte_unwrapped fl Hfl (t :: ts) i) as (Hb & Hsome & Hnone).
  exists (Textures.temp_byte fl (t :: ts) i).
  split; [done|]. split; [exact Hb|]. split; [exact Hnone|].
  intros _. split.
  - intros norm Hn. split; [|by apply Hsome].
    destruct (temp_norm_unit fl (t :: ts) i norm Hn). done.
  - intros Hlen. by apply temp_norm_defined.
Qed.

(** Three temperatures in exact arithmetic: the last texel is at the top
    of the range and its red byte is 255. *)
Lemma createCoolantTempTexture_bytes_witness :
  length (Textures.createCoolantTempTexture exact (Some [300; 350; 400]%Q)) = 1024%nat
  /\ Textures.createCoolantTempTexture exact (Some [300; 350; 400]%Q) !! 1023%nat
     = Some 255%Z
  /\ exists red : Z,
       Textures.createCoolantTempTexture exact (Some [300; 350; 400]%Q) !! 1020%nat
       = Some red
       /\ (0 <= red <= 255)%Z
       /\ is_Some (Textures.temp_norm exact [300; 350; 400]%Q 255).
Proof.
  destruct (createCoolantTempTexture_bytes exact (Some [300; 350; 400]%Q) 255
              rounding_exact)
    as (H1 & _ & _ & H2 & red & H3 & H4 & _ & H5);
    [unfold Textures.TEX_WIDTH; lia|].
  split; [exact H1|]. split; [exact H2|].
  exists red. split; [exact H3|]. split; [exact H4|].
  apply H5.
  - repeat constructor; unfold JsNum.moderate; vm_compute; discriminate.
  - vm_compute. discriminate.
Defined.

Section HexColour.
Import Textures.
Local Open Scope Z_scope.

Lemma byte_land (x : Z) : 0 <= x < 256 -> Z.land x 255 = x.
Proof.
  intros Hx. change 255 with (Z.ones 8). rewrite Z.land_ones by lia.
  apply Z.mod_small. lia.
Qed.

Lemma shiftr_small (x n : Z) : 0 <= n -> 0 <= x < 2 ^ n -> Z.shiftr x n = 0.
Proof.
  intros Hn Hx. rewrite Z.shiftr_div_pow2 by lia. apply Z.div_small. lia.
Qed.

Lemma testbit_small (x n k : Z) : 0 <= x < 2 ^ n -> n <= k -> Z.testbit x k = false.
Proof.
  intros Hx Hk. destruct (Z.eq_dec x 0) as [->|Hne]; [apply Z.bits_0|].
  assert (0 <= n) by (destruct (Z.le_gt_cases 0 n); [done|]; rewrite Z.pow_neg_r in Hx; lia).
  apply Z.bits_above_log2; [lia|].
  apply Z.lt_le_trans with n; [|done]. apply Z.log2_lt_pow2; lia.
Qed.

(** A value shifted left by [n] shares no bit with a value below [2^n]. *)
Lemma land_shiftl_small (y x n : Z) :
  0 <= n -> 0 <= x < 2 ^ n -> Z.land (Z.shiftl y n) x = 0.
Proof.
  intros Hn Hx. apply Z.bits_inj'. intros k Hk.
  rewrite Z.land_spec, Z.bits_0, Z.shiftl_spec by done.
  destruct (Z.ltb_spec k n).
  - by rewrite Z.testbit_neg_r by lia.
  - by rewrite (testbit_small x n k), andb_false_r by (done || lia).
Qed.

Lemma lor_shiftl_small (y x n : Z) :
  0 <= n -> 0 <= x < 2 ^ n -> Z.lor (Z.shiftl y n) x = y * 2 ^ n + x.
Proof.
  intros Hn Hx. rewrite <- Z.lxor_lor by by apply land_shiftl_small.
  rewrite <- Z.add_nocarry_lxor by by apply land_shiftl_small.
  by rewrite Z.shiftl_mul_pow2.
Qed.

(** Three bytes packed by shifts and ors come apart again. *)
Lemma pack_unpack (r g b : Z) :
  0 <= r < 256 -> 0 <= g < 256 -> 0 <= b < 256 ->
  let hex := Z.lor (Z.lor (Z.shiftl r 16) (Z.shiftl g 8)) b in
  hex_red hex = r /\ hex_green hex = g /\ hex_blue hex = b
  /\ hex = r * 65536 + g * 256 + b.
Proof.
  intros Hr Hg Hb. cbv zeta. unfold hex_red, hex_green, hex_blue.
  assert (Hsum : Z.lor (Z.lor (Z.shiftl r 16) (Z.shiftl g 8)) b
                 = r * 65536 + g * 256 + b).
  { replace (Z.shiftl r 16) with (Z.shiftl (Z.shiftl r 8) 8)
      by (rewrite Z.shiftl_shiftl by lia; done).
    rewrite <- Z.shiftl_lor.
    rewrite (lor_shiftl_small r g 8) by lia.
    rewrite lor_shiftl_small by lia. change (2 ^ 8) with 256. lia. }
  rewrite Hsum. repeat split.
  - rewrite Z.shiftr_div_pow2 by lia. change (2 ^ 16) with 65536.
    replace ((r * 65536 + g * 256 + b) / 65536) with r
      by (apply Z.div_unique with (g * 256 + b); lia).
    by apply byte_land.
  - rewrite Z.shiftr_div_pow2 by lia. change (2 ^ 8) with 256.
    replace ((r * 65536 + g * 256 + b) / 256) with (r * 256 + g)
      by (apply Z.div_unique with b; lia).
    change 255 with (Z.ones 8). rewrite Z.land_ones by lia.
    change (2 ^ 8) with 256.
    symmetry. apply Z.mod_unique with r; lia.
  - change 255 with (Z.ones 8). rewrite Z.land_ones by lia.
    change (2 ^ 8) with 256.
    symmetry. apply Z.mod_unique with (r * 256 + g); lia.
Qed.

Local Open Scope Q_scope.

Lemma floor_between (x : Q) (lo hi : Z) :
  (lo # 1) <= x -> x <= (hi # 1) -> (lo <= Qfloor x <= hi)%Z.
Proof.
  intros H0 H1. split.
  - rewrite <- (Qfloor_Z lo). by apply Qfloor_resp_le.
  - rewrite <- (Qfloor_Z hi). by apply Qfloor_resp_le.
Qed.


Variable fl : Q -> Q.
Hypothesis Hfl : rounding fl.

Lemma hex_t_unit (temp : Q) : 0 <= hex_t fl temp <= 1.
Proof. unfold hex_t. apply clamp_unit. Qed.

Lemma hex_t_mono (temp temp' : Q) : temp <= temp' -> hex_t fl temp <= hex_t fl temp'.
Proof.
  intros Hle. unfold hex_t. apply clamp_mono. apply rnd_mono; [done|].
  assert (H : fl (temp - 300) <= fl (temp' - 300)) by (apply rnd_mono; [done|Lqa.lra]).
  unfold Qdiv. apply Qmult_le_compat_r; [exact H|done].
Qed.

Lemma hex_t_cold (temp : Q) : temp <= 300 -> hex_t fl temp == 0.
Proof.
  intros Hle. unfold hex_t, clamp.
  assert (H : fl (temp - 300) <= 0) by (apply rnd_nonpos; [done|Lqa.lra]).
  assert (H' : fl (fl (temp - 300) / 300) <= 0).
  { apply rnd_nonpos; [done|]. apply Qle_shift_div_r; [done|]. Lqa.lra. }
  rewrite Q.min_r by Lqa.lra. by rewrite Q.max_l.
Qed.

Lemma hex_t_hot (temp : Q) : 600 <= temp -> hex_t fl temp == 1.
Proof.
  intros Hge. unfold hex_t, clamp.
  assert (H : 300 <= fl (temp - 300)) by (apply (rnd_ge_Z fl 300); [done|done|Lqa.lra]).
  assert (H' : 1 <= fl (fl (temp - 300) / 300)).
  { apply rnd_ge_1; [done|]. apply Qle_shift_div_l; [done|]. Lqa.lra. }
  rewrite Q.min_l by Lqa.lra. rewrite Q.max_r by Lqa.lra. reflexivity.
Qed.

(** The inner terms of the green and blue channels. *)
Lemma green_term (t : Q) :
  0 <= t <= 1 -> 1 # 2 <= fl (1 - fl (t * 0.5)) /\ fl (1 - fl (t * 0.5)) <= 1.
Proof.
  intros [H0 H1].
  assert (Hh : 0 <= fl (t * 0.5) /\ fl (t * 0.5) <= 1 # 2).
  { split; [apply rnd_nonneg; [done|Lqa.lra]|].
    apply rnd_le_half; [done|Lqa.lra]. }
  destruct Hh as [Hh0 Hh1]. split.
  - apply rnd_ge_half; [done|Lqa.lra].
  - apply rnd_le_1; [done|Lqa.lra].
Qed.

Lemma blue_term (t : Q) : 0 <= t <= 1 -> 0 <= fl (1 - t) /\ fl (1 - t) <= 1.
Proof.
  intros [H0 H1]. split; [apply rnd_nonneg|apply rnd_le_1]; (done || Lqa.lra).
Qed.

Lemma hex_channels (temp : Q) :
  let t := hex_t fl temp in
  (0 <= red_of fl t <= 255)%Z /\ (64 <= green_of fl t <= 128)%Z
  /\ (0 <= blue_of fl t <= 255)%Z.
Proof.
  cbv zeta. destruct (hex_t_unit temp) as [H0 H1].
  set (t := hex_t fl temp) in *.
  destruct (green_term t (conj H0 H1)) as [Hg0 Hg1].
  destruct (blue_term t (conj H0 H1)) as [Hb0 Hb1].
  unfold red_of, green_of, blue_of. split; [|split].
  - apply floor_between; [apply (rnd_ge_Z fl 0)|apply (rnd_le_Z fl 255)];
      (done || Lqa.lra).
  - apply floor_between; [apply (rnd_ge_Z fl 64)|apply (rnd_le_Z fl 128)];
      (done || Lqa.lra).
  - apply floor_between; [apply (rnd_ge_Z fl 0)|apply (rnd_le_Z fl 255)];
      (done || Lqa.lra).
Qed.

Lemma hex_channels_mono (t t' : Q) :
  t <= t' ->
  (red_of fl t <= red_of fl t')%Z /\ (green_of fl t' <= green_of fl t)%Z
  /\ (blue_of fl t' <= blue_of fl t)%Z.
Proof.
  intros Hle. unfold red_of, green_of, blue_of. repeat split.
  - apply Qfloor_resp_le. apply rnd_mono; [done|Lqa.lra].
  - apply Qfloor_resp_le. apply rnd_mono; [done|].
    assert (H1 : fl (t * 0.5) <= fl (t' * 0.5)) by (apply rnd_mono; [done|Lqa.lra]).
    assert (H2 : fl (1 - fl (t' * 0.5)) <= fl (1 - fl (t * 0.5)))
      by (apply rnd_mono; [done|Lqa.lra]).
    Lqa.lra.
  - apply Qfloor_resp_le. apply rnd_mono; [done|].
    assert (H1 : fl (1 - t') <= fl (1 - t)) by (apply rnd_mono; [done|Lqa.lra]).
    Lqa.lra.
Qed.

Lemma hex_channels_at_0 (t : Q) :
  t == 0 -> red_of fl t = 0%Z /\ green_of fl t = 128%Z /\ blue_of fl t = 255%Z.
Proof.
  intros Ht. unfold red_of, green_of, blue_of. repeat split.
  - rewrite (rnd_proper fl (t * 255) 0 Hfl) by (rewrite Ht; reflexivity).
    by rewrite (rnd_0 fl Hfl).
  - rewrite (rnd_proper fl (128 * fl (1 - fl (t * 0.5))) 128 Hfl).
    + by rewrite (rnd_Z fl 128 Hfl).
    + rewrite (rnd_proper fl (1 - fl (t * 0.5)) 1 Hfl); [by rewrite (rnd_1 fl Hfl)|].
      rewrite (rnd_proper fl (t * 0.5) 0 Hfl) by (rewrite Ht; reflexivity).
      by rewrite (rnd_0 fl Hfl).
  - rewrite (rnd_proper fl (fl (1 - t) * 255) 255 Hfl).
    + by rewrite (rnd_Z fl 255 Hfl).
    + rewrite (rnd_proper fl (1 - t) 1 Hfl) by (rewrite Ht; reflexivity).
      by rewrite (rnd_1 fl Hfl).
Qed.

Lemma hex_channels_at_1 (t : Q) :
  t == 1 -> red_of fl t = 255%Z /\ green_of fl t = 64%Z /\ blue_of fl t = 0%Z.
Proof.
  intros Ht. unfold red_of, green_of, blue_of. repeat split.
  - rewrite (rnd_proper fl (t * 255) 255 Hfl) by (rewrite Ht; reflexivity).
    by rewrite (rnd_Z fl 255 Hfl).
  - rewrite (rnd_proper fl (128 * fl (1 - fl (t * 0.5))) 64 Hfl).
    + by rewrite (rnd_Z fl 64 Hfl).
    + rewrite (rnd_proper fl (1 - fl (t * 0.5)) (1 # 2) Hfl);
        [by rewrite (rnd_half fl Hfl)|].
      rewrite (rnd_proper fl (t * 0.5) (1 # 2) Hfl) by (rewrite Ht; reflexivity).
      by rewrite (rnd_half fl Hfl).
  - rewrite (rnd_proper fl (fl (1 - t) * 255) 0 Hfl).
    + by rewrite (rnd_0 fl Hfl).
    + rewrite (rnd_proper fl (1 - t) 0 Hfl) by (rewrite Ht; reflexivity).
      by rewrite (rnd_0 fl Hfl).
Qed.

End HexColour.

(** X16.  [coolantTempToHex] packs three bytes into a 24-bit colour from
    which each byte can be read back: the floors of the channels as the
    double arithmetic gives them.  Red lies between 0 and 255 and does not
    fall as the temperature grows, blue lies between 0 and 255 and green
    between 64 and 128, and neither grows.  Up to 300 K the colour is
    0x0080ff, from 600 K on 0xff4000, and for a missing temperature
    0x0088ff. *)
Theorem coolantTempToHex_packs_bytes (fl : Q -> Q) (temp temp' : Q) :
  rounding fl ->
  let t := Textures.hex_t fl temp in
  let hex := Textures.coolantTempToHex fl (Some temp) in
  let hex' := Textures.coolantTempToHex fl (Some temp') in
  (0 <= hex < 2 ^ 24)%Z
  /\ Textures.hex_red hex = Textures.red_of fl t
  /\ Textures.hex_green hex = Textures.green_of fl t
  /\ Textures.hex_blue hex = Textures.blue_of fl t
  /\ (0 <= Textures.hex_red hex <= 255)%Z
  /\ (64 <= Textures.hex_green hex <= 128)%Z
  /\ (0 <= Textures.hex_blue hex <= 255)%Z
  /\ ((temp <= temp')%Q ->
      (Textures.hex_red hex <= Textures.hex_red hex')%Z
      /\ (Textures.hex_green hex' <= Textures.hex_green hex)%Z
      /\ (Textures.hex_blue hex' <= Textures.hex_blue hex)%Z)
  /\ (temp <= 300 -> hex = 0x0080ff%Z)%Q
  /\ (600 <= temp -> hex = 0xff4000%Z)%Q
  /\ Textures.coolantTempToHex fl None = 0x0088ff%Z.
Proof.
  intros Hfl. cbv zeta.
  destruct (hex_channels fl Hfl temp) as (Hr & Hg & Hb).
  destruct (hex_channels fl Hfl temp') as (Hr' & Hg' & Hb').
  unfold Textures.coolantTempToHex.
  set (t := Textures.hex_t fl temp) in *. set (t' := Textures.hex_t fl temp') in *.
  destruct (pack_unpack (Textures.red_of fl t) (Textures.green_of fl t)
              (Textures.blue_of fl t)) as (H1 & H2 & H3 & H4); [lia..|].
  destruct (pack_unpack (Textures.red_of fl t') (Textures.green_of fl t')
              (Textures.blue_of fl t')) as (H1' & H2' & H3' & _); [lia..|].
  cbv zeta in H1, H2, H3, H4, H1', H2', H3'.
  rewrite H1, H2, H3, H1', H2', H3'.
  split; [rewrite H4; change (2 ^ 24)%Z with 16777216%Z; lia|].
  do 3 (split; [reflexivity|]). do 3 (split; [lia|]).
  split; [|split; [|split; [|reflexivity]]].
  - intros Hle. apply (hex_channels_mono fl Hfl).
    unfold t, t'. by apply hex_t_mono.
  - intros Hle. rewrite H4.
    destruct (hex_channels_at_0 fl Hfl t) as (-> & -> & ->); [|reflexivity].
    unfold t. by apply hex_t_cold.
  - intros Hge. rewrite H4.
    destruct (hex_channels_at_1 fl Hfl t) as (-> & -> & ->); [|reflexivity].
    unfold t. by apply hex_t_hot.
Qed.

(** 450 K in exact arithmetic: half way, 0x7f607f. *)
Lemma coolantTempToHex_packs_bytes_witness :
  Textures.coolantTempToHex exact (Some 450%Q) = 0x7f607f%Z
  /\ Textures.hex_red (Textures.coolantTempToHex exact (Some 450%Q)) = 127%Z
  /\ (Textures.hex_red (Textures.coolantTempToHex exact (Some 450%Q))
      <= Textures.hex_red (Textures.coolantTempToHex exact (Some 500%Q)))%Z.
Proof.
  destruct (coolantTempToHex_packs_bytes exact 450 500 rounding_exact)
    as (_ & H & _ & _ & _ & _ & _ & Hm & _).
  split; [reflexivity|]. split; [rewrite H; reflexivity|].
  apply Hm. Lqa.lra.
Defined.
(** ** engine_mesh.js: more about the builders *)

Section LatheSurface.
Import Geometry LatheMeasure.
Local Open Scope R_scope.

Lemma theta_full_turn (nCirc : nat) : (0 < nCirc)%nat -> theta nCirc nCirc = 2 * PI.
Proof.
  intros Hn. unfold theta. field. apply not_0_INR. lia.
Qed.

Lemma theta_zero (nCirc : nat) : theta nCirc 0 = 0.
Proof. unfold theta. simpl. unfold Rdiv. ring. Qed.

(** Every index of the lathe is a vertex of the grid. *)
Lemma lathe_index_in_bounds (nAxial nCirc k v : nat) :
  lathe_indices nAxial nCirc !! k = Some v -> (v < nAxial * (nCirc + 1))%nat.
Proof.
  intros Hk.
  assert (Hlen : (k < length (lathe_indices nAxial nCirc))%nat)
    by (by apply lookup_lt_Some in Hk).
  rewrite length_lathe_indices in Hlen.
  destruct (lathe_corner nAxial nCirc (k / 3) (k mod 3)) as (i & j & Hi & Hj & Hv).
  - assert (k / 3 < (nAxial - 1) * (nCirc * 2))%nat; [|lia].
    apply Nat.Div0.div_lt_upper_bound. lia.
  - apply Nat.mod_upper_bound. lia.
  - rewrite <- Nat.div_mod_eq in Hv. rewrite Hv in Hk. injection Hk as <-. nia.
Qed.

End LatheSurface.

(** X17.  For a profile of at least two stations every index of the lathe
    geometry refers to one of its vertices, and vertex [i*(S+1) + j] lies
    on the circle of station [i]: its position is
    [(x_i, r_i cos theta_j, r_i sin theta_j)] with
    [theta_j = (j / S) * pi * 2], at distance [|r_i|] from the axis; the
    last vertex of a ring closes the seam on the first one, at [(x_i, r_i, 0)]. *)
Theorem createLatheGeometry_vertices_on_circles
    (profile2d : Geometry.profile) (segments : nat) :
  (2 <= length profile2d)%nat -> (1 <= segments)%nat ->
  exists g : Geometry.BufferGeometry,
    Geometry.createLatheGeometry profile2d segments = Ok g
    /\ (forall k v, Geometry.index g !! k = Some v -> (v < Geometry.vertex_count g)%nat)
    /\ (forall i j x r, profile2d !! i = Some (x, r) -> (j <= segments)%nat ->
          let v := (i * (segments + 1) + j)%nat in
          let y := (r * cos (Geometry.theta segments j))%R in
          let z := (r * sin (Geometry.theta segments j))%R in
          (v < Geometry.vertex_count g)%nat
          /\ Geometry.position g !! (3 * v)%nat = Some x
          /\ Geometry.position g !! (3 * v + 1)%nat = Some y
          /\ Geometry.position g !! (3 * v + 2)%nat = Some z
          /\ (y * y + z * z = r * r)%R
          /\ (j = 0%nat \/ j = segments -> y = r /\ z = 0%R)).
Proof.
  intros HN HS. eexists. split; [by apply createLatheGeometry_ok|].
  cbn [Geometry.index Geometry.position Geometry.vertex_count].
  split.
  - intros k v Hk. unfold Geometry.vertex_count. cbn [Geometry.position].
    rewrite lathe_vertex_count. by apply lathe_index_in_bounds in Hk.
  - intros i j x r Hp Hj. cbv zeta.
    assert (Hi : (i < length profile2d)%nat) by (by apply lookup_lt_Some in Hp).
    assert (Hpt : LatheMeasure.pt profile2d i = (x, r)).
    { pose proof (pt_lookup profile2d i Hi) as H. rewrite Hp in H. by injection H. }
    pose proof (lathe_position_at profile2d segments i j 0 Hi Hj ltac:(lia)) as H0.
    pose proof (lathe_position_at profile2d segments i j 1 Hi Hj ltac:(lia)) as H1.
    pose proof (lathe_position_at profile2d segments i j 2 Hi Hj ltac:(lia)) as H2.
    rewrite Hpt in H0, H1, H2. cbn in H0, H1, H2.
    rewrite Nat.add_0_r in H0.
    split.
    { unfold Geometry.vertex_count. cbn [Geometry.position].
      rewrite lathe_vertex_count. nia. }
    split; [exact H0|]. split; [exact H1|]. split; [exact H2|]. split.
    + pose proof (sin2_cos2 (Geometry.theta segments j)) as Hsc.
      unfold Rsqr in Hsc. nra.
    + intros [->| ->].
      * rewrite theta_zero, cos_0, sin_0. split; ring.
      * rewrite theta_full_turn by lia. rewrite cos_2PI, sin_2PI. split; ring.
Qed.

(** The last vertex of the second ring of a lathe with 64 segments. *)
Lemma createLatheGeometry_vertices_on_circles_witness :
  exists g : Geometry.BufferGeometry,
    Geometry.createLatheGeometry [(0, 0.04); (0.1, 0.03)]%R 64 = Ok g
    /\ Geometry.position g !! 387%nat = Some 0.1%R
    /\ Geometry.position g !! 388%nat = Some 0.03%R
    /\ Geometry.position g !! 389%nat = Some 0%R.
Proof.
  destruct (createLatheGeometry_vertices_on_circles [(0, 0.04); (0.1, 0.03)]%R 64)
    as (g & Hg & _ & Hpos); [simpl; lia|lia|].
  destruct (Hpos 1%nat 64%nat 0.1%R 0.03%R eq_refl ltac:(lia))
    as (_ & Hx & Hy & Hz & _ & Hseam).
  destruct (Hseam (or_intror eq_refl)) as [Ey Ez].
  exists g. split; [exact Hg|]. rewrite Ey in Hy. rewrite Ez in Hz.
  split; [exact Hx|]. split; [exact Hy|exact Hz].
Defined.

Section LatheNormals.
Import Geometry LatheMeasure.
Local Open Scope R_scope.

(** The station normal [(nx, nr)] has length 1 when the station differs
    from the neighbour it is measured against. *)
Lemma frame_unit (profile2d : profile) (i : nat) :
  (2 <= length profile2d)%nat -> (i < length profile2d)%nat ->
  (forall k p q, profile2d !! k = Some p -> profile2d !! (k + 1)%nat = Some q -> p <> q) ->
  let nx := (frame profile2d i).1.2 in
  let nr := (frame profile2d i).2 in
  nx * nx + nr * nr = 1.
Proof.
  intros HN Hi Hdist. unfold frame. cbn [fst snd].
  set (d := if (Z.of_nat i <? Z.of_nat (length profile2d) - 1)%Z then _ else _).
  assert (Hd : d.1 <> 0 \/ d.2 <> 0).
  { unfold d. destruct (Z.ltb_spec (Z.of_nat i) (Z.of_nat (length profile2d) - 1)).
    - cbn [fst snd].
      pose proof (Hdist i _ _ (pt_lookup profile2d i Hi)
                    (pt_lookup profile2d (i + 1) ltac:(lia))) as Hne.
      destruct (pt profile2d i) as [x r], (pt profile2d (i + 1)) as [x' r'].
      cbn [fst snd].
      destruct (Req_dec_T (x' - x) 0) as [Hx|Hx]; [|by left].
      destruct (Req_dec_T (r' - r) 0) as [Hr|Hr]; [|by right].
      exfalso. apply Hne. f_equal; lra.
    - cbn [fst snd].
      pose proof (Hdist (i - 1)%nat (pt profile2d (i - 1)) (pt profile2d i)
                    (pt_lookup profile2d (i - 1) ltac:(lia))) as Hne.
      replace (i - 1 + 1)%nat with i in Hne by lia.
      specialize (Hne (pt_lookup profile2d i Hi)).
      destruct (pt profile2d i) as [x r], (pt profile2d (i - 1)) as [x' r'].
      cbn [fst snd].
      destruct (Req_dec_T (x - x') 0) as [Hx|Hx]; [|by left].
      destruct (Req_dec_T (r - r') 0) as [Hr|Hr]; [|by right].
      exfalso. apply Hne. f_equal; lra. }
  clearbody d. destruct d as [dx dr]. cbn [fst snd] in *.
  assert (Hpos : 0 < dx * dx + dr * dr) by (destruct Hd; nra).
  assert (Hs : 0 < sqrt (dx * dx + dr * dr)) by (by apply sqrt_lt_R0).
  unfold js_or. destruct (Req_dec_T _ 0) as [|_]; [lra|].
  set (len := sqrt (dx * dx + dr * dr)) in *.
  assert (Hsq : len * len = dx * dx + dr * dr) by (apply sqrt_sqrt; lra).
  transitivity ((dx * dx + dr * dr) / (len * len)); [field; lra|].
  rewrite Hsq. field. lra.
Qed.

End LatheNormals.

(** X18.  When no two consecutive stations of the profile coincide, every
    normal the lathe geometry stores has length 1. *)
Theorem createLatheGeometry_unit_normals
    (profile2d : Geometry.profile) (segments : nat) :
  (2 <= length profile2d)%nat ->
  (forall k p q, profile2d !! k = Some p -> profile2d !! (k + 1)%nat = Some q -> p <> q) ->
  exists g : Geometry.BufferGeometry,
    Geometry.createLatheGeometry profile2d segments = Ok g
    /\ (forall i j, (i < length profile2d)%nat -> (j <= segments)%nat ->
          exists nx ny nz : R,
            Geometry.normal g !! (3 * (i * (segments + 1) + j))%nat = Some nx
            /\ Geometry.normal g !! (3 * (i * (segments + 1) + j) + 1)%nat = Some ny
            /\ Geometry.normal g !! (3 * (i * (segments + 1) + j) + 2)%nat = Some nz
            /\ (nx * nx + ny * ny + nz * nz = 1)%R).
Proof.
  intros HN Hdist. eexists. split; [by apply createLatheGeometry_ok|].
  cbn [Geometry.normal]. intros i j Hi Hj.
  pose proof (lathe_normal_at profile2d segments i j 0 Hi Hj ltac:(lia)) as H0.
  pose proof (lathe_normal_at profile2d segments i j 1 Hi Hj ltac:(lia)) as H1.
  pose proof (lathe_normal_at profile2d segments i j 2 Hi Hj ltac:(lia)) as H2.
  cbn in H0, H1, H2. rewrite Nat.add_0_r in H0.
  eexists _, _, _. split; [exact H0|]. split; [exact H1|]. split; [exact H2|].
  pose proof (frame_unit profile2d i HN Hi Hdist) as Hu. cbv zeta in Hu.
  pose proof (sin2_cos2 (Geometry.theta segments j)) as Hsc. unfold Rsqr in Hsc.
  match goal with
  | |- (?a * ?a + ?b * ?c * (?b * ?c) + ?b * ?s * (?b * ?s) = 1)%R =>
      transitivity (a * a + b * b * (s * s + c * c))%R; [ring|]
  end.
  rewrite Hsc, Rmult_1_r. exact Hu.
Qed.

Lemma createLatheGeometry_unit_normals_witness :
  exists (g : Geometry.BufferGeometry) (nx ny nz : R),
    Geometry.createLatheGeometry [(0, 0.04); (0.1, 0.03)]%R 64 = Ok g
    /\ Geometry.normal g !! 0%nat = Some nx
    /\ Geometry.normal g !! 1%nat = Some ny
    /\ Geometry.normal g !! 2%nat = Some nz
    /\ (nx * nx + ny * ny + nz * nz = 1)%R.
Proof.
  destruct (createLatheGeometry_unit_normals [(0, 0.04); (0.1, 0.03)]%R 64)
    as (g & Hg & Hn).
  - simpl. lia.
  - intros [|[|k]] p q; simpl; intros [= <-] [= <-].
    intros [= H _]. lra.
  - destruct (Hn 0%nat 0%nat) as (nx & ny & nz & H0 & H1 & H2 & Hu); [simpl; lia|lia|].
    exists g, nx, ny, nz. split; [exact Hg|].
    split; [exact H0|]. split; [exact H1|]. split; [exact H2|exact Hu].
Defined.

Section Caps.
Import Geometry.
Local Open Scope R_scope.

Lemma fold_push2 (f1 g1 h1 f2 g2 h2 : nat -> list R) range b :
  let b' := fold_left (fun b j => push (push b (f1 j) (g1 j) (h1 j)) (f2 j) (g2 j) (h2 j))
              range b in
  positions b' = positions b ++ flat_map (fun j => f1 j ++ f2 j) range
  /\ normals b' = normals b ++ flat_map (fun j => g1 j ++ g2 j) range.
Proof.
  cbv zeta. revert b. induction range as [|j range IH]; intros b; simpl.
  - by rewrite !app_nil_r.
  - destruct (IH (push (push b (f1 j) (g1 j) (h1 j)) (f2 j) (g2 j) (h2 j))) as [-> ->].
    simpl. by rewrite <- !app_assoc.
Qed.

Lemma fold_left_pointwise {A B} (f g : A -> B -> A) (l : list B) (a : A) :
  (forall a x, f a x = g a x) -> fold_left f l a = fold_left g l a.
Proof.
  intros Hfg. revert a. induction l as [|x l IH]; intros a; simpl; [done|].
  by rewrite Hfg, IH.
Qed.

Lemma endCap_parts (x rInner rOuter : R) (segments : nat) (faceNegativeX : bool) :
  let nx := if faceNegativeX then -1 else 1 in
  let g := createEndCapGeometry x rInner rOuter segments faceNegativeX in
  position g
  = flat_map (fun j => [x; rInner * cos (theta segments j);
                        rInner * sin (theta segments j)]
                       ++ [x; rOuter * cos (theta segments j);
                           rOuter * sin (theta segments j)])
             (seq 0 (S segments))
  /\ normal g = flat_map (fun j => [nx; 0; 0] ++ [nx; 0; 0]) (seq 0 (S segments))
  /\ index g = flat_map (cap_triangles faceNegativeX) (seq 0 segments).
Proof.
  cbv zeta. unfold createEndCapGeometry. cbv zeta. cbn [position normal index].
  match goal with |- positions (fold_left ?f ?r ?b) = _ /\ _ =>
    destruct (fold_push2
                (fun j => [x; rInner * cos (theta segments j);
                           rInner * sin (theta segments j)])
                (fun _ => [if faceNegativeX then -1 else 1; 0; 0])
                (fun j => [0; INR j / INR segments])
                (fun j => [x; rOuter * cos (theta segments j);
                           rOuter * sin (theta segments j)])
                (fun _ => [if faceNegativeX then -1 else 1; 0; 0])
                (fun j => [1; INR j / INR segments]) r b) as [H1 H2]
  end.
  split; [exact H1|]. split; [exact H2|].
  rewrite <- (app_nil_l (flat_map _ _)). rewrite <- fold_app_blocks.
  apply fold_left_pointwise. intros ix j. unfold cap_triangles. by destruct faceNegativeX.
Qed.

End Caps.

(** X19.  An end cap is a ring of [2 (S+1)] vertices, alternately on the
    inner and the outer radius, and [2 S] triangles whose indices all refer
    to these vertices.  Every normal is the axis direction, [-x] for the
    chamber cap and [+x] for the nozzle cap, and the two caps list each
    triangle with two corners exchanged, that is with opposite winding. *)
Theorem createEndCapGeometry_ring
    (x rInner rOuter : R) (segments : nat) (faceNegativeX : bool) :
  let g := Geometry.createEndCapGeometry x rInner rOuter segments faceNegativeX in
  let nx := if faceNegativeX then (-1)%R else 1%R in
  Geometry.vertex_count g = (2 * (segments + 1))%nat
  /\ Geometry.triangle_count g = (2 * segments)%nat
  /\ (forall k v, Geometry.index g !! k = Some v -> (v < Geometry.vertex_count g)%nat)
  /\ (forall v, (v < 2 * (segments + 1))%nat ->
        Geometry.normal g !! (3 * v)%nat = Some nx
        /\ Geometry.normal g !! (3 * v + 1)%nat = Some 0%R
        /\ Geometry.normal g !! (3 * v + 2)%nat = Some 0%R)
  /\ (forall j, (j <= segments)%nat ->
        Geometry.position g !! (3 * (2 * j))%nat = Some x
        /\ Geometry.position g !! (3 * (2 * j) + 1)%nat
           = Some (rInner * cos (Geometry.theta segments j))%R
        /\ Geometry.position g !! (3 * (2 * j) + 2)%nat
           = Some (rInner * sin (Geometry.theta segments j))%R
        /\ Geometry.position g !! (3 * (2 * j + 1))%nat = Some x
        /\ Geometry.position g !! (3 * (2 * j + 1) + 1)%nat
           = Some (rOuter * cos (Geometry.theta segments j))%R
        /\ Geometry.position g !! (3 * (2 * j + 1) + 2)%nat
           = Some (rOuter * sin (Geometry.theta segments j))%R)
  /\ (forall t, (t < 2 * segments)%nat ->
        let g' := Geometry.createEndCapGeometry x rInner rOuter segments
                    (negb faceNegativeX) in
        (Geometry.index g' !! (3 * t)%nat = Geometry.index g !! (3 * t)%nat
         /\ Geometry.index g' !! (3 * t + 1)%nat = Geometry.index g !! (3 * t + 2)%nat
         /\ Geometry.index g' !! (3 * t + 2)%nat = Geometry.index g !! (3 * t + 1)%nat)
        \/ (Geometry.index g' !! (3 * t)%nat = Geometry.index g !! (3 * t + 1)%nat
            /\ Geometry.index g' !! (3 * t + 1)%nat = Geometry.index g !! (3 * t)%nat
            /\ Geometry.index g' !! (3 * t + 2)%nat
               = Geometry.index g !! (3 * t + 2)%nat)).
Proof.
  cbv zeta. unfold Geometry.vertex_count, Geometry.triangle_count.
  destruct (endCap_parts x rInner rOuter segments faceNegativeX) as (-> & -> & ->).
  destruct (endCap_parts x rInner rOuter segments (negb faceNegativeX)) as (_ & _ & ->).
  set (P := fun j : nat => _ ++ _). set (N := fun j : nat => _ ++ _).
  assert (HP : forall j, length (P j) = 6%nat) by done.
  assert (HN : forall j, length (N j) = 6%nat) by done.
  assert (HT : forall f j, length (cap_triangles f j) = 6%nat) by (by intros []).
  rewrite (length_blocks P 6 _ HP), (length_blocks _ 6 _ (HT faceNegativeX)), !length_seq.
  assert (Hv : (S segments * 6 / 3 = 2 * (segments + 1))%nat).
  { replace (S segments * 6)%nat with (2 * (segments + 1) * 3)%nat by lia.
    by apply Nat.div_mul. }
  assert (Ht : (segments * 6 / 3 = 2 * segments)%nat).
  { replace (segments * 6)%nat with (2 * segments * 3)%nat by lia. by apply Nat.div_mul. }
  rewrite Hv, Ht.
  split; [done|]. split; [done|]. split; [|split; [|split]].
  - intros k v Hk.
    assert (Hlen : (k < segments * 6)%nat).
    { apply lookup_lt_Some in Hk.
      by rewrite (length_blocks _ 6 _ (HT faceNegativeX)), length_seq in Hk. }
    pose proof (Nat.div_mod_eq k 6) as Hdm.
    assert (Hr : (k mod 6 < 6)%nat) by (apply Nat.mod_upper_bound; lia).
    assert (Hq : (k / 6 < segments)%nat) by (apply Nat.Div0.div_lt_upper_bound; lia).
    rewrite Hdm in Hk. rewrite (Nat.mul_comm 6) in Hk.
    rewrite (lookup_blocks _ 6 _ (k / 6) _ (k / 6) (HT faceNegativeX)) in Hk;
      [|rewrite lookup_seq; split; [done|lia]|done].
    unfold cap_triangles in Hk.
    set (q := (k / 6)%nat) in *. clearbody q.
    destruct faceNegativeX; destruct (k mod 6)%nat as [|[|[|[|[|[|?]]]]]];
      simpl in Hk; try lia; injection Hk as <-; lia.
  - intros v Hv'.
    pose proof (Nat.div_mod_eq v 2) as Hdm.
    assert (Hr : (v mod 2 < 2)%nat) by (apply Nat.mod_upper_bound; lia).
    assert (Hq : (v / 2 < S segments)%nat) by (apply Nat.Div0.div_lt_upper_bound; lia).
    replace (3 * v)%nat with (v / 2 * 6 + 3 * (v mod 2))%nat by lia.
    replace (v / 2 * 6 + 3 * (v mod 2) + 1)%nat
      with (v / 2 * 6 + (3 * (v mod 2) + 1))%nat by lia.
    replace (v / 2 * 6 + 3 * (v mod 2) + 2)%nat
      with (v / 2 * 6 + (3 * (v mod 2) + 2))%nat by lia.
    rewrite !(lookup_blocks N 6 _ (v / 2) _ (v / 2) HN)
      by (try (rewrite lookup_seq; split; [done|lia]); lia).
    unfold N. set (q := (v / 2)%nat) in *. clearbody q.
    destruct (v mod 2)%nat as [|[|?]]; [done|done|lia].
  - intros j Hj.
    replace (3 * (2 * j))%nat with (j * 6 + 0)%nat by lia.
    replace (j * 6 + 0 + 1)%nat with (j * 6 + 1)%nat by lia.
    replace (j * 6 + 0 + 2)%nat with (j * 6 + 2)%nat by lia.
    replace (3 * (2 * j + 1))%nat with (j * 6 + 3)%nat by lia.
    replace (j * 6 + 3 + 1)%nat with (j * 6 + 4)%nat by lia.
    replace (j * 6 + 3 + 2)%nat with (j * 6 + 5)%nat by lia.
    rewrite !(lookup_blocks P 6 _ j _ j HP)
      by (try (rewrite lookup_seq; split; [done|lia]); lia).
    done.
  - intros t Ht'.
    pose proof (Nat.div_mod_eq t 2) as Hdm.
    assert (Hr : (t mod 2 < 2)%nat) by (apply Nat.mod_upper_bound; lia).
    assert (Hq : (t / 2 < segments)%nat) by (apply Nat.Div0.div_lt_upper_bound; lia).
    replace (3 * t)%nat with (t / 2 * 6 + 3 * (t mod 2))%nat by lia.
    replace (t / 2 * 6 + 3 * (t mod 2) + 1)%nat
      with (t / 2 * 6 + (3 * (t mod 2) + 1))%nat by lia.
    replace (t / 2 * 6 + 3 * (t mod 2) + 2)%nat
      with (t / 2 * 6 + (3 * (t mod 2) + 2))%nat by lia.
    rewrite !(lookup_blocks _ 6 _ (t / 2) _ (t / 2) (HT (negb faceNegativeX)))
      by (try (rewrite lookup_seq; split; [done|lia]); lia).
    rewrite !(lookup_blocks _ 6 _ (t / 2) _ (t / 2) (HT faceNegativeX))
      by (try (rewrite lookup_seq; split; [done|lia]); lia).
    unfold cap_triangles. set (q := (t / 2)%nat) in *. clearbody q.
    destruct faceNegativeX;
      (destruct (t mod 2)%nat as [|[|?]]; [by left|by right|exfalso; lia]).
Qed.

Section Disc.
Import Geometry.
Local Open Scope R_scope.

Lemma lookup_app_add {A} (l1 l2 : list A) (i : nat) :
  (l1 ++ l2) !! (length l1 + i)%nat = l2 !! i.
Proof. rewrite lookup_app_r by lia. f_equal. lia. Qed.

Lemma injectorFace_parts (x rInner : R) (segments : nat) :
  let g := createInjectorFaceGeometry x rInner segments in
  position g
  = [x; 0; 0] ++ flat_map (fun j => [x; rInner * cos (theta segments j);
                                     rInner * sin (theta segments j)])
                          (seq 0 (S segments))
  /\ normal g = [-1; 0; 0] ++ flat_map (fun _ => [-1; 0; 0]) (seq 0 (S segments))
  /\ index g = flat_map (fun j => [0; j + 1; j]%nat) (seq 1 segments).
Proof.
  cbv zeta. unfold createInjectorFaceGeometry. cbv zeta. cbn [position normal index].
  rewrite (fold_push_positions
             (fun j => [x; rInner * cos (theta segments j); rInner * sin (theta segments j)])
             (fun _ => [-1; 0; 0])
             (fun j => [0.5 + 0.5 * cos (theta segments j);
                        0.5 + 0.5 * sin (theta segments j)])).
  rewrite (fold_push_normals
             (fun j => [x; rInner * cos (theta segments j); rInner * sin (theta segments j)])
             (fun _ => [-1; 0; 0])
             (fun j => [0.5 + 0.5 * cos (theta segments j);
                        0.5 + 0.5 * sin (theta segments j)])).
  split; [done|]. split; [done|].
  by rewrite fold_app_blocks.
Qed.

End Disc.

(** X20.  The plain injector face is a fan: a centre vertex on the axis and
    [S + 1] rim vertices on the inner radius, all with the normal [-x], and
    [S] triangles [(0, t + 2, t + 1)] around the centre, whose indices all
    refer to these vertices. *)
Theorem createInjectorFaceGeometry_fan (x rInner : R) (segments : nat) :
  let g := Geometry.createInjectorFaceGeometry x rInner segments in
  Geometry.vertex_count g = (segments + 2)%nat
  /\ Geometry.triangle_count g = segments
  /\ (forall t, (t < segments)%nat ->
        Geometry.index g !! (3 * t)%nat = Some 0%nat
        /\ Geometry.index g !! (3 * t + 1)%nat = Some (t + 2)%nat
        /\ Geometry.index g !! (3 * t + 2)%nat = Some (t + 1)%nat)
  /\ (forall k v, Geometry.index g !! k = Some v -> (v < Geometry.vertex_count g)%nat)
  /\ (forall v, (v < segments + 2)%nat ->
        Geometry.normal g !! (3 * v)%nat = Some (-1)%R
        /\ Geometry.normal g !! (3 * v + 1)%nat = Some 0%R
        /\ Geometry.normal g !! (3 * v + 2)%nat = Some 0%R)
  /\ (forall j, (j <= segments)%nat ->
        Geometry.position g !! (3 * (j + 1))%nat = Some x
        /\ Geometry.position g !! (3 * (j + 1) + 1)%nat
           = Some (rInner * cos (Geometry.theta segments j))%R
        /\ Geometry.position g !! (3 * (j + 1) + 2)%nat
           = Some (rInner * sin (Geometry.theta segments j))%R).
Proof.
  cbv zeta. unfold Geometry.vertex_count, Geometry.triangle_count.
  destruct (injectorFace_parts x rInner segments) as (-> & -> & ->).
  set (P := fun j : nat => [x; _; _]). set (N := fun _ : nat => [(-1)%R; _; _]).
  set (T := fun j : nat => [0; j + 1; j]%nat).
  assert (HP : forall j, length (P j) = 3%nat) by done.
  assert (HN : forall j, length (N j) = 3%nat) by done.
  assert (HT : forall j, length (T j) = 3%nat) by done.
  rewrite length_app, (length_blocks P 3 _ HP), (length_blocks T 3 _ HT), !length_seq.
  assert (Hv : ((length [x; 0%R; 0%R] + S segments * 3) / 3 = segments + 2)%nat).
  { replace (length [x; 0%R; 0%R] + S segments * 3)%nat
      with ((segments + 2) * 3)%nat by (simpl; lia).
    by apply Nat.div_mul. }
  rewrite Hv, Nat.div_mul by done.
  assert (Hfan : forall t c, (t < segments)%nat -> (c < 3)%nat ->
            flat_map T (seq 1 segments) !! (3 * t + c)%nat = T (S t) !! c).
  { intros t c Ht Hc. replace (3 * t + c)%nat with (t * 3 + c)%nat by lia.
    apply (lookup_blocks T 3 _ t c (S t) HT); [|done].
    rewrite lookup_seq. split; [done|lia]. }
  split; [done|]. split; [done|]. split; [|split; [|split]].
  - intros t Ht.
    pose proof (Hfan t 0%nat Ht ltac:(lia)) as H0. rewrite Nat.add_0_r in H0.
    rewrite H0, (Hfan t 1%nat Ht), (Hfan t 2%nat Ht) by lia.
    unfold T. simpl. repeat split; f_equal; lia.
  - intros k v Hk.
    assert (Hlen : (k < segments * 3)%nat).
    { apply lookup_lt_Some in Hk. by rewrite (length_blocks T 3 _ HT), length_seq in Hk. }
    pose proof (Nat.div_mod_eq k 3) as Hdm.
    assert (Hr : (k mod 3 < 3)%nat) by (apply Nat.mod_upper_bound; lia).
    assert (Hq : (k / 3 < segments)%nat) by (apply Nat.Div0.div_lt_upper_bound; lia).
    rewrite Hdm, (Hfan (k / 3)%nat (k mod 3)%nat Hq Hr) in Hk.
    unfold T in Hk. set (q := (k / 3)%nat) in *. clearbody q.
    destruct (k mod 3)%nat as [|[|[|?]]]; simpl in Hk; try lia; injection Hk as <-; lia.
  - intros v Hv'.
    destruct v as [|v]; [done|].
    replace (3 * S v)%nat with (length [(-1)%R; 0%R; 0%R] + (v * 3 + 0))%nat
      by (simpl; lia).
    replace (length [(-1)%R; 0%R; 0%R] + (v * 3 + 0) + 1)%nat
      with (length [(-1)%R; 0%R; 0%R] + (v * 3 + 1))%nat by lia.
    replace (length [(-1)%R; 0%R; 0%R] + (v * 3 + 0) + 2)%nat
      with (length [(-1)%R; 0%R; 0%R] + (v * 3 + 2))%nat by lia.
    rewrite !lookup_app_add, !(lookup_blocks N 3 _ v _ v HN)
      by (try (rewrite lookup_seq; split; [done|lia]); lia).
    done.
  - intros j Hj.
    replace (3 * (j + 1))%nat with (length [x; 0%R; 0%R] + (j * 3 + 0))%nat
      by (simpl; lia).
    replace (length [x; 0%R; 0%R] + (j * 3 + 0) + 1)%nat
      with (length [x; 0%R; 0%R] + (j * 3 + 1))%nat by lia.
    replace (length [x; 0%R; 0%R] + (j * 3 + 0) + 2)%nat
      with (length [x; 0%R; 0%R] + (j * 3 + 2))%nat by lia.
    rewrite !lookup_app_add, !(lookup_blocks P 3 _ j _ j HP)
      by (try (rewrite lookup_seq; split; [done|lia]); lia).
    done.
Qed.

(** ** buildEngineMesh: when it returns *)

Lemma js_row_outside {A} (a : list A) (i : nat) :
  (length a <= i)%nat -> js_row a (Z.of_nat i) = Throw TypeError.
Proof.
  intros Hi. unfold js_row. rewrite js_get_nat.
  by rewrite lookup_ge_None_2.
Qed.

Lemma buildEngineMesh_outer_shorter (d : MeshData) (w : World) :
  (length (outer_profile_2d d) < length (profile_2d d))%nat ->
  buildEngineMesh d w = Throw TypeError.
Proof.
  intros Hlen. unfold buildEngineMesh.
  destruct (Geometry.createLatheGeometry (outer_profile_2d d) _) as [og|[]];
    [|reflexivity].
  cbn [mbind result_bind].
  destruct (Geometry.createLatheGeometry (profile_2d d) _) as [ig|[]];
    [|reflexivity].
  cbn [mbind result_bind alloc sc em hm so fv cv mn internalFlowVisible next].
  destruct (js_row (profile_2d d) 0) as [p0|[]]; [|reflexivity].
  cbn [mbind result_bind].
  destruct (js_row (outer_profile_2d d) 0) as [o0|[]]; [|reflexivity].
  cbn [mbind result_bind].
  destruct (js_row (profile_2d d) _) as [pN|[]]; [|reflexivity].
  cbn [mbind result_bind].
  replace (Z.of_nat (length (profile_2d d)) - 1)%Z
    with (Z.of_nat (length (profile_2d d) - 1)) by lia.
  rewrite js_row_outside by lia. reflexivity.
Qed.

(** X21.  [buildEngineMesh] returns exactly when the inner profile has at
    least two stations and the outer profile has at least as many as the
    inner one; otherwise reading a station that is not there throws a
    TypeError.  When it returns, both walls are new meshes with fresh,
    distinct materials and no colour attribute, the station count is that
    of the inner profile, and no variable of an overlay module has
    changed. *)
Theorem buildEngineMesh_returns_iff (d : MeshData) (w : World) :
  ((exists w', buildEngineMesh d w = Ok w')
   <-> (2 <= length (profile_2d d) <= length (outer_profile_2d d))%nat)
  /\ (~ (2 <= length (profile_2d d) <= length (outer_profile_2d d))%nat ->
      buildEngineMesh d w = Throw TypeError)
  /\ (forall w', buildEngineMesh d w = Ok w' ->
        exists outer inner,
          getOuterMesh w' = Some outer /\ getInnerMesh w' = Some inner
          /\ material outer = next w /\ material inner = S (next w)
          /\ color outer = None /\ color inner = None
          /\ Geometry.vertex_count (geometry outer)
             = (length (outer_profile_2d d) * (getCircumSegments w + 1))%nat
          /\ Geometry.vertex_count (geometry inner)
             = (length (profile_2d d) * (getCircumSegments w + 1))%nat
          /\ getStationCount w' = length (profile_2d d)
          /\ getCircumSegments w' = getCircumSegments w
          /\ hm w' = hm w /\ so w' = so w /\ fv w' = fv w /\ cv w' = cv w).
Proof.
  assert (Hthrow : ~ (2 <= length (profile_2d d) <= length (outer_profile_2d d))%nat ->
                   buildEngineMesh d w = Throw TypeError).
  { intros Hn.
    destruct (Nat.lt_ge_cases (length (profile_2d d)) 2) as [Hlt|Hge].
    - by apply buildEngineMesh_below_two.
    - apply buildEngineMesh_outer_shorter. lia. }
  assert (Hlen : (exists w', buildEngineMesh d w = Ok w') ->
                 (2 <= length (profile_2d d) <= length (outer_profile_2d d))%nat).
  { intros [w' Hw'].
    destruct (Nat.lt_ge_cases (length (profile_2d d)) 2) as [Hlt|Hge].
    { rewrite buildEngineMesh_below_two in Hw' by done. done. }
    destruct (Nat.lt_ge_cases (length (outer_profile_2d d)) (length (profile_2d d)))
      as [Hlt|Hge'].
    { rewrite buildEngineMesh_outer_shorter in Hw' by done. done. }
    lia. }
  split; [|split].
  - split; [exact Hlen|]. intros [H1 H2]. by apply buildEngineMesh_ok.
  - exact Hthrow.
  - intros w' Hw'.
    destruct (Hlen (ex_intro _ w' Hw')) as [HN Hout].
    destruct (buildEngineMesh_inv _ _ _ Hw')
      as (og & ig & others & Hog & Hig & Hem & _ & _ & Hhm & Hso & Hfv & Hcv & _).
    eexists _, _. unfold getOuterMesh, getInnerMesh, getStationCount.
    unfold getCircumSegments at 3. rewrite Hem.
    cbn [EngineMesh.outerMesh EngineMesh.innerMesh EngineMesh.stationCount
           EngineMesh.circumSegments material color geometry].
    do 6 (split; [reflexivity|]).
    rewrite createLatheGeometry_ok in Hog, Hig by lia.
    injection Hog as <-. injection Hig as <-.
    unfold Geometry.vertex_count. cbn [Geometry.position geometry].
    rewrite !lathe_vertex_count. done.
Qed.

Lemma buildEngineMesh_returns_iff_witness :
  exists w', buildEngineMesh ExampleWorlds.two_stations initial_world = Ok w'.
Proof.
  destruct (buildEngineMesh_returns_iff ExampleWorlds.two_stations initial_world)
    as [[_ H] _].
  apply H. simpl. lia.
Defined.

(** ** The injector face with orifices as a mesh *)

Section OrificeFace.
Import Geometry.
Local Open Scope R_scope.

Lemma nested_push_positions (f g : nat -> nat -> list R) (inner outer : list nat) b :
  positions
    (fold_left
       (fun b i => fold_left (fun b j => push b (f i j) (g i j) []) inner b)
       outer b)
  = positions b ++ flat_map (fun i => flat_map (f i) inner) outer.
Proof.
  revert b. induction outer as [|i outer IH]; intros b; simpl.
  - by rewrite app_nil_r.
  - rewrite IH.
    rewrite (fold_push_positions (f i) (g i) (fun _ => [])).
    by rewrite <- app_assoc.
Qed.

Lemma fold_skip_blocks {A} (c : nat -> bool) (f : nat -> list A) range (acc : list A) :
  fold_left (fun ix j => if c j then ix else ix ++ f j) range acc
  = acc ++ flat_map (fun j => if c j then [] else f j) range.
Proof.
  revert acc. induction range as [|j range IH]; intros acc; simpl.
  - by rewrite app_nil_r.
  - rewrite IH. destruct (c j); [done|by rewrite <- app_assoc].
Qed.

(** The index list, cell by cell. *)
Lemma injector_face_index (x faceRadius : R) (orifices : list Orifice) (segments : nat) :
  let nRad := nRadial faceRadius orifices in
  let nAng := nAngular faceRadius orifices segments in
  index (injector_face x faceRadius orifices segments)
  = flat_map
      (fun i =>
         flat_map
           (fun j => if inside_orifice (cell_center faceRadius nRad nAng i j) orifices
                     then [] else cell_indices nAng i j)
           (seq 0 (Z.to_nat nAng)))
      (seq 0 (Z.to_nat nRad)).
Proof.
  cbv zeta. unfold injector_face. cbv zeta. cbn [index].
  set (nRad := nRadial faceRadius orifices).
  set (nAng := nAngular faceRadius orifices segments).
  set (skip := fun i j => inside_orifice (cell_center faceRadius nRad nAng i j) orifices).
  assert (H : forall rows acc,
            fold_left
              (fun ix i =>
                 fold_left (fun ix j => if skip i j then ix else ix ++ cell_indices nAng i j)
                           (seq 0 (Z.to_nat nAng)) ix)
              rows acc
            = acc ++ flat_map
                       (fun i => flat_map (fun j => if skip i j then []
                                                    else cell_indices nAng i j)
                                          (seq 0 (Z.to_nat nAng)))
                       rows).
  { induction rows as [|i rows IH]; intros acc; simpl.
    - by rewrite app_nil_r.
    - rewrite IH, app_assoc. f_equal.
      apply (fold_skip_blocks (skip i) (cell_indices nAng i)). }
  apply (H _ []).
Qed.

Lemma cell_indices_bound (nAng : Z) (nRad i j : nat) :
  (i < nRad)%nat -> (j < Z.to_nat nAng)%nat ->
  Forall (fun v => (v < (nRad + 1) * (Z.to_nat nAng + 1))%nat) (cell_indices nAng i j).
Proof.
  intros Hi Hj. unfold cell_indices, vertexMap. cbv zeta.
  destruct (i =? 0)%nat; repeat constructor; nia.
Qed.

Lemma length_cell_indices (nAng : Z) (i j : nat) :
  length (cell_indices nAng i j) = if (i =? 0)%nat then 3%nat else 6%nat.
Proof. unfold cell_indices. cbv zeta. by destruct (i =? 0)%nat. Qed.

Lemma Forall_flat_map_seq {A} (P : A -> Prop) (f : nat -> list A) (start n : nat) :
  (forall i, (start <= i < start + n)%nat -> Forall P (f i)) ->
  Forall P (flat_map f (seq start n)).
Proof.
  revert start. induction n as [|n IH]; intros start Hf; simpl; [constructor|].
  apply Forall_app. split; [apply Hf; lia|]. apply IH. intros i Hi. apply Hf. lia.
Qed.

Lemma length_flat_map_le {A} (f : nat -> list A) (m : nat) (range : list nat) :
  (forall i, (length (f i) <= m)%nat) ->
  (length (flat_map f range) <= length range * m)%nat.
Proof.
  intros Hf. induction range as [|i range IH]; simpl; [lia|].
  rewrite length_app. specialize (Hf i). lia.
Qed.

Lemma length_flat_map_seq_le {A} (f : nat -> list A) (m start n : nat) :
  (forall i, (length (f i) <= m)%nat) ->
  (length (flat_map f (seq start n)) <= n * m)%nat.
Proof.
  intros Hf. pose proof (length_flat_map_le f m (seq start n) Hf) as H.
  by rewrite length_seq in H.
Qed.

(** The first ring gives one triangle per cell, the others two. *)
Lemma length_rows (nAng n : nat) (f : nat -> nat -> list nat) :
  (forall i j, length (f i j) = if (i =? 0)%nat then 3%nat else 6%nat) ->
  length (flat_map (fun i => flat_map (f i) (seq 0 nAng)) (seq 0 n))
  = (3 * (nAng * (2 * n - 1)))%nat.
Proof.
  intros Hf.
  assert (Hrow : forall i, length (flat_map (f i) (seq 0 nAng))
                           = (nAng * if (i =? 0)%nat then 3 else 6)%nat).
  { intros i. rewrite (length_blocks _ (if (i =? 0)%nat then 3%nat else 6%nat));
      [by rewrite length_seq|]. intros j. apply Hf. }
  destruct n as [|n]; [simpl; lia|].
  change (seq 0 (S n)) with (0%nat :: seq 1 n). cbn [flat_map].
  rewrite length_app, Hrow. simpl (0 =? 0)%nat.
  assert (Hrest : forall start, (0 < start)%nat ->
            length (flat_map (fun i => flat_map (f i) (seq 0 nAng)) (seq start n))
            = (n * (nAng * 6))%nat).
  { induction n as [|m IHm]; intros start Hs; simpl; [done|].
    rewrite length_app, Hrow, IHm by lia.
    destruct (Nat.eqb_spec start 0); lia. }
  rewrite Hrest by lia. lia.
Qed.

(** The cell centres in polar form. *)
Lemma cell_center_polar (faceRadius : R) (nRad nAng : Z) (i j : nat) :
  (0 < nRad)%Z -> (0 < nAng)%Z ->
  cell_center faceRadius nRad nAng i j
  = let rMid := (INR i + 1 / 2) * (faceRadius / IZR nRad) in
    let tMid := (INR j + 1 / 2) * (2 * PI / IZR nAng) in
    (rMid * cos tMid, rMid * sin tMid).
Proof.
  intros Hn Hm. unfold cell_center, grid_radius, grid_theta. cbv zeta.
  assert (IZR nRad <> 0) by (apply not_0_IZR; lia).
  assert (IZR nAng <> 0) by (apply not_0_IZR; lia).
  rewrite !plus_INR. simpl (INR 1).
  replace ((INR i / IZR nRad * faceRadius + (INR i + 1) / IZR nRad * faceRadius) / 2)
    with ((INR i + 1 / 2) * (faceRadius / IZR nRad)) by (field; done).
  replace ((INR j / IZR nAng * PI * 2 + (INR j + 1) / IZR nAng * PI * 2) / 2)
    with ((INR j + 1 / 2) * (2 * PI / IZR nAng)) by (field; done).
  reflexivity.
Qed.

(** The exclusion test in words: the point is inside one of the orifices. *)
Lemma inside_orifice_spec (c : R * R) (orifices : list Orifice) :
  inside_orifice c orifices = true
  <-> exists o, In o orifices
        /\ (c.1 - o_y o) * (c.1 - o_y o) + (c.2 - o_z o) * (c.2 - o_z o)
           < o_radius o * o_radius o.
Proof.
  unfold inside_orifice. rewrite existsb_exists. split.
  - intros (o & Hin & Ht). exists o. split; [done|].
    cbv zeta in Ht. by destruct (Rlt_dec _ _).
  - intros (o & Hin & Hlt). exists o. split; [done|].
    cbv zeta. by destruct (Rlt_dec _ _).
Qed.

Lemma length_flat_map_mono {A} (f g : nat -> list A) (range : list nat) :
  (forall i, (length (f i) <= length (g i))%nat) ->
  (length (flat_map f range) <= length (flat_map g range))%nat.
Proof.
  intros Hle. induction range as [|k range IH]; [done|].
  cbn [flat_map]. rewrite !length_app. specialize (Hle k). lia.
Qed.

Lemma length_flat_map_lt {A} (f g : nat -> list A) (range : list nat) (i0 : nat) :
  In i0 range ->
  (forall i, (length (f i) <= length (g i))%nat) ->
  (length (f i0) < length (g i0))%nat ->
  (length (flat_map f range) < length (flat_map g range))%nat.
Proof.
  intros Hin Hle Hlt. induction range as [|i range IH]; [done|].
  simpl. rewrite !length_app.
  pose proof (length_flat_map_mono f g range Hle) as Hrest.
  destruct Hin as [->|Hin].
  - lia.
  - specialize (IH Hin). specialize (Hle i). lia.
Qed.

(** A masked cell leaves the face with fewer triangles than the full grid. *)
Lemma masked_cell_cuts (x faceRadius : R) (orifices : list Orifice) (segments i j : nat) :
  let nRad := nRadial faceRadius orifices in
  let nAng := nAngular faceRadius orifices segments in
  (i < Z.to_nat nRad)%nat -> (j < Z.to_nat nAng)%nat ->
  inside_orifice (cell_center faceRadius nRad nAng i j) orifices = true ->
  (triangle_count (injector_face x faceRadius orifices segments)
   < Z.to_nat nAng * (2 * Z.to_nat nRad - 1))%nat.
Proof.
  cbv zeta. intros Hi Hj Hin.
  unfold triangle_count.
  pose proof (injector_face_index x faceRadius orifices segments) as Hix.
  cbv zeta in Hix. rewrite Hix.
  set (nRad := nRadial faceRadius orifices) in *.
  set (nAng := nAngular faceRadius orifices segments) in *.
  set (f := fun i j => if inside_orifice (cell_center faceRadius nRad nAng i j) orifices
                       then [] else cell_indices nAng i j).
  assert (Hcell : forall i j, (length (f i j) <= length (cell_indices nAng i j))%nat).
  { intros a b. unfold f.
    destruct (inside_orifice (cell_center faceRadius nRad nAng a b) orifices);
      [simpl|]; lia. }
  assert (Hlt : (length (flat_map (fun i => flat_map (f i) (seq 0 (Z.to_nat nAng)))
                           (seq 0 (Z.to_nat nRad)))
                 < length (flat_map (fun i => flat_map (cell_indices nAng i)
                                                 (seq 0 (Z.to_nat nAng)))
                             (seq 0 (Z.to_nat nRad))))%nat).
  { apply (length_flat_map_lt _ _ _ i).
    - apply in_seq. lia.
    - intros a. apply length_flat_map_mono. apply Hcell.
    - apply (length_flat_map_lt _ _ _ j).
      + apply in_seq. lia.
      + apply Hcell.
      + unfold f. rewrite Hin, length_cell_indices. simpl.
        destruct (i =? 0)%nat; lia. }
  rewrite (length_rows (Z.to_nat nAng) (Z.to_nat nRad) (cell_indices nAng)) in Hlt
    by apply length_cell_indices.
  apply Nat.Div0.div_lt_upper_bound. exact Hlt.
Qed.

End OrificeFace.



(** ** engine_mesh.js: which cells an orifice masks *)

Section OrificeHoles.
Import Geometry.
Local Open Scope R_scope.

Lemma sin_sq_le (x : R) : sin x * sin x <= x * x.
Proof.
  assert (Hpos : forall y, 0 < y -> sin y * sin y <= y * y).
  { intros y Hy. pose proof (sin_lt_x y Hy) as Hlt.
    pose proof (SIN_bound y) as [Hlo Hhi].
    destruct (Rle_dec y 1) as [Hy1|Hy1]; [|nra].
    assert (0 <= sin y) by (apply sin_ge_0; pose proof PI2_3_2; lra).
    nra. }
  destruct (Rtotal_order x 0) as [Hx|[->|Hx]].
  - specialize (Hpos (- x) ltac:(lra)). rewrite sin_neg in Hpos. nra.
  - rewrite sin_0. lra.
  - by apply Hpos.
Qed.

Lemma one_minus_cos_le (d : R) : 1 - cos d <= d * d / 2.
Proof.
  replace d with (2 * (d / 2)) at 1 by field.
  rewrite cos_2a_sin. pose proof (sin_sq_le (d / 2)). nra.
Qed.

(** The squared distance between two points given in polar form. *)
Lemma dist_polar (rm t s phi : R) :
  (rm * cos t - s * cos phi) * (rm * cos t - s * cos phi)
  + (rm * sin t - s * sin phi) * (rm * sin t - s * sin phi)
  = (rm - s) * (rm - s) + 2 * rm * s * (1 - cos (t - phi)).
Proof.
  rewrite cos_minus.
  pose proof (sin2_cos2 t) as Ht. pose proof (sin2_cos2 phi) as Hp.
  unfold Rsqr in Ht, Hp.
  transitivity
    (rm * rm * (sin t * sin t + cos t * cos t)
     + s * s * (sin phi * sin phi + cos phi * cos phi)
     - 2 * rm * s * (cos t * cos phi + sin t * sin phi)); [ring|].
  rewrite Ht, Hp. ring.
Qed.

(** Every point of the plane has polar coordinates. *)
Lemma polar_form (y z : R) :
  exists s phi, 0 <= s /\ 0 <= phi < 2 * PI
    /\ y = s * cos phi /\ z = s * sin phi /\ s * s = y * y + z * z.
Proof.
  pose proof PI_RGT_0 as Hpi.
  set (s := sqrt (y * y + z * z)).
  assert (Hs2 : s * s = y * y + z * z) by (apply sqrt_sqrt; nra).
  assert (Hs0 : 0 <= s) by apply sqrt_pos.
  destruct (Req_dec_T s 0) as [Hz|Hnz].
  - exists 0, 0. rewrite Hz in Hs2.
    assert (y = 0) by nra. assert (z = 0) by nra. subst y z.
    repeat split; try lra.
  - assert (Hs : 0 < s) by lra.
    set (c := y / s).
    assert (Hc : -1 <= c <= 1).
    { unfold c. split.
      - apply (Rmult_le_reg_r s); [done|]. unfold Rdiv.
        rewrite Rmult_assoc, Rinv_l by lra. nra.
      - apply (Rmult_le_reg_r s); [done|]. unfold Rdiv.
        rewrite Rmult_assoc, Rinv_l by lra. nra. }
    assert (Hy : y = s * c) by (unfold c; field; lra).
    pose proof (acos_bound c) as Hb.
    pose proof (cos_acos c Hc) as Hcos.
    pose proof (sin_acos c Hc) as Hsin.
    assert (Hz2 : z * z = s * s * (1 - c²)) by (unfold Rsqr; rewrite Hy in Hs2; nra).
    assert (H1c : 0 <= 1 - c²) by (unfold Rsqr; nra).
    assert (Hsq : sqrt (1 - c²) * sqrt (1 - c²) = 1 - c²) by (by apply sqrt_sqrt).
    pose proof (sqrt_pos (1 - c²)) as Hq0.
    set (q := sqrt (1 - c²)) in *.
    assert (Hprod : (z - s * q) * (z + s * q) = 0) by nra.
    destruct (Rle_dec 0 z) as [Hz0|Hz0].
    + exists s, (acos c). split; [done|]. split; [lra|]. split; [by rewrite Hcos|].
      split; [|done]. rewrite Hsin.
      destruct (Rmult_integral _ _ Hprod) as [H|H]; [lra|].
      assert (0 <= s * q) by nra. nra.
    + exists s, (2 * PI - acos c).
      assert (Hne : acos c <> 0).
      { intros H0. rewrite H0, sin_0 in Hsin. rewrite <- Hsin in Hsq. nra. }
      split; [done|]. split; [lra|].
      replace (2 * PI - acos c) with (- acos c + 2 * PI) by ring.
      rewrite cos_plus, sin_plus, cos_2PI, sin_2PI, cos_neg, sin_neg.
      split; [rewrite Hcos; lra|]. split; [|done]. rewrite Hsin.
      destruct (Rmult_integral _ _ Hprod) as [H|H]; [|lra].
      assert (0 <= s * q) by nra. lra.
Qed.

(** A value in [0, n] is within one half of some [i + 1/2], [i < n]. *)
Lemma nearest_half (n : Z) (u : R) :
  (0 < n)%Z -> 0 <= u <= IZR n ->
  exists i : nat, (i < Z.to_nat n)%nat /\ INR i <= u <= INR i + 1.
Proof.
  intros Hn [H0 H1].
  destruct (base_Int_part u) as [Hlo Hhi].
  assert (Hk0 : (0 <= Int_part u)%Z).
  { apply le_IZR. apply Rnot_lt_le. intros Hneg.
    assert (IZR (Int_part u) <= -1).
    { apply IZR_le. apply lt_IZR in Hneg. lia. }
    lra. }
  assert (Hkn : (Int_part u <= n)%Z) by (apply le_IZR; lra).
  destruct (Z.eq_dec (Int_part u) n) as [Heq|Hne].
  - exists (Z.to_nat (n - 1)). split; [lia|].
    rewrite INR_IZR_INZ, Z2Nat.id by lia. rewrite minus_IZR.
    rewrite Heq in Hlo. lra.
  - exists (Z.to_nat (Int_part u)). split; [lia|].
    rewrite INR_IZR_INZ, Z2Nat.id by lia. lra.
Qed.

(** When the radial cell [dr] and the rim angular cell [da] are no larger
    than [rho], every point of the face is closer than [rho] to some cell
    centre. *)
Lemma cell_center_near (faceRadius rho : R) (nRad nAng : Z) (y z : R) :
  0 < faceRadius -> 0 < rho -> (0 < nRad)%Z -> (0 < nAng)%Z ->
  faceRadius / IZR nRad <= rho ->
  2 * PI * faceRadius / IZR nAng <= rho ->
  y * y + z * z <= faceRadius * faceRadius ->
  exists i j : nat,
    (i < Z.to_nat nRad)%nat /\ (j < Z.to_nat nAng)%nat
    /\ let c := cell_center faceRadius nRad nAng i j in
       (c.1 - y) * (c.1 - y) + (c.2 - z) * (c.2 - z) < rho * rho.
Proof.
  intros HR Hrho Hn Hm Hdr Hda Hin.
  pose proof PI_RGT_0 as Hpi.
  assert (HnR : 0 < IZR nRad) by (by apply IZR_lt).
  assert (HmR : 0 < IZR nAng) by (by apply IZR_lt).
  destruct (polar_form y z) as (s & phi & Hs0 & Hphi & Hy & Hz & Hs2).
  assert (HsR : s <= faceRadius) by nra.
  set (dr := faceRadius / IZR nRad) in *.
  set (dt := 2 * PI / IZR nAng).
  assert (Hdr0 : 0 < dr) by (by apply Rdiv_lt_0_compat).
  assert (Hdt0 : 0 < dt) by (apply Rdiv_lt_0_compat; lra).
  assert (Hda' : faceRadius * dt <= rho).
  { unfold dt. replace (faceRadius * (2 * PI / IZR nAng))
      with (2 * PI * faceRadius / IZR nAng) by (field; lra). exact Hda. }
  assert (Hdrn : dr * IZR nRad = faceRadius) by (unfold dr; field; lra).
  assert (Hdtm : dt * IZR nAng = 2 * PI) by (unfold dt; field; lra).
  destruct (nearest_half nRad (s / dr) Hn) as (i & Hi & Hiu).
  { split; [apply Rmult_le_pos; [done|left; by apply Rinv_0_lt_compat]|].
    apply (Rmult_le_reg_r dr); [done|].
    unfold Rdiv. rewrite Rmult_assoc, Rinv_l by lra. lra. }
  destruct (nearest_half nAng (phi / dt) Hm) as (j & Hj & Hjv).
  { split; [apply Rmult_le_pos; [lra|left; by apply Rinv_0_lt_compat]|].
    apply (Rmult_le_reg_r dt); [done|].
    unfold Rdiv. rewrite Rmult_assoc, Rinv_l by lra. lra. }
  exists i, j. split; [done|]. split; [done|].
  rewrite cell_center_polar by done. cbv zeta. cbn [fst snd].
  fold dr dt.
  set (rm := (INR i + 1 / 2) * dr). set (t := (INR j + 1 / 2) * dt).
  rewrite Hy, Hz, dist_polar.
  assert (Hsu : s = s / dr * dr) by (field; lra).
  assert (Hpv : phi = phi / dt * dt) by (field; lra).
  set (u := s / dr) in *. set (v := phi / dt) in *.
  assert (Hrad : (rm - s) * (rm - s) <= dr * dr / 4).
  { unfold rm. rewrite Hsu.
    replace ((INR i + 1 / 2) * dr - u * dr) with ((INR i + 1 / 2 - u) * dr) by ring.
    assert ((INR i + 1 / 2 - u) * (INR i + 1 / 2 - u) <= 1 / 4) by nra.
    nra. }
  assert (Hang : (t - phi) * (t - phi) <= dt * dt / 4).
  { unfold t. rewrite Hpv.
    replace ((INR j + 1 / 2) * dt - v * dt) with ((INR j + 1 / 2 - v) * dt) by ring.
    assert ((INR j + 1 / 2 - v) * (INR j + 1 / 2 - v) <= 1 / 4) by nra.
    nra. }
  pose proof (one_minus_cos_le (t - phi)) as Hcos.
  pose proof (COS_bound (t - phi)) as [_ Hc1].
  assert (Hrm0 : 0 <= rm) by (unfold rm; pose proof (pos_INR i); nra).
  assert (HrmR : rm <= faceRadius).
  { unfold rm. rewrite <- Hdrn.
    assert (INR i + 1 <= IZR nRad).
    { rewrite INR_IZR_INZ, <- plus_IZR. apply IZR_le. lia. }
    nra. }
  assert (Hprod : rm * s <= faceRadius * faceRadius) by nra.
  assert (Hterm : 2 * rm * s * (1 - cos (t - phi))
                  <= faceRadius * faceRadius * (dt * dt / 4)).
  { assert (0 <= 1 - cos (t - phi)) by lra.
    assert (0 <= rm * s) by nra.
    assert (1 - cos (t - phi) <= dt * dt / 8) by nra.
    nra. }
  assert (Ha2 : faceRadius * faceRadius * (dt * dt) <= rho * rho).
  { replace (faceRadius * faceRadius * (dt * dt))
      with ((faceRadius * dt) * (faceRadius * dt)) by ring.
    assert (0 <= faceRadius * dt) by nra.
    apply Rmult_le_compat; lra. }
  assert (Hr2 : dr * dr <= rho * rho) by (apply Rmult_le_compat; lra).
  assert (0 < rho * rho) by nra.
  lra.
Qed.

End OrificeHoles.

Open Scope R_scope.



(** The rows of a grid of which only the cells inside the grid are known. *)
Lemma flat_map_ext_seq {A : Type} (f g : nat -> list A) (s n : nat) :
  (forall i, (s <= i < s + n)%nat -> f i = g i) ->
  flat_map f (seq s n) = flat_map g (seq s n).
Proof.
  revert s. induction n as [|n IH]; intros s H; simpl; [done|].
  rewrite (H s) by lia. f_equal. apply IH. intros i Hi. apply H. lia.
Qed.

Lemma length_rows_in (nAng n : nat) (f : nat -> nat -> list nat) :
  (forall i j, (i < n)%nat -> (j < nAng)%nat ->
     length (f i j) = if (i =? 0)%nat then 3%nat else 6%nat) ->
  length (flat_map (fun i => flat_map (f i) (seq 0 nAng)) (seq 0 n))
  = (3 * (nAng * (2 * n - 1)))%nat.
Proof.
  intros Hf.
  set (g := fun i j => if ((i <? n)%nat && (j <? nAng)%nat)%bool then f i j
                       else replicate (if (i =? 0)%nat then 3%nat else 6%nat) 0%nat).
  rewrite (flat_map_ext_seq _ (fun i => flat_map (g i) (seq 0 nAng))).
  - apply length_rows. intros i j. unfold g.
    destruct (Nat.ltb_spec i n), (Nat.ltb_spec j nAng); simpl;
      try apply length_replicate.
    by apply Hf.
  - intros i Hi. apply flat_map_ext_seq. intros j Hj. unfold g.
    destruct (Nat.ltb_spec i n); [|lia]. destruct (Nat.ltb_spec j nAng); [|lia].
    reflexivity.
Qed.


Close Scope R_scope.
(** ** flame_particles.js: bounds of the derived plume quantities *)

Section PlumeBounds.
Import PlumePhysics.
Local Open Scope R_scope.

Lemma widening_bounds (r : R) : 0.15 <= widening r <= 2.5.
Proof.
  unfold widening. destruct (Rlt_dec 1.0 r) as [Hr|Hr].
  - pose proof (Rmin_r (1.0 + 0.4 * ln r) 2.5).
    assert (0 < ln r) by (rewrite <- ln_1; apply ln_increasing; lra).
    split; [|done]. apply Rmin_glb; lra.
  - pose proof (Rmax_r (0.5 * r) 0.15). split; [done|].
    apply Rmax_lub; lra.
Qed.

Lemma guarded_mach (mach : R) : 1.01 <= Rmax mach 1.01.
Proof. apply Rmax_r. Qed.

End PlumeBounds.

Open Scope R_scope.

(** X26.  For a positive exit radius and whatever the exhaust state, the
    derived plume quantities stay in range: the half-angle is positive and
    below [5 pi / 4], the plume is at least 0.06 long and the shock cell
    spacing is positive.  An exit Mach number of at most 1.01 is treated
    as 1.01. *)
Theorem recomputeDerived_bounds (p : PlumePhysics.ExhaustPhysics) (exitR : R) :
  0 < exitR ->
  let d := PlumePhysics._recomputeDerived p exitR in
  0 < PlumePhysics._plumeHalfAngle d < 5 * PI / 4
  /\ 0.06 <= PlumePhysics._plumeLength d
  /\ 0 < PlumePhysics._shockSpacing d
  /\ (PlumePhysics.exit_mach p <= 1.01 ->
      d = PlumePhysics._recomputeDerived
            {| PlumePhysics.exit_mach := 1.01;
               PlumePhysics.exit_pressure_Pa := PlumePhysics.exit_pressure_Pa p;
               PlumePhysics.ambient_pressure_Pa := PlumePhysics.ambient_pressure_Pa p;
               PlumePhysics.exit_temperature_K := PlumePhysics.exit_temperature_K p;
               PlumePhysics.gamma := PlumePhysics.gamma p |} exitR).
Proof.
  intros HR. cbv zeta. unfold PlumePhysics._recomputeDerived. cbv zeta.
  cbn [PlumePhysics._plumeHalfAngle PlumePhysics._plumeLength
         PlumePhysics._shockSpacing PlumePhysics.exit_mach
         PlumePhysics.exit_pressure_Pa PlumePhysics.ambient_pressure_Pa].
  set (M := Rmax (PlumePhysics.exit_mach p) 1.01).
  set (r := PlumePhysics.exit_pressure_Pa p
            / Rmax (PlumePhysics.ambient_pressure_Pa p) 1.0).
  pose proof (guarded_mach (PlumePhysics.exit_mach p)) as HM. fold M in HM.
  split; [|split; [|split]].
  - rewrite half_angle_widening.
    pose proof (mach_angle_pos (PlumePhysics.exit_mach p)) as Ha. fold M in Ha.
    destruct (widening_bounds r) as [Hw0 Hw1].
    assert (Hb : asin (1.0 / M) < PI / 2).
    { apply asin_bound_lt. split.
      - apply Rlt_trans with 0; [lra|]. apply Rdiv_lt_0_compat; lra.
      - apply (Rmult_lt_reg_r M); [lra|].
        unfold Rdiv. rewrite Rmult_assoc, Rinv_l by lra. lra. }
    split; [nra|]. pose proof PI_RGT_0. nra.
  - pose proof (Rmax_r (exitR * 14) 0.15) as Hbase.
    destruct (Rlt_dec 1.0 r) as [Hr|Hr].
    + assert (0 < ln r) by (rewrite <- ln_1; apply ln_increasing; lra). nra.
    + pose proof (Rmax_l 0.4 r). nra.
  - assert (Hsq : 0 < sqrt (M * M - 1.0)) by (apply sqrt_lt_R0; nra).
    nra.
  - intros Hle. unfold M. rewrite Rmax_right by lra.
    rewrite (Rmax_right 1.01 1.01) by lra. reflexivity.
Qed.

Lemma recomputeDerived_bounds_witness :
  0.06 <= PlumePhysics._plumeLength
            (PlumePhysics._recomputeDerived (Examples.mach3_at 150000) 0.02).
Proof.
  destruct (recomputeDerived_bounds (Examples.mach3_at 150000) 0.02) as (_ & H & _);
    [lra|exact H].
Defined.

Close Scope R_scope.

(** ** ws_client.js: reconnection and message dispatch *)

Section WSClientFacts.
Import WSClient.

Lemma delays_ok_scheduleReconnect s :
  delays_ok s -> delays_ok (_scheduleReconnect s).
Proof.
  intros (Hd & Hm & Ht). repeat split; try done; try apply Hd.
  cbn. apply Forall_app. split; [done|]. by repeat constructor; apply Hd.
Qed.

Lemma delays_ok_doConnect b s : delays_ok s -> delays_ok (_doConnect b s).
Proof.
  intros H. unfold _doConnect.
  destruct b; [by apply delays_ok_scheduleReconnect|]. exact H.
Qed.

Lemma delays_ok_reconnect_timeout b s :
  delays_ok s -> delays_ok (reconnect_timeout b s).
Proof.
  intros H. unfold reconnect_timeout. destruct (_shouldReconnect s); [|done].
  pose proof (delays_ok_doConnect b s H) as (Hd & Hm & Ht).
  repeat split; try done; cbn; lia.
Qed.

Lemma delays_ok_step s e : delays_ok s -> delays_ok (step s e).
Proof.
  intros H. destruct e as [b| | | |i b|type cb|type cb]; cbn.
  - by apply delays_ok_doConnect.
  - exact H.
  - destruct H as (Hd & Hm & Ht). repeat split; try done; cbn; lia.
  - unfold onclose. destruct (_shouldReconnect s); [|done].
    by apply delays_ok_scheduleReconnect.
  - destruct (timeouts s !! i) eqn:Hi; [|done].
    apply delays_ok_reconnect_timeout.
    destruct H as (Hd & Hm & Ht). repeat split; try done; try apply Hd.
    cbn. apply Forall_forall. intros x Hx.
    apply (proj1 (Forall_forall _ _) Ht).
    eapply elem_of_sublist; [exact Hx|]. apply sublist_delete.
  - unfold on. destruct (handlers s !! type); [exact H|].
    destruct (inherited type); exact H.
  - unfold off. destruct (handlers s !! type); [exact H|].
    destruct (inherited type); exact H.
Qed.

Lemma doConnect_reconnectDelay b s :
  reconnectDelay (_doConnect b s) = reconnectDelay s
  /\ maxReconnectDelay (_doConnect b s) = maxReconnectDelay s
  /\ _shouldReconnect (_doConnect b s) = _shouldReconnect s.
Proof. by destruct b. Qed.

Lemma stopped_step s0 s e :
  is_connect e = false -> stopped_since s0 s -> stopped_since s0 (step s e).
Proof.
  intros He (Hs & Hn & Ht). destruct e as [b| | | |i b|type cb|type cb]; try done; cbn.
  - unfold onclose. by rewrite Hs.
  - destruct (timeouts s !! i); [|done].
    unfold reconnect_timeout. cbn. rewrite Hs. repeat split; try done.
    cbn. etrans; [apply sublist_delete|done].
  - unfold on. destruct (handlers s !! type); [done|].
    by destruct (inherited type).
  - unfold off. destruct (handlers s !! type); [done|].
    by destruct (inherited type).
Qed.

Lemma call_each_no_throw throws l :
  (forall cb, throws cb = false) -> call_each throws l = l.
Proof. intros H. induction l as [|cb l IH]; [done|]. cbn. by rewrite H, IH. Qed.

Lemma call_each_elem_of throws l cb : cb ∈ call_each throws l -> cb ∈ l.
Proof.
  induction l as [|c l IH]; [done|]. cbn. intros [->|H]%elem_of_cons.
  - by left.
  - right. destruct (throws c); [by apply elem_of_nil in H|by apply IH].
Qed.

Lemma call_each_prefix throws l : call_each throws l `prefix_of` l.
Proof.
  induction l as [|c l IH]; [done|]. cbn. apply prefix_cons.
  destruct (throws c); [apply prefix_nil|done].
Qed.

(** Removing a callback removes every registration of it under that
    message type and touches no other type. *)
Lemma off_removes type cb s s' throws :
  off type cb s = Ok s' ->
  (cb ∉ onmessage throws (Some type) s')
  /\ (forall type', type' <> type ->
        onmessage throws (Some type') s' = onmessage throws (Some type') s)
  /\ ((forall c, throws c = false) ->
        onmessage throws (Some type) s'
        = filter (.≠ cb) (onmessage throws (Some type) s)).
Proof.
  unfold off, onmessage. destruct (handlers s !! type) as [l|] eqn:Hl.
  - intros [= <-]. cbn. rewrite lookup_insert_eq. split; [|split].
    + intros H%call_each_elem_of. apply list_elem_of_filter in H. by destruct H.
    + intros type' Hne. by rewrite lookup_insert_ne.
    + intros Hn. by rewrite !call_each_no_throw.
  - destruct (inherited type); [done|]. intros [= <-]. rewrite Hl.
    split; [by intros ?%elem_of_nil|]. split; [done|]. done.
Qed.

(** Registering puts the callback last under its message type; only the
    names inherited from [Object.prototype] make [on] throw. *)
Lemma on_registers_last type cb s :
  match on type cb s with
  | Ok s' =>
      (forall throws, (forall c, throws c = false) ->
         onmessage throws (Some type) s'
         = onmessage throws (Some type) s ++ [cb])
      /\ (forall throws type', type' <> type ->
            onmessage throws (Some type') s' = onmessage throws (Some type') s)
  | Throw _ => inherited type = true /\ handlers s !! type = None
  end.
Proof.
  unfold on, onmessage. destruct (handlers s !! type) as [l|] eqn:Hl.
  - cbn. rewrite lookup_insert_eq. split.
    + intros throws Hn. by rewrite !call_each_no_throw.
    + intros throws type' Hne. by rewrite lookup_insert_ne.
  - destruct (inherited type); [done|]. cbn. rewrite lookup_insert_eq.
    split; [intros throws Hn; by rewrite call_each_no_throw|].
    intros throws type' Hne. by rewrite lookup_insert_ne.
Qed.

End WSClientFacts.

(** X27.  Whatever the page and the browser do to a client, its reconnect
    delay and the delay of every pending reconnect timeout stay between
    1000 ms and 30000 ms. *)
Theorem reconnect_delays_between_1s_and_30s (es : list WSClient.event)
  (s : WSClient.t) :
  WSClient.delays_ok s -> WSClient.delays_ok (WSClient.run es s).
Proof.
  revert s. induction es as [|e es IH]; intros s H; [done|].
  cbn. apply IH. by apply delays_ok_step.
Qed.

Lemma reconnect_delays_between_1s_and_30s_witness :
  WSClient.delays_ok
    (WSClient.run [WSClient.Connect false; WSClient.Close;
                   WSClient.Timeout 0 true; WSClient.Timeout 0 false;
                   WSClient.Close; WSClient.Open]
       WSClient.constructor).
Proof.
  apply reconnect_delays_between_1s_and_30s.
  repeat split; cbn; try lia. constructor.
Defined.

(** X28.  Each reconnect attempt doubles the delay up to the cap: after [k]
    expired timeouts with no connection opened in between, the delay is
    the smaller of [2^k] times what it was and 30000 ms. *)
Theorem reconnect_delay_doubles_up_to_cap (throws : list bool)
  (s : WSClient.t) :
  WSClient.delays_ok s ->
  WSClient._shouldReconnect s = true ->
  WSClient.reconnectDelay
    (fold_left (fun s b => WSClient.reconnect_timeout b s) throws s)
  = Z.min (WSClient.reconnectDelay s * 2 ^ Z.of_nat (length throws)) 30000.
Proof.
  revert s. induction throws as [|b bs IH]; intros s H Hs.
  - cbn. destruct H as (Hd & _). lia.
  - cbn [fold_left length]. rewrite IH.
    + unfold WSClient.reconnect_timeout. rewrite Hs. cbn.
      destruct (doConnect_reconnectDelay b s) as (-> & -> & _).
      destruct H as (Hd & -> & _).
      rewrite Nat2Z.inj_succ, Z.pow_succ_r by lia.
      assert (1 <= 2 ^ Z.of_nat (length bs))%Z by (apply Z.pow_le_mono_r with (b := 0%Z); lia).
      destruct (Z.le_ge_cases (WSClient.reconnectDelay s * 2) 30000).
      * rewrite (Z.min_l (_ * 2)) by lia. f_equal. lia.
      * rewrite (Z.min_r (_ * 2)) by lia. nia.
    + by apply delays_ok_reconnect_timeout.
    + unfold WSClient.reconnect_timeout. rewrite Hs. cbn.
      by destruct (doConnect_reconnectDelay b s) as (_ & _ & ->).
Qed.

Lemma reconnect_delay_doubles_up_to_cap_witness :
  WSClient.reconnectDelay
    (fold_left (fun s b => WSClient.reconnect_timeout b s)
       [false; true; false] WSClient.constructor)
  = Z.min (1000 * 2 ^ 3) 30000.
Proof.
  apply (reconnect_delay_doubles_up_to_cap [false; true; false]
           WSClient.constructor).
  - repeat split; cbn; try lia. constructor.
  - reflexivity.
Defined.

(** X29.  After [disconnect], and until [connect] is called again, the
    client creates no socket and sets no new timeout: a socket that closes
    and a timeout that expires change nothing but the list of pending
    timeouts, which only shrinks. *)
Theorem disconnect_stops_reconnecting (es : list WSClient.event)
  (s : WSClient.t) :
  Forall (fun e => WSClient.is_connect e = false) es ->
  let s' := WSClient.run es (WSClient.disconnect s) in
  WSClient._shouldReconnect s' = false
  /\ WSClient.sockets s' = WSClient.sockets s
  /\ WSClient.timeouts s' `sublist_of` WSClient.timeouts s.
Proof.
  intros Hes. cbv zeta.
  change (WSClient.stopped_since s (WSClient.run es (WSClient.disconnect s))).
  assert (H0 : WSClient.stopped_since s (WSClient.disconnect s)) by done.
  generalize dependent (WSClient.disconnect s). intros s1 H0. revert s1 H0.
  induction Hes as [|e es He Hes IH]; intros s1 H0; [done|].
  cbn. apply IH. by apply stopped_step.
Qed.

Lemma disconnect_stops_reconnecting_witness :
  WSClient.sockets
    (WSClient.run [WSClient.Close; WSClient.Timeout 0 false; WSClient.Open]
       (WSClient.disconnect
          (WSClient.run [WSClient.Connect false; WSClient.Close]
             WSClient.constructor)))
  = 1%nat.
Proof.
  apply (disconnect_stops_reconnecting
           [WSClient.Close; WSClient.Timeout 0 false; WSClient.Open]
           (WSClient.run [WSClient.Connect false; WSClient.Close]
              WSClient.constructor)).
  repeat constructor.
Defined.

(** X30.  For a message type that is not a property name inherited from
    [Object.prototype], [on] followed by [off] of the same callback both
    succeed.  In between, a message of that type reaches the callbacks
    registered before and then the new one; afterwards it reaches the
    earlier callbacks except every registration of the removed one.  Other
    message types are not affected. *)
Theorem on_then_off_round_trip (type : string) (cb : WSClient.callback)
  (s : WSClient.t) :
  WSClient.inherited type = false ->
  exists s1 s2,
    WSClient.on type cb s = Ok s1
    /\ WSClient.off type cb s1 = Ok s2
    /\ (forall throws, (forall c, throws c = false) ->
          WSClient.onmessage throws (Some type) s1
          = WSClient.onmessage throws (Some type) s ++ [cb]
          /\ WSClient.onmessage throws (Some type) s2
             = filter (.≠ cb) (WSClient.onmessage throws (Some type) s))
    /\ (forall throws type', type' <> type ->
          WSClient.onmessage throws (Some type') s2
          = WSClient.onmessage throws (Some type') s).
Proof.
  intros Hin. pose proof (on_registers_last type cb s) as Hon.
  destruct (WSClient.on type cb s) as [s1|] eqn:H1;
    [|destruct Hon; congruence].
  destruct Hon as (Hlast & Hother).
  assert (Hsome : is_Some (WSClient.handlers s1 !! type)).
  { revert H1. unfold WSClient.on.
    destruct (WSClient.handlers s !! type); [|rewrite Hin];
      intros [= <-]; cbn; rewrite lookup_insert_eq; eauto. }
  destruct (WSClient.off type cb s1) as [s2|] eqn:H2.
  2:{ revert H2. unfold WSClient.off. destruct Hsome as [l ->]. done. }
  exists s1, s2. split; [done|]. split; [done|]. split.
  - intros throws Hn. split; [by apply Hlast|].
    destruct (off_removes type cb s1 s2 throws H2) as (_ & _ & ->); [|done].
    rewrite Hlast by done. rewrite filter_app.
    rewrite (filter_cons_False _ cb) by (by intros ?). cbn.
    by rewrite app_nil_r.
  - intros throws type' Hne.
    destruct (off_removes type cb s1 s2 throws H2) as (_ & Ho & _).
    rewrite Ho by done. by apply Hother.
Qed.

Lemma on_then_off_round_trip_witness :
  exists s1 s2,
    WSClient.on "sim_tick" 1%nat WSClient.constructor = Ok s1
    /\ WSClient.off "sim_tick" 1%nat s1 = Ok s2
    /\ WSClient.onmessage (fun _ => false) (Some "sim_tick"%string) s1 = [1%nat]
    /\ WSClient.onmessage (fun _ => false) (Some "sim_tick"%string) s2 = [].
Proof.
  destruct (on_then_off_round_trip "sim_tick" 1%nat WSClient.constructor)
    as (s1 & s2 & H1 & H2 & H3 & _); [reflexivity|].
  exists s1, s2. split; [exact H1|]. split; [exact H2|].
  exact (H3 (fun _ => false) (fun _ => eq_refl)).
Defined.
